(** * City navigation: graph store, indexed min-heap, Dijkstra, A*, BFS, DFS

    A shallow embedding of the C sources [graph.c], [graph.h], [algorithms.c]
    and [algorithms.h].  C [int] values are integers in [Z]; the arithmetic
    that can leave the 32-bit range is wrapped explicitly with [wrap].
    Arrays are lists read and written through [aget] and [aset], which
    report an access outside the allocated block as [OutOfBounds].  Loops
    whose termination is not structural carry a fuel counter and report
    [OutOfFuel] when it is exhausted.  The searches are embedded twice:
    as functions of the graph, and (module [Mem]) as programs whose state
    is the graph object, which are shown to read it only. *)

From stdpp Require Import base decidable option list numbers strings.
From Stdlib Require Import ZArith Lia.

Local Open Scope Z_scope.

(** ** Machine integers *)

Definition INT_MIN : Z := - 2 ^ 31.
Definition INT_MAX : Z := 2 ^ 31 - 1.

(** Two's complement wrap-around of a 32-bit signed [int]. *)
Definition wrap (z : Z) : Z := (z + 2 ^ 31) `mod` 2 ^ 32 - 2 ^ 31.

Definition in_int (z : Z) : Prop := INT_MIN ≤ z ≤ INT_MAX.

(** Constants of [graph.h]. *)
Definition MAX_CITY_NAME : Z := 50.
Definition INF : Z := 999999.

(** Size of the heap position table ([createMinHeap]). *)
Definition POS_SIZE : Z := 1000.

(** ** Outcomes of a run *)

Inductive result (A : Type) : Type :=
| Ok (a : A)
| OutOfBounds
| OutOfFuel.
Arguments Ok {A} a.
Arguments OutOfBounds {A}.
Arguments OutOfFuel {A}.

Global Instance result_ret : MRet result := fun A a => Ok a.
Global Instance result_bind : MBind result := fun A B f r =>
  match r with
  | Ok a => f a
  | OutOfBounds => OutOfBounds
  | OutOfFuel => OutOfFuel
  end.

Definition is_Ok {A} (r : result A) : Prop := ∃ a, r = Ok a.

(** ** Arrays *)

(** [a[i]] as an rvalue. *)
Definition aget {A} (l : list A) (i : Z) : result A :=
  if bool_decide (0 ≤ i) then
    match l !! Z.to_nat i with
    | Some a => Ok a
    | None => OutOfBounds
    end
  else OutOfBounds.

(** [a[i] = v]. *)
Definition aset {A} (l : list A) (i : Z) (v : A) : result (list A) :=
  if bool_decide (0 ≤ i < Z.of_nat (length l)) then Ok (<[Z.to_nat i := v]> l)
  else OutOfBounds.

(** ** Graph store ([graph.h], [graph.c]) *)

Record Edge := mkEdge {
  destCityID : Z;
  distance : Z
}.

Record City := mkCity {
  cityID : Z;
  cityName : string;
  x : Z;
  y : Z;
  adjList : list Edge
}.

(** The [cities] list holds the first [numCities] slots of the C array;
    the remaining slots up to [capacity] are never read. *)
Record Graph := mkGraph {
  cities : list City;
  capacity : Z
}.

Definition numCities (g : Graph) : Z := Z.of_nat (length (cities g)).

Definition createGraph (initialCapacity : Z) : Graph :=
  {| cities := []; capacity := initialCapacity |}.

Fixpoint findCityIndex_from (cs : list City) (i : Z) (id : Z) : Z :=
  match cs with
  | [] => -1
  | c :: cs' => if cityID c =? id then i else findCityIndex_from cs' (i + 1) id
  end.

Definition findCityIndex (g : Graph) (id : Z) : Z :=
  findCityIndex_from (cities g) 0 id.

(** [strncpy] of at most [MAX_CITY_NAME - 1] characters. *)
Definition copyName (name : string) : string :=
  String.substring 0 (Z.to_nat (MAX_CITY_NAME - 1)) name.

(** [addCity]: the returned integer is the C return value.  When the
    storage is full the capacity is doubled and the array reallocated; an
    allocation of a positive size is taken to succeed, one of size 0 or of
    a negative element count yields [NULL], and [addCity] then returns 0
    with the capacity already overwritten. *)
Definition addCity (g : Graph) (id : Z) (name : string) (cx cy : Z)
  : result (Z * Graph) :=
  if negb (findCityIndex g id =? -1) then Ok (0, g)
  else
    let new := mkCity id (copyName name) cx cy [] in
    if numCities g >=? capacity g then
      let cap := wrap (capacity g * 2) in
      if cap <=? 0 then Ok (0, {| cities := cities g; capacity := cap |})
      else if numCities g <? cap then
        Ok (1, {| cities := cities g ++ [new]; capacity := cap |})
      else OutOfBounds
    else Ok (1, {| cities := cities g ++ [new]; capacity := capacity g |}).

(** The unlinking loop of [deleteCity] over one adjacency list. *)
Fixpoint unlinkEdgesTo (id : Z) (l : list Edge) : list Edge :=
  match l with
  | [] => []
  | e :: l' =>
      if destCityID e =? id then unlinkEdgesTo id l'
      else e :: unlinkEdgesTo id l'
  end.

Definition setAdjList (c : City) (l : list Edge) : City :=
  {| cityID := cityID c; cityName := cityName c; x := x c; y := y c;
     adjList := l |}.

(** First loop of [deleteCity]: every slot but [index] is scanned. *)
Fixpoint unlinkAll (cs : list City) (i index id : Z) : list City :=
  match cs with
  | [] => []
  | c :: cs' =>
      (if i =? index then c else setAdjList c (unlinkEdgesTo id (adjList c)))
        :: unlinkAll cs' (i + 1) index id
  end.

Definition deleteCity (g : Graph) (id : Z) : Z * Graph :=
  let index := findCityIndex g id in
  if index =? -1 then (0, g)
  else
    (1, {| cities := delete (Z.to_nat index) (unlinkAll (cities g) 0 index id);
           capacity := capacity g |}).

(** The search loop of [addRoad]: overwrite the weight of the first edge to
    [toCityID], if there is one. *)
Fixpoint updateRoad (l : list Edge) (toCityID dist : Z) : option (list Edge) :=
  match l with
  | [] => None
  | e :: l' =>
      if destCityID e =? toCityID then Some (mkEdge (destCityID e) dist :: l')
      else cons e <$> updateRoad l' toCityID dist
  end.

Definition addRoad (g : Graph) (fromCityID toCityID dist : Z)
  : result (Z * Graph) :=
  let fromIndex := findCityIndex g fromCityID in
  let toIndex := findCityIndex g toCityID in
  if (fromIndex =? -1) || (toIndex =? -1) then Ok (0, g)
  else if dist <=? 0 then Ok (0, g)
  else
    c ← aget (cities g) fromIndex;
    let l := match updateRoad (adjList c) toCityID dist with
             | Some l' => l'
             | None => mkEdge toCityID dist :: adjList c
             end in
    cs ← aset (cities g) fromIndex (setAdjList c l);
    Ok (1, {| cities := cs; capacity := capacity g |}).

Fixpoint removeFirstEdge (l : list Edge) (toCityID : Z) : option (list Edge) :=
  match l with
  | [] => None
  | e :: l' =>
      if destCityID e =? toCityID then Some l'
      else cons e <$> removeFirstEdge l' toCityID
  end.

Definition removeRoad (g : Graph) (fromCityID toCityID : Z)
  : result (Z * Graph) :=
  let fromIndex := findCityIndex g fromCityID in
  if fromIndex =? -1 then Ok (0, g)
  else
    c ← aget (cities g) fromIndex;
    match removeFirstEdge (adjList c) toCityID with
    | Some l' =>
        cs ← aset (cities g) fromIndex (setAdjList c l');
        Ok (1, {| cities := cs; capacity := capacity g |})
    | None => Ok (0, g)
    end.

Definition getCityID (g : Graph) (index : Z) : Z :=
  if (index <? 0) || (index >=? numCities g) then -1
  else match cities g !! Z.to_nat index with
       | Some c => cityID c
       | None => -1
       end.

(** ** Indexed min-heap ([algorithms.h], [algorithms.c]) *)

Record HeapNode := mkNode {
  hCityID : Z;
  hDistance : Z;
  fScore : Z
}.

(** [nodes] is the whole block of [hcapacity] nodes, [pos] the whole
    position table of [POS_SIZE] entries. *)
Record MinHeap := mkHeap {
  nodes : list HeapNode;
  size : Z;
  hcapacity : Z;
  pos : list Z
}.

(** The contents of freshly allocated node storage are never read before
    they are written; they are modelled as zeroed nodes. *)
Definition createMinHeap (cap : Z) : MinHeap :=
  {| nodes := replicate (Z.to_nat cap) (mkNode 0 0 0);
     size := 0;
     hcapacity := cap;
     pos := replicate (Z.to_nat POS_SIZE) (-1) |}.

Definition swapHeapNodes (ns : list HeapNode) (a b : Z)
  : result (list HeapNode) :=
  na ← aget ns a;
  nb ← aget ns b;
  ns1 ← aset ns a nb;
  aset ns1 b na.

Fixpoint minHeapify (fuel : nat) (h : MinHeap) (idx : Z) : result MinHeap :=
  match fuel with
  | O => OutOfFuel
  | S fuel' =>
      let left := 2 * idx + 1 in
      let right := 2 * idx + 2 in
      smallest ←
        (if left <? size h then
           nl ← aget (nodes h) left;
           ns ← aget (nodes h) idx;
           Ok (if fScore nl <? fScore ns then left else idx)
         else Ok idx);
      smallest ←
        (if right <? size h then
           nr ← aget (nodes h) right;
           ns ← aget (nodes h) smallest;
           Ok (if fScore nr <? fScore ns then right else smallest)
         else Ok smallest);
      if smallest =? idx then Ok h
      else
        ns ← aget (nodes h) smallest;
        ni ← aget (nodes h) idx;
        pos1 ← aset (pos h) (hCityID ns) idx;
        pos2 ← aset pos1 (hCityID ni) smallest;
        nodes' ← swapHeapNodes (nodes h) smallest idx;
        minHeapify fuel'
          {| nodes := nodes'; size := size h; hcapacity := hcapacity h;
             pos := pos2 |} smallest
  end.

Definition isHeapEmpty (h : MinHeap) : bool := size h =? 0.

Definition extractMin (h : MinHeap) : result (HeapNode * MinHeap) :=
  if isHeapEmpty h then Ok (mkNode (-1) INF INF, h)
  else
    root ← aget (nodes h) 0;
    lastNode ← aget (nodes h) (size h - 1);
    nodes' ← aset (nodes h) 0 lastNode;
    pos1 ← aset (pos h) (hCityID root) (-1);
    pos2 ← aset pos1 (hCityID lastNode) 0;
    h' ← minHeapify (S (Z.to_nat (size h)))
           {| nodes := nodes'; size := size h - 1; hcapacity := hcapacity h;
              pos := pos2 |} 0;
    Ok (root, h').

(** The bubble-up loop shared by [decreaseKey] and [insertHeap]. *)
Fixpoint bubbleUp (fuel : nat) (h : MinHeap) (i : Z) : result MinHeap :=
  match fuel with
  | O => OutOfFuel
  | S fuel' =>
      if i >? 0 then
        ni ← aget (nodes h) i;
        np ← aget (nodes h) ((i - 1) `quot` 2);
        if fScore ni <? fScore np then
          pos1 ← aset (pos h) (hCityID ni) ((i - 1) `quot` 2);
          pos2 ← aset pos1 (hCityID np) i;
          nodes' ← swapHeapNodes (nodes h) i ((i - 1) `quot` 2);
          bubbleUp fuel'
            {| nodes := nodes'; size := size h; hcapacity := hcapacity h;
               pos := pos2 |} ((i - 1) `quot` 2)
        else Ok h
      else Ok h
  end.

Definition decreaseKey (h : MinHeap) (id newDist newFScore : Z)
  : result MinHeap :=
  i ← aget (pos h) id;
  if i =? -1 then Ok h
  else
    n ← aget (nodes h) i;
    nodes' ← aset (nodes h) i (mkNode (hCityID n) newDist newFScore);
    bubbleUp (S (Z.to_nat i))
      {| nodes := nodes'; size := size h; hcapacity := hcapacity h;
         pos := pos h |} i.

Definition insertHeap (h : MinHeap) (id dist fs : Z) : result MinHeap :=
  if size h >=? hcapacity h then Ok h
  else
    let i := size h in
    nodes' ← aset (nodes h) i (mkNode id dist fs);
    pos' ← aset (pos h) id i;
    bubbleUp (S (Z.to_nat i))
      {| nodes := nodes'; size := size h + 1; hcapacity := hcapacity h;
         pos := pos' |} i.

(** ** Path results *)

Record PathResult := mkPath {
  path : list Z;
  pathLength : Z;
  totalDistance : Z;
  pathCapacity : Z
}.

Definition createPathResult (cap : Z) : PathResult :=
  {| path := replicate (Z.to_nat cap) 0; pathLength := 0; totalDistance := 0;
     pathCapacity := cap |}.

(** When the block is full the capacity is doubled and the block
    reallocated; as in [addCity], a reallocation to a size that is not
    positive yields [NULL]: [addToPath] then returns without adding, the
    capacity overwritten and the block gone. *)
Definition addToPath (pr : PathResult) (id : Z) : result PathResult :=
  if pathLength pr >=? pathCapacity pr then
    let cap := wrap (pathCapacity pr * 2) in
    if cap <=? 0 then
      Ok {| path := []; pathLength := pathLength pr;
            totalDistance := totalDistance pr; pathCapacity := cap |}
    else
      p ← aset (path pr ++ replicate (Z.to_nat (cap - pathCapacity pr)) 0)
             (pathLength pr) id;
      Ok {| path := p; pathLength := pathLength pr + 1;
            totalDistance := totalDistance pr; pathCapacity := cap |}
  else
    p ← aset (path pr) (pathLength pr) id;
    Ok {| path := p; pathLength := pathLength pr + 1;
          totalDistance := totalDistance pr; pathCapacity := pathCapacity pr |}.

(** [n] iterations of the loop of [reversePath], starting at index [i]. *)
Fixpoint reverseLoop (n : nat) (i len : Z) (p : list Z) : result (list Z) :=
  match n with
  | O => Ok p
  | S n' =>
      a ← aget p i;
      b ← aget p (len - 1 - i);
      p1 ← aset p i b;
      p2 ← aset p1 (len - 1 - i) a;
      reverseLoop n' (i + 1) len p2
  end.

Definition reversePath (pr : PathResult) : result PathResult :=
  p ← reverseLoop (Z.to_nat (pathLength pr `quot` 2)) 0 (pathLength pr) (path pr);
  Ok {| path := p; pathLength := pathLength pr;
        totalDistance := totalDistance pr; pathCapacity := pathCapacity pr |}.

(** The identifiers of a result, source first. *)
Definition pathIDs (pr : PathResult) : list Z :=
  take (Z.to_nat (pathLength pr)) (path pr).

(** The loop that walks the [parent] links back from the destination. *)
Fixpoint tracePath (fuel : nat) (g : Graph) (parent : list Z)
  (current : Z) (pr : PathResult) : result PathResult :=
  match fuel with
  | O => OutOfFuel
  | S fuel' =>
      if current =? -1 then Ok pr
      else
        c ← aget (cities g) current;
        pr' ← addToPath pr (cityID c);
        next ← aget parent current;
        tracePath fuel' g parent next pr'
  end.

(** ** Traversals

    The text printed after "Order: " is modelled as the list of the
    strings passed to [printf]; a traversal whose start city is absent
    prints the message "Error: Start city not found!" instead and returns:
    this outcome is [None]. *)

Definition arrow : string := " → ".

(** Inner loop of [BFS] over the adjacency list of the current city. *)
Fixpoint bfsEdges (g : Graph) (edges : list Edge)
  (visited queue : list Z) (rear : Z) : result (list Z * list Z * Z) :=
  match edges with
  | [] => Ok (visited, queue, rear)
  | edge :: rest =>
      let destIndex := findCityIndex g (destCityID edge) in
      if negb (destIndex =? -1) then
        seen ← aget visited destIndex;
        if seen =? 0 then
          visited' ← aset visited destIndex 1;
          queue' ← aset queue rear destIndex;
          bfsEdges g rest visited' queue' (rear + 1)
        else bfsEdges g rest visited queue rear
      else bfsEdges g rest visited queue rear
  end.

Fixpoint bfsLoop (fuel : nat) (g : Graph) (visited queue : list Z)
  (front rear : Z) (out : list string) : result (list string) :=
  match fuel with
  | O => OutOfFuel
  | S fuel' =>
      if front <? rear then
        current ← aget queue front;
        c ← aget (cities g) current;
        '(visited', queue', rear') ←
          bfsEdges g (adjList c) visited queue rear;
        let out' := out ++ [cityName c] in
        let out'' := if front + 1 <? rear' then out' ++ [arrow] else out' in
        bfsLoop fuel' g visited' queue' (front + 1) rear' out''
      else Ok out
  end.

Definition BFS (g : Graph) (startCityID : Z) : result (option (list string)) :=
  let startIndex := findCityIndex g startCityID in
  if startIndex =? -1 then Ok None
  else
    let n := Z.to_nat (numCities g) in
    visited ← aset (replicate n 0) startIndex 1;
    queue ← aset (replicate n 0) 0 startIndex;
    out ← bfsLoop (S n) g visited queue 0 1 [];
    Ok (Some out).

(** First loop of [DFSUtil]: is there an unvisited neighbour? *)
Fixpoint hasUnvisited (g : Graph) (edges : list Edge) (visited : list Z)
  : result bool :=
  match edges with
  | [] => Ok false
  | edge :: rest =>
      let destIndex := findCityIndex g (destCityID edge) in
      if negb (destIndex =? -1) then
        seen ← aget visited destIndex;
        if seen =? 0 then Ok true else hasUnvisited g rest visited
      else hasUnvisited g rest visited
  end.

(** Second loop of [DFSUtil]; [visit] is the recursive call. *)
Fixpoint dfsEdges (visit : Z → list Z → list string → result (list Z * list string))
  (g : Graph) (edges : list Edge) (visited : list Z) (out : list string)
  : result (list Z * list string) :=
  match edges with
  | [] => Ok (visited, out)
  | edge :: rest =>
      let destIndex := findCityIndex g (destCityID edge) in
      if negb (destIndex =? -1) then
        seen ← aget visited destIndex;
        if seen =? 0 then
          '(visited', out') ← visit destIndex visited out;
          dfsEdges visit g rest visited' out'
        else dfsEdges visit g rest visited out
      else dfsEdges visit g rest visited out
  end.

Fixpoint DFSUtil (fuel : nat) (g : Graph) (cityIndex : Z)
  (visited : list Z) (out : list string) : result (list Z * list string) :=
  match fuel with
  | O => OutOfFuel
  | S fuel' =>
      visited1 ← aset visited cityIndex 1;
      c ← aget (cities g) cityIndex;
      more ← hasUnvisited g (adjList c) visited1;
      let out1 := out ++ [cityName c] in
      let out2 := if more : bool then out1 ++ [arrow] else out1 in
      dfsEdges (DFSUtil fuel' g) g (adjList c) visited1 out2
  end.

Definition DFS (g : Graph) (startCityID : Z) : result (option (list string)) :=
  let startIndex := findCityIndex g startCityID in
  if startIndex =? -1 then Ok None
  else
    let n := Z.to_nat (numCities g) in
    '(_, out) ← DFSUtil (S n) g startIndex (replicate n 0) [];
    Ok (Some out).

(** ** Dijkstra *)

(** The loop that inserts every city into the heap. *)
Fixpoint insertAll (cs : list City) (i : Z) (dist : list Z) (h : MinHeap)
  : result MinHeap :=
  match cs with
  | [] => Ok h
  | c :: cs' =>
      d ← aget dist i;
      h' ← insertHeap h (cityID c) d d;
      insertAll cs' (i + 1) dist h'
  end.

(** The relaxation loop over the adjacency list of the extracted city. *)
Fixpoint dijkstraRelax (g : Graph) (edges : list Edge) (u : Z)
  (dist parent : list Z) (h : MinHeap)
  : result (list Z * list Z * MinHeap) :=
  match edges with
  | [] => Ok (dist, parent, h)
  | edge :: rest =>
      let v := findCityIndex g (destCityID edge) in
      du ← aget dist u;
      if negb (du =? INF) then
        dv ← aget dist v;
        let nd := wrap (du + distance edge) in
        if nd <? dv then
          dist' ← aset dist v nd;
          parent' ← aset parent v u;
          h' ← decreaseKey h (destCityID edge) nd nd;
          dijkstraRelax g rest u dist' parent' h'
        else dijkstraRelax g rest u dist parent h
      else dijkstraRelax g rest u dist parent h
  end.

Fixpoint dijkstraLoop (fuel : nat) (g : Graph) (destIndex : Z)
  (dist parent : list Z) (h : MinHeap) : result (list Z * list Z) :=
  match fuel with
  | O => OutOfFuel
  | S fuel' =>
      if isHeapEmpty h then Ok (dist, parent)
      else
        '(minNode, h1) ← extractMin h;
        let u := findCityIndex g (hCityID minNode) in
        if u =? destIndex then Ok (dist, parent)
        else
          c ← aget (cities g) u;
          '(dist', parent', h2) ← dijkstraRelax g (adjList c) u dist parent h1;
          dijkstraLoop fuel' g destIndex dist' parent' h2
  end.

(** Builds the result from the final distance and parent arrays. *)
Definition buildPath (g : Graph) (dist parent : list Z) (destIndex : Z)
  : result PathResult :=
  let res := createPathResult (numCities g) in
  dd ← aget dist destIndex;
  if dd =? INF then Ok res
  else
    pr ← tracePath (S (Z.to_nat (numCities g))) g parent destIndex
           {| path := path res; pathLength := pathLength res;
              totalDistance := dd; pathCapacity := pathCapacity res |};
    reversePath pr.

(** [None] is the [NULL] returned when an endpoint is absent. *)
Definition dijkstra (g : Graph) (sourceCityID destCityID : Z)
  : result (option PathResult) :=
  let srcIndex := findCityIndex g sourceCityID in
  let destIndex := findCityIndex g destCityID in
  if (srcIndex =? -1) || (destIndex =? -1) then Ok None
  else
    let n := Z.to_nat (numCities g) in
    dist ← aset (replicate n INF) srcIndex 0;
    let parent := replicate n (-1) in
    h ← insertAll (cities g) 0 dist (createMinHeap (numCities g));
    '(dist', parent') ← dijkstraLoop (S n) g destIndex dist parent h;
    pr ← buildPath g dist' parent' destIndex;
    Ok (Some pr).

(** ** A* *)

(** [(int)sqrt(v)]: the square root of a non-negative [int] is computed
    exactly in double precision, so the conversion yields the integer
    square root; a negative argument gives a NaN, whose conversion is the
    "integer indefinite" value [INT_MIN]. *)
Definition int_sqrt (v : Z) : Z := if v <? 0 then INT_MIN else Z.sqrt v.

Definition heuristic (g : Graph) (cityIndex1 cityIndex2 : Z) : result Z :=
  c1 ← aget (cities g) cityIndex1;
  c2 ← aget (cities g) cityIndex2;
  let dx := wrap (x c1 - x c2) in
  let dy := wrap (y c1 - y c2) in
  Ok (int_sqrt (wrap (wrap (dx * dx) + wrap (dy * dy)))).

Fixpoint astarRelax (g : Graph) (edges : list Edge) (u destIndex : Z)
  (gScore fScores parent : list Z) (h : MinHeap)
  : result (list Z * list Z * list Z * MinHeap) :=
  match edges with
  | [] => Ok (gScore, fScores, parent, h)
  | edge :: rest =>
      let v := findCityIndex g (destCityID edge) in
      gu ← aget gScore u;
      let tentative := wrap (gu + distance edge) in
      gv ← aget gScore v;
      if tentative <? gv then
        parent' ← aset parent v u;
        gScore' ← aset gScore v tentative;
        hv ← heuristic g v destIndex;
        let fv := wrap (tentative + hv) in
        fScores' ← aset fScores v fv;
        p ← aget (pos h) (destCityID edge);
        h' ← (if p =? -1 then insertHeap h (destCityID edge) tentative fv
              else decreaseKey h (destCityID edge) tentative fv);
        astarRelax g rest u destIndex gScore' fScores' parent' h'
      else astarRelax g rest u destIndex gScore fScores parent h
  end.

Fixpoint astarLoop (fuel : nat) (g : Graph) (destIndex : Z)
  (gScore fScores parent : list Z) (h : MinHeap) : result (list Z * list Z) :=
  match fuel with
  | O => OutOfFuel
  | S fuel' =>
      if isHeapEmpty h then Ok (gScore, parent)
      else
        '(minNode, h1) ← extractMin h;
        let u := findCityIndex g (hCityID minNode) in
        if u =? destIndex then Ok (gScore, parent)
        else
          c ← aget (cities g) u;
          '(gScore', fScores', parent', h2) ←
            astarRelax g (adjList c) u destIndex gScore fScores parent h1;
          astarLoop fuel' g destIndex gScore' fScores' parent' h2
  end.

(** Unlike Dijkstra's loop, which removes one of the [numCities] initial
    entries per iteration, the A* loop can re-insert a city that was
    extracted before; its number of iterations is not bounded by the
    heap size, so the fuel for the main loop is a parameter. *)
Definition astar (fuel : nat) (g : Graph) (sourceCityID destCityID : Z)
  : result (option PathResult) :=
  let srcIndex := findCityIndex g sourceCityID in
  let destIndex := findCityIndex g destCityID in
  if (srcIndex =? -1) || (destIndex =? -1) then Ok None
  else
    let n := Z.to_nat (numCities g) in
    gScore ← aset (replicate n INF) srcIndex 0;
    h0 ← heuristic g srcIndex destIndex;
    fScores ← aset (replicate n INF) srcIndex h0;
    let parent := replicate n (-1) in
    src ← aget (cities g) srcIndex;
    g0 ← aget gScore srcIndex;
    f0 ← aget fScores srcIndex;
    h ← insertHeap (createMinHeap (numCities g)) (cityID src) g0 f0;
    '(gScore', parent') ← astarLoop fuel g destIndex gScore fScores parent h;
    pr ← buildPath g gScore' parent' destIndex;
    Ok (Some pr).

(** ** The entry points as programs on the graph object

    Every entry point receives a pointer to the graph.  In this second
    embedding the graph is the state of the program: each access through
    the pointer is an operation on that state, a read ([load_numCities],
    [load_city]) or a write ([store_city]); the arrays and the heap that a
    search allocates are its own and stay values.  A program ends with the
    state it has reached, also when it stops at an access outside an
    array.  The adjacency list of a city is loaded with the city and
    walked as loaded. *)
Module Mem.

Definition Prog (A : Type) : Type := Graph → Graph * result A.

Definition ret {A} (a : A) : Prog A := fun g => (g, Ok a).

Definition bind {A B} (m : Prog A) (f : A → Prog B) : Prog B :=
  fun g =>
    match m g with
    | (g', Ok a) => f a g'
    | (g', OutOfBounds) => (g', OutOfBounds)
    | (g', OutOfFuel) => (g', OutOfFuel)
    end.

(** A step on the program's own data. *)
Definition own {A} (r : result A) : Prog A := fun g => (g, r).

(** [g->numCities]. *)
Definition load_numCities : Prog Z := fun g => (g, Ok (numCities g)).

(** [g->cities[i]], read. *)
Definition load_city (i : Z) : Prog City := fun g => (g, aget (cities g) i).

(** [g->cities[i]], written. *)
Definition store_city (i : Z) (c : City) : Prog unit :=
  fun g =>
    match aset (cities g) i c with
    | Ok cs => ({| cities := cs; capacity := capacity g |}, Ok tt)
    | OutOfBounds => (g, OutOfBounds)
    | OutOfFuel => (g, OutOfFuel)
    end.

Global Instance prog_ret : MRet Prog := @ret.
Global Instance prog_bind : MBind Prog := fun A B f m => bind m f.

(** [k] iterations of the loop of [findCityIndex], from index [i]. *)
Fixpoint findCityIndex_loop (k : nat) (i id : Z) : Prog Z :=
  match k with
  | O => ret (-1)
  | S k' =>
      c ← load_city i;
      if cityID c =? id then ret i else findCityIndex_loop k' (i + 1) id
  end.

Definition findCityIndex (id : Z) : Prog Z :=
  n ← load_numCities;
  findCityIndex_loop (Z.to_nat n) 0 id.

(** [addRoad], the one entry point of the store given in this form: it
    writes the source city back. *)
Definition addRoad (fromCityID toCityID dist : Z) : Prog Z :=
  fromIndex ← findCityIndex fromCityID;
  toIndex ← findCityIndex toCityID;
  if (fromIndex =? -1) || (toIndex =? -1) then ret 0
  else if dist <=? 0 then ret 0
  else
    c ← load_city fromIndex;
    let l := match updateRoad (adjList c) toCityID dist with
             | Some l' => l'
             | None => mkEdge toCityID dist :: adjList c
             end in
    _ ← store_city fromIndex (setAdjList c l);
    ret 1.

Fixpoint bfsEdges (edges : list Edge) (visited queue : list Z) (rear : Z)
  : Prog (list Z * list Z * Z) :=
  match edges with
  | [] => ret (visited, queue, rear)
  | edge :: rest =>
      destIndex ← findCityIndex (destCityID edge);
      if negb (destIndex =? -1) then
        seen ← own (aget visited destIndex);
        if seen =? 0 then
          visited' ← own (aset visited destIndex 1);
          queue' ← own (aset queue rear destIndex);
          bfsEdges rest visited' queue' (rear + 1)
        else bfsEdges rest visited queue rear
      else bfsEdges rest visited queue rear
  end.

Fixpoint bfsLoop (fuel : nat) (visited queue : list Z) (front rear : Z)
  (out : list string) : Prog (list string) :=
  match fuel with
  | O => own OutOfFuel
  | S fuel' =>
      if front <? rear then
        current ← own (aget queue front);
        c ← load_city current;
        '(visited', queue', rear') ← bfsEdges (adjList c) visited queue rear;
        let out' := out ++ [cityName c] in
        let out'' := if front + 1 <? rear' then out' ++ [arrow] else out' in
        bfsLoop fuel' visited' queue' (front + 1) rear' out''
      else ret out
  end.

Definition BFS (startCityID : Z) : Prog (option (list string)) :=
  startIndex ← findCityIndex startCityID;
  if startIndex =? -1 then ret None
  else
    nc ← load_numCities;
    let n := Z.to_nat nc in
    visited ← own (aset (replicate n 0) startIndex 1);
    queue ← own (aset (replicate n 0) 0 startIndex);
    out ← bfsLoop (S n) visited queue 0 1 [];
    ret (Some out).

Fixpoint hasUnvisited (edges : list Edge) (visited : list Z) : Prog bool :=
  match edges with
  | [] => ret false
  | edge :: rest =>
      destIndex ← findCityIndex (destCityID edge);
      if negb (destIndex =? -1) then
        seen ← own (aget visited destIndex);
        if seen =? 0 then ret true else hasUnvisited rest visited
      else hasUnvisited rest visited
  end.

Fixpoint dfsEdges
  (visit : Z → list Z → list string → Prog (list Z * list string))
  (edges : list Edge) (visited : list Z) (out : list string)
  : Prog (list Z * list string) :=
  match edges with
  | [] => ret (visited, out)
  | edge :: rest =>
      destIndex ← findCityIndex (destCityID edge);
      if negb (destIndex =? -1) then
        seen ← own (aget visited destIndex);
        if seen =? 0 then
          '(visited', out') ← visit destIndex visited out;
          dfsEdges visit rest visited' out'
        else dfsEdges visit rest visited out
      else dfsEdges visit rest visited out
  end.

Fixpoint DFSUtil (fuel : nat) (cityIndex : Z) (visited : list Z)
  (out : list string) : Prog (list Z * list string) :=
  match fuel with
  | O => own OutOfFuel
  | S fuel' =>
      visited1 ← own (aset visited cityIndex 1);
      c ← load_city cityIndex;
      more ← hasUnvisited (adjList c) visited1;
      let out1 := out ++ [cityName c] in
      let out2 := if more : bool then out1 ++ [arrow] else out1 in
      dfsEdges (DFSUtil fuel') (adjList c) visited1 out2
  end.

Definition DFS (startCityID : Z) : Prog (option (list string)) :=
  startIndex ← findCityIndex startCityID;
  if startIndex =? -1 then ret None
  else
    nc ← load_numCities;
    let n := Z.to_nat nc in
    '(_, out) ← DFSUtil (S n) startIndex (replicate n 0) [];
    ret (Some out).

(** [k] iterations of the loop that inserts every city, from index [i]. *)
Fixpoint insertAll (k : nat) (i : Z) (dist : list Z) (h : MinHeap)
  : Prog MinHeap :=
  match k with
  | O => ret h
  | S k' =>
      c ← load_city i;
      d ← own (aget dist i);
      h' ← own (insertHeap h (cityID c) d d);
      insertAll k' (i + 1) dist h'
  end.

Fixpoint dijkstraRelax (edges : list Edge) (u : Z) (dist parent : list Z)
  (h : MinHeap) : Prog (list Z * list Z * MinHeap) :=
  match edges with
  | [] => ret (dist, parent, h)
  | edge :: rest =>
      v ← findCityIndex (destCityID edge);
      du ← own (aget dist u);
      if negb (du =? INF) then
        dv ← own (aget dist v);
        let nd := wrap (du + distance edge) in
        if nd <? dv then
          dist' ← own (aset dist v nd);
          parent' ← own (aset parent v u);
          h' ← own (decreaseKey h (destCityID edge) nd nd);
          dijkstraRelax rest u dist' parent' h'
        else dijkstraRelax rest u dist parent h
      else dijkstraRelax rest u dist parent h
  end.

Fixpoint dijkstraLoop (fuel : nat) (destIndex : Z) (dist parent : list Z)
  (h : MinHeap) : Prog (list Z * list Z) :=
  match fuel with
  | O => own OutOfFuel
  | S fuel' =>
      if isHeapEmpty h then ret (dist, parent)
      else
        '(minNode, h1) ← own (extractMin h);
        u ← findCityIndex (hCityID minNode);
        if u =? destIndex then ret (dist, parent)
        else
          c ← load_city u;
          '(dist', parent', h2) ← dijkstraRelax (adjList c) u dist parent h1;
          dijkstraLoop fuel' destIndex dist' parent' h2
  end.

Fixpoint tracePath (fuel : nat) (parent : list Z) (current : Z)
  (pr : PathResult) : Prog PathResult :=
  match fuel with
  | O => own OutOfFuel
  | S fuel' =>
      if current =? -1 then ret pr
      else
        c ← load_city current;
        pr' ← own (addToPath pr (cityID c));
        next ← own (aget parent current);
        tracePath fuel' parent next pr'
  end.

Definition buildPath (dist parent : list Z) (destIndex : Z)
  : Prog PathResult :=
  nc ← load_numCities;
  let res := createPathResult nc in
  dd ← own (aget dist destIndex);
  if dd =? INF then ret res
  else
    pr ← tracePath (S (Z.to_nat nc)) parent destIndex
           {| path := path res; pathLength := pathLength res;
              totalDistance := dd; pathCapacity := pathCapacity res |};
    own (reversePath pr).

Definition dijkstra (sourceCityID destCityID : Z)
  : Prog (option PathResult) :=
  srcIndex ← findCityIndex sourceCityID;
  destIndex ← findCityIndex destCityID;
  if (srcIndex =? -1) || (destIndex =? -1) then ret None
  else
    nc ← load_numCities;
    let n := Z.to_nat nc in
    dist ← own (aset (replicate n INF) srcIndex 0);
    let parent := replicate n (-1) in
    h ← insertAll n 0 dist (createMinHeap nc);
    '(dist', parent') ← dijkstraLoop (S n) destIndex dist parent h;
    pr ← buildPath dist' parent' destIndex;
    ret (Some pr).

Definition heuristic (cityIndex1 cityIndex2 : Z) : Prog Z :=
  c1 ← load_city cityIndex1;
  c2 ← load_city cityIndex2;
  let dx := wrap (x c1 - x c2) in
  let dy := wrap (y c1 - y c2) in
  ret (int_sqrt (wrap (wrap (dx * dx) + wrap (dy * dy)))).

Fixpoint astarRelax (edges : list Edge) (u destIndex : Z)
  (gScore fScores parent : list Z) (h : MinHeap)
  : Prog (list Z * list Z * list Z * MinHeap) :=
  match edges with
  | [] => ret (gScore, fScores, parent, h)
  | edge :: rest =>
      v ← findCityIndex (destCityID edge);
      gu ← own (aget gScore u);
      let tentative := wrap (gu + distance edge) in
      gv ← own (aget gScore v);
      if tentative <? gv then
        parent' ← own (aset parent v u);
        gScore' ← own (aset gScore v tentative);
        hv ← heuristic v destIndex;
        let fv := wrap (tentative + hv) in
        fScores' ← own (aset fScores v fv);
        p ← own (aget (pos h) (destCityID edge));
        h' ← own (if p =? -1 then insertHeap h (destCityID edge) tentative fv
                  else decreaseKey h (destCityID edge) tentative fv);
        astarRelax rest u destIndex gScore' fScores' parent' h'
      else astarRelax rest u destIndex gScore fScores parent h
  end.

Fixpoint astarLoop (fuel : nat) (destIndex : Z)
  (gScore fScores parent : list Z) (h : MinHeap) : Prog (list Z * list Z) :=
  match fuel with
  | O => own OutOfFuel
  | S fuel' =>
      if isHeapEmpty h then ret (gScore, parent)
      else
        '(minNode, h1) ← own (extractMin h);
        u ← findCityIndex (hCityID minNode);
        if u =? destIndex then ret (gScore, parent)
        else
          c ← load_city u;
          '(gScore', fScores', parent', h2) ←
            astarRelax (adjList c) u destIndex gScore fScores parent h1;
          astarLoop fuel' destIndex gScore' fScores' parent' h2
  end.

Definition astar (fuel : nat) (sourceCityID destCityID : Z)
  : Prog (option PathResult) :=
  srcIndex ← findCityIndex sourceCityID;
  destIndex ← findCityIndex destCityID;
  if (srcIndex =? -1) || (destIndex =? -1) then ret None
  else
    nc ← load_numCities;
    let n := Z.to_nat nc in
    gScore ← own (aset (replicate n INF) srcIndex 0);
    h0 ← heuristic srcIndex destIndex;
    fScores ← own (aset (replicate n INF) srcIndex h0);
    let parent := replicate n (-1) in
    src ← load_city srcIndex;
    g0 ← own (aget gScore srcIndex);
    f0 ← own (aget fScores srcIndex);
    h ← own (insertHeap (createMinHeap nc) (cityID src) g0 f0);
    '(gScore', parent') ← astarLoop fuel destIndex gScore fScores parent h;
    pr ← buildPath gScore' parent' destIndex;
    ret (Some pr).

End Mem.

(** ** The example road network *)

Definition build4 : result Graph :=
  '(_, g) ← addCity (createGraph 50) 1 "A" 0 0;
  '(_, g) ← addCity g 2 "B" 0 3;
  '(_, g) ← addCity g 3 "C" 4 0;
  '(_, g) ← addCity g 4 "D" 4 3;
  '(_, g) ← addRoad g 1 2 3;
  '(_, g) ← addRoad g 1 3 4;
  '(_, g) ← addRoad g 2 4 4;
  '(_, g) ← addRoad g 3 4 3;
  Ok g.

Definition graph4 : Graph :=
  {| cities :=
       [ mkCity 1 "A" 0 0 [mkEdge 3 4; mkEdge 2 3];
         mkCity 2 "B" 0 3 [mkEdge 4 4];
         mkCity 3 "C" 4 0 [mkEdge 4 3];
         mkCity 4 "D" 4 3 [] ];
     capacity := 50 |}.

(** Two cities joined by one road of weight [INF]. *)
Definition graphFar : Graph :=
  {| cities :=
       [ mkCity 1 "A" 0 0 [mkEdge 2 999999];
         mkCity 2 "B" 0 0 [] ];
     capacity := 50 |}.

(** Two cities without roads; the second identifier is beyond the
    position table of the heap. *)
Definition buildWide : result Graph :=
  '(_, g) ← addCity (createGraph 50) 1 "A" 0 0;
  '(_, g) ← addCity g 1000000 "B" 3 4;
  Ok g.

Definition graphWide : Graph :=
  {| cities :=
       [ mkCity 1 "A" 0 0 [];
         mkCity 1000000 "B" 3 4 [] ];
     capacity := 50 |}.

(** ** Further operations of the store ([graph.c]) *)

(** The sign of [strcmp]: names are compared character by character as
    unsigned values, and a proper prefix is smaller. *)
Definition strcmp (s1 s2 : string) : comparison := String.compare s1 s2.

Fixpoint findCityByName_from (cs : list City) (name : string) : Z :=
  match cs with
  | [] => -1
  | c :: cs' =>
      match strcmp (cityName c) name with
      | Eq => cityID c
      | _ => findCityByName_from cs' name
      end
  end.

(** [findCityByName] returns an identifier, not an index. *)
Definition findCityByName (g : Graph) (name : string) : Z :=
  findCityByName_from (cities g) name.

(** [None] is the [NULL] returned for an index outside the graph. *)
Definition getCityName (g : Graph) (index : Z) : option string :=
  if (index <? 0) || (index >=? numCities g) then None
  else cityName <$> cities g !! Z.to_nat index.

(** The inner loop of [sortCitiesByName]: [k] iterations from index [j],
    each comparing two neighbours and exchanging them when the first name
    is greater. *)
Fixpoint sortInner (k : nat) (j : Z) (cs : list City) : result (list City) :=
  match k with
  | O => Ok cs
  | S k' =>
      a ← aget cs j;
      b ← aget cs (j + 1);
      cs' ← match strcmp (cityName a) (cityName b) with
            | Gt => cs1 ← aset cs j b; aset cs1 (j + 1) a
            | _ => Ok cs
            end;
      sortInner k' (j + 1) cs'
  end.

(** The outer loop: [k] passes from pass number [i] over [n] cities. *)
Fixpoint sortOuter (k : nat) (i n : Z) (cs : list City) : result (list City) :=
  match k with
  | O => Ok cs
  | S k' =>
      cs' ← sortInner (Z.to_nat (n - i - 1)) 0 cs;
      sortOuter k' (i + 1) n cs'
  end.

Definition sortCitiesByName (g : Graph) : result Graph :=
  if numCities g <=? 1 then Ok g
  else
    cs ← sortOuter (Z.to_nat (numCities g - 1)) 0 (numCities g) (cities g);
    Ok {| cities := cs; capacity := capacity g |}.

(** ** Display of a path ([algorithms.c]) *)

(** The loop of [displayPath]: the strings printed after "Path: ". *)
Fixpoint displayLoop (k : nat) (i : Z) (g : Graph) (pr : PathResult)
  (out : list string) : result (list string) :=
  match k with
  | O => Ok out
  | S k' =>
      id ← aget (path pr) i;
      let index := findCityIndex g id in
      out' ← (if negb (index =? -1) then
                c ← aget (cities g) index;
                let o := out ++ [cityName c] in
                Ok (if i <? pathLength pr - 1 then o ++ [arrow] else o)
              else Ok out);
      displayLoop k' (i + 1) g pr out'
  end.

(** [None] stands for the message "No path to display.", printed for a
    [NULL] or empty result. *)
Definition displayPath (g : Graph) (r : option PathResult)
  : result (option (list string)) :=
  match r with
  | None => Ok None
  | Some pr =>
      if pathLength pr =? 0 then Ok None
      else
        out ← displayLoop (Z.to_nat (pathLength pr)) 0 g pr [];
        Ok (Some out)
  end.

(** * Specification vocabulary *)

(** ** Graphs *)

Definition cityIDs (g : Graph) : list Z := cityID <$> cities g.

(** The weights of the roads to [b] in one adjacency list. *)
Definition weightsTo (b : Z) (l : list Edge) : list Z :=
  e ← l; if decide (destCityID e = b) then [distance e] else [].

(** The weights of all roads from the city [a] to the city [b]. *)
Definition roads (g : Graph) (a b : Z) : list Z :=
  c ← cities g;
  if decide (cityID c = a) then weightsTo b (adjList c) else [].

(** The invariants of the data model: identifiers are unique, every road
    leads to a city of the graph, weights are strictly positive, and no
    city has two roads to the same target. *)
Definition city_wf (g : Graph) (c : City) : Prop :=
  Forall (fun e => destCityID e ∈ cityIDs g ∧ 0 < distance e) (adjList c) ∧
  NoDup (destCityID <$> adjList c).

Definition graph_wf (g : Graph) : Prop :=
  NoDup (cityIDs g) ∧ Forall (city_wf g) (cities g).

Global Instance graph_wf_dec g : Decision (graph_wf g).
Proof. unfold graph_wf, city_wf. apply _. Defined.

(** The graphs that the operations of the store produce from an empty
    graph. *)
Inductive store_state : Graph → Prop :=
| store_create cap : store_state (createGraph cap)
| store_addCity g id name cx cy r g' :
    store_state g → addCity g id name cx cy = Ok (r, g') → store_state g'
| store_deleteCity g id r g' :
    store_state g → deleteCity g id = (r, g') → store_state g'
| store_addRoad g a b w r g' :
    store_state g → addRoad g a b w = Ok (r, g') → store_state g'
| store_removeRoad g a b r g' :
    store_state g → removeRoad g a b = Ok (r, g') → store_state g'
| store_sort g g' :
    store_state g → sortCitiesByName g = Ok g' → store_state g'.

(** What [deleteCity] leaves of a city that is not the deleted one. *)
Definition withoutRoadsTo (id : Z) (c : City) : City :=
  setAdjList c (unlinkEdgesTo id (adjList c)).

(** The adjacency list that [addRoad] leaves in the source city. *)
Definition roadAdded (l : list Edge) (b w : Z) : list Edge :=
  match updateRoad l b w with
  | Some l' => l'
  | None => mkEdge b w :: l
  end.

(** ** Heaps *)

(** Slot [i] of the heap holds the node [n]. *)
Definition node_at (h : MinHeap) (i : Z) (n : HeapNode) : Prop :=
  i < size h ∧ aget (nodes h) i = Ok n.

Definition in_heap (h : MinHeap) (n : HeapNode) : Prop := ∃ i, node_at h i n.

(** The city [c] is resident in the heap. *)
Definition resident (h : MinHeap) (c : Z) : Prop :=
  ∃ n, in_heap h n ∧ hCityID n = c.

Definition heap_shape (h : MinHeap) : Prop :=
  Z.of_nat (length (nodes h)) = hcapacity h ∧
  0 ≤ size h ≤ hcapacity h ∧
  Z.of_nat (length (pos h)) = POS_SIZE.

(** Every node of the block, resident or not, names a table entry. *)
Definition ids_in_table (h : MinHeap) : Prop :=
  ∀ i n, aget (nodes h) i = Ok n → 0 ≤ hCityID n < POS_SIZE.

(** What the position table is guaranteed to hold in every state that the
    operations can produce: the sentinel, slot 0, or the slot where the
    city is. *)
Definition pos_weak (h : MinHeap) : Prop :=
  ∀ c p, aget (pos h) c = Ok p →
    p = -1 ∨ (p = 0 ∧ 0 < hcapacity h) ∨
    (0 < p ∧ ∃ n, node_at h p n ∧ hCityID n = c).

Definition heap_safe (h : MinHeap) : Prop :=
  heap_shape h ∧ ids_in_table h ∧ pos_weak h.

(** The three parts of the heap invariant of the specification. *)
Definition fs (h : MinHeap) (i : Z) : Z :=
  match aget (nodes h) i with
  | Ok n => fScore n
  | _ => 0
  end.

Definition heap_ordered (h : MinHeap) : Prop :=
  ∀ i, 0 < i < size h → fs h ((i - 1) `quot` 2) ≤ fs h i.

(** The order may be violated only between slot [i] and its parent. *)
Definition ordered_but_at (h : MinHeap) (i : Z) : Prop :=
  (∀ j, 0 < j < size h → j ≠ i → fs h ((j - 1) `quot` 2) ≤ fs h j) ∧
  (0 < i → ∀ j, 0 < j < size h → (j - 1) `quot` 2 = i →
     fs h ((i - 1) `quot` 2) ≤ fs h j).

(** The order may be violated only between slot [i] and its children. *)
Definition ordered_but_below (h : MinHeap) (i : Z) : Prop :=
  (∀ j, 0 < j < size h → (j - 1) `quot` 2 ≠ i →
     fs h ((j - 1) `quot` 2) ≤ fs h j) ∧
  (0 < i → ∀ j, 0 < j < size h → (j - 1) `quot` 2 = i →
     fs h ((i - 1) `quot` 2) ≤ fs h j).

Definition pos_consistent (h : MinHeap) : Prop :=
  ∀ i n, node_at h i n → aget (pos h) (hCityID n) = Ok i.

Definition pos_sentinel (h : MinHeap) : Prop :=
  ∀ c, 0 ≤ c < POS_SIZE → ¬ resident h c → aget (pos h) c = Ok (-1).

Definition heap_inv (h : MinHeap) : Prop :=
  heap_safe h ∧ pos_consistent h ∧ heap_ordered h.

(** The three statements of a swap inside [minHeapify] and the bubble-up
    loops: two table updates and the exchange of the nodes. *)
Definition swapStep (h : MinHeap) (a b : Z) : result MinHeap :=
  na ← aget (nodes h) a;
  nb ← aget (nodes h) b;
  pos1 ← aset (pos h) (hCityID na) b;
  pos2 ← aset pos1 (hCityID nb) a;
  nodes' ← swapHeapNodes (nodes h) a b;
  Ok {| nodes := nodes'; size := size h; hcapacity := hcapacity h;
        pos := pos2 |}.

(** ** Roads, routes and distances *)

(** There is a road of weight [w] from the city [a] to the city [b]. *)
Definition road (g : Graph) (a b w : Z) : Prop :=
  ∃ c, c ∈ cities g ∧ cityID c = a ∧ mkEdge b w ∈ adjList c.

(** [route g a b W]: there is a directed path from the city [a] to the
    city [b] whose weights sum to [W]. *)
Inductive route (g : Graph) (a : Z) : Z → Z → Prop :=
| route_nil : a ∈ cityIDs g → route g a a 0
| route_snoc b c w W : route g a b W → road g b c w → route g a c (W + w).

(** [W] is the minimum weight of a directed path from [a] to [b]. *)
Definition shortest (g : Graph) (a b W : Z) : Prop :=
  route g a b W ∧ ∀ W', route g a b W' → W ≤ W'.

(** What a shortest-path query answers: the empty result when every
    directed path weighs [INF] or more, and otherwise a non-empty result
    whose total distance is the minimum weight, below [INF]. *)
Definition answer (g : Graph) (s d : Z) (pr : PathResult) : Prop :=
  (pathLength pr = 0 ∧ totalDistance pr = 0 ∧
   ∀ W, route g s d W → INF ≤ W) ∨
  (pathLength pr ≠ 0 ∧ totalDistance pr < INF ∧
   shortest g s d (totalDistance pr)).

(** Preconditions of the shortest-path code beyond the data model: every
    identifier indexes the position table, and a weight added to a finite
    tentative distance stays in the range of [int]. *)
Definition MAX_WEIGHT : Z := INT_MAX - INF.

Definition ids_in_range (g : Graph) : Prop :=
  Forall (fun c => 0 ≤ cityID c < POS_SIZE) (cities g).

Definition weights_bounded (g : Graph) : Prop :=
  Forall (fun c => Forall (fun e => distance e ≤ MAX_WEIGHT) (adjList c))
    (cities g).

Definition graph_ok (g : Graph) : Prop :=
  graph_wf g ∧ ids_in_range g ∧ weights_bounded g.

Global Instance graph_ok_dec g : Decision (graph_ok g).
Proof. unfold graph_ok, ids_in_range, weights_bounded. apply _. Defined.

(** Total reading of an array cell, and the cell of a city. *)
Definition look (l : list Z) (i : Z) : Z :=
  match aget l i with
  | Ok v => v
  | _ => 0
  end.

Definition cell (g : Graph) (l : list Z) (a : Z) : Z :=
  look l (findCityIndex g a).

(** ** Invariants of the shortest-path loops *)

(** The roads in [edges] out of the city [a] are relaxed. *)
Definition relaxed_from (g : Graph) (dist : list Z) (a : Z)
  (edges : list Edge) : Prop :=
  cell g dist a ≠ INF →
  ∀ e, e ∈ edges → cell g dist (destCityID e) ≤ cell g dist a + distance e.

Definition closed_relaxed (g : Graph) (closed : list Z) (dist : list Z)
  : Prop :=
  ∀ a c, a ∈ closed → c ∈ cities g → cityID c = a →
    relaxed_from g dist a (adjList c).

(** Every parent link leads to a strictly closer city. *)
Definition parents_ok (dist parent : list Z) : Prop :=
  ∀ v p, aget parent v = Ok p →
    p = -1 ∨ (0 ≤ p < Z.of_nat (length dist) ∧ look dist p < look dist v).

Record dijkstra_inv (g : Graph) (s : Z) (closed : list Z)
  (dist parent : list Z) (h : MinHeap) : Prop := {
  di_dist_len : length dist = length (cities g);
  di_parent_len : length parent = length (cities g);
  di_src : cell g dist s = 0;
  di_range : ∀ a, a ∈ cityIDs g → 0 ≤ cell g dist a ≤ INF;
  di_sound : ∀ a, a ∈ cityIDs g → cell g dist a ≠ INF →
             route g s a (cell g dist a);
  di_final : ∀ a W, a ∈ closed → route g s a W → W < INF →
             cell g dist a ≤ W;
  di_closed : ∀ a, a ∈ closed → a ∈ cityIDs g;
  di_heap : heap_inv h;
  di_keys : ∀ n, in_heap h n ↔
            ∃ a, a ∈ cityIDs g ∧ (a ∉ closed) ∧
                 n = mkNode a (cell g dist a) (cell g dist a);
  di_parents : parents_ok dist parent
}.

(** What the main loops establish about the destination [d]. *)
Record search_done (g : Graph) (s d : Z) (dist parent : list Z) : Prop := {
  sd_dist_len : length dist = length (cities g);
  sd_parent_len : length parent = length (cities g);
  sd_range : 0 ≤ cell g dist d ≤ INF;
  sd_sound : cell g dist d ≠ INF → route g s d (cell g dist d);
  sd_least : ∀ W, route g s d W → W < INF → cell g dist d ≤ W;
  sd_parents : parents_ok dist parent
}.

(** The number of cells of [dist] below the cell [v]: it decreases along
    parent links. *)
Definition rank (dist : list Z) (v : Z) : nat :=
  length (filter (fun x => x < look dist v) dist).

Definition path_ok (n : Z) (pr : PathResult) : Prop :=
  Z.of_nat (length (path pr)) = n ∧ pathCapacity pr = n ∧
  0 ≤ pathLength pr ≤ n.

(** ** A* *)

Definition zsum (l : list Z) : Z := foldr Z.add 0 l.

(** Fuel that suffices for the A* loop on every admitted graph: each
    iteration removes a node, and each insertion lowers a tentative
    distance. *)
Definition astar_fuel (g : Graph) : nat :=
  Z.to_nat (2 * numCities g * INF + 2).

(** What holds of the A* state whatever the heuristic. *)
Record astar_safe (g : Graph) (s : Z) (gScore fScores parent : list Z)
  (h : MinHeap) : Prop := {
  as_g_len : length gScore = length (cities g);
  as_f_len : length fScores = length (cities g);
  as_p_len : length parent = length (cities g);
  as_range : Forall (fun v => 0 ≤ v ≤ INF) gScore;
  as_sound : ∀ a, a ∈ cityIDs g → cell g gScore a ≠ INF →
             route g s a (cell g gScore a);
  as_heap : heap_safe h;
  as_res : ∀ c, resident h c → c ∈ cityIDs g ∧ cell g gScore c ≠ INF;
  as_parents : parents_ok gScore parent
}.

(** The heuristic value of the city [a] for the destination [d], without
    machine arithmetic. *)
Definition hcost (g : Graph) (d a : Z) : Z :=
  match aget (cities g) (findCityIndex g a),
        aget (cities g) (findCityIndex g d) with
  | Ok c1, Ok c2 => Z.sqrt ((x c1 - x c2) ^ 2 + (y c1 - y c2) ^ 2)
  | _, _ => 0
  end.

(** Coordinates for which the products in [heuristic] stay in the range
    of [int]. *)
Definition COORD_MAX : Z := 16383.

Definition coords_bounded (g : Graph) : Prop :=
  Forall (fun c => - COORD_MAX ≤ x c ≤ COORD_MAX ∧
                   - COORD_MAX ≤ y c ≤ COORD_MAX) (cities g).

(** Every weight is at least the straight-line distance between the
    endpoints of its road: [w ≥ sqrt (dx² + dy²)], stated on squares. *)
Definition admissible (g : Graph) : Prop :=
  Forall (fun c =>
    Forall (fun e =>
      Forall (fun c' =>
        cityID c' = destCityID e →
        (x c - x c') ^ 2 + (y c - y c') ^ 2 ≤ distance e ^ 2)
        (cities g))
      (adjList c))
    (cities g).

Global Instance coords_bounded_dec g : Decision (coords_bounded g).
Proof. unfold coords_bounded. apply _. Defined.

Global Instance admissible_dec g : Decision (admissible g).
Proof. unfold admissible. apply _. Defined.

Record astar_inv (g : Graph) (s d : Z) (closed : list Z)
  (gScore fScores parent : list Z) (h : MinHeap) : Prop := {
  ai_g_len : length gScore = length (cities g);
  ai_f_len : length fScores = length (cities g);
  ai_p_len : length parent = length (cities g);
  ai_src : cell g gScore s = 0;
  ai_range : ∀ a, a ∈ cityIDs g → 0 ≤ cell g gScore a ≤ INF;
  ai_sound : ∀ a, a ∈ cityIDs g → cell g gScore a ≠ INF →
             route g s a (cell g gScore a);
  ai_final : ∀ a W, a ∈ closed → route g s a W → W < INF →
             cell g gScore a ≤ W;
  ai_closed : ∀ a, a ∈ closed → a ∈ cityIDs g;
  ai_nodup : NoDup closed;
  ai_heap : heap_inv h;
  ai_cap : hcapacity h = numCities g;
  ai_keys : ∀ m, in_heap h m ↔
            ∃ a, a ∈ cityIDs g ∧ (a ∉ closed) ∧ cell g gScore a ≠ INF ∧
                 m = mkNode a (cell g gScore a)
                       (cell g gScore a + hcost g d a);
  ai_fresh : ∀ a, a ∈ cityIDs g → a ∉ closed → cell g gScore a = INF →
             aget (pos h) a = Ok (-1);
  ai_parents : parents_ok gScore parent
}.

(** ** Traversals *)

(** The number of cities not yet visited. *)
Definition zeros (visited : list Z) : nat :=
  length (filter (fun v => v = 0) visited).

(** Invariant of the BFS queue: the slots below [rear] hold distinct
    visited city indices. *)
Definition bfs_inv (g : Graph) (visited queue : list Z) (front rear : Z)
  : Prop :=
  length visited = length (cities g) ∧ length queue = length (cities g) ∧
  0 ≤ front ≤ rear ∧ rear ≤ numCities g ∧
  NoDup (take (Z.to_nat rear) queue) ∧
  ∀ i, i ∈ take (Z.to_nat rear) queue →
       0 ≤ i < numCities g ∧ look visited i ≠ 0.

(** ** Order of the city names *)

(** [strcmp] of the two names is not positive. *)
Definition name_le (a b : City) : Prop :=
  strcmp (cityName a) (cityName b) ≠ Gt.

Fixpoint sorted_by_name (cs : list City) : Prop :=
  match cs with
  | [] => True
  | c :: cs' => Forall (name_le c) cs' ∧ sorted_by_name cs'
  end.

(** What [k] iterations of the inner loop of [sortCitiesByName] do to the
    list they start on. *)
Fixpoint bubble (k : nat) (cs : list City) : list City :=
  match k, cs with
  | S k', a :: b :: l =>
      match strcmp (cityName a) (cityName b) with
      | Gt => b :: bubble k' (a :: l)
      | _ => a :: bubble k' (b :: l)
      end
  | _, _ => cs
  end.

(** ** Emptying a heap *)

(** [k] successive calls of [extractMin]. *)
Fixpoint extractAll (k : nat) (h : MinHeap)
  : result (list HeapNode * MinHeap) :=
  match k with
  | O => Ok ([], h)
  | S k' =>
      '(n, h1) ← extractMin h;
      '(l, h2) ← extractAll k' h1;
      Ok (n :: l, h2)
  end.

Fixpoint sorted_by_score (l : list HeapNode) : Prop :=
  match l with
  | [] => True
  | n :: l' => Forall (fun m => fScore n ≤ fScore m) l' ∧ sorted_by_score l'
  end.

(** ** The path of a result *)

(** [walk g l W]: the identifiers [l] are cities joined, each to the next,
    by roads whose weights sum to [W]. *)
Inductive walk (g : Graph) : list Z → Z → Prop :=
| walk_one a : a ∈ cityIDs g → walk g [a] 0
| walk_snoc l a b w W :
    walk g (l ++ [a]) W → road g a b w → walk g (l ++ [a; b]) (W + w).

(** Every parent link follows a road, along which the tentative distance
    grows at least by the weight; a city without parent is the source or
    has no tentative distance yet. *)
Definition links (g : Graph) (s : Z) (dist parent : list Z) : Prop :=
  ∀ v p, aget parent v = Ok p →
    (p = -1 ∧ (look dist v = INF ∨ v = findCityIndex g s)) ∨
    (∃ cp cv w, aget (cities g) p = Ok cp ∧ aget (cities g) v = Ok cv ∧
       mkEdge (cityID cv) w ∈ adjList cp ∧ 0 < w ∧
       look dist p + w ≤ look dist v).

Definition trail (g : Graph) (s : Z) (dist parent : list Z) : Prop :=
  length dist = length (cities g) ∧ length parent = length (cities g) ∧
  Forall (fun v => 0 ≤ v ≤ INF) dist ∧ links g s dist parent.

(** The block of a result has [pathCapacity] entries, of which the first
    [pathLength] are used. *)
Definition path_block (pr : PathResult) : Prop :=
  Z.of_nat (length (path pr)) = pathCapacity pr ∧
  0 ≤ pathLength pr ≤ pathCapacity pr.

(** ** Printed paths and orders *)

(** The strings of a printed sequence of names: an arrow between each name
    and the next. *)
Fixpoint arrows (l : list string) : list string :=
  match l with
  | [] => []
  | n :: l' =>
      match l' with
      | [] => [n]
      | _ => n :: arrow :: arrows l'
      end
  end.

(** The name of the city with the identifier [id]. *)
Definition nameOf (g : Graph) (id : Z) : string :=
  match aget (cities g) (findCityIndex g id) with
  | Ok c => cityName c
  | _ => String.EmptyString
  end.

(** Every name followed by an arrow: what a traversal has printed while
    more cities are waiting. *)
Fixpoint arrows_open (l : list string) : list string :=
  match l with
  | [] => []
  | n :: l' => n :: arrow :: arrows_open l'
  end.

(** ** What the BFS queue holds *)

(** The cities at the indices [idxs]. *)
Definition cities_at (g : Graph) (idxs : list Z) (cs : list City) : Prop :=
  Forall2 (fun i c => aget (cities g) i = Ok c) idxs cs.

(** The slots below [rear] of the queue hold, without repetition, exactly
    the visited indices; the first one is the start, and each of them is
    the index of a city that a directed path from [s] leads to. *)
Definition bfs_sound (g : Graph) (s : Z) (visited queue : list Z) (rear : Z)
  : Prop :=
  NoDup (take (Z.to_nat rear) queue) ∧
  (∀ i, look visited i ≠ 0 ↔ i ∈ take (Z.to_nat rear) queue) ∧
  (∀ i, i ∈ take (Z.to_nat rear) queue →
     ∃ c W, aget (cities g) i = Ok c ∧ route g s (cityID c) W) ∧
  take 1 queue = [findCityIndex g s].

(** Every city that a road leads to from one of the first [front] cities
    of the queue is visited. *)
Definition bfs_done (g : Graph) (visited queue : list Z) (front : Z) : Prop :=
  ∀ i c e, i ∈ take (Z.to_nat front) queue → aget (cities g) i = Ok c →
    e ∈ adjList c → findCityIndex g (destCityID e) ≠ -1 →
    look visited (findCityIndex g (destCityID e)) ≠ 0.

(** ** What a call of DFSUtil leaves *)

(** Whether a road of [edges] leads to a city of the graph that the marks
    [visited] leave unvisited. *)
Definition unvisited_left (g : Graph) (edges : list Edge) (visited : list Z)
  : bool :=
  existsb (fun e =>
             negb (findCityIndex g (destCityID e) =? -1) &&
             (look visited (findCityIndex g (destCityID e)) =? 0)) edges.

(** The marks after the cities at the indices [new] are visited. *)
Definition marked (visited : list Z) (new : list Z) : list Z :=
  foldl (fun v i => <[Z.to_nat i := 1]> v) visited new.

(** What is printed while the cities at the indices [new] are visited in
    this order, starting from the marks [visited]: the name of each city,
    and an arrow after it when it has an unvisited neighbour at that
    time. *)
Fixpoint dfs_out (g : Graph) (visited : list Z) (new : list Z)
  : list string :=
  match new with
  | [] => []
  | i :: rest =>
      let visited' := <[Z.to_nat i := 1]> visited in
      match aget (cities g) i with
      | Ok c =>
          cityName c ::
          (if unvisited_left g (adjList c) visited' then [arrow] else [])
      | _ => []
      end ++ dfs_out g visited' rest
  end.

(** The same in terms of the cities: [seen] are the identifiers of the
    cities visited before, and an arrow follows the name of a city that
    has a road to a city of the graph which is neither in [seen] nor the
    city itself. *)
Fixpoint dfs_line (g : Graph) (seen : list Z) (cs : list City)
  : list string :=
  match cs with
  | [] => []
  | c :: cs' =>
      let seen' := cityID c :: seen in
      cityName c ::
      (if existsb (fun e => bool_decide (destCityID e ∈ cityIDs g ∧
                                         destCityID e ∉ seen'))
            (adjList c)
       then [arrow] else []) ++ dfs_line g seen' cs'
  end.

(** [new] are the indices visited between the marks [visited] and [v'],
    in the order of their visit: they were not visited before, a directed
    path leads from the city [a] to each of them, every city that a road
    leads to from one of them is visited in [v'], and their names were
    printed. *)
Definition dfs_post (g : Graph) (a : Z) (visited : list Z)
  (out : list string) (v' : list Z) (out' : list string) (new : list Z)
  : Prop :=
  (∀ i, look v' i ≠ 0 ↔ look visited i ≠ 0 ∨ i ∈ new) ∧
  NoDup new ∧ (∀ i, i ∈ new → look visited i = 0) ∧
  (∀ i, i ∈ new →
     ∃ ci W, aget (cities g) i = Ok ci ∧ route g a (cityID ci) W) ∧
  (∀ i ci e, i ∈ new → aget (cities g) i = Ok ci → e ∈ adjList ci →
     findCityIndex g (destCityID e) ≠ -1 →
     look v' (findCityIndex g (destCityID e)) ≠ 0) ∧
  v' = marked visited new ∧ out' = out ++ dfs_out g visited new.

(** ** Programs that only read the graph *)

(** The program [m] ends in the state it started in, with the value of
    the function [r] of the graph. *)
Definition reads {A} (m : Mem.Prog A) (r : Graph → result A) : Prop :=
  ∀ g, m g = (g, r g).

(** * Arrays *)

Section arrays.
Context {A : Type}.
Implicit Types (l : list A) (i j : Z) (a v : A).

Lemma aget_Ok l i a :
  aget l i = Ok a ↔ 0 ≤ i ∧ l !! Z.to_nat i = Some a.
Proof.
  unfold aget. case_bool_decide.
  - destruct (l !! Z.to_nat i) eqn:E; split; intros; naive_solver.
  - split; [discriminate | lia].
Qed.

Lemma aget_bounds l i a : aget l i = Ok a → 0 ≤ i < Z.of_nat (length l).
Proof.
  rewrite aget_Ok. intros [? H%lookup_lt_Some]. lia.
Qed.

Lemma aget_exists l i : 0 ≤ i < Z.of_nat (length l) → ∃ a, aget l i = Ok a.
Proof.
  intros H. destruct (lookup_lt_is_Some_2 l (Z.to_nat i)) as [a Ha]; [lia|].
  exists a. apply aget_Ok. split; [lia | done].
Qed.

Lemma aget_oob l i : ¬ (0 ≤ i < Z.of_nat (length l)) → aget l i = OutOfBounds.
Proof.
  intros H. unfold aget. case_bool_decide; [|done].
  destruct (l !! Z.to_nat i) eqn:E; [|done].
  apply lookup_lt_Some in E. lia.
Qed.

Lemma aget_elem_of l i a : aget l i = Ok a → a ∈ l.
Proof. rewrite aget_Ok. intros [_ H]. by eapply list_elem_of_lookup_2. Qed.

Lemma elem_of_aget l a : a ∈ l → ∃ i, aget l i = Ok a.
Proof.
  intros [n Hn]%list_elem_of_lookup_1. exists (Z.of_nat n).
  apply aget_Ok. rewrite Nat2Z.id. split; [lia | done].
Qed.

Lemma aset_Ok l i v l' :
  aset l i v = Ok l' ↔
  0 ≤ i < Z.of_nat (length l) ∧ l' = <[Z.to_nat i := v]> l.
Proof.
  unfold aset. case_bool_decide; split; intros; naive_solver.
Qed.

Lemma aset_exists l i v :
  0 ≤ i < Z.of_nat (length l) → aset l i v = Ok (<[Z.to_nat i := v]> l).
Proof. intros. by apply aset_Ok. Qed.

Lemma aset_oob l i v : ¬ (0 ≤ i < Z.of_nat (length l)) → aset l i v = OutOfBounds.
Proof. intros. unfold aset. by case_bool_decide. Qed.

Lemma aset_length l i v l' : aset l i v = Ok l' → length l' = length l.
Proof. rewrite aset_Ok. intros [_ ->]. apply length_insert. Qed.

Lemma aget_aset_eq l i v l' : aset l i v = Ok l' → aget l' i = Ok v.
Proof.
  rewrite aset_Ok. intros [Hi ->]. apply aget_Ok. split; [lia|].
  apply list_lookup_insert_eq. lia.
Qed.

Lemma aget_aset_ne l i j v l' :
  aset l i v = Ok l' → i ≠ j → aget l' j = aget l j.
Proof.
  rewrite aset_Ok. intros [Hi ->] Hne. unfold aget.
  case_bool_decide; [|done].
  rewrite list_lookup_insert_ne; [done | lia].
Qed.

Lemma aget_aset l i j v l' :
  aset l i v = Ok l' →
  aget l' j = if decide (i = j) then Ok v else aget l j.
Proof.
  intros H. case_decide; subst.
  - by eapply aget_aset_eq.
  - by eapply aget_aset_ne.
Qed.

Lemma aget_ext l l' :
  length l = length l' → (∀ i, aget l i = aget l' i) → l = l'.
Proof.
  intros Hlen H. apply list_eq. intros n.
  specialize (H (Z.of_nat n)). unfold aget in H.
  rewrite bool_decide_eq_true_2, Nat2Z.id in H by lia.
  destruct (l !! n) eqn:E1, (l' !! n) eqn:E2; congruence.
Qed.

Lemma aget_replicate n a i :
  0 ≤ i < Z.of_nat n → aget (replicate n a) i = Ok a.
Proof.
  intros H. apply aget_Ok. split; [lia|].
  apply lookup_replicate. split; [done | lia].
Qed.
End arrays.

(** Inversion of a successful sequence of steps. *)
Lemma bind_Ok {A B} (r : result A) (f : A → result B) b :
  r ≫= f = Ok b ↔ ∃ a, r = Ok a ∧ f a = Ok b.
Proof. destruct r; simpl; split; intros; naive_solver. Qed.

Ltac inv_bind H :=
  repeat match type of H with
  | _ ≫= _ = Ok _ =>
      let a := fresh "a" in let E := fresh "E" in
      apply bind_Ok in H; destruct H as (a & E & H)
  end.

(** * The graph store *)

Lemma findCityIndex_from_range cs i id :
  findCityIndex_from cs i id = -1 ∨
  i ≤ findCityIndex_from cs i id < i + Z.of_nat (length cs).
Proof.
  revert i. induction cs as [|c cs IH]; intros i; simpl; [by left|].
  destruct (cityID c =? id); [right; lia|].
  destruct (IH (i + 1)) as [->|?]; [by left | right; lia].
Qed.

Lemma findCityIndex_from_none cs i id :
  0 ≤ i → findCityIndex_from cs i id = -1 ↔ id ∉ cityID <$> cs.
Proof.
  revert i. induction cs as [|c cs IH]; intros i Hi; simpl.
  - split; [intros _; apply not_elem_of_nil | done].
  - rewrite not_elem_of_cons. destruct (Z.eqb_spec (cityID c) id) as [->|Hne].
    + split; [lia | naive_solver].
    + rewrite IH by lia. naive_solver.
Qed.

Lemma findCityIndex_from_lookup cs i id k :
  findCityIndex_from cs i id = k → k ≠ -1 → 0 ≤ i →
  ∃ c, cs !! Z.to_nat (k - i) = Some c ∧ cityID c = id ∧ i ≤ k.
Proof.
  revert i. induction cs as [|c cs IH]; intros i Hk Hne Hi; simpl in *; [lia|].
  destruct (Z.eqb_spec (cityID c) id) as [Heq|Hneq].
  - subst k. exists c. replace (i - i) with 0 by lia. naive_solver lia.
  - destruct (IH (i + 1)) as (c' & Hc' & Hid & Hle); [done..|lia|].
    exists c'. replace (Z.to_nat (k - i)) with (S (Z.to_nat (k - (i + 1)))) by lia.
    naive_solver lia.
Qed.

Lemma findCityIndex_from_nodup cs i n c :
  NoDup (cityID <$> cs) → cs !! n = Some c →
  findCityIndex_from cs i (cityID c) = i + Z.of_nat n.
Proof.
  revert i n. induction cs as [|c0 cs IH]; intros i n Hnd Hn; [done|].
  rewrite fmap_cons in Hnd. apply NoDup_cons in Hnd as [Hnotin Hnd].
  destruct n as [|n]; simpl in *.
  - injection Hn as ->. rewrite Z.eqb_refl. lia.
  - destruct (Z.eqb_spec (cityID c0) (cityID c)) as [Heq|Hneq].
    + exfalso. apply Hnotin. rewrite Heq. apply list_elem_of_fmap_2.
      by eapply list_elem_of_lookup_2.
    + rewrite (IH (i + 1) n) by done. lia.
Qed.

Lemma findCityIndex_none g id : findCityIndex g id = -1 ↔ id ∉ cityIDs g.
Proof. unfold findCityIndex, cityIDs. apply findCityIndex_from_none. lia. Qed.

Lemma findCityIndex_range g id :
  findCityIndex g id = -1 ∨ 0 ≤ findCityIndex g id < numCities g.
Proof. apply (findCityIndex_from_range (cities g) 0 id). Qed.

Lemma findCityIndex_aget g id k :
  findCityIndex g id = k → k ≠ -1 →
  ∃ c, aget (cities g) k = Ok c ∧ cityID c = id.
Proof.
  intros Hk Hne.
  destruct (findCityIndex_from_lookup (cities g) 0 id k) as (c & Hc & ? & ?);
    [done..|].
  exists c. rewrite aget_Ok. replace (k - 0) with k in Hc by lia. done.
Qed.

Lemma findCityIndex_some g id :
  id ∈ cityIDs g →
  ∃ c, aget (cities g) (findCityIndex g id) = Ok c ∧ cityID c = id.
Proof.
  intros Hin. apply findCityIndex_aget; [done|].
  by intros H%findCityIndex_none.
Qed.

Lemma findCityIndex_of_aget g k c :
  NoDup (cityIDs g) → aget (cities g) k = Ok c →
  findCityIndex g (cityID c) = k.
Proof.
  intros Hnd [Hk Hc]%aget_Ok. unfold findCityIndex.
  rewrite (findCityIndex_from_nodup _ 0 (Z.to_nat k) c) by done. lia.
Qed.

Lemma wrap_id z : in_int z → wrap z = z.
Proof.
  unfold in_int, INT_MIN, INT_MAX, wrap. intros H.
  rewrite Z.mod_small; lia.
Qed.

Lemma wrap_in_int z : in_int (wrap z).
Proof.
  unfold in_int, INT_MIN, INT_MAX, wrap.
  pose proof (Z.mod_pos_bound (z + 2 ^ 31) (2 ^ 32)). lia.
Qed.

Lemma findCityIndex_from_ids cs cs' i id :
  cityID <$> cs = cityID <$> cs' →
  findCityIndex_from cs i id = findCityIndex_from cs' i id.
Proof.
  revert cs' i. induction cs as [|c cs IH]; intros [|c' cs'] i Heq;
    try done; simpl in *.
  injection Heq as -> Heq. rewrite (IH cs' (i + 1) Heq). done.
Qed.

Lemma findCityIndex_from_snoc cs c i :
  cityID c ∉ cityID <$> cs →
  findCityIndex_from (cs ++ [c]) i (cityID c) = i + Z.of_nat (length cs).
Proof.
  revert i. induction cs as [|c0 cs IH]; intros i Hnotin; simpl.
  - rewrite Z.eqb_refl. lia.
  - rewrite fmap_cons, not_elem_of_cons in Hnotin. destruct Hnotin as [Hne Hnotin].
    destruct (Z.eqb_spec (cityID c0) (cityID c)); [congruence|].
    rewrite IH by done. lia.
Qed.

(** ** [addCity] *)

Lemma addCity_present g id name cx cy :
  id ∈ cityIDs g → addCity g id name cx cy = Ok (0, g).
Proof.
  intros Hin. unfold addCity.
  destruct (Z.eqb_spec (findCityIndex g id) (-1)) as [E|E]; [|done].
  by apply findCityIndex_none in E.
Qed.

Lemma addCity_absent g id name cx cy :
  id ∉ cityIDs g →
  addCity g id name cx cy =
    let new := mkCity id (copyName name) cx cy [] in
    if numCities g >=? capacity g then
      let cap := wrap (capacity g * 2) in
      if cap <=? 0 then Ok (0, {| cities := cities g; capacity := cap |})
      else if numCities g <? cap then
        Ok (1, {| cities := cities g ++ [new]; capacity := cap |})
      else OutOfBounds
    else Ok (1, {| cities := cities g ++ [new]; capacity := capacity g |}).
Proof.
  intros Hnotin. unfold addCity.
  destruct (Z.eqb_spec (findCityIndex g id) (-1)) as [_|E]; [done|].
  exfalso. apply E. by apply findCityIndex_none.
Qed.

Lemma addCity_appended g c cap :
  cityID c ∉ cityIDs g →
  numCities {| cities := cities g ++ [c]; capacity := cap |} = numCities g + 1 ∧
  findCityIndex {| cities := cities g ++ [c]; capacity := cap |} (cityID c)
    = numCities g.
Proof.
  intros Hnotin. split.
  - unfold numCities. cbn [cities]. rewrite length_app. simpl. lia.
  - by apply (findCityIndex_from_snoc (cities g) c 0).
Qed.

Lemma addCity_inv g id name cx cy r g' :
  addCity g id name cx cy = Ok (r, g') →
  (r = 0 ∧ cities g' = cities g) ∨
  (r = 1 ∧ (id ∉ cityIDs g) ∧
   cities g' = cities g ++ [mkCity id (copyName name) cx cy []]).
Proof.
  destruct (decide (id ∈ cityIDs g)) as [Hin|Hnotin].
  { rewrite addCity_present by done. intros [= <- <-]. by left. }
  rewrite addCity_absent by done. cbv zeta.
  destruct (numCities g >=? capacity g).
  - destruct (wrap (capacity g * 2) <=? 0).
    { intros [= <- <-]. by left. }
    destruct (numCities g <? _); [|done]. intros [= <- <-]. by right.
  - intros [= <- <-]. by right.
Qed.

(** C8, as amended.  [addCity] returns 0 and leaves the graph as it is
    when the identifier is already present.  Whenever it succeeds it
    returns the success flag 1 (not a slot index), the identifier was
    absent, the new city occupies the slot [numCities] at the end of the
    sequence with an empty adjacency list, and the capacity was doubled
    (in [int] arithmetic) exactly when the storage was full.  It succeeds
    for an absent identifier when the storage has room, or is full with a
    positive capacity whose double fits in [int].  When the storage is
    full and its capacity is 0 or its double does not fit in [int], no
    storage is obtained: it returns 0 and adds nothing, and a graph of
    capacity 0 is left as it is. *)
Theorem addCity_spec g id name cx cy :
  (id ∈ cityIDs g → addCity g id name cx cy = Ok (0, g)) ∧
  (∀ r g', addCity g id name cx cy = Ok (r, g') → r ≠ 0 →
     r = 1 ∧ (id ∉ cityIDs g) ∧
     cities g' = cities g ++ [mkCity id (copyName name) cx cy []] ∧
     capacity g' =
       (if decide (numCities g < capacity g) then capacity g
        else wrap (capacity g * 2)) ∧
     numCities g' = numCities g + 1 ∧
     findCityIndex g' id = numCities g) ∧
  (id ∉ cityIDs g →
   (numCities g < capacity g ∨
    numCities g = capacity g ∧ 0 < capacity g ∧ 2 * capacity g ≤ INT_MAX →
    ∃ g', addCity g id name cx cy = Ok (1, g') ∧
      capacity g' =
        (if decide (numCities g = capacity g) then 2 * capacity g
         else capacity g)) ∧
   (numCities g = capacity g →
    capacity g = 0 ∨ INT_MAX < 2 * capacity g ≤ 2 * INT_MAX →
    ∃ g', addCity g id name cx cy = Ok (0, g') ∧
      cities g' = cities g ∧ (capacity g = 0 → g' = g))).
Proof.
  split; [apply addCity_present|].
  pose proof (addCity_appended g (mkCity id (copyName name) cx cy [])) as Happ.
  cbn [cityID] in Happ. split.
  { intros r g' Hadd Hr.
    destruct (decide (id ∈ cityIDs g)) as [Hin|Hnotin].
    { rewrite addCity_present in Hadd by done. injection Hadd as <- _. done. }
    rewrite (addCity_absent g id name cx cy Hnotin) in Hadd. cbv zeta in Hadd.
    destruct (Z.geb_spec (numCities g) (capacity g)) as [Hfull|Hroom].
    - destruct (wrap (capacity g * 2) <=? 0).
      { injection Hadd as <- _. done. }
      destruct (numCities g <? _); [|done]. injection Hadd as <- <-.
      cbn [cities capacity]. rewrite decide_False by lia.
      destruct (Happ (wrap (capacity g * 2)) Hnotin). by split_and!.
    - injection Hadd as <- <-. cbn [cities capacity].
      rewrite decide_True by lia.
      destruct (Happ (capacity g) Hnotin). by split_and!. }
  intros Hnotin.
  rewrite (addCity_absent g id name cx cy Hnotin). cbv zeta. split.
  - intros [Hroom|(Hfull & Hpos & Hmax)].
    + destruct (Z.geb_spec (numCities g) (capacity g)) as [|_]; [lia|].
      eexists. split; [done|]. cbn [capacity]. by rewrite decide_False by lia.
    + assert (wrap (capacity g * 2) = 2 * capacity g) as ->.
      { rewrite wrap_id; [lia|]. unfold in_int, INT_MIN, INT_MAX in *. lia. }
      destruct (Z.geb_spec (numCities g) (capacity g)) as [_|]; [|lia].
      destruct (Z.leb_spec (2 * capacity g) 0) as [|_]; [lia|].
      destruct (Z.ltb_spec (numCities g) (2 * capacity g)) as [_|]; [|lia].
      eexists. split; [done|]. cbn [capacity]. by rewrite decide_True.
  - intros Hfull Hcap.
    destruct (Z.geb_spec (numCities g) (capacity g)) as [_|]; [|lia].
    assert (wrap (capacity g * 2) ≤ 0 ∧
            (capacity g = 0 → wrap (capacity g * 2) = 0)) as [Hle Hzero].
    { unfold wrap, INT_MAX in *. split.
      - destruct Hcap as [->|Hbig]; [done|].
        replace ((capacity g * 2 + 2 ^ 31) `mod` 2 ^ 32) with
          (capacity g * 2 + 2 ^ 31 - 2 ^ 32); [lia|].
        apply (Z.mod_unique _ _ 1); lia.
      - by intros ->. }
    destruct (Z.leb_spec (wrap (capacity g * 2)) 0) as [_|]; [|lia].
    eexists. split; [done|]. split; [done|].
    intros H0. rewrite (Hzero H0), <- H0. by destruct g.
Qed.

Lemma addCity_spec_witness :
  addCity {| cities := [mkCity 7 "A" 0 0 []]; capacity := 1 |} 8 "B" 3 4 =
    Ok (1, {| cities := [mkCity 7 "A" 0 0 []; mkCity 8 "B" 3 4 []];
              capacity := 2 |}).
Proof.
  destruct (addCity_spec {| cities := [mkCity 7 "A" 0 0 []]; capacity := 1 |}
              8 "B" 3 4) as (_ & Hsucc & Hrun).
  destruct Hrun as [Hrun _].
  { apply (bool_decide_unpack _). by vm_compute. }
  destruct Hrun as (g' & E & Hcap).
  { right. vm_compute. split_and!; congruence. }
  rewrite E. destruct (Hsucc 1 g' E) as (_ & _ & Hc & _); [lia|].
  destruct g'; simpl in *. by rewrite Hc, Hcap.
Defined.

(** C8 as stated fails: the first city added to an empty graph is stored
    in slot 0, while the call returns 1. *)
Lemma addCity_return_is_not_slot :
  ¬ (∀ g id name cx cy r g',
       addCity g id name cx cy = Ok (r, g') → id ∉ cityIDs g →
       r = findCityIndex g' id).
Proof.
  intros H.
  specialize (H (createGraph 50) 7 "A" 0 0 1
                {| cities := [mkCity 7 "A" 0 0 []]; capacity := 50 |}).
  assert (1 = 0) by (apply H; [reflexivity | apply not_elem_of_nil]).
  lia.
Qed.

(** ** [deleteCity] *)

Lemma elem_of_unlinkEdgesTo id l e :
  e ∈ unlinkEdgesTo id l ↔ e ∈ l ∧ destCityID e ≠ id.
Proof.
  induction l as [|e0 l IH]; simpl.
  - split; [by intros ?%elem_of_nil | by intros [?%elem_of_nil _]].
  - destruct (Z.eqb_spec (destCityID e0) id) as [Heq|Hne].
    + rewrite IH, elem_of_cons. naive_solver.
    + rewrite !elem_of_cons, IH. naive_solver.
Qed.

Lemma unlinkAll_past cs i index id :
  index < i → unlinkAll cs i index id = withoutRoadsTo id <$> cs.
Proof.
  revert i. induction cs as [|c cs IH]; intros i Hlt; simpl; [done|].
  destruct (Z.eqb_spec i index); [lia|]. rewrite IH by lia. done.
Qed.

Lemma unlinkAll_delete cs i n id :
  delete n (unlinkAll cs i (i + Z.of_nat n) id)
  = withoutRoadsTo id <$> delete n cs.
Proof.
  revert i n. induction cs as [|c cs IH]; intros i n; simpl.
  - by destruct n.
  - destruct n as [|n]; simpl.
    + apply unlinkAll_past. lia.
    + destruct (Z.eqb_spec i (i + Z.of_nat (S n))); [lia|].
      replace (i + Z.of_nat (S n)) with (i + 1 + Z.of_nat n) by lia.
      by rewrite IH.
Qed.

Lemma filter_other_ids (cs : list City) id :
  id ∉ cityID <$> cs → filter (fun c => cityID c ≠ id) cs = cs.
Proof.
  induction cs as [|c cs IH]; [done|].
  rewrite fmap_cons, not_elem_of_cons. intros [Hne Hnotin].
  rewrite filter_cons_True by done. by rewrite IH.
Qed.

Lemma filter_delete_id (cs : list City) n c :
  NoDup (cityID <$> cs) → cs !! n = Some c →
  filter (fun c' => cityID c' ≠ cityID c) cs = delete n cs.
Proof.
  revert n. induction cs as [|c0 cs IH]; intros n Hnd Hn; [done|].
  rewrite fmap_cons in Hnd. apply NoDup_cons in Hnd as [Hnotin Hnd].
  destruct n as [|n]; simpl in *.
  - injection Hn as ->. rewrite filter_cons_False by naive_solver.
    by apply filter_other_ids.
  - rewrite filter_cons_True.
    + by rewrite (IH n).
    + intros Heq. apply Hnotin. rewrite Heq. apply list_elem_of_fmap_2.
      by eapply list_elem_of_lookup_2.
Qed.

(** C6: deleting a present city succeeds; afterwards no adjacency list
    contains a road to it, it can no longer be found, and the remaining
    cities are the previous ones in their previous order (each without its
    roads to the deleted city). *)
Theorem deleteCity_cascade g id :
  NoDup (cityIDs g) → id ∈ cityIDs g →
  ∃ g', deleteCity g id = (1, g') ∧
    (∀ c e, c ∈ cities g' → e ∈ adjList c → destCityID e ≠ id) ∧
    findCityIndex g' id = -1 ∧
    cities g' =
      withoutRoadsTo id <$> filter (fun c => cityID c ≠ id) (cities g) ∧
    cityIDs g' = filter (fun i => i ≠ id) (cityIDs g).
Proof.
  intros Hnd Hin. unfold deleteCity.
  destruct (findCityIndex_some g id Hin) as (c & Hc & Hid).
  pose proof Hc as [Hk Hlook]%aget_Ok.
  destruct (Z.eqb_spec (findCityIndex g id) (-1)) as [E|_]; [lia|].
  eexists. split; [done|]. simpl.
  set (k := findCityIndex g id) in *.
  assert (delete (Z.to_nat k) (unlinkAll (cities g) 0 k id)
          = withoutRoadsTo id <$> filter (fun c => cityID c ≠ id) (cities g))
    as Heq.
  { replace k with (0 + Z.of_nat (Z.to_nat k)) at 2 by lia.
    rewrite unlinkAll_delete. f_equal. subst id.
    symmetry. by apply filter_delete_id. }
  rewrite Heq.
  assert (cityID <$> (withoutRoadsTo id <$>
            filter (fun c => cityID c ≠ id) (cities g))
          = filter (fun i => i ≠ id) (cityIDs g)) as Hids.
  { unfold cityIDs. rewrite <- list_fmap_compose.
    clear. induction (cities g) as [|c cs IH]; [done|].
    rewrite fmap_cons. destruct (decide (cityID c = id)) as [E|E].
    - rewrite !filter_cons_False by naive_solver. done.
    - rewrite !filter_cons_True by done. rewrite fmap_cons, IH. done. }
  repeat split.
  - intros c' e [c0 [-> _]]%list_elem_of_fmap He.
    apply elem_of_unlinkEdgesTo in He. tauto.
  - apply findCityIndex_none. unfold cityIDs at 1. simpl. rewrite Hids.
    rewrite list_elem_of_filter. tauto.
  - done.
Qed.

Lemma deleteCity_cascade_witness :
  ∃ g', deleteCity graph4 4 = (1, g') ∧
    (∀ c e, c ∈ cities g' → e ∈ adjList c → destCityID e ≠ 4) ∧
    findCityIndex g' 4 = -1 ∧
    cities g' =
      withoutRoadsTo 4 <$> filter (fun c => cityID c ≠ 4) (cities graph4) ∧
    cityIDs g' = filter (fun i => i ≠ 4) (cityIDs graph4).
Proof.
  apply deleteCity_cascade.
  - apply (bool_decide_unpack _). by vm_compute.
  - apply (bool_decide_unpack _). by vm_compute.
Defined.

(** ** [addRoad] *)

Lemma weightsTo_cons b e l :
  weightsTo b (e :: l) =
    (if decide (destCityID e = b) then [distance e] else []) ++ weightsTo b l.
Proof. done. Qed.

Lemma weightsTo_absent b l : b ∉ destCityID <$> l → weightsTo b l = [].
Proof.
  induction l as [|e l IH]; [done|].
  rewrite fmap_cons, not_elem_of_cons. intros [Hne Hnotin].
  rewrite weightsTo_cons, decide_False by done. by apply IH.
Qed.

Lemma updateRoad_None l b w : updateRoad l b w = None ↔ b ∉ destCityID <$> l.
Proof.
  induction l as [|e l IH]; simpl.
  - split; [intros _; apply not_elem_of_nil | done].
  - rewrite not_elem_of_cons. destruct (Z.eqb_spec (destCityID e) b) as [Heq|Hne].
    + split; [done | naive_solver].
    + rewrite fmap_None, IH. naive_solver.
Qed.

Lemma updateRoad_Some l b w l' :
  updateRoad l b w = Some l' → NoDup (destCityID <$> l) →
  weightsTo b l' = [w] ∧ destCityID <$> l' = destCityID <$> l.
Proof.
  revert l'. induction l as [|e l IH]; intros l' Hup Hnd; simpl in *; [done|].
  apply NoDup_cons in Hnd as [Hnotin Hnd].
  destruct (Z.eqb_spec (destCityID e) b) as [Heq|Hne].
  - injection Hup as <-. rewrite weightsTo_cons. simpl.
    rewrite decide_True by done. rewrite weightsTo_absent by (by subst b). done.
  - apply fmap_Some in Hup as (l0 & Hl0 & ->).
    destruct (IH l0 Hl0 Hnd) as [Hw Hd].
    rewrite weightsTo_cons, decide_False by done. rewrite fmap_cons, Hd. done.
Qed.

Lemma roadAdded_twice l b w1 w2 :
  NoDup (destCityID <$> l) →
  weightsTo b (roadAdded (roadAdded l b w1) b w2) = [w2].
Proof.
  intros Hnd. unfold roadAdded at 2.
  destruct (updateRoad l b w1) as [l1|] eqn:E1.
  - destruct (updateRoad_Some _ _ _ _ E1 Hnd) as [_ Hd].
    unfold roadAdded. destruct (updateRoad l1 b w2) as [l2|] eqn:E2.
    + eapply updateRoad_Some; [done|]. by rewrite Hd.
    + apply updateRoad_None in E2. rewrite Hd in E2.
      apply (updateRoad_None l b w1) in E2. congruence.
  - apply updateRoad_None in E1. unfold roadAdded. simpl.
    rewrite Z.eqb_refl. rewrite weightsTo_cons. simpl.
    rewrite decide_True by done. by rewrite weightsTo_absent.
Qed.

Lemma roads_other_ids cs a b :
  a ∉ cityID <$> cs →
  (c ← cs;
   if decide (cityID c = a) then weightsTo b (adjList c) else []) = [].
Proof.
  induction cs as [|c cs IH]; [done|].
  rewrite fmap_cons, not_elem_of_cons. intros [Hne Hnotin].
  rewrite bind_cons, decide_False by done. by apply IH.
Qed.

Lemma roads_unique g k c b :
  NoDup (cityIDs g) → aget (cities g) k = Ok c →
  roads g (cityID c) b = weightsTo b (adjList c).
Proof.
  intros Hnd [Hk Hc]%aget_Ok. unfold roads, cityIDs in *.
  rewrite <- (take_drop_middle _ _ _ Hc) in Hnd |- *.
  rewrite fmap_app, fmap_cons in Hnd.
  apply NoDup_app in Hnd as (_ & Hl & Hr).
  apply NoDup_cons in Hr as [Hr _].
  rewrite bind_app, bind_cons, decide_True by done.
  rewrite (roads_other_ids (take _ _)), (roads_other_ids (drop _ _)).
  - by rewrite app_nil_r.
  - done.
  - intros Hin. apply (Hl _ Hin). left.
Qed.

Lemma addRoad_success g a b w :
  a ∈ cityIDs g → b ∈ cityIDs g → 0 < w →
  ∃ c, aget (cities g) (findCityIndex g a) = Ok c ∧ cityID c = a ∧
    addRoad g a b w =
      Ok (1, {| cities := <[Z.to_nat (findCityIndex g a) :=
                             setAdjList c (roadAdded (adjList c) b w)]>
                           (cities g);
                capacity := capacity g |}).
Proof.
  intros Ha Hb Hw.
  destruct (findCityIndex_some g a Ha) as (c & Hc & Hid).
  exists c. split; [done|]. split; [done|]. unfold addRoad.
  destruct (Z.eqb_spec (findCityIndex g a) (-1)) as [E|_].
  { by apply findCityIndex_none in E. }
  destruct (Z.eqb_spec (findCityIndex g b) (-1)) as [E|_].
  { by apply findCityIndex_none in E. }
  destruct (Z.leb_spec w 0); [lia|]. simpl. rewrite Hc. simpl.
  rewrite aset_exists by (by eapply aget_bounds). done.
Qed.

(** C7: adding the road from [a] to [b] twice leaves exactly one road
    from [a] to [b], whose weight is the second one. *)
Theorem addRoad_twice g a b w1 w2 :
  graph_wf g → a ∈ cityIDs g → b ∈ cityIDs g → 0 < w1 → 0 < w2 →
  ∃ g1 g2, addRoad g a b w1 = Ok (1, g1) ∧ addRoad g1 a b w2 = Ok (1, g2) ∧
    roads g2 a b = [w2].
Proof.
  intros [Hnd Hwf] Ha Hb Hw1 Hw2.
  destruct (addRoad_success g a b w1 Ha Hb Hw1) as (c & Hc & Hid & E1).
  set (k := findCityIndex g a) in *.
  pose proof (aget_bounds _ _ _ Hc) as Hk.
  set (c1 := setAdjList c (roadAdded (adjList c) b w1)) in *.
  set (g1 := {| cities := <[Z.to_nat k := c1]> (cities g);
                capacity := capacity g |}) in *.
  assert (cityIDs g1 = cityIDs g) as Hids1.
  { unfold cityIDs, g1. simpl. rewrite list_fmap_insert. simpl.
    apply list_insert_id. rewrite list_lookup_fmap.
    apply aget_Ok in Hc as [_ ->]. done. }
  assert (findCityIndex g1 a = k) as Hk1.
  { unfold findCityIndex. by erewrite findCityIndex_from_ids. }
  destruct (addRoad_success g1 a b w2) as (c' & Hc' & Hid' & E2);
    [by rewrite Hids1..|done|].
  rewrite Hk1 in Hc', E2.
  assert (c' = c1) as ->.
  { apply aget_Ok in Hc' as [_ Hc']. unfold g1 in Hc'. simpl in Hc'.
    rewrite list_lookup_insert_eq in Hc' by lia. congruence. }
  eexists _, _. split; [done|]. split; [done|].
  set (c2 := setAdjList c1 (roadAdded (adjList c1) b w2)).
  match goal with |- roads ?gg _ _ = _ => set (g2 := gg) end.
  assert (aget (cities g2) k = Ok c2) as Hc2.
  { apply aget_Ok. split; [lia|]. unfold g2. simpl.
    apply list_lookup_insert_eq. unfold g1. simpl.
    rewrite length_insert. lia. }
  assert (cityIDs g2 = cityIDs g) as Hids2.
  { rewrite <- Hids1. unfold cityIDs.
    change (cities g2) with (<[Z.to_nat k := c2]> (cities g1)).
    rewrite list_fmap_insert. apply list_insert_id. rewrite list_lookup_fmap.
    apply aget_Ok in Hc' as [_ ->]. done. }
  replace a with (cityID c2) by done.
  rewrite (roads_unique g2 k c2) by (by rewrite ?Hids2).
  simpl. apply roadAdded_twice.
  rewrite Forall_forall in Hwf. apply (Hwf c). by eapply aget_elem_of.
Qed.

Lemma addRoad_twice_witness :
  ∃ g1 g2, addRoad graph4 1 4 9 = Ok (1, g1) ∧ addRoad g1 1 4 5 = Ok (1, g2) ∧
    roads g2 1 4 = [5].
Proof.
  apply addRoad_twice; try lia.
  - apply (bool_decide_unpack _). by vm_compute.
  - apply (bool_decide_unpack _). by vm_compute.
  - apply (bool_decide_unpack _). by vm_compute.
Defined.

(** * [sortCitiesByName] *)

Lemma strcmp_refl s : strcmp s s = Eq.
Proof.
  unfold strcmp. pose proof (String.compare_antisym s s) as H.
  by destruct (String.compare s s).
Qed.

Lemma strcmp_Eq s1 s2 : strcmp s1 s2 = Eq ↔ s1 = s2.
Proof.
  split; [apply String.compare_eq_iff|intros ->; apply strcmp_refl].
Qed.

Lemma strcmp_Gt s1 s2 : strcmp s1 s2 = Gt → strcmp s2 s1 = Lt.
Proof.
  unfold strcmp. rewrite (String.compare_antisym s2 s1). by intros ->.
Qed.

Lemma strcmp_trans : ∀ s1 s2 s3,
  strcmp s1 s2 ≠ Gt → strcmp s2 s3 ≠ Gt → strcmp s1 s3 ≠ Gt.
Proof.
  unfold strcmp.
  induction s1 as [|c1 s1 IH]; intros [|c2 s2] [|c3 s3]; simpl; try done.
  unfold Ascii.compare.
  destruct (N.compare_spec (Ascii.N_of_ascii c1) (Ascii.N_of_ascii c2)) as [E12|L12|G12];
    destruct (N.compare_spec (Ascii.N_of_ascii c2) (Ascii.N_of_ascii c3)) as [E23|L23|G23];
    destruct (N.compare_spec (Ascii.N_of_ascii c1) (Ascii.N_of_ascii c3)) as [E13|L13|G13];
    try done; try lia.
  apply IH.
Qed.

Lemma name_le_refl c : name_le c c.
Proof. unfold name_le. by rewrite strcmp_refl. Qed.

Lemma name_le_trans a b c : name_le a b → name_le b c → name_le a c.
Proof. apply strcmp_trans. Qed.

(** ** The inner loop *)

Lemma sortInner_bubble k : ∀ pre rest,
  (k < length rest)%nat →
  sortInner k (Z.of_nat (length pre)) (pre ++ rest) = Ok (pre ++ bubble k rest).
Proof.
  induction k as [|k IH]; intros pre rest Hk; [by destruct rest|].
  destruct rest as [|a [|b l]]; [simpl in Hk; lia..|].
  cbn [sortInner bubble].
  assert (aget (pre ++ a :: b :: l) (Z.of_nat (length pre)) = Ok a) as ->.
  { apply aget_Ok. split; [lia|]. rewrite Nat2Z.id.
    by rewrite lookup_app_r, Nat.sub_diag by lia. }
  cbn [mbind result_bind].
  assert (aget (pre ++ a :: b :: l) (Z.of_nat (length pre) + 1) = Ok b) as ->.
  { apply aget_Ok. split; [lia|].
    replace (Z.to_nat (Z.of_nat (length pre) + 1)) with (S (length pre)) by lia.
    rewrite lookup_app_r by lia.
    by replace (S (length pre) - length pre)%nat with 1%nat by lia. }
  cbn [mbind result_bind].
  replace (Z.of_nat (length pre) + 1) with (Z.of_nat (length (pre ++ [a])))
    by (rewrite length_app; simpl; lia).
  destruct (strcmp (cityName a) (cityName b)).
  - cbn [mbind result_bind].
    replace (pre ++ a :: b :: l) with ((pre ++ [a]) ++ b :: l)
      by (by rewrite <- app_assoc).
    rewrite IH by (simpl in *; lia). by rewrite <- app_assoc.
  - cbn [mbind result_bind].
    replace (pre ++ a :: b :: l) with ((pre ++ [a]) ++ b :: l)
      by (by rewrite <- app_assoc).
    rewrite IH by (simpl in *; lia). by rewrite <- app_assoc.
  - rewrite aset_exists by (rewrite length_app; simpl; lia).
    cbn [mbind result_bind]. rewrite Nat2Z.id.
    rewrite insert_app_r_alt, Nat.sub_diag by lia. cbn [insert list_insert].
    rewrite aset_exists by (rewrite !length_app; simpl; lia).
    cbn [mbind result_bind]. rewrite Nat2Z.id, length_app. cbn [length].
    rewrite insert_app_r_alt by lia.
    replace (length pre + 1 - length pre)%nat with 1%nat by lia.
    cbn [insert list_insert].
    replace (Z.of_nat (length pre + 1)) with (Z.of_nat (length (pre ++ [b])))
      by (rewrite length_app; simpl; lia).
    replace (pre ++ b :: a :: l) with ((pre ++ [b]) ++ a :: l)
      by (by rewrite <- app_assoc).
    rewrite IH by (simpl in *; lia). by rewrite <- app_assoc.
Qed.

(** One pass moves a greatest name of the part it runs over to the end of
    that part. *)
Lemma bubble_spec k : ∀ a l,
  (k ≤ length l)%nat →
  ∃ p mx, bubble k (a :: l) = p ++ mx :: drop k l ∧
    p ++ [mx] ≡ₚ a :: take k l ∧
    Forall (fun c => name_le c mx) p ∧ name_le a mx.
Proof.
  induction k as [|k IH]; intros a l Hk.
  { exists [], a. split_and!; [done..|apply name_le_refl]. }
  destruct l as [|b l]; [simpl in Hk; lia|]. cbn [bubble take drop].
  assert (k ≤ length l)%nat as Hk' by (simpl in Hk; lia).
  destruct (strcmp (cityName a) (cityName b)) eqn:E.
  - destruct (IH b l Hk') as (p & mx & -> & Hperm & Hall & Hle).
    assert (name_le a b) as Hab by (unfold name_le; by rewrite E).
    exists (a :: p), mx. split_and!; [done| | |].
    + cbn [app]. by rewrite Hperm.
    + constructor; [by eapply name_le_trans|done].
    + by eapply name_le_trans.
  - destruct (IH b l Hk') as (p & mx & -> & Hperm & Hall & Hle).
    assert (name_le a b) as Hab by (unfold name_le; by rewrite E).
    exists (a :: p), mx. split_and!; [done| | |].
    + cbn [app]. by rewrite Hperm.
    + constructor; [by eapply name_le_trans|done].
    + by eapply name_le_trans.
  - destruct (IH a l Hk') as (p & mx & -> & Hperm & Hall & Hle).
    assert (name_le b a) as Hba.
    { unfold name_le. by rewrite (strcmp_Gt _ _ E). }
    exists (b :: p), mx. split_and!; [done| | |done].
    + cbn [app]. rewrite Hperm. apply Permutation_swap.
    + constructor; [by eapply name_le_trans|done].
Qed.

(** ** The outer loop *)

Lemma sortOuter_ok k : ∀ front back,
  length front = S k →
  sorted_by_name back →
  Forall (fun c => Forall (name_le c) back) front →
  ∃ cs', sortOuter k (Z.of_nat (length back))
           (Z.of_nat (length (front ++ back))) (front ++ back) = Ok cs' ∧
    cs' ≡ₚ front ++ back ∧ sorted_by_name cs'.
Proof.
  induction k as [|k IH]; intros front back Hlen Hsorted Hle.
  { destruct front as [|a [|]]; [done| |done]. exists (a :: back).
    split_and!; [done..|]. split; [|done]. by apply Forall_inv in Hle. }
  cbn [sortOuter].
  replace (Z.to_nat (Z.of_nat (length (front ++ back))
                     - Z.of_nat (length back) - 1)) with (S k)
    by (rewrite length_app; lia).
  pose proof (sortInner_bubble (S k) [] (front ++ back)) as Hin.
  cbn [length app] in Hin. change (Z.of_nat 0) with 0 in Hin.
  rewrite Hin by (rewrite length_app; lia).
  cbn [mbind result_bind]. clear Hin.
  destruct front as [|a l0]; [done|]. injection Hlen as Hlen.
  destruct (bubble_spec (S k) a (l0 ++ back)) as (p & mx & E & Hperm & Hall & _).
  { rewrite length_app. lia. }
  change ((a :: l0) ++ back) with (a :: l0 ++ back). rewrite E.
  rewrite <- Hlen, drop_app_length, take_app_length in *.
  assert (length p = length l0) as Hp.
  { apply Permutation_length in Hperm. rewrite length_app in Hperm.
    simpl in Hperm. lia. }
  assert (∀ c, c ∈ p ++ [mx] → Forall (name_le c) back) as Hback.
  { intros c Hc. rewrite Hperm in Hc. rewrite Forall_forall in Hle.
    by apply Hle. }
  destruct (IH p (mx :: back)) as (cs' & Hrun & Hperm' & Hsorted').
  { lia. }
  { split; [|done]. apply Hback. apply elem_of_app. right. by left. }
  { rewrite Forall_forall in Hall |- *. intros c Hc. constructor.
    - by apply Hall.
    - apply Hback. apply elem_of_app. by left. }
  exists cs'.
  replace (Z.of_nat (length back) + 1) with (Z.of_nat (length (mx :: back)))
    by (simpl; lia).
  replace (Z.of_nat (length (a :: l0 ++ back)))
    with (Z.of_nat (length (p ++ mx :: back)))
    by (rewrite !length_app; simpl; rewrite length_app; lia).
  split; [done|]. split; [|done].
  rewrite Hperm'. change (p ++ mx :: back) with (p ++ [mx] ++ back).
  by rewrite app_assoc, Hperm.
Qed.

Lemma sorted_by_name_short cs : (length cs ≤ 1)%nat → sorted_by_name cs.
Proof. destruct cs as [|c [|]]; simpl; [done| |lia]. intros _. by split. Qed.

Lemma sortCitiesByName_ok g :
  ∃ g', sortCitiesByName g = Ok g' ∧
    cities g' ≡ₚ cities g ∧ sorted_by_name (cities g') ∧
    capacity g' = capacity g.
Proof.
  unfold sortCitiesByName, numCities.
  destruct (Z.leb_spec (Z.of_nat (length (cities g))) 1) as [Hle|Hgt].
  { exists g. split_and!; [done..| |done]. apply sorted_by_name_short. lia. }
  destruct (sortOuter_ok (Z.to_nat (Z.of_nat (length (cities g)) - 1))
              (cities g) []) as (cs' & Hrun & Hperm & Hsorted).
  { lia. }
  { done. }
  { apply Forall_forall. intros c _. constructor. }
  rewrite app_nil_r in Hrun, Hperm. cbn [length] in Hrun.
  change (Z.of_nat 0) with 0 in Hrun. rewrite Hrun. cbn [mbind result_bind].
  eexists. by split_and!.
Qed.

(** * The data-model invariants hold in every state of the store *)

Lemma city_wf_mono g g' c :
  (∀ i, i ∈ cityIDs g → i ∈ cityIDs g') → city_wf g c → city_wf g' c.
Proof.
  intros Hids [Hall Hnd]. split; [|done].
  eapply Forall_impl; [exact Hall|]. intros e [? ?]. split; [auto|done].
Qed.

Lemma city_wf_sublist g g' c l' :
  city_wf g c → l' `sublist_of` adjList c →
  (∀ e, e ∈ l' → destCityID e ∈ cityIDs g → destCityID e ∈ cityIDs g') →
  city_wf g' (setAdjList c l').
Proof.
  intros [Hall Hnd] Hsub Hids. split; cbn [adjList setAdjList].
  - rewrite Forall_forall in *. intros e He.
    destruct (Hall e) as [Hin ?]; [by eapply elem_of_sublist|].
    split; [by apply Hids|done].
  - eapply sublist_NoDup; [exact Hnd|]. by apply fmap_sublist.
Qed.

Lemma unlinkEdgesTo_sublist id l : unlinkEdgesTo id l `sublist_of` l.
Proof.
  induction l as [|e l IH]; [done|]. cbn [unlinkEdgesTo].
  destruct (destCityID e =? id); [by apply sublist_cons|by apply sublist_skip].
Qed.

Lemma removeFirstEdge_sublist b : ∀ l l',
  removeFirstEdge l b = Some l' → l' `sublist_of` l.
Proof.
  induction l as [|e l IH]; intros l' H; [done|]. cbn [removeFirstEdge] in H.
  destruct (destCityID e =? b).
  - injection H as <-. by apply sublist_cons.
  - destruct (removeFirstEdge l b) as [l0|]; [|done].
    injection H as <-. apply sublist_skip. by apply IH.
Qed.

Lemma updateRoad_wf g b w : ∀ l l',
  0 < w →
  Forall (fun e => destCityID e ∈ cityIDs g ∧ 0 < distance e) l →
  updateRoad l b w = Some l' →
  Forall (fun e => destCityID e ∈ cityIDs g ∧ 0 < distance e) l' ∧
  destCityID <$> l' = destCityID <$> l.
Proof.
  intros l l' Hw. revert l'.
  induction l as [|e l IH]; intros l' Hall H; [done|].
  cbn [updateRoad] in H. apply Forall_cons in Hall as [[He ?] Hall].
  destruct (destCityID e =? b).
  - injection H as <-. split; [|done]. by constructor.
  - destruct (updateRoad l b w) as [l0|]; [|done]. injection H as <-.
    destruct (IH l0 Hall eq_refl) as [? Heq]. split; [by constructor|].
    by rewrite !fmap_cons, Heq.
Qed.

Lemma cityIDs_insert g k c c' :
  cities g !! k = Some c → cityID c' = cityID c →
  cityID <$> <[k := c']> (cities g) = cityIDs g.
Proof.
  intros Hk Hid. unfold cityIDs. rewrite list_fmap_insert.
  apply list_insert_id. rewrite list_lookup_fmap, Hk. simpl. by rewrite Hid.
Qed.

(** Replacing the adjacency list of one city by a well-formed one. *)
Lemma graph_wf_insert g k c l cap :
  graph_wf g → cities g !! k = Some c →
  city_wf g (setAdjList c l) →
  graph_wf {| cities := <[k := setAdjList c l]> (cities g);
              capacity := cap |}.
Proof.
  intros [Hnd Hall] Hk Hc.
  assert (cityIDs {| cities := <[k := setAdjList c l]> (cities g);
                     capacity := cap |} = cityIDs g) as Hids
    by (by apply (cityIDs_insert g k c)).
  split; [by rewrite Hids|]. cbn [cities].
  apply Forall_insert.
  - eapply Forall_impl; [exact Hall|]. intros c0.
    apply city_wf_mono. intros i. by rewrite Hids.
  - revert Hc. apply city_wf_mono. intros i. by rewrite Hids.
Qed.

Lemma createGraph_wf cap : graph_wf (createGraph cap).
Proof. split; [apply NoDup_nil_2|apply Forall_nil_2]. Qed.

Lemma addCity_wf g id name cx cy r g' :
  graph_wf g → addCity g id name cx cy = Ok (r, g') → graph_wf g'.
Proof.
  intros [Hnd Hall] Hadd.
  destruct (addCity_inv _ _ _ _ _ _ _ Hadd) as [[_ Hcs]|(_ & Hnone & Hcs)].
  { unfold graph_wf, city_wf, cityIDs in *. by rewrite Hcs. }
  assert (cityIDs g' = cityIDs g ++ [id]) as Hids.
  { unfold cityIDs. by rewrite Hcs, fmap_app. }
  split.
  - rewrite Hids. apply NoDup_app. split_and!; [done| |apply NoDup_singleton].
    intros i Hi Hid%list_elem_of_singleton. by subst.
  - rewrite Hcs. apply Forall_app. split.
    + eapply Forall_impl; [exact Hall|]. intros c. apply city_wf_mono.
      intros i Hi. rewrite Hids. apply elem_of_app. by left.
    + apply Forall_singleton. split; [apply Forall_nil_2|apply NoDup_nil_2].
Qed.

Lemma deleteCity_wf g id r g' :
  graph_wf g → deleteCity g id = (r, g') → graph_wf g'.
Proof.
  intros [Hnd Hall]. unfold deleteCity.
  destruct (Z.eqb_spec (findCityIndex g id) (-1)) as [_|Hsome].
  { intros [= _ <-]. by split. }
  intros [= _ <-].
  assert (id ∈ cityIDs g) as Hin.
  { destruct (decide (id ∈ cityIDs g)) as [?|Hn]; [done|].
    by apply findCityIndex_none in Hn. }
  destruct (findCityIndex_some g id Hin) as (c & Hc & Hid).
  pose proof Hc as [Hk Hlook]%aget_Ok.
  set (k := findCityIndex g id) in *.
  assert (delete (Z.to_nat k) (unlinkAll (cities g) 0 k id)
          = withoutRoadsTo id <$> filter (fun c => cityID c ≠ id) (cities g))
    as ->.
  { replace k with (0 + Z.of_nat (Z.to_nat k)) at 2 by lia.
    rewrite unlinkAll_delete. f_equal. subst id.
    symmetry. by apply filter_delete_id. }
  set (g' := {| cities := _; capacity := _ |}).
  assert (∀ i, i ∈ cityIDs g → i ≠ id → i ∈ cityIDs g') as Hkeep.
  { intros i (c0 & -> & Hc0)%list_elem_of_fmap Hne.
    apply list_elem_of_fmap. exists (withoutRoadsTo id c0). split; [done|].
    apply list_elem_of_fmap. exists c0. split; [done|].
    by apply list_elem_of_filter. }
  split.
  - unfold cityIDs, g'. cbn [cities]. rewrite <- list_fmap_compose.
    eapply sublist_NoDup; [exact Hnd|]. unfold cityIDs.
    apply fmap_sublist, sublist_filter.
  - unfold g' at 2. cbn [cities]. rewrite Forall_fmap, Forall_forall.
    intros c0 [_ Hc0]%list_elem_of_filter. cbn [compose].
    rewrite Forall_forall in Hall. unfold withoutRoadsTo.
    apply (city_wf_sublist g); [by apply Hall|apply unlinkEdgesTo_sublist|].
    intros e [_ Hne]%elem_of_unlinkEdgesTo He. by apply Hkeep.
Qed.

Lemma addRoad_wf g a b w r g' :
  graph_wf g → addRoad g a b w = Ok (r, g') → graph_wf g'.
Proof.
  intros Hwf. pose proof Hwf as [Hnd Hall]. unfold addRoad.
  destruct (Z.eqb_spec (findCityIndex g a) (-1)) as [|Ha]; cbn [orb].
  { by intros [= _ <-]. }
  destruct (Z.eqb_spec (findCityIndex g b) (-1)) as [|Hb].
  { by intros [= _ <-]. }
  destruct (Z.leb_spec w 0) as [|Hw]; [by intros [= _ <-]|].
  assert (b ∈ cityIDs g) as Hbin.
  { destruct (decide (b ∈ cityIDs g)) as [?|Hn]; [done|].
    by apply findCityIndex_none in Hn. }
  intros H. apply bind_Ok in H as (c & Hc & H).
  apply bind_Ok in H as (cs & [Hk ->]%aset_Ok & [= _ <-]).
  apply aget_Ok in Hc as [_ Hc].
  apply graph_wf_insert; [done..|].
  rewrite Forall_forall in Hall.
  destruct (Hall c) as [Hedges Hdests]; [by eapply list_elem_of_lookup_2|].
  destruct (updateRoad (adjList c) b w) as [l'|] eqn:Hup.
  - destruct (updateRoad_wf g b w _ _ Hw Hedges Hup) as [? Heq].
    split; cbn [adjList setAdjList]; [done|by rewrite Heq].
  - apply updateRoad_None in Hup. split; cbn [adjList setAdjList].
    + by constructor.
    + rewrite fmap_cons. by apply NoDup_cons.
Qed.

Lemma removeRoad_wf g a b r g' :
  graph_wf g → removeRoad g a b = Ok (r, g') → graph_wf g'.
Proof.
  intros Hwf. pose proof Hwf as [Hnd Hall]. unfold removeRoad.
  destruct (Z.eqb_spec (findCityIndex g a) (-1)) as [|Ha].
  { by intros [= _ <-]. }
  intros H. apply bind_Ok in H as (c & Hc & H).
  apply aget_Ok in Hc as [_ Hc].
  destruct (removeFirstEdge (adjList c) b) as [l'|] eqn:Hrm;
    [|by injection H as _ <-].
  apply bind_Ok in H as (cs & [Hk ->]%aset_Ok & [= _ <-]).
  apply graph_wf_insert; [done..|].
  rewrite Forall_forall in Hall.
  apply (city_wf_sublist g); [|by eapply removeFirstEdge_sublist|done].
  apply Hall. by eapply list_elem_of_lookup_2.
Qed.

Lemma graph_wf_permutation g g' :
  cities g' ≡ₚ cities g → graph_wf g → graph_wf g'.
Proof.
  intros Hperm [Hnd Hall].
  assert (cityIDs g' ≡ₚ cityIDs g) as Hids
    by (unfold cityIDs; by rewrite Hperm).
  split; [by rewrite Hids|]. rewrite Hperm.
  eapply Forall_impl; [exact Hall|]. intros c. apply city_wf_mono.
  intros i. by rewrite Hids.
Qed.

Lemma sortCitiesByName_wf g g' :
  graph_wf g → sortCitiesByName g = Ok g' → graph_wf g'.
Proof.
  intros Hwf Hsort.
  destruct (sortCitiesByName_ok g) as (g0 & E & Hperm & _).
  rewrite E in Hsort. injection Hsort as <-.
  by apply (graph_wf_permutation g).
Qed.

(** Every graph built with [createGraph], [addCity], [deleteCity],
    [addRoad], [removeRoad] and [sortCitiesByName] satisfies the
    data-model invariants:
    identifiers are unique, every road leads to a present city, weights
    are strictly positive and there are no parallel roads. *)
Lemma store_state_wf g : store_state g → graph_wf g.
Proof.
  induction 1 as [cap|g id name cx cy r g' _ IH H|g id r g' _ IH H
                  |g a b w r g' _ IH H|g a b r g' _ IH H|g g' _ IH H].
  - apply createGraph_wf.
  - by eapply addCity_wf.
  - by eapply deleteCity_wf.
  - by eapply addRoad_wf.
  - by eapply removeRoad_wf.
  - by eapply sortCitiesByName_wf.
Qed.

(** * The indexed min-heap *)

Lemma parent_div i : 0 < i → (i - 1) `quot` 2 = (i - 1) `div` 2.
Proof. intros. apply Z.quot_div_nonneg; lia. Qed.

Lemma parent_bounds i : 0 < i → 0 ≤ (i - 1) `quot` 2 < i.
Proof.
  intros Hi. rewrite parent_div by done.
  pose proof (Z.div_mod (i - 1) 2). pose proof (Z.mod_pos_bound (i - 1) 2). lia.
Qed.

Lemma parent_child i j :
  0 < j → 0 ≤ i → (j - 1) `quot` 2 = i ↔ j = 2 * i + 1 ∨ j = 2 * i + 2.
Proof.
  intros Hj Hi. rewrite parent_div by done.
  pose proof (Z.div_mod (j - 1) 2). pose proof (Z.mod_pos_bound (j - 1) 2).
  split; [lia|]. intros [->| ->].
  - replace (2 * i + 1 - 1) with (i * 2) by lia. apply Z.div_mul. lia.
  - replace (2 * i + 2 - 1) with (1 + i * 2) by lia.
    rewrite Z.div_add by lia. done.
Qed.

Lemma swapHeapNodes_spec ns a b na nb :
  aget ns a = Ok na → aget ns b = Ok nb →
  ∃ ns', swapHeapNodes ns a b = Ok ns' ∧ length ns' = length ns ∧
    ∀ j, aget ns' j =
         if decide (j = b) then Ok na
         else if decide (j = a) then Ok nb else aget ns j.
Proof.
  intros Ha Hb. unfold swapHeapNodes. rewrite Ha, Hb. simpl.
  pose proof (aget_bounds _ _ _ Ha). pose proof (aget_bounds _ _ _ Hb).
  rewrite aset_exists by done. simpl.
  rewrite aset_exists by (rewrite length_insert; lia).
  eexists. split; [done|]. split; [by rewrite !length_insert|].
  intros j.
  erewrite aget_aset by (apply aset_exists; rewrite length_insert; lia).
  repeat case_decide; try done; subst.
  - erewrite aget_aset_eq; [done | by apply aset_exists].
  - erewrite aget_aset_ne; [done | by apply aset_exists | done].
Qed.

(** The effect of a swap of two distinct resident slots. *)
Lemma swapStep_spec h a b na nb :
  heap_safe h → a ≠ b → node_at h a na → node_at h b nb →
  ∃ h', swapStep h a b = Ok h' ∧
    size h' = size h ∧ hcapacity h' = hcapacity h ∧
    length (nodes h') = length (nodes h) ∧
    length (pos h') = length (pos h) ∧
    (∀ j, aget (nodes h') j =
          if decide (j = b) then Ok na
          else if decide (j = a) then Ok nb else aget (nodes h) j) ∧
    (∀ c, aget (pos h') c =
          if decide (c = hCityID nb) then Ok a
          else if decide (c = hCityID na) then Ok b else aget (pos h) c).
Proof.
  intros (Hshape & Hids & Hweak) Hab [Hal Ha] [Hbl Hb].
  destruct Hshape as (Hlen & Hsz & Hpos).
  unfold swapStep. rewrite Ha, Hb. simpl.
  pose proof (Hids _ _ Ha) as Hida. pose proof (Hids _ _ Hb) as Hidb.
  rewrite aset_exists by lia. simpl.
  rewrite aset_exists by (rewrite length_insert; lia). simpl.
  destruct (swapHeapNodes_spec _ _ _ _ _ Ha Hb) as (ns' & -> & Hlen' & Hns').
  simpl. eexists. split; [done|]. simpl.
  split; [done|]. split; [done|]. split; [done|].
  split; [by rewrite !length_insert|]. split; [done|].
  intros c.
  erewrite aget_aset by (apply aset_exists; rewrite length_insert; lia).
  erewrite (aget_aset (pos h)) by (apply aset_exists; lia).
  repeat case_decide; congruence.
Qed.

Lemma node_at_inj h i n n' : node_at h i n → node_at h i n' → n = n'.
Proof. intros [_ H1] [_ H2]. congruence. Qed.

Lemma node_at_bounds h i n : node_at h i n → 0 ≤ i < size h.
Proof. intros [? H%aget_bounds]. lia. Qed.

Lemma node_at_exists h i :
  heap_shape h → 0 ≤ i < size h → ∃ n, node_at h i n.
Proof.
  intros (Hlen & Hsz & _) Hi.
  destruct (aget_exists (nodes h) i) as [n Hn]; [lia|].
  exists n. split; [lia | done].
Qed.

Lemma consistent_ids_distinct h i j n n' :
  pos_consistent h → node_at h i n → node_at h j n' →
  hCityID n = hCityID n' → i = j.
Proof.
  intros Hc Hi Hj Heq. apply Hc in Hi, Hj. congruence.
Qed.

(** A swap of two distinct resident slots keeps every invariant and the
    set of resident nodes. *)
Lemma swapStep_ok h a b na nb :
  heap_safe h → a ≠ b → node_at h a na → node_at h b nb →
  ∃ h', swapStep h a b = Ok h' ∧
    size h' = size h ∧ hcapacity h' = hcapacity h ∧
    (∀ j, aget (nodes h') j =
          if decide (j = b) then Ok na
          else if decide (j = a) then Ok nb else aget (nodes h) j) ∧
    (∀ c, aget (pos h') c =
          if decide (c = hCityID nb) then Ok a
          else if decide (c = hCityID na) then Ok b else aget (pos h) c) ∧
    heap_safe h' ∧
    (∀ n, in_heap h' n ↔ in_heap h n) ∧
    (pos_consistent h → pos_consistent h').
Proof.
  intros Hsafe Hab Ha Hb.
  destruct (swapStep_spec h a b na nb) as
    (h' & E & Hsz & Hcap & Hlen & Hlenp & Hns & Hps); [done..|].
  exists h'. do 5 (split; [done|]).
  destruct Hsafe as (Hshape & Hids & Hweak).
  pose proof (node_at_bounds _ _ _ Ha) as Hba.
  pose proof (node_at_bounds _ _ _ Hb) as Hbb.
  assert (∀ j n, node_at h' j n ↔
            (j = b ∧ n = na) ∨ (j = a ∧ n = nb) ∨
            (j ≠ a ∧ j ≠ b ∧ node_at h j n)) as Hat.
  { intros j n. unfold node_at. rewrite Hsz, Hns.
    destruct Ha as [_ Ha], Hb as [_ Hb].
    repeat case_decide; subst; naive_solver lia. }
  split; [split; [|split]|split].
  - destruct Hshape as (? & ? & ?). unfold heap_shape.
    rewrite Hlen, Hlenp, Hsz, Hcap. done.
  - intros j n. rewrite Hns. destruct Ha as [_ Ha], Hb as [_ Hb].
    repeat case_decide; intros Hn; simplify_eq; eapply Hids; eauto.
  - intros c p. rewrite Hps, Hcap.
    destruct Hshape as (_ & ? & _).
    repeat case_decide; intros Hp.
    + injection Hp as <-. destruct (decide (a = 0)); [right; left; lia|].
      right; right. split; [lia|]. exists nb. split; [|done].
      apply Hat. naive_solver.
    + injection Hp as <-. destruct (decide (b = 0)); [right; left; lia|].
      right; right. split; [lia|]. exists na. split; [|done].
      apply Hat. naive_solver.
    + destruct (Hweak c p Hp) as [?|[?|(Hpos & n & Hn & Hid)]]; [tauto..|].
      right; right. split; [done|]. exists n. split; [|done].
      apply Hat. right; right. split; [|split; [|done]].
      * intros ->. pose proof (node_at_inj _ _ _ _ Hn Ha). congruence.
      * intros ->. pose proof (node_at_inj _ _ _ _ Hn Hb). congruence.
  - intros n. unfold in_heap. split; intros [j Hj].
    + apply Hat in Hj as [[-> ->]|[[-> ->]|(_ & _ & Hj)]]; eauto.
    + destruct (decide (j = a)) as [->|]; [|destruct (decide (j = b)) as [->|]].
      * exists b. apply Hat. left. split; [done|]. by eapply node_at_inj.
      * exists a. apply Hat. right; left. split; [done|]. by eapply node_at_inj.
      * exists j. apply Hat. naive_solver.
  - intros Hcons j n Hj. rewrite Hps.
    assert (hCityID na ≠ hCityID nb) as Hne.
    { intros Heq. apply Hab. by eapply consistent_ids_distinct. }
    apply Hat in Hj as [[-> ->]|[[-> ->]|(Hja & Hjb & Hj)]].
    + rewrite decide_False by done. by rewrite decide_True.
    + by rewrite decide_True.
    + rewrite decide_False, decide_False; [by apply Hcons| |].
      * intros Heq. apply Hja. by eapply consistent_ids_distinct.
      * intros Heq. apply Hjb. by eapply consistent_ids_distinct.
Qed.

Lemma fs_node_at h i n : node_at h i n → fs h i = fScore n.
Proof. intros [_ H]. unfold fs. by rewrite H. Qed.

Lemma fs_swapped h h' a b na nb :
  node_at h a na → node_at h b nb →
  (∀ j, aget (nodes h') j =
        if decide (j = b) then Ok na
        else if decide (j = a) then Ok nb else aget (nodes h) j) →
  ∀ j, fs h' j = if decide (j = b) then fs h a
                 else if decide (j = a) then fs h b else fs h j.
Proof.
  intros Ha Hb Hns j. unfold fs at 1. rewrite Hns.
  rewrite (fs_node_at _ _ _ Ha), (fs_node_at _ _ _ Hb).
  by repeat case_decide.
Qed.

Lemma ordered_but_at_root h : ordered_but_at h 0 → heap_ordered h.
Proof. intros [H _] j Hj. apply H; lia. Qed.

Lemma ordered_but_at_done h i :
  0 < i → fs h ((i - 1) `quot` 2) ≤ fs h i →
  ordered_but_at h i → heap_ordered h.
Proof.
  intros Hi Hle [H _] j Hj. destruct (decide (j = i)) as [->|]; [done|].
  by apply H.
Qed.

Lemma ordered_swap_up h h' i :
  0 < i < size h → size h' = size h →
  (∀ j, fs h' j = if decide (j = (i - 1) `quot` 2) then fs h i
                  else if decide (j = i) then fs h ((i - 1) `quot` 2)
                  else fs h j) →
  fs h i < fs h ((i - 1) `quot` 2) →
  ordered_but_at h i → ordered_but_at h' ((i - 1) `quot` 2).
Proof.
  intros Hi Hsz Hfs Hlt [Hord Hgrand].
  pose proof (parent_bounds i) as Hp. set (p := (i - 1) `quot` 2) in *.
  split.
  - intros j Hj Hjp. rewrite Hsz in Hj.
    pose proof (parent_bounds j) as Hq. set (q := (j - 1) `quot` 2) in *.
    rewrite !Hfs.
    destruct (decide (j = i)) as [->|Hji].
    + fold p in q. subst q. rewrite decide_True by done.
      rewrite decide_False by lia. lia.
    + rewrite (decide_False (P := j = p)) by done.
      destruct (decide (q = p)) as [Hqp|Hqp].
      * pose proof (Hord j Hj Hji). fold q in H. rewrite Hqp in H. lia.
      * destruct (decide (q = i)) as [Hqi|Hqi].
        -- apply Hgrand; [lia|lia|done].
        -- by apply Hord.
  - intros Hp0 j Hj Hjp. rewrite Hsz in Hj.
    pose proof (parent_bounds p) as Hq. set (q := (p - 1) `quot` 2) in *.
    rewrite !Hfs.
    rewrite (decide_False (P := q = p)) by lia.
    rewrite (decide_False (P := q = i)) by lia.
    rewrite (decide_False (P := j = p)) by (pose proof (parent_bounds j); lia).
    pose proof (Hord p) as Hpq. fold q in Hpq.
    destruct (decide (j = i)) as [->|Hji].
    + apply Hpq; lia.
    + pose proof (Hord j Hj Hji) as Hj'. rewrite Hjp in Hj'.
      etrans; [apply Hpq; lia | done].
Qed.

Lemma resident_in_heap h n : in_heap h n → resident h (hCityID n).
Proof. intros H. by exists n. Qed.

Lemma bubbleUp_ok fuel : ∀ h i,
  heap_safe h → 0 ≤ i → (0 < i → i < size h) → (Z.to_nat i < fuel)%nat →
  ∃ h', bubbleUp fuel h i = Ok h' ∧
    size h' = size h ∧ hcapacity h' = hcapacity h ∧
    heap_safe h' ∧
    (∀ n, in_heap h' n ↔ in_heap h n) ∧
    (∀ c, ¬ resident h c → aget (pos h') c = aget (pos h) c) ∧
    (pos_consistent h → pos_consistent h') ∧
    (ordered_but_at h i → heap_ordered h').
Proof.
  induction fuel as [|fuel IH]; intros h i Hsafe Hi0 Hi Hfuel; [lia|].
  simpl. destruct (Z.gtb_spec i 0) as [Hpos|Hnpos].
  2:{ assert (i = 0) as -> by lia. exists h.
      split_and!; try done. apply ordered_but_at_root. }
  specialize (Hi Hpos). pose proof (parent_bounds i Hpos) as Hp.
  set (p := (i - 1) `quot` 2) in *.
  destruct (node_at_exists h i) as [ni Hni]; [apply Hsafe | lia |].
  destruct (node_at_exists h p) as [np Hnp]; [apply Hsafe | lia |].
  pose proof Hni as [_ Eni]. pose proof Hnp as [_ Enp].
  rewrite Eni, Enp. simpl.
  destruct (Z.ltb_spec (fScore ni) (fScore np)) as [Hlt|Hge].
  2:{ exists h. split_and!; try done.
      apply ordered_but_at_done; [done|]. fold p.
      rewrite (fs_node_at _ _ _ Hni), (fs_node_at _ _ _ Hnp). done. }
  destruct (swapStep_ok h i p ni np) as
    (h1 & E1 & Hsz1 & Hcap1 & Hns1 & Hps1 & Hsafe1 & Hin1 & Hcons1);
    [done | lia | done..|].
  unfold swapStep in E1. rewrite Eni, Enp in E1. simpl in E1.
  inv_bind E1. rewrite E. simpl. rewrite E0. simpl. rewrite E2. simpl.
  injection E1 as E1. rewrite E1.
  destruct (IH h1 p) as (h' & E' & Hsz' & Hcap' & Hsafe' & Hin' & Hfr' & Hcons' & Hord');
    [done | lia | lia | lia |].
  exists h'. split; [done|]. split; [lia|]. split; [lia|]. split; [done|].
  split; [|split; [|split]].
  - intros n. by rewrite Hin', Hin1.
  - intros c Hc. rewrite Hfr'.
    + rewrite Hps1. rewrite !decide_False; [done| |].
      * intros ->. apply Hc. apply resident_in_heap. by exists i.
      * intros ->. apply Hc. apply resident_in_heap. by exists p.
    + intros (n & Hn & Hid). apply Hc. exists n. by rewrite <- Hin1.
  - auto.
  - intros Hord. apply Hord'. eapply (ordered_swap_up h h1 i); [lia|done| |..|done].
    + intros j. fold p. rewrite (fs_swapped h h1 i p ni np) by done. done.
    + fold p. rewrite (fs_node_at _ _ _ Hni), (fs_node_at _ _ _ Hnp). done.
Qed.

Lemma fs_ext h h' j :
  aget (nodes h') j = aget (nodes h) j → fs h' j = fs h j.
Proof. unfold fs. by intros ->. Qed.

Lemma insertHeap_full h id d f :
  hcapacity h ≤ size h → insertHeap h id d f = Ok h.
Proof.
  intros H. unfold insertHeap. destruct (Z.geb_spec (size h) (hcapacity h)); [done|lia].
Qed.

Lemma insertHeap_ok h id d f :
  heap_safe h → 0 ≤ id < POS_SIZE → size h < hcapacity h →
  ∃ h', insertHeap h id d f = Ok h' ∧
    size h' = size h + 1 ∧ hcapacity h' = hcapacity h ∧
    heap_safe h' ∧
    (∀ n, in_heap h' n ↔ n = mkNode id d f ∨ in_heap h n) ∧
    (∀ c, c ≠ id → ¬ resident h c → aget (pos h') c = aget (pos h) c) ∧
    (pos_consistent h → ¬ resident h id → pos_consistent h') ∧
    (heap_ordered h → heap_ordered h').
Proof.
  intros Hsafe Hid Hroom. pose proof Hsafe as (Hshape & Hids & Hweak).
  pose proof Hshape as (Hlen & Hsz & Hposlen).
  unfold insertHeap. destruct (Z.geb_spec (size h) (hcapacity h)); [lia|].
  assert (aset (nodes h) (size h) (mkNode id d f)
          = Ok (<[Z.to_nat (size h) := mkNode id d f]> (nodes h))) as Ens
    by (apply aset_exists; lia).
  assert (aset (pos h) id (size h) = Ok (<[Z.to_nat id := size h]> (pos h)))
    as Eps by (apply aset_exists; lia).
  rewrite Ens. simpl. rewrite Eps. simpl.
  set (ns := <[Z.to_nat (size h) := mkNode id d f]> (nodes h)) in *.
  set (ps := <[Z.to_nat id := size h]> (pos h)) in *.
  set (h0 := {| nodes := ns; size := size h + 1; hcapacity := hcapacity h;
                pos := ps |}).
  assert (∀ j n, node_at h0 j n ↔
            (j = size h ∧ n = mkNode id d f) ∨ node_at h j n) as Hat.
  { intros j n. unfold node_at. simpl. rewrite (aget_aset _ _ _ _ _ Ens).
    case_decide; subst.
    - split; [intros [_ [= <-]]; by left|]. intros [[_ ->]|[? _]]; [|lia].
      split; [lia|done].
    - split; [intros [? Hj]; right; split; [|done]|].
      + apply aget_bounds in Hj. lia.
      + intros [[? _]|[? ?]]; [done|]. split; [lia|done]. }
  assert (∀ n, in_heap h0 n ↔ n = mkNode id d f ∨ in_heap h n) as Hin0.
  { intros n. unfold in_heap. split.
    - intros [j [[_ ->]|Hj]%Hat]; [by left | right; by exists j].
    - intros [->|[j Hj]]; [exists (size h) | exists j]; apply Hat; auto. }
  assert (heap_safe h0) as Hsafe0.
  { split; [|split].
    - unfold heap_shape. simpl. rewrite (aset_length _ _ _ _ Ens).
      rewrite (aset_length _ _ _ _ Eps). lia.
    - intros j n. simpl. rewrite (aget_aset _ _ _ _ _ Ens).
      case_decide; [intros [= <-]; done | apply Hids].
    - intros c p. simpl. rewrite (aget_aset _ _ _ _ _ Eps).
      case_decide; subst.
      + intros [= <-]. destruct (decide (size h = 0)); [right; left; lia|].
        right; right. split; [lia|]. exists (mkNode c d f).
        split; [|done]. apply Hat. by left.
      + intros Hp. destruct (Hweak c p Hp) as [?|[?|(? & n & Hn & ?)]];
          [tauto..|].
        right; right. split; [done|]. exists n. split; [|done].
        apply Hat. by right. }
  destruct (bubbleUp_ok (S (Z.to_nat (size h))) h0 (size h)) as
    (h' & E' & Hsz' & Hcap' & Hsafe' & Hin' & Hfr' & Hcons' & Hord');
    [done | lia | simpl; lia | lia |].
  exists h'. split; [done|]. split; [done|]. split; [done|]. split; [done|].
  split; [|split; [|split]].
  - intros n. by rewrite Hin', Hin0.
  - intros c Hc Hres. rewrite Hfr'.
    + simpl. by rewrite (aget_aset_ne _ _ _ _ _ Eps).
    + intros (n & [->|Hn]%Hin0 & Hidn); [done|]. apply Hres. by exists n.
  - intros Hcons Hres. apply Hcons'. intros j n [[-> ->]|Hj]%Hat; simpl.
    + by rewrite (aget_aset_eq _ _ _ _ Eps).
    + rewrite (aget_aset_ne _ _ _ _ _ Eps); [by apply Hcons|].
      intros Heq. apply Hres. rewrite Heq. apply resident_in_heap. by exists j.
  - intros Hord. apply Hord'. split.
    + intros j Hj Hne. simpl in Hj.
      pose proof (parent_bounds j) as Hp.
      rewrite !(fs_ext h h0).
      * apply Hord. lia.
      * simpl. rewrite (aget_aset_ne _ _ _ _ _ Ens); [done|lia].
      * simpl. rewrite (aget_aset_ne _ _ _ _ _ Ens); [done|lia].
    + intros Hpos j Hj Hpar. simpl in Hj.
      apply parent_child in Hpar; lia.
Qed.

Lemma decreaseKey_absent h id d f :
  aget (pos h) id = Ok (-1) → decreaseKey h id d f = Ok h.
Proof. intros H. unfold decreaseKey. by rewrite H. Qed.

(** [decreaseKey] never faults and keeps the set of resident cities, also
    when the table entry of a non-resident city is not the sentinel. *)
Lemma decreaseKey_safe h id d f :
  heap_safe h → 0 ≤ id < POS_SIZE →
  ∃ h', decreaseKey h id d f = Ok h' ∧
    size h' = size h ∧ hcapacity h' = hcapacity h ∧
    heap_safe h' ∧
    (∀ c, resident h' c ↔ resident h c) ∧
    (∀ c, ¬ resident h c → aget (pos h') c = aget (pos h) c).
Proof.
  intros Hsafe Hid. pose proof Hsafe as (Hshape & Hids & Hweak).
  pose proof Hshape as (Hlen & Hsz & Hposlen).
  unfold decreaseKey.
  destruct (aget_exists (pos h) id) as [i Hi]; [lia|]. rewrite Hi. simpl.
  destruct (Z.eqb_spec i (-1)) as [->|Hne]; [by exists h|].
  assert (0 ≤ i < hcapacity h ∧ (0 < i → i < size h)) as [Hb Hb'].
  { destruct (Hweak _ _ Hi) as [?|[?|(? & n & Hn%node_at_bounds & _)]]; lia. }
  destruct (aget_exists (nodes h) i) as [n Hn]; [lia|]. rewrite Hn. simpl.
  assert (aset (nodes h) i (mkNode (hCityID n) d f)
          = Ok (<[Z.to_nat i := mkNode (hCityID n) d f]> (nodes h))) as Ens
    by (apply aset_exists; lia).
  rewrite Ens. simpl.
  set (ns := <[Z.to_nat i := mkNode (hCityID n) d f]> (nodes h)) in *.
  set (h0 := {| nodes := ns; size := size h; hcapacity := hcapacity h;
                pos := pos h |}).
  assert (∀ j m, node_at h0 j m →
            ∃ m', node_at h j m' ∧ hCityID m' = hCityID m) as Hat1.
  { intros j m [Hj Hm]. simpl in *. rewrite (aget_aset _ _ _ _ _ Ens) in Hm.
    case_decide; subst.
    - injection Hm as <-. by exists n.
    - by exists m. }
  assert (∀ j m, node_at h j m →
            ∃ m', node_at h0 j m' ∧ hCityID m' = hCityID m) as Hat2.
  { intros j m [Hj Hm]. destruct (decide (i = j)) as [->|Hij].
    - exists (mkNode (hCityID n) d f). split; [|simpl; congruence].
      split; [done|]. simpl. by rewrite (aget_aset_eq _ _ _ _ Ens).
    - exists m. split; [|done]. split; [done|]. simpl.
      by rewrite (aget_aset_ne _ _ _ _ _ Ens). }
  assert (∀ c, resident h0 c ↔ resident h c) as Hres0.
  { intros c. split; intros (m & [j Hj] & Hm).
    - destruct (Hat1 _ _ Hj) as (m' & ? & ?). exists m'. split; [by exists j|congruence].
    - destruct (Hat2 _ _ Hj) as (m' & ? & ?). exists m'. split; [by exists j|congruence]. }
  assert (heap_safe h0) as Hsafe0.
  { split; [|split].
    - unfold heap_shape. simpl. rewrite (aset_length _ _ _ _ Ens). done.
    - intros j m. simpl. rewrite (aget_aset _ _ _ _ _ Ens).
      case_decide; [intros [= <-]; simpl; by eapply Hids | apply Hids].
    - intros c p Hp. simpl in Hp.
      destruct (Hweak c p Hp) as [?|[?|(? & m & Hm & ?)]]; [tauto..|].
      right; right. split; [done|].
      destruct (Hat2 _ _ Hm) as (m' & ? & ?). exists m'. split; [done|congruence]. }
  destruct (bubbleUp_ok (S (Z.to_nat i)) h0 i) as
    (h' & E' & Hsz' & Hcap' & Hsafe' & Hin' & Hfr' & _ & _);
    [done | lia | done | lia |].
  exists h'. split; [done|]. split; [done|]. split; [done|]. split; [done|].
  split.
  - intros c. rewrite <- Hres0. unfold resident. by setoid_rewrite Hin'.
  - intros c Hc. rewrite Hfr'; [done|]. by rewrite Hres0.
Qed.

(** [decreaseKey] on a resident city of a consistent heap. *)
Lemma decreaseKey_resident h id d f i o :
  heap_safe h → pos_consistent h → node_at h i o → hCityID o = id →
  ∃ h', decreaseKey h id d f = Ok h' ∧
    size h' = size h ∧ hcapacity h' = hcapacity h ∧
    heap_safe h' ∧ pos_consistent h' ∧
    (∀ n, in_heap h' n ↔
          n = mkNode id d f ∨ (in_heap h n ∧ hCityID n ≠ id)) ∧
    (∀ c, ¬ resident h c → aget (pos h') c = aget (pos h) c) ∧
    (heap_ordered h → f ≤ fScore o → heap_ordered h').
Proof.
  intros Hsafe Hcons Ho Hido. pose proof Hsafe as (Hshape & Hids & Hweak).
  pose proof Hshape as (Hlen & Hsz & Hposlen).
  pose proof (node_at_bounds _ _ _ Ho) as Hi.
  pose proof (Hcons _ _ Ho) as Hpi. rewrite Hido in Hpi.
  pose proof Ho as [_ Eo].
  unfold decreaseKey. rewrite Hpi. simpl.
  destruct (Z.eqb_spec i (-1)) as [?|_]; [lia|].
  rewrite Eo. simpl. rewrite Hido.
  assert (aset (nodes h) i (mkNode id d f)
          = Ok (<[Z.to_nat i := mkNode id d f]> (nodes h))) as Ens
    by (apply aset_exists; lia).
  rewrite Ens. simpl.
  set (ns := <[Z.to_nat i := mkNode id d f]> (nodes h)) in *.
  set (h0 := {| nodes := ns; size := size h; hcapacity := hcapacity h;
                pos := pos h |}).
  assert (∀ j m, node_at h0 j m ↔
            (j = i ∧ m = mkNode id d f) ∨ (j ≠ i ∧ node_at h j m)) as Hat.
  { intros j m. unfold node_at. simpl. rewrite (aget_aset _ _ _ _ _ Ens).
    case_decide; subst; [|naive_solver].
    split; [intros [_ [= <-]]; by left|]. intros [[_ ->]|[? _]]; [|done].
    split; [lia|done]. }
  assert (∀ n, in_heap h0 n ↔
            n = mkNode id d f ∨ (in_heap h n ∧ hCityID n ≠ id)) as Hin0.
  { intros n. unfold in_heap. split.
    - intros [j [[_ ->]|[Hne Hj]]%Hat]; [by left|]. right.
      split; [by exists j|]. intros Heq. apply Hne.
      eapply consistent_ids_distinct; [done..|congruence].
    - intros [->|[[j Hj] Hne]]; [exists i; apply Hat; by left|].
      exists j. apply Hat. right. split; [|done].
      intros ->. pose proof (node_at_inj _ _ _ _ Hj Ho). congruence. }
  assert (heap_safe h0) as Hsafe0.
  { split; [|split].
    - unfold heap_shape. simpl. rewrite (aset_length _ _ _ _ Ens). done.
    - intros j m. simpl. rewrite (aget_aset _ _ _ _ _ Ens).
      case_decide; [intros [= <-]; simpl|apply Hids].
      rewrite <- Hido. by eapply Hids.
    - intros c p Hp. simpl in Hp.
      destruct (Hweak c p Hp) as [?|[?|(? & m & Hm & ?)]]; [tauto..|].
      right; right. split; [done|].
      destruct (decide (p = i)) as [->|Hpi'].
      + exists (mkNode id d f). split; [apply Hat; by left|]. simpl.
        pose proof (node_at_inj _ _ _ _ Hm Ho). congruence.
      + exists m. split; [|done]. apply Hat. by right. }
  assert (pos_consistent h0) as Hcons0.
  { intros j m [[-> ->]|[Hne Hj]]%Hat; simpl; [done|]. by apply Hcons. }
  destruct (bubbleUp_ok (S (Z.to_nat i)) h0 i) as
    (h' & E' & Hsz' & Hcap' & Hsafe' & Hin' & Hfr' & Hcons' & Hord');
    [done | lia | simpl; lia | lia |].
  exists h'. split; [done|]. split; [done|]. split; [done|]. split; [done|].
  split; [auto|]. split; [|split].
  - intros n. by rewrite Hin', Hin0.
  - intros c Hc. rewrite Hfr'; [done|].
    intros (m & [->|[Hm Hne]]%Hin0 & Hidm).
    + apply Hc. exists o. split; [by exists i|]. simpl in Hidm. congruence.
    + apply Hc. by exists m.
  - intros Hord Hle. apply Hord'.
    assert (∀ j, fs h0 j = if decide (j = i) then f else fs h j) as Hfs.
    { intros j. unfold fs. simpl. rewrite (aget_aset _ _ _ _ _ Ens).
      repeat case_decide; try done; congruence. }
    pose proof (fs_node_at _ _ _ Ho) as Hfo.
    split.
    + intros j Hj Hne. simpl in Hj. rewrite !Hfs.
      rewrite (decide_False (P := j = i)) by done.
      pose proof (Hord j Hj). case_decide; [|done].
      pose proof (Hord j Hj) as Hoj. rewrite H0 in Hoj. lia.
    + intros Hpos j Hj Hpar. simpl in Hj. rewrite !Hfs.
      pose proof (parent_bounds i Hpos). pose proof (parent_bounds j).
      rewrite !decide_False by lia.
      pose proof (Hord j Hj) as Hoj. rewrite Hpar in Hoj.
      pose proof (Hord i) as Hoi. lia.
Qed.

Lemma ordered_but_below_done h i :
  0 ≤ i →
  (2 * i + 1 < size h → fs h i ≤ fs h (2 * i + 1)) →
  (2 * i + 2 < size h → fs h i ≤ fs h (2 * i + 2)) →
  ordered_but_below h i → heap_ordered h.
Proof.
  intros Hi Hl Hr [H _] j Hj.
  destruct (decide ((j - 1) `quot` 2 = i)) as [Hpar|Hpar]; [|by apply H].
  rewrite Hpar.
  apply parent_child in Hpar as [->| ->]; [apply Hl; lia|apply Hr; lia|lia|lia].
Qed.

Lemma ordered_swap_down h h' i s :
  0 ≤ i → s = 2 * i + 1 ∨ s = 2 * i + 2 → s < size h → size h' = size h →
  (∀ j, fs h' j = if decide (j = i) then fs h s
                  else if decide (j = s) then fs h i else fs h j) →
  fs h s < fs h i →
  (2 * i + 1 < size h → fs h s ≤ fs h (2 * i + 1)) →
  (2 * i + 2 < size h → fs h s ≤ fs h (2 * i + 2)) →
  ordered_but_below h i → ordered_but_below h' s.
Proof.
  intros Hi Hs Hsz Hsz' Hfs Hlt Hl Hr [Hord Hgrand].
  assert ((s - 1) `quot` 2 = i) as Hps by (apply parent_child; lia).
  split.
  - intros j Hj Hjs. rewrite Hsz' in Hj.
    pose proof (parent_bounds j) as Hq. set (q := (j - 1) `quot` 2) in *.
    rewrite !Hfs. destruct (decide (q = i)) as [Hqi|Hqi].
    + assert (j = 2 * i + 1 ∨ j = 2 * i + 2) as Hjc
        by (apply parent_child; [lia..|done]).
      rewrite (decide_False (P := j = i)) by lia.
      case_decide; [lia|]. destruct Hjc as [->| ->]; [apply Hl|apply Hr]; lia.
    + rewrite (decide_False (P := q = s)) by done.
      rewrite (decide_False (P := j = s)) by (intros ->; by subst q).
      destruct (decide (j = i)) as [->|Hji].
      * fold q in Hgrand. apply Hgrand; [lia|lia|done].
      * by apply Hord.
  - intros Hs0 j Hj Hjs. rewrite Hsz' in Hj. rewrite Hps, !Hfs.
    pose proof (parent_bounds j).
    rewrite decide_True by done.
    rewrite (decide_False (P := j = i)) by lia.
    rewrite (decide_False (P := j = s)) by lia.
    pose proof (Hord j Hj) as Hoj. rewrite Hjs in Hoj. apply Hoj. lia.
Qed.

Lemma minHeapify_ok fuel : ∀ h idx,
  heap_safe h → 0 ≤ idx → (Z.to_nat (size h - idx) < fuel)%nat →
  ∃ h', minHeapify fuel h idx = Ok h' ∧
    size h' = size h ∧ hcapacity h' = hcapacity h ∧
    heap_safe h' ∧
    (∀ n, in_heap h' n ↔ in_heap h n) ∧
    (∀ c, ¬ resident h c → aget (pos h') c = aget (pos h) c) ∧
    (pos_consistent h → pos_consistent h') ∧
    (ordered_but_below h idx → heap_ordered h').
Proof.
  induction fuel as [|fuel IH]; intros h idx Hsafe Hidx Hfuel; [lia|].
  cbn [minHeapify].
  set (left := 2 * idx + 1). set (right := 2 * idx + 2).
  assert (∃ s, (if left <? size h then
                  nl ← aget (nodes h) left;
                  ns ← aget (nodes h) idx;
                  Ok (if fScore nl <? fScore ns then left else idx)
                else Ok idx) = Ok s ∧
               (s = idx ∨ (s = left ∧ left < size h ∧ fs h left < fs h idx)) ∧
               fs h s ≤ fs h idx ∧
               (left < size h → fs h s ≤ fs h left)) as (s1 & -> & Hs1 & Hs1i & Hs1l).
  { destruct (Z.ltb_spec left (size h)) as [Hl|Hl].
    - destruct (node_at_exists h left) as [nl Hnl]; [apply Hsafe|lia|].
      destruct (node_at_exists h idx) as [ni Hni]; [apply Hsafe|lia|].
      rewrite (proj2 Hnl), (proj2 Hni). simpl.
      rewrite (fs_node_at _ _ _ Hnl), (fs_node_at _ _ _ Hni).
      destruct (Z.ltb_spec (fScore nl) (fScore ni)).
      + eexists. split; [done|]. rewrite (fs_node_at _ _ _ Hnl).
        split; [right; done|]. lia.
      + eexists. split; [done|]. rewrite (fs_node_at _ _ _ Hni).
        split; [by left|]. lia.
    - exists idx. split; [done|]. split; [by left|]. lia. }
  simpl.
  assert (∃ s, (if right <? size h then
                  nr ← aget (nodes h) right;
                  ns ← aget (nodes h) s1;
                  Ok (if fScore nr <? fScore ns then right else s1)
                else Ok s1) = Ok s ∧
               (s = idx ∨ ((s = left ∨ s = right) ∧ s < size h ∧
                           fs h s < fs h idx)) ∧
               (left < size h → fs h s ≤ fs h left) ∧
               (right < size h → fs h s ≤ fs h right)) as (s & -> & Hs & Hsl & Hsr).
  { destruct (Z.ltb_spec right (size h)) as [Hr|Hr].
    - destruct (node_at_exists h right) as [nr Hnr]; [apply Hsafe|lia|].
      destruct (node_at_exists h s1) as [n1 Hn1]; [apply Hsafe|lia|].
      rewrite (proj2 Hnr), (proj2 Hn1). simpl.
      rewrite (fs_node_at _ _ _ Hn1) in *.
      destruct (Z.ltb_spec (fScore nr) (fScore n1)).
      + eexists. split; [done|]. rewrite (fs_node_at _ _ _ Hnr).
        split; [right; split; [by right|lia]|]. lia.
      + eexists. split; [done|]. rewrite (fs_node_at _ _ _ Hn1).
        rewrite (fs_node_at _ _ _ Hnr). split; [|lia].
        destruct Hs1 as [->|(-> & ? & ?)]; [by left|right].
        rewrite (fs_node_at _ _ _ Hn1) in *. split; [by left|lia].
    - exists s1. split; [done|]. split; [|split; [done|lia]].
      destruct Hs1 as [->|(-> & ? & ?)]; [by left|right]. split; [by left|lia]. }
  simpl. destruct (Z.eqb_spec s idx) as [->|Hne].
  { exists h. split_and!; try done.
    apply ordered_but_below_done; [done|fold left; auto|fold right; auto]. }
  destruct Hs as [?|(Hs & Hssz & Hslt)]; [done|].
  destruct (node_at_exists h s) as [ns Hns]; [apply Hsafe|lia|].
  destruct (node_at_exists h idx) as [ni Hni]; [apply Hsafe|lia|].
  destruct (swapStep_ok h s idx ns ni) as
    (h1 & E1 & Hsz1 & Hcap1 & Hns1 & Hps1 & Hsafe1 & Hin1 & Hcons1); [done..|].
  unfold swapStep in E1. rewrite (proj2 Hns), (proj2 Hni) in E1 |- *.
  simpl in E1 |- *.
  inv_bind E1. rewrite E. simpl. rewrite E0. simpl. rewrite E2. simpl.
  injection E1 as E1. rewrite E1.
  destruct (IH h1 s) as (h' & E' & Hsz' & Hcap' & Hsafe' & Hin' & Hfr' & Hcons' & Hord');
    [done | lia | lia |].
  exists h'. split; [done|]. split; [lia|]. split; [lia|]. split; [done|].
  split; [|split; [|split]].
  - intros n. by rewrite Hin', Hin1.
  - intros c Hc. rewrite Hfr'.
    + rewrite Hps1. rewrite !decide_False; [done| |].
      * intros ->. apply Hc. apply resident_in_heap. by exists s.
      * intros ->. apply Hc. apply resident_in_heap. by exists idx.
    + intros (n & Hn & Hid). apply Hc. exists n. by rewrite <- Hin1.
  - auto.
  - intros Hord. apply Hord'.
    eapply (ordered_swap_down h h1 idx s); try done.
    intros j. rewrite (fs_swapped h h1 s idx ns ni) by done. done.
Qed.

Lemma root_minimal h :
  heap_ordered h → ∀ j, 0 ≤ j < size h → fs h 0 ≤ fs h j.
Proof.
  intros Hord j Hj.
  assert (∀ k : nat, ∀ j, Z.to_nat j = k → 0 ≤ j < size h → fs h 0 ≤ fs h j)
    as Hind.
  { clear j Hj. intros k. induction k as [k IH] using lt_wf_ind.
    intros j Hk Hj. destruct (decide (j = 0)) as [->|Hne]; [done|].
    pose proof (parent_bounds j) as Hp.
    etrans; [|apply Hord; lia].
    apply (IH (Z.to_nat ((j - 1) `quot` 2))); lia. }
  by eapply Hind.
Qed.

Lemma extractMin_ok h :
  heap_safe h → 0 < size h →
  ∃ root h', extractMin h = Ok (root, h') ∧ node_at h 0 root ∧
    size h' = size h - 1 ∧ hcapacity h' = hcapacity h ∧
    heap_safe h' ∧
    (∀ c, resident h' c → resident h c) ∧
    (∀ c, ¬ resident h c → aget (pos h') c = aget (pos h) c) ∧
    (pos_consistent h →
       pos_consistent h' ∧
       (∀ n, in_heap h n ↔ n = root ∨ in_heap h' n) ∧
       ¬ resident h' (hCityID root) ∧
       aget (pos h') (hCityID root) = Ok (if decide (size h = 1) then 0 else -1)) ∧
    (heap_ordered h →
       heap_ordered h' ∧ ∀ n, in_heap h n → fScore root ≤ fScore n).
Proof.
  intros Hsafe Hsize. pose proof Hsafe as (Hshape & Hids & Hweak).
  pose proof Hshape as (Hlen & Hsz & Hposlen).
  unfold extractMin, isHeapEmpty.
  destruct (Z.eqb_spec (size h) 0) as [?|_]; [lia|].
  destruct (node_at_exists h 0) as [root Hroot]; [done|lia|].
  destruct (node_at_exists h (size h - 1)) as [lastNode Hlast]; [done|lia|].
  rewrite (proj2 Hroot), (proj2 Hlast). cbn [mbind result_bind].
  pose proof (Hids _ _ (proj2 Hroot)) as Hidr.
  pose proof (Hids _ _ (proj2 Hlast)) as Hidl.
  assert (aset (nodes h) 0 lastNode = Ok (<[Z.to_nat 0 := lastNode]> (nodes h)))
    as Ens by (apply aset_exists; lia).
  assert (aset (pos h) (hCityID root) (-1)
          = Ok (<[Z.to_nat (hCityID root) := -1]> (pos h)))
    as Ep1 by (apply aset_exists; lia).
  rewrite Ens. cbn [mbind result_bind]. rewrite Ep1. cbn [mbind result_bind].
  set (ns := <[Z.to_nat 0 := lastNode]> (nodes h)) in *.
  set (p1 := <[Z.to_nat (hCityID root) := -1]> (pos h)) in *.
  assert (aset p1 (hCityID lastNode) 0
          = Ok (<[Z.to_nat (hCityID lastNode) := 0]> p1))
    as Ep2 by (apply aset_exists; rewrite (aset_length _ _ _ _ Ep1); lia).
  rewrite Ep2. cbn [mbind result_bind].
  set (p2 := <[Z.to_nat (hCityID lastNode) := 0]> p1) in *.
  set (h0 := {| nodes := ns; size := size h - 1; hcapacity := hcapacity h;
                pos := p2 |}).
  assert (∀ c, aget (pos h0) c =
               if decide (c = hCityID lastNode) then Ok 0
               else if decide (c = hCityID root) then Ok (-1)
               else aget (pos h) c) as Hp0.
  { intros c. simpl. rewrite (aget_aset _ _ _ _ _ Ep2), (aget_aset _ _ _ _ _ Ep1).
    repeat case_decide; congruence. }
  assert (∀ j n, node_at h0 j n ↔
            (j = 0 ∧ n = lastNode ∧ 1 < size h) ∨
            (0 < j < size h - 1 ∧ node_at h j n)) as Hat.
  { intros j n. unfold node_at. simpl. rewrite (aget_aset _ _ _ _ _ Ens).
    case_decide; subst.
    - split; [intros [? [= <-]]; left; split_and!; [done..|lia]|].
      intros [(_ & -> & ?)|[? _]]; [|lia]. split; [lia|done].
    - split.
      + intros [? Hj]. right. pose proof (aget_bounds _ _ _ Hj).
        split; [lia|]. split; [lia|done].
      + intros [(? & _)|(? & _ & ?)]; [done|]. split; [lia|done]. }
  assert (heap_safe h0) as Hsafe0.
  { split; [|split].
    - unfold heap_shape. simpl. unfold p2, p1, ns. rewrite !length_insert. lia.
    - intros j n. simpl. rewrite (aget_aset _ _ _ _ _ Ens).
      case_decide; [intros [= <-]; done | apply Hids].
    - intros c p. rewrite Hp0. repeat case_decide.
      + intros [= <-]. right; left. simpl. lia.
      + intros [= <-]. by left.
      + intros Hp. destruct (Hweak c p Hp) as [?|[?|(? & n & Hn & ?)]];
          [tauto..|].
        right; right. split; [done|]. exists n. split; [|done].
        apply Hat. right. split; [|done].
        pose proof (node_at_bounds _ _ _ Hn).
        destruct (decide (p = size h - 1)) as [->|]; [|lia].
        pose proof (node_at_inj _ _ _ _ Hn Hlast). congruence. }
  assert (∀ c, resident h0 c → resident h c) as Hres0.
  { intros c (n & [j Hj] & Hid). apply Hat in Hj as [(_ & -> & _)|[_ Hj]].
    - exists lastNode. split; [by eexists|done].
    - exists n. split; [by eexists|done]. }
  destruct (minHeapify_ok (S (Z.to_nat (size h))) h0 0) as
    (h' & E' & Hsz' & Hcap' & Hsafe' & Hin' & Hfr' & Hcons' & Hord');
    [done | lia | simpl; lia |].
  rewrite E'. cbn [mbind result_bind]. exists root, h'.
  split; [done|]. split; [done|]. split; [done|]. split; [done|].
  split; [done|]. split; [|split; [|split]].
  - intros c (n & Hn & Hid). apply Hres0. exists n. by rewrite <- Hin'.
  - intros c Hc. rewrite Hfr' by auto. rewrite Hp0.
    rewrite !decide_False; [done| |].
    + intros ->. apply Hc. apply resident_in_heap. by eexists.
    + intros ->. apply Hc. apply resident_in_heap. by eexists.
  - intros Hcons.
    assert (1 < size h → hCityID root ≠ hCityID lastNode) as Hdiff.
    { intros ? Heq.
      pose proof (consistent_ids_distinct _ _ _ _ _ Hcons Hroot Hlast Heq). lia. }
    assert (¬ resident h0 (hCityID root)) as Hnr.
    { intros (n & [j Hj] & Hid). apply Hat in Hj as [(_ & -> & ?)|[? Hj]].
      - by apply Hdiff.
      - pose proof (consistent_ids_distinct _ _ _ _ _ Hcons Hj Hroot Hid). lia. }
    split; [|split; [|split]].
    + apply Hcons'. intros j n. rewrite Hp0.
      intros [(-> & -> & ?)|[? Hj]]%Hat; [by rewrite decide_True|].
      rewrite !decide_False; [by apply Hcons| |].
      * intros Heq.
        pose proof (consistent_ids_distinct _ _ _ _ _ Hcons Hj Hroot Heq). lia.
      * intros Heq.
        pose proof (consistent_ids_distinct _ _ _ _ _ Hcons Hj Hlast Heq). lia.
    + intros n. rewrite Hin'. unfold in_heap. split.
      * intros [j Hj]. pose proof (node_at_bounds _ _ _ Hj).
        destruct (decide (j = 0)) as [->|];
          [left; by eapply node_at_inj|right].
        destruct (decide (j = size h - 1)) as [->|].
        -- exists 0. apply Hat. left. split; [done|].
           split; [by eapply node_at_inj | lia].
        -- exists j. apply Hat. right. split; [lia|done].
      * intros [->|[j [(_ & -> & _)|[_ Hj]]%Hat]]; eauto.
    + intros (n & Hn & Hid). apply Hnr. exists n. by rewrite <- Hin'.
    + rewrite Hfr' by done. rewrite Hp0.
      destruct (decide (size h = 1)) as [Hone|Hmore].
      * rewrite decide_True; [done|].
        replace (size h - 1) with 0 in Hlast by lia.
        by rewrite (node_at_inj _ _ _ _ Hroot Hlast).
      * rewrite decide_False by (apply Hdiff; lia). by rewrite decide_True.
  - intros Hord. split.
    + apply Hord'. split; [|lia].
      intros j Hj Hpar. simpl in Hj. pose proof (parent_bounds j).
      rewrite !(fs_ext h h0).
      * apply Hord. lia.
      * simpl. rewrite (aget_aset_ne _ _ _ _ _ Ens); [done|lia].
      * simpl. rewrite (aget_aset_ne _ _ _ _ _ Ens); [done|lia].
    + intros n [j Hj]. rewrite <- (fs_node_at _ _ _ Hroot).
      rewrite <- (fs_node_at _ _ _ Hj). apply root_minimal; [done|].
      by eapply node_at_bounds.
Qed.

(** * Routes and array cells *)

Lemma look_aget l i : 0 ≤ i < Z.of_nat (length l) → aget l i = Ok (look l i).
Proof.
  intros H. destruct (aget_exists l i H) as [v Hv]. unfold look. by rewrite Hv.
Qed.

Lemma look_aset l i v l' j :
  aset l i v = Ok l' → look l' j = if decide (j = i) then v else look l j.
Proof.
  intros H. unfold look. rewrite (aget_aset _ _ _ _ _ H).
  repeat case_decide; congruence.
Qed.

Section graph_facts.
Context (g : Graph) (Hok : graph_ok g).

Let Hnd : NoDup (cityIDs g) := proj1 (proj1 Hok).

Lemma idx_city a :
  a ∈ cityIDs g →
  ∃ c, aget (cities g) (findCityIndex g a) = Ok c ∧ cityID c = a ∧
       c ∈ cities g.
Proof.
  intros Ha. destruct (findCityIndex_some g a Ha) as (c & Hc & Hid).
  exists c. split_and!; [done..|]. by eapply aget_elem_of.
Qed.

Lemma idx_bounds a :
  a ∈ cityIDs g → 0 ≤ findCityIndex g a < numCities g.
Proof.
  intros Ha. destruct (idx_city a Ha) as (c & Hc%aget_bounds & _). done.
Qed.

Lemma idx_inj a b :
  a ∈ cityIDs g → b ∈ cityIDs g →
  findCityIndex g a = findCityIndex g b → a = b.
Proof.
  intros Ha Hb Heq.
  destruct (idx_city a Ha) as (c & Hc & <- & _).
  destruct (idx_city b Hb) as (c' & Hc' & <- & _).
  rewrite Heq in Hc. congruence.
Qed.

Lemma city_unique c c' :
  c ∈ cities g → c' ∈ cities g → cityID c = cityID c' → c = c'.
Proof.
  intros [i Hi]%elem_of_aget [j Hj]%elem_of_aget Heq.
  pose proof (findCityIndex_of_aget g i c Hnd Hi) as E1.
  pose proof (findCityIndex_of_aget g j c' Hnd Hj) as E2.
  rewrite Heq in E1. rewrite E1 in E2. subst. congruence.
Qed.

Lemma city_id_in c : c ∈ cities g → cityID c ∈ cityIDs g.
Proof. apply list_elem_of_fmap_2. Qed.

Lemma id_in_range a : a ∈ cityIDs g → 0 ≤ a < POS_SIZE.
Proof.
  intros (c & -> & Hc)%list_elem_of_fmap.
  pose proof Hok as (_ & Hr & _). unfold ids_in_range in Hr.
  rewrite Forall_forall in Hr. by apply Hr.
Qed.

Lemma edge_facts c e :
  c ∈ cities g → e ∈ adjList c →
  destCityID e ∈ cityIDs g ∧ 0 < distance e ≤ MAX_WEIGHT ∧
  road g (cityID c) (destCityID e) (distance e).
Proof.
  intros Hc He. pose proof Hok as ((_ & Hwf) & _ & Hw).
  unfold weights_bounded in Hw. rewrite Forall_forall in Hwf, Hw.
  destruct (Hwf c Hc) as [Hwf' _]. specialize (Hw c Hc).
  rewrite Forall_forall in Hwf', Hw.
  destruct (Hwf' e He). specialize (Hw e He). split_and!; try done.
  exists c. split_and!; try done. by destruct e.
Qed.

Lemma road_facts a b w :
  road g a b w →
  a ∈ cityIDs g ∧ b ∈ cityIDs g ∧ 0 < w ≤ MAX_WEIGHT.
Proof.
  intros (c & Hc & <- & He).
  destruct (edge_facts c _ Hc He) as (? & ? & _). simpl in *.
  split_and!; [by apply city_id_in | done | lia..].
Qed.

Lemma route_facts a b W :
  route g a b W → a ∈ cityIDs g ∧ b ∈ cityIDs g ∧ 0 ≤ W.
Proof.
  induction 1 as [|b c w W _ IH Hr]; [done|].
  destruct (road_facts _ _ _ Hr) as (_ & ? & ?). naive_solver lia.
Qed.

Lemma cell_aset l a v l' b :
  a ∈ cityIDs g → b ∈ cityIDs g →
  aset l (findCityIndex g a) v = Ok l' →
  cell g l' b = if decide (b = a) then v else cell g l b.
Proof.
  intros Ha Hb H. unfold cell. rewrite (look_aset _ _ _ _ _ H).
  repeat case_decide; try done; subst; try done.
  exfalso. eauto using idx_inj.
Qed.
End graph_facts.

(** The frontier argument shared by Dijkstra and A*: along any route of
    finite weight from the source there is a city, either the end of the
    route or a city outside the closed set, whose tentative distance and
    priority are bounded by the route. *)
Section frontier.
Context (g : Graph) (Hok : graph_ok g).
Context (s : Z) (closed : list Z) (dist hh : Z → Z).
Hypothesis Hsrc : dist s = 0.
Hypothesis Hcons : ∀ a b w, road g a b w → hh a ≤ w + hh b.
Hypothesis Hrel : ∀ a b w,
  a ∈ closed → road g a b w → dist a ≠ INF → dist b ≤ dist a + w.

Lemma frontier b W :
  route g s b W → W < INF →
  ∃ y, y ∈ cityIDs g ∧ (y = b ∨ y ∉ closed) ∧
       dist y ≤ W ∧ dist y + hh y ≤ W + hh b.
Proof using Hok Hsrc Hcons Hrel.
  induction 1 as [Hs|b c w W Hroute IH Hroad]; intros HW.
  - exists s. split_and!; [done|by left|lia..].
  - destruct (road_facts g Hok _ _ _ Hroad) as (Hb & Hc & Hw).
    destruct (route_facts g Hok _ _ _ Hroute) as (_ & _ & HW0).
    destruct IH as (y & Hy & Hcase & Hdy & Hfy); [lia|].
    pose proof (Hcons _ _ _ Hroad) as Hh.
    assert (y ∉ closed → ∃ y0, y0 ∈ cityIDs g ∧ (y0 = c ∨ y0 ∉ closed) ∧
              dist y0 ≤ W + w ∧ dist y0 + hh y0 ≤ W + w + hh c) as Hout.
    { intros Hny. exists y. split_and!; [done|by right|lia..]. }
    destruct Hcase as [->|Hny]; [|by apply Hout].
    destruct (decide (b ∈ closed)) as [Hin|Hnin]; [|by apply Hout].
    pose proof (Hrel _ _ _ Hin Hroad) as Hr.
    exists c. split_and!; [done|by left|lia..].
Qed.

(** A city that is not closed and has the least priority among the
    cities outside the closed set that have been reached has its final
    distance. *)
Lemma least_is_final a W :
  a ∉ closed →
  (∀ y, y ∈ cityIDs g → y ∉ closed → dist y < INF →
        dist a + hh a ≤ dist y + hh y) →
  route g s a W → W < INF → dist a ≤ W.
Proof using Hok Hsrc Hcons Hrel.
  intros Ha Hmin Hroute HW.
  destruct (frontier a W Hroute HW) as (y & Hy & [->|Hny] & Hdy & Hfy);
    [done|].
  specialize (Hmin y Hy Hny). lia.
Qed.
End frontier.

(** * Dijkstra's algorithm *)

Lemma parents_ok_update dist parent v u nd dist' parent' :
  parents_ok dist parent →
  aset dist v nd = Ok dist' → aset parent v u = Ok parent' →
  0 ≤ u < Z.of_nat (length dist) → u ≠ v →
  look dist u < nd → nd < look dist v →
  parents_ok dist' parent'.
Proof.
  intros Hp Hd Hpar Hu Huv Hlt Hnd x p.
  rewrite (aget_aset _ _ _ _ _ Hpar), (aset_length _ _ _ _ Hd).
  rewrite !(look_aset _ _ _ _ _ Hd). case_decide; subst.
  - intros [= <-]. right. split; [done|].
    rewrite decide_False by done. by rewrite decide_True.
  - intros Hx. destruct (Hp _ _ Hx) as [?|[? ?]]; [by left|right].
    split; [done|]. rewrite (decide_False (P := x = v)) by done.
    case_decide; subst; lia.
Qed.

Lemma wrap_relax du w :
  0 ≤ du ≤ INF → 0 < w ≤ MAX_WEIGHT → wrap (du + w) = du + w.
Proof.
  intros ? ?. apply wrap_id.
  unfold in_int, MAX_WEIGHT, INT_MIN, INT_MAX, INF in *. lia.
Qed.

Section dijkstra_proof.
Context (g : Graph) (Hok : graph_ok g).
Context (s : Z) (Hs : s ∈ cityIDs g).

Lemma cell_aget dist a :
  length dist = length (cities g) → a ∈ cityIDs g →
  aget dist (findCityIndex g a) = Ok (cell g dist a).
Proof using Hok.
  intros Hlen Ha. apply look_aget.
  pose proof (idx_bounds g a Ha). unfold numCities in *. lia.
Qed.

(** A successful relaxation of the road from the closed city [a] to [b]. *)
Lemma relax_update a closed dist parent h b w :
  dijkstra_inv g s (a :: closed) dist parent h →
  closed_relaxed g closed dist →
  road g a b w → cell g dist a ≠ INF →
  cell g dist a + w < cell g dist b →
  ∃ dist' parent' h',
    aset dist (findCityIndex g b) (cell g dist a + w) = Ok dist' ∧
    aset parent (findCityIndex g b) (findCityIndex g a) = Ok parent' ∧
    decreaseKey h b (cell g dist a + w) (cell g dist a + w) = Ok h' ∧
    dijkstra_inv g s (a :: closed) dist' parent' h' ∧
    closed_relaxed g closed dist' ∧
    size h' = size h ∧
    (∀ x, cell g dist' x ≤ cell g dist x) ∧
    cell g dist' a = cell g dist a ∧
    cell g dist' b = cell g dist a + w.
Proof using Hok Hs.
  intros Hinv Hrel Hroad Hdu Hlt.
  destruct Hinv as [Hdl Hpl Hsrc Hrng Hsnd Hfin Hcl Hheap Hkeys Hpar].
  destruct (road_facts g Hok _ _ _ Hroad) as (Ha & Hb & Hw).
  set (du := cell g dist a) in *. set (nd := du + w) in *.
  pose proof (Hrng a Ha) as Hrdu. pose proof (Hrng b Hb) as Hrdv.
  assert (route g s b nd) as Hroute.
  { eapply route_snoc; [|done]. by apply Hsnd. }
  assert (b ∉ a :: closed) as Hbo.
  { intros Hbc. pose proof (Hfin b nd Hbc Hroute). lia. }
  assert (a ≠ b) as Hab by (intros ->; apply Hbo, elem_of_cons; auto).
  pose proof (idx_bounds g a Ha) as Hia.
  pose proof (idx_bounds g b Hb) as Hib.
  assert (findCityIndex g a ≠ findCityIndex g b) as Hiab
    by (intros ?; apply Hab; by eapply idx_inj).
  unfold numCities in *.
  assert (aset dist (findCityIndex g b) nd
          = Ok (<[Z.to_nat (findCityIndex g b) := nd]> dist)) as Ed
    by (apply aset_exists; lia).
  assert (aset parent (findCityIndex g b) (findCityIndex g a)
          = Ok (<[Z.to_nat (findCityIndex g b) := findCityIndex g a]> parent))
    as Ep by (apply aset_exists; lia).
  set (dist' := <[Z.to_nat (findCityIndex g b) := nd]> dist) in *.
  set (parent' := <[Z.to_nat (findCityIndex g b) := findCityIndex g a]> parent) in *.
  assert (∀ x, x ∈ cityIDs g →
            cell g dist' x = if decide (x = b) then nd else cell g dist x)
    as Hcell by (intros x Hx; by eapply cell_aset).
  assert (∀ x, cell g dist' x ≤ cell g dist x) as Hmono.
  { intros x. unfold cell. rewrite (look_aset _ _ _ _ _ Ed).
    case_decide as E; [|done]. rewrite E. fold (cell g dist b). lia. }
  assert (∀ x, x ∈ a :: closed → cell g dist' x = cell g dist x) as Hsame.
  { intros x Hx. rewrite Hcell by auto. rewrite decide_False; [done|].
    by intros ->. }
  destruct Hheap as (Hsafe & Hcons & Hord).
  assert (in_heap h (mkNode b (cell g dist b) (cell g dist b))) as [i Hi].
  { apply Hkeys. exists b. done. }
  destruct (decreaseKey_resident h b nd nd i _ Hsafe Hcons Hi eq_refl) as
    (h' & Eh & Hsz & Hcap & Hsafe' & Hcons' & Hin' & _ & Hord').
  exists dist', parent', h'. split_and!; try done.
  - constructor.
    + unfold dist'. by rewrite length_insert.
    + unfold parent'. by rewrite length_insert.
    + rewrite Hcell by done. rewrite decide_False; [done|].
      intros ->. subst nd du. lia.
    + intros x Hx. rewrite Hcell by done. case_decide; [lia|auto].
    + intros x Hx. rewrite Hcell by done. case_decide; subst; auto.
    + intros x W Hx. rewrite Hsame by done. by apply Hfin.
    + done.
    + split_and!; [done..|]. apply Hord'; [done|]. simpl. lia.
    + intros m. rewrite Hin', Hkeys. split.
      * intros [->|[(x & Hx & Hxc & ->) Hne]].
        -- exists b. split_and!; [done..|]. rewrite Hcell by done.
           by rewrite decide_True.
        -- exists x. split_and!; [done..|]. rewrite Hcell by done.
           by rewrite decide_False.
      * intros (x & Hx & Hxc & ->). rewrite Hcell by done.
        case_decide; subst; [by left|right]. split; [|done]. by exists x.
    + eapply parents_ok_update; try done.
      * lia.
      * fold (cell g dist a). fold du. lia.
  - intros x c Hx Hc Hid Hne e He.
    rewrite (Hsame x) in * by (apply elem_of_cons; auto).
    etrans; [apply Hmono|]. by eapply Hrel.
  - apply Hsame, elem_of_cons; auto.
  - rewrite Hcell by done. by rewrite decide_True.
Qed.

Lemma relaxed_from_mono dist dist' a edges :
  relaxed_from g dist a edges →
  (∀ x, cell g dist' x ≤ cell g dist x) → cell g dist' a = cell g dist a →
  relaxed_from g dist' a edges.
Proof.
  intros Hrel Hmono Ha Hne e He. rewrite Ha in *.
  etrans; [apply Hmono|]. by apply Hrel.
Qed.

Lemma relaxed_from_snoc dist a edges e :
  relaxed_from g dist a edges →
  (cell g dist a ≠ INF →
   cell g dist (destCityID e) ≤ cell g dist a + distance e) →
  relaxed_from g dist a (edges ++ [e]).
Proof.
  intros Hrel He Hne e' [Hin|Hin%list_elem_of_singleton]%elem_of_app.
  - by apply Hrel.
  - subst. by apply He.
Qed.

(** The relaxation loop over the roads out of the extracted city [a]. *)
Lemma dijkstraRelax_ok a c closed :
  aget (cities g) (findCityIndex g a) = Ok c → cityID c = a →
  ∀ edges seen dist parent h,
    (∀ e, e ∈ edges → e ∈ adjList c) →
    dijkstra_inv g s (a :: closed) dist parent h →
    closed_relaxed g closed dist →
    relaxed_from g dist a seen →
    ∃ dist' parent' h',
      dijkstraRelax g edges (findCityIndex g a) dist parent h
        = Ok (dist', parent', h') ∧
      dijkstra_inv g s (a :: closed) dist' parent' h' ∧
      closed_relaxed g closed dist' ∧
      relaxed_from g dist' a (seen ++ edges) ∧
      size h' = size h.
Proof using Hok Hs.
  intros Hc Hid. pose proof (aget_elem_of _ _ _ Hc) as Hcin.
  pose proof (city_id_in g c Hcin) as Ha. rewrite Hid in Ha.
  induction edges as [|e rest IH]; intros seen dist parent h Hsub Hinv Hcl Hseen.
  { exists dist, parent, h. rewrite app_nil_r. done. }
  cbn [dijkstraRelax].
  destruct (edge_facts g Hok c e Hcin) as (Hb & Hw & Hroad);
    [apply Hsub, elem_of_cons; auto|].
  rewrite Hid in Hroad.
  set (b := destCityID e) in *. set (w := distance e) in *.
  pose proof (di_dist_len _ _ _ _ _ _ Hinv) as Hlen.
  pose proof (di_range _ _ _ _ _ _ Hinv a Ha) as Hra.
  rewrite (cell_aget dist a Hlen Ha). cbn [mbind result_bind].
  assert (∀ e', e' ∈ rest → e' ∈ adjList c) as Hsub'
    by (intros; apply Hsub, elem_of_cons; auto).
  replace (seen ++ e :: rest) with ((seen ++ [e]) ++ rest)
    by (by rewrite <- app_assoc).
  destruct (Z.eqb_spec (cell g dist a) INF) as [Hinf|Hfin]; cbn [negb].
  { apply IH; try done. apply relaxed_from_snoc; [done|]. by intros []. }
  rewrite (cell_aget dist b Hlen Hb). cbn [mbind result_bind].
  rewrite wrap_relax by done.
  destruct (Z.ltb_spec (cell g dist a + w) (cell g dist b)) as [Hlt|Hge].
  - destruct (relax_update a closed dist parent h b w) as
      (dist' & parent' & h' & -> & -> & -> & Hinv' & Hcl' & Hsz & Hmono & Ha' & Hb');
      [done..|].
    cbn [mbind result_bind].
    destruct (IH (seen ++ [e]) dist' parent' h') as
      (dist2 & parent2 & h2 & E & ? & ? & ? & Hsz2); try done.
    + apply relaxed_from_snoc.
      * by eapply relaxed_from_mono.
      * intros _. fold b w. rewrite Hb', Ha'. done.
    + exists dist2, parent2, h2. split_and!; try done. lia.
  - apply IH; try done. apply relaxed_from_snoc; [done|].
    intros _. fold b w. lia.
Qed.

Lemma closed_relaxed_road closed dist a b w :
  closed_relaxed g closed dist → a ∈ closed → road g a b w →
  cell g dist a ≠ INF → cell g dist b ≤ cell g dist a + w.
Proof.
  intros Hcl Ha (c & Hc & Hid & He) Hne.
  apply (Hcl a c Ha Hc Hid Hne _ He).
Qed.

(** The main loop. *)
Lemma dijkstraLoop_ok d (Hd : d ∈ cityIDs g) fuel :
  ∀ closed dist parent h,
    dijkstra_inv g s closed dist parent h →
    closed_relaxed g closed dist →
    (Z.to_nat (size h) < fuel)%nat →
    ∃ dist' parent',
      dijkstraLoop fuel g (findCityIndex g d) dist parent h
        = Ok (dist', parent') ∧
      search_done g s d dist' parent'.
Proof using Hok Hs.
  induction fuel as [|fuel IH]; intros closed dist parent h Hinv Hcl Hfuel;
    [lia|].
  cbn [dijkstraLoop]. unfold isHeapEmpty.
  pose proof Hinv as [Hdl Hpl Hsrc Hrng Hsnd Hfin Hclo Hheap Hkeys Hpar].
  pose proof Hheap as (Hsafe & Hcons & Hord).
  destruct (Z.eqb_spec (size h) 0) as [Hempty|Hne].
  { exists dist, parent. split; [done|]. constructor; auto.
    intros W. apply Hfin. destruct (decide (d ∈ closed)) as [|Hnin]; [done|].
    assert (in_heap h (mkNode d (cell g dist d) (cell g dist d))) as [i Hi]
      by (apply Hkeys; eauto).
    apply node_at_bounds in Hi. lia. }
  assert (0 < size h) as Hpos by (destruct Hsafe as ((_ & ? & _) & _); lia).
  destruct (extractMin_ok h Hsafe Hpos) as
    (root & h1 & -> & Hroot & Hsz1 & Hcap1 & Hsafe1 & _ & _ & Hc1 & Ho1).
  destruct (Hc1 Hcons) as (Hcons1 & Hin1 & Hnres & _).
  destruct (Ho1 Hord) as (Hord1 & Hmin).
  cbn [mbind result_bind].
  assert (in_heap h root) as Hrin by (by exists 0).
  pose proof Hrin as (a & Ha & Hac & ->)%Hkeys. cbn [hCityID fScore] in *.
  assert (∀ W, route g s a W → W < INF → cell g dist a ≤ W) as Hleast.
  { intros W. apply (least_is_final g Hok s closed (cell g dist) (fun _ => 0));
      try done.
    - intros x y w (_ & _ & ?)%(road_facts g Hok). lia.
    - intros. by eapply closed_relaxed_road.
    - intros y Hy Hyc _.
      assert (in_heap h (mkNode y (cell g dist y) (cell g dist y))) as Hyin
        by (apply Hkeys; eauto).
      specialize (Hmin _ Hyin). simpl in Hmin. lia. }
  destruct (Z.eqb_spec (findCityIndex g a) (findCityIndex g d)) as [Heq|Hneq].
  { assert (a = d) as -> by (by eapply idx_inj).
    exists dist, parent. split; [done|]. constructor; auto. }
  destruct (idx_city g a Ha) as (c & Hc & Hid & Hcin). rewrite Hc.
  cbn [mbind result_bind].
  assert (dijkstra_inv g s (a :: closed) dist parent h1) as Hinv1.
  { constructor; try done.
    - intros x W [->|Hx]%elem_of_cons; [apply Hleast|by apply Hfin].
    - intros x [->|Hx]%elem_of_cons; auto.
    - intros m. split.
      + intros Hm. assert (in_heap h m) as (x & Hx & Hxc & ->)%Hkeys
          by (apply Hin1; by right).
        exists x. split_and!; [done| |done].
        rewrite not_elem_of_cons. split; [|done].
        intros ->. apply Hnres. by exists (mkNode a (cell g dist a) (cell g dist a)).
      + intros (x & Hx & [Hxa Hxc]%not_elem_of_cons & ->).
        assert (in_heap h (mkNode x (cell g dist x) (cell g dist x))) as Hxin
          by (apply Hkeys; eauto).
        apply Hin1 in Hxin as [[=]|]; [congruence|done]. }
  assert (relaxed_from g dist a []) as Hnil by (by intros ? ? ?%elem_of_nil).
  destruct (dijkstraRelax_ok a c closed Hc Hid (adjList c) [] dist parent h1)
    as (dist' & parent' & h2 & -> & Hinv2 & Hcl2 & Hrel2 & Hsz2); try done.
  cbn [mbind result_bind].
  apply (IH (a :: closed)); [done| |lia].
  intros x c' [->|Hx]%elem_of_cons Hc' Hid'.
  - rewrite (city_unique g Hok c' c) by (done || congruence). done.
  - by eapply Hcl2.
Qed.
End dijkstra_proof.

(** * Building the result *)

Lemma filter_lt_mono (l : list Z) a b :
  a ≤ b →
  (length (filter (fun x : Z => (x < a)%Z) l) ≤ length (filter (fun x : Z => (x < b)%Z) l))%nat.
Proof.
  intros Hab. induction l as [|x l IH]; [done|].
  destruct (decide (x < a)).
  - rewrite !filter_cons_True by lia. simpl. lia.
  - rewrite (filter_cons_False (fun x : Z => (x < a)%Z)) by done.
    destruct (decide (x < b)).
    + rewrite filter_cons_True by done. simpl. lia.
    + by rewrite filter_cons_False.
Qed.

Lemma filter_lt_strict (l : list Z) a b :
  a < b → a ∈ l →
  (length (filter (fun x : Z => (x < a)%Z) l) < length (filter (fun x : Z => (x < b)%Z) l))%nat.
Proof.
  intros Hab. induction l as [|x l IH]; [by intros ?%elem_of_nil|].
  intros [->|Hin]%elem_of_cons.
  - rewrite filter_cons_False by lia. rewrite filter_cons_True by done.
    simpl. pose proof (filter_lt_mono l x b). lia.
  - specialize (IH Hin). destruct (decide (x < a)).
    + rewrite !filter_cons_True by lia. simpl. lia.
    + rewrite (filter_cons_False (fun x : Z => (x < a)%Z)) by done.
      destruct (decide (x < b)).
      * rewrite filter_cons_True by done. simpl. lia.
      * by rewrite filter_cons_False.
Qed.

Lemma filter_lt_self (l : list Z) a :
  a ∈ l → (length (filter (fun x : Z => (x < a)%Z) l) < length l)%nat.
Proof.
  induction l as [|x l IH]; [by intros ?%elem_of_nil|].
  intros [->|Hin]%elem_of_cons.
  - rewrite filter_cons_False by lia. simpl.
    pose proof (length_filter (fun y : Z => (y < x)%Z) l). lia.
  - specialize (IH Hin). destruct (decide (x < a)).
    + rewrite filter_cons_True by done. simpl. lia.
    + rewrite filter_cons_False by done. simpl. lia.
Qed.

Lemma look_elem_of l i : 0 ≤ i < Z.of_nat (length l) → look l i ∈ l.
Proof. intros H. eapply aget_elem_of. by apply look_aget. Qed.

Lemma rank_lt dist p v :
  0 ≤ p < Z.of_nat (length dist) → look dist p < look dist v →
  (rank dist p < rank dist v)%nat.
Proof.
  intros Hp Hlt. apply filter_lt_strict; [done|]. by apply look_elem_of.
Qed.

Lemma rank_bound dist v :
  0 ≤ v < Z.of_nat (length dist) → (rank dist v < length dist)%nat.
Proof. intros Hv. apply filter_lt_self. by apply look_elem_of. Qed.

Lemma createPathResult_ok n : 0 ≤ n → path_ok n (createPathResult n).
Proof.
  intros Hn. unfold path_ok, createPathResult. simpl.
  rewrite length_replicate. lia.
Qed.

Lemma addToPath_ok n pr id :
  path_ok n pr → pathLength pr < n →
  ∃ pr', addToPath pr id = Ok pr' ∧ path_ok n pr' ∧
    pathLength pr' = pathLength pr + 1 ∧
    totalDistance pr' = totalDistance pr.
Proof.
  intros (Hlen & Hcap & Hpl) Hlt. unfold addToPath.
  destruct (Z.geb_spec (pathLength pr) (pathCapacity pr)); [lia|].
  rewrite aset_exists by lia. simpl. eexists. split; [done|].
  unfold path_ok. simpl. rewrite length_insert. split_and!; lia.
Qed.

Lemma tracePath_ok g dist parent :
  parents_ok dist parent →
  length dist = length (cities g) → length parent = length (cities g) →
  ∀ fuel current pr,
    path_ok (numCities g) pr →
    current = -1 ∨
      (0 ≤ current < numCities g ∧ (rank dist current + 2 ≤ fuel)%nat ∧
       pathLength pr + Z.of_nat (rank dist current) + 1 ≤ numCities g) →
    (1 ≤ fuel)%nat →
    ∃ pr', tracePath fuel g parent current pr = Ok pr' ∧
      path_ok (numCities g) pr' ∧
      totalDistance pr' = totalDistance pr ∧
      pathLength pr ≤ pathLength pr' ∧
      (current ≠ -1 → pathLength pr < pathLength pr').
Proof.
  intros Hpar Hdl Hpl. unfold numCities.
  induction fuel as [|fuel IH]; intros current pr Hpr Hcur Hfuel; [lia|].
  cbn [tracePath]. destruct (Z.eqb_spec current (-1)) as [->|Hne].
  { exists pr. split_and!; [done..|lia|done]. }
  destruct Hcur as [?|(Hc & Hrank & Hroom)]; [done|].
  destruct (aget_exists (cities g) current) as [c ->]; [lia|].
  cbn [mbind result_bind].
  destruct (addToPath_ok _ pr (cityID c) Hpr) as (pr1 & -> & Hpr1 & Hl1 & Ht1);
    [lia|].
  cbn [mbind result_bind].
  destruct (aget_exists parent current) as [p Hp]; [lia|]. rewrite Hp.
  cbn [mbind result_bind].
  destruct (IH p pr1) as (pr' & E & ? & ? & ? & ?); [done| |lia|].
  - destruct (Hpar _ _ Hp) as [?|[Hpb Hlt]]; [by left|right].
    pose proof (rank_lt dist p current Hpb Hlt). split_and!; lia.
  - exists pr'. split_and!; [done..|lia|lia|lia].
Qed.

Lemma reverseLoop_ok k : ∀ i len (p : list Z),
  0 ≤ i → 0 ≤ len → i + Z.of_nat k ≤ len `quot` 2 →
  len ≤ Z.of_nat (length p) →
  ∃ p', reverseLoop k i len p = Ok p' ∧ length p' = length p.
Proof.
  induction k as [|k IH]; intros i len p Hi Hl0 Hk Hlen; [by exists p|].
  cbn [reverseLoop].
  assert (len `quot` 2 = len `div` 2) as Hq by (apply Z.quot_div_nonneg; lia).
  pose proof (Z.div_mod len 2). pose proof (Z.mod_pos_bound len 2).
  destruct (aget_exists p i) as [a ->]; [lia|]. cbn [mbind result_bind].
  destruct (aget_exists p (len - 1 - i)) as [b ->]; [lia|].
  cbn [mbind result_bind].
  rewrite aset_exists by lia. cbn [mbind result_bind].
  rewrite aset_exists by (rewrite length_insert; lia). cbn [mbind result_bind].
  destruct (IH (i + 1) len (<[Z.to_nat (len - 1 - i) := a]> (<[Z.to_nat i := b]> p)))
    as (p' & E & Hl); [lia|lia|lia|rewrite !length_insert; lia|].
  exists p'. split; [done|]. by rewrite Hl, !length_insert.
Qed.

Lemma reversePath_ok n pr :
  path_ok n pr →
  ∃ pr', reversePath pr = Ok pr' ∧ pathLength pr' = pathLength pr ∧
    totalDistance pr' = totalDistance pr ∧ path_ok n pr'.
Proof.
  intros (Hlen & Hcap & Hpl). unfold reversePath.
  assert (0 ≤ pathLength pr `quot` 2) by (apply Z.quot_pos; lia).
  destruct (reverseLoop_ok (Z.to_nat (pathLength pr `quot` 2)) 0
              (pathLength pr) (path pr)) as (p' & -> & Hl); [lia..|].
  simpl. eexists. split_and!; [done..|].
  unfold path_ok. simpl. rewrite Hl. done.
Qed.

(** The result built from the final arrays of a search. *)
Lemma buildPath_ok g d dist parent :
  d ∈ cityIDs g →
  length dist = length (cities g) → length parent = length (cities g) →
  parents_ok dist parent →
  ∃ pr, buildPath g dist parent (findCityIndex g d) = Ok pr ∧
    totalDistance pr = (if decide (cell g dist d = INF) then 0
                        else cell g dist d) ∧
    (pathLength pr = 0 ↔ cell g dist d = INF) ∧
    path_ok (numCities g) pr.
Proof.
  intros Hd Hdl Hpl Hpar.
  pose proof (idx_bounds g d Hd) as Hi. unfold buildPath.
  rewrite (look_aget dist) by (unfold numCities in *; lia).
  cbn [mbind result_bind]. fold (cell g dist d).
  assert (0 ≤ numCities g) as Hn by (unfold numCities; lia).
  pose proof (createPathResult_ok _ Hn) as Hpr.
  destruct (Z.eqb_spec (cell g dist d) INF) as [Hinf|Hfin].
  { eexists. split; [done|]. rewrite decide_True by done. done. }
  set (pr0 := {| path := path (createPathResult (numCities g));
                 pathLength := pathLength (createPathResult (numCities g));
                 totalDistance := cell g dist d;
                 pathCapacity := pathCapacity (createPathResult (numCities g)) |}).
  destruct (tracePath_ok g dist parent Hpar Hdl Hpl
              (S (Z.to_nat (numCities g))) (findCityIndex g d) pr0)
    as (pr1 & -> & Hpr1 & Ht1 & _ & Hl1); [done| |lia|].
  { right. split; [done|].
    pose proof (rank_bound dist (findCityIndex g d)).
    unfold numCities in *. simpl. lia. }
  cbn [mbind result_bind].
  destruct (reversePath_ok _ pr1 Hpr1) as (pr2 & -> & Hl2 & Ht2 & Hpr2).
  exists pr2. split; [done|]. rewrite decide_False by done.
  split; [by rewrite Ht2, Ht1|]. split; [|done].
  rewrite Hl2. simpl in Hl1. split; [|done]. lia.
Qed.

(** The result built from the arrays of a finished search. *)
Lemma search_answer g s d dist parent pr :
  search_done g s d dist parent →
  totalDistance pr = (if decide (cell g dist d = INF) then 0
                      else cell g dist d) →
  (pathLength pr = 0 ↔ cell g dist d = INF) →
  answer g s d pr.
Proof.
  intros [_ _ Hrng Hsnd Hleast _] Htot Hlen.
  destruct (decide (cell g dist d = INF)) as [Hinf|Hfin].
  - left. split_and!; [by apply Hlen|done|].
    intros W Hroute. destruct (decide (W < INF)) as [HW|]; [|lia].
    specialize (Hleast W Hroute HW). lia.
  - right. rewrite Htot. split_and!; [by rewrite Hlen|lia|].
    split; [by apply Hsnd|].
    intros W Hroute. destruct (decide (W < INF)) as [HW|]; [|lia].
    by apply Hleast.
Qed.

(** * Dijkstra: from the call to the result *)

Lemma createMinHeap_props cap :
  0 ≤ cap →
  heap_inv (createMinHeap cap) ∧ pos_sentinel (createMinHeap cap) ∧
  size (createMinHeap cap) = 0 ∧ hcapacity (createMinHeap cap) = cap ∧
  (∀ c, 0 ≤ c < POS_SIZE → aget (pos (createMinHeap cap)) c = Ok (-1)).
Proof.
  intros Hcap.
  assert (pos (createMinHeap cap) = replicate (Z.to_nat POS_SIZE) (-1))
    as Epos by done.
  assert (nodes (createMinHeap cap) = replicate (Z.to_nat cap) (mkNode 0 0 0))
    as Enodes by done.
  assert (size (createMinHeap cap) = 0) as Esize by done.
  assert (∀ c, 0 ≤ c < POS_SIZE → aget (pos (createMinHeap cap)) c = Ok (-1))
    as Hpos.
  { intros c Hc. rewrite Epos. apply aget_replicate. lia. }
  split_and!; try done.
  - split; [split; [|split]|split].
    + unfold heap_shape. rewrite Epos, Enodes, Esize, !length_replicate.
      change (hcapacity (createMinHeap cap)) with cap. unfold POS_SIZE. lia.
    + intros i n Hn%aget_elem_of. rewrite Enodes in Hn.
      apply elem_of_replicate in Hn as [-> _]. unfold POS_SIZE.
      cbn [hCityID]. lia.
    + intros c p Hp. pose proof (aget_bounds _ _ _ Hp) as Hb.
      rewrite Epos, length_replicate in Hb.
      rewrite Hpos in Hp by lia. left. congruence.
    + intros i n Hn%node_at_bounds. rewrite Esize in Hn. lia.
    + intros i Hi. rewrite Esize in Hi. lia.
  - intros c Hc _. by apply Hpos.
Qed.

Section dijkstra_top.
Context (g : Graph) (Hok : graph_ok g).
Context (s : Z) (Hs : s ∈ cityIDs g).

(** The loop that fills the heap. *)
Lemma insertAll_ok dist :
  length dist = length (cities g) →
  ∀ rest seen h,
    cities g = seen ++ rest →
    heap_inv h → size h = Z.of_nat (length seen) →
    hcapacity h = numCities g →
    (∀ m, in_heap h m ↔
          ∃ c, c ∈ seen ∧
               m = mkNode (cityID c) (cell g dist (cityID c))
                     (cell g dist (cityID c))) →
    ∃ h', insertAll rest (Z.of_nat (length seen)) dist h = Ok h' ∧
      heap_inv h' ∧
      (∀ m, in_heap h' m ↔
            ∃ c, c ∈ cities g ∧
                 m = mkNode (cityID c) (cell g dist (cityID c))
                       (cell g dist (cityID c))) ∧
      size h' = numCities g.
Proof using Hok.
  intros Hdl. pose proof Hok as ((Hnd & _) & _).
  induction rest as [|c rest IH]; intros seen h Hg Hinv Hsz Hcap Hin.
  { rewrite app_nil_r in Hg. subst seen. exists h. by split_and!. }
  cbn [insertAll].
  assert (aget (cities g) (Z.of_nat (length seen)) = Ok c) as Hc.
  { apply aget_Ok. split; [lia|]. rewrite Nat2Z.id, Hg.
    by rewrite list_lookup_middle. }
  pose proof (aget_bounds _ _ _ Hc) as Hb.
  pose proof (aget_elem_of _ _ _ Hc) as Hcin.
  pose proof (findCityIndex_of_aget g _ c Hnd Hc) as Hidx.
  rewrite (look_aget dist) by lia. cbn [mbind result_bind].
  assert (look dist (Z.of_nat (length seen)) = cell g dist (cityID c)) as ->
    by (unfold cell; by rewrite Hidx).
  destruct Hinv as (Hsafe & Hcons & Hord).
  assert (¬ resident h (cityID c)) as Hnres.
  { intros (m & (c' & Hc' & ->)%Hin & Hid). simpl in Hid.
    unfold cityIDs in Hnd. rewrite Hg, fmap_app in Hnd.
    apply NoDup_app in Hnd as (_ & Hdisj & _).
    apply (Hdisj (cityID c')); [by apply list_elem_of_fmap_2|].
    rewrite Hid, fmap_cons. apply elem_of_cons; auto. }
  destruct (insertHeap_ok h (cityID c) (cell g dist (cityID c))
              (cell g dist (cityID c)) Hsafe) as
    (h1 & -> & Hsz1 & Hcap1 & Hsafe1 & Hin1 & _ & Hcons1 & Hord1).
  { apply (id_in_range g Hok). by apply city_id_in. }
  { unfold numCities in *. lia. }
  cbn [mbind result_bind].
  replace (Z.of_nat (length seen) + 1) with (Z.of_nat (length (seen ++ [c])))
    by (rewrite length_app; simpl; lia).
  apply IH.
  - by rewrite <- app_assoc.
  - split_and!; auto.
  - rewrite length_app. simpl. lia.
  - lia.
  - intros m. rewrite Hin1, Hin. split.
    + intros [->|(c' & Hc' & ->)].
      * exists c. split; [|done]. apply elem_of_app. right.
        by apply list_elem_of_singleton.
      * exists c'. split; [|done]. apply elem_of_app. by left.
    + intros (c' & [Hc'|Hc'%list_elem_of_singleton]%elem_of_app & ->).
      * right. by exists c'.
      * left. by subst.
Qed.

Lemma initial_cells a :
  a ∈ cityIDs g →
  ∀ dist, aset (replicate (Z.to_nat (numCities g)) INF)
               (findCityIndex g s) 0 = Ok dist →
  cell g dist a = if decide (a = s) then 0 else INF.
Proof.
  intros Ha dist Hd. rewrite (cell_aset g _ s 0 dist a) by done.
  case_decide; [done|]. unfold cell, look.
  rewrite aget_replicate; [done|]. pose proof (idx_bounds g a Ha). lia.
Qed.

(** C1 and C3 rest on this: [dijkstra] returns a result; it is empty
    exactly when no route of weight below [INF] exists, and otherwise its
    total distance is the weight of a route and at most the weight of
    every route. *)
Lemma dijkstra_correct d :
  d ∈ cityIDs g →
  ∃ pr, dijkstra g s d = Ok (Some pr) ∧
    ((∀ W, route g s d W → INF ≤ W) →
       pathLength pr = 0 ∧ totalDistance pr = 0) ∧
    (∀ W, route g s d W → W < INF →
       pathLength pr ≠ 0 ∧ route g s d (totalDistance pr) ∧
       totalDistance pr ≤ W) ∧
    answer g s d pr ∧ path_ok (numCities g) pr.
Proof using Hok Hs.
  intros Hd. unfold dijkstra.
  destruct (Z.eqb_spec (findCityIndex g s) (-1)) as [E|_];
    [by apply findCityIndex_none in E|].
  destruct (Z.eqb_spec (findCityIndex g d) (-1)) as [E|_];
    [by apply findCityIndex_none in E|].
  cbn [orb]. pose proof (idx_bounds g s Hs) as Hsb.
  assert (aset (replicate (Z.to_nat (numCities g)) INF) (findCityIndex g s) 0
          = Ok (<[Z.to_nat (findCityIndex g s) := 0]>
                  (replicate (Z.to_nat (numCities g)) INF))) as Ed
    by (apply aset_exists; rewrite length_replicate; lia).
  rewrite Ed. cbn [mbind result_bind].
  set (dist := <[Z.to_nat (findCityIndex g s) := 0]>
                 (replicate (Z.to_nat (numCities g)) INF)) in *.
  set (parent := replicate (Z.to_nat (numCities g)) (-1)).
  assert (length dist = length (cities g)) as Hdl.
  { unfold dist. rewrite length_insert, length_replicate.
    unfold numCities. lia. }
  assert (∀ a, a ∈ cityIDs g →
            cell g dist a = if decide (a = s) then 0 else INF) as Hcell
    by (intros a Ha; by apply initial_cells).
  destruct (createMinHeap_props (numCities g)) as (Hinv0 & _ & Hsz0 & Hcap0 & _);
    [lia|].
  destruct (insertAll_ok dist Hdl (cities g) [] (createMinHeap (numCities g)))
    as (h & Eh & Hinv & Hin & Hsz); [done..| |].
  { intros m. split.
    - intros [i Hi%node_at_bounds]. rewrite Hsz0 in Hi. lia.
    - by intros (c & ?%elem_of_nil & _). }
  change (Z.of_nat (length (@nil City))) with 0 in Eh.
  rewrite Eh. cbn [mbind result_bind].
  assert (dijkstra_inv g s [] dist parent h) as Hdinv.
  { constructor; try done.
    - unfold parent. rewrite length_replicate. unfold numCities. lia.
    - rewrite Hcell by done. by rewrite decide_True.
    - intros a Ha. rewrite Hcell by done. unfold INF. case_decide; lia.
    - intros a Ha. rewrite Hcell by done. case_decide; [|done].
      subst. intros _. by constructor.
    - by intros a W ?%elem_of_nil.
    - by intros a ?%elem_of_nil.
    - intros m. rewrite Hin. split.
      + intros (c & Hc & ->). exists (cityID c).
        split_and!; [by apply city_id_in|apply not_elem_of_nil|done].
      + intros (a & Ha & _ & ->).
        destruct (idx_city g a Ha) as (c & _ & <- & Hc). by exists c.
    - intros v p Hp. left. apply aget_elem_of in Hp.
      by apply elem_of_replicate in Hp as [-> _]. }
  destruct (dijkstraLoop_ok g Hok s Hs d Hd (S (Z.to_nat (numCities g)))
              [] dist parent h Hdinv) as (dist' & parent' & -> & Hdone).
  { by intros a c ?%elem_of_nil. }
  { lia. }
  cbn [mbind result_bind].
  destruct (buildPath_ok g d dist' parent' Hd) as
    (pr & -> & Htot & Hlen & Hwell); [apply Hdone..|].
  cbn [mbind result_bind]. exists pr. split; [done|].
  pose proof (search_answer _ _ _ _ _ _ Hdone Htot Hlen) as Hans.
  destruct Hdone as [_ _ Hrng Hsnd Hleast _]. split; [|split; [|done]].
  - intros Hnone. destruct (decide (cell g dist' d = INF)) as [Hinf|Hfin].
    + split; [by apply Hlen | done].
    + specialize (Hnone _ (Hsnd Hfin)). lia.
  - intros W Hroute HW. pose proof (Hleast W Hroute HW).
    assert (cell g dist' d ≠ INF) as Hfin by lia.
    rewrite decide_False in Htot by done. rewrite Htot.
    split_and!; [by rewrite Hlen|by apply Hsnd|done].
Qed.
End dijkstra_top.

(** * Dijkstra's results and the heap invariant *)

(** C1, as amended: on a graph that satisfies the data-model invariants,
    whose identifiers lie in [0, 999] and whose weights are at most
    [INT_MAX - INF], with both endpoints present, [dijkstra] returns a
    result; the result is empty exactly when no directed path of total
    weight below [INF] = 999999 exists, and when such a path exists the
    total distance is the minimum weight over all directed paths. *)
Theorem dijkstra_optimal g s d :
  graph_ok g → s ∈ cityIDs g → d ∈ cityIDs g →
  ∃ pr, dijkstra g s d = Ok (Some pr) ∧
    (pathLength pr = 0 ↔ ∀ W, route g s d W → INF ≤ W) ∧
    ((∃ W, route g s d W ∧ W < INF) → shortest g s d (totalDistance pr)).
Proof.
  intros Hok Hs Hd.
  destruct (dijkstra_correct g Hok s Hs d Hd) as (pr & E & Hnone & Hsome & _).
  exists pr. split; [done|]. split; [split|].
  - intros Hlen W Hroute. destruct (decide (W < INF)) as [HW|]; [|lia].
    by destruct (Hsome W Hroute HW).
  - intros H. by apply Hnone.
  - intros (W & Hroute & HW).
    destruct (Hsome W Hroute HW) as (_ & Hr & Hle). split; [done|].
    intros W' Hroute'. destruct (decide (W' < INF)) as [HW'|]; [|lia].
    by destruct (Hsome W' Hroute' HW') as (_ & _ & ?).
Qed.

Lemma graphFar_ok : graph_ok graphFar.
Proof. apply (bool_decide_unpack _). by vm_compute. Qed.

Lemma dijkstra_optimal_witness :
  ∃ pr, dijkstra graph4 1 4 = Ok (Some pr) ∧
    (pathLength pr = 0 ↔ ∀ W, route graph4 1 4 W → INF ≤ W) ∧
    ((∃ W, route graph4 1 4 W ∧ W < INF) →
     shortest graph4 1 4 (totalDistance pr)).
Proof.
  apply dijkstra_optimal.
  - apply (bool_decide_unpack _). by vm_compute.
  - apply (bool_decide_unpack _). by vm_compute.
  - apply (bool_decide_unpack _). by vm_compute.
Defined.

(** C1 as stated fails: a single road of weight 999999 is a directed path,
    and it is the shortest one, yet [dijkstra] returns the empty result. *)
Lemma dijkstra_far_is_empty :
  graph_wf graphFar ∧ shortest graphFar 1 2 999999 ∧
  ∃ pr, dijkstra graphFar 1 2 = Ok (Some pr) ∧
    pathLength pr = 0 ∧ totalDistance pr = 0.
Proof.
  split; [apply graphFar_ok|]. split.
  - split.
    + change 999999 with (0 + 999999). eapply route_snoc.
      * constructor. apply (bool_decide_unpack _). by vm_compute.
      * eexists. split; [apply elem_of_cons; by left|]. split; [done|].
        apply elem_of_cons. by left.
    + intros W' Hroute. inversion Hroute as [|b c w W Hr Hroad]; subst.
      destruct (route_facts _ graphFar_ok _ _ _ Hr) as (_ & _ & ?).
      destruct Hroad as (c & Hc & <- & He).
      apply elem_of_cons in Hc as [->|Hc].
      * simpl in He. apply list_elem_of_singleton in He. injection He as <-. lia.
      * apply list_elem_of_singleton in Hc as ->. simpl in He.
        by apply elem_of_nil in He.
  - eexists. split; [by vm_compute|]. done.
Qed.

(** C4, as amended: on the example network (A, B, C, D with identifiers
    1, 2, 3, 4) [dijkstra] from A to D returns the path A, B, D with total
    distance 7. *)
Theorem dijkstra_example :
  build4 = Ok graph4 ∧
  ∃ pr, dijkstra graph4 1 4 = Ok (Some pr) ∧
    pathIDs pr = [1; 2; 4] ∧ totalDistance pr = 7.
Proof.
  split; [by vm_compute|]. eexists. split; [by vm_compute|]. done.
Qed.

(** C4 as stated fails: the returned path is not A, C, D. *)
Lemma dijkstra_example_not_via_C :
  build4 = Ok graph4 ∧
  ∃ pr, dijkstra graph4 1 4 = Ok (Some pr) ∧ pathIDs pr ≠ [1; 3; 4].
Proof.
  split; [by vm_compute|]. eexists. split; [by vm_compute|]. done.
Qed.

(** C2 fails on the code: extracting the only node of a heap writes the
    sentinel for the root and then overwrites it with slot 0, because the
    root is also the last node; the table entry of the city that left the
    heap is 0.  A later [decreaseKey] for that city then rewrites the
    scores of whichever node is in slot 0 and breaks the heap order. *)
Theorem extractMin_last_leaves_slot :
  ∃ h1 n h2 h3 h4 h5,
    insertHeap (createMinHeap 4) 5 10 10 = Ok h1 ∧
    extractMin h1 = Ok (n, h2) ∧
    hCityID n = 5 ∧ size h2 = 0 ∧ ¬ resident h2 5 ∧
    aget (pos h2) 5 = Ok 0 ∧
    ¬ pos_sentinel h2 ∧
    insertHeap h2 7 1 1 = Ok h3 ∧
    insertHeap h3 8 2 2 = Ok h4 ∧
    decreaseKey h4 5 3 3 = Ok h5 ∧
    fs h5 0 = 3 ∧ fs h5 1 = 2 ∧ size h5 = 2 ∧
    ¬ heap_ordered h5.
Proof.
  do 6 eexists.
  split; [by vm_compute|]. split; [by vm_compute|].
  split; [done|]. split; [done|].
  assert (∀ h, size h = 0 → ¬ resident h 5) as Hnr.
  { intros h Hsz (m & [i Hi%node_at_bounds] & _). lia. }
  split; [by apply Hnr|]. split; [by vm_compute|].
  split.
  { intros Hs. specialize (Hs 5).
    assert (@Ok Z 0 = Ok (-1)) as He; [|discriminate].
    rewrite <- Hs; [by vm_compute | unfold POS_SIZE; lia | by apply Hnr]. }
  split; [by vm_compute|]. split; [by vm_compute|]. split; [by vm_compute|].
  split; [by vm_compute|]. split; [by vm_compute|]. split; [done|].
  intros Hord. specialize (Hord 1). simpl in Hord.
  assert (3 ≤ 2) by (apply Hord; lia). lia.
Qed.

(** * A*: termination and memory safety for every heuristic *)

Lemma zsum_insert (l : list Z) i old v :
  l !! i = Some old → zsum (<[i := v]> l) = zsum l - old + v.
Proof.
  revert i. induction l as [|x l IH]; intros [|i] H; simplify_eq/=; [lia|].
  rewrite (IH i) by done. lia.
Qed.

Lemma zsum_nonneg (l : list Z) : Forall (fun v => 0 ≤ v ≤ INF) l → 0 ≤ zsum l.
Proof. induction 1; simpl; lia. Qed.

Lemma zsum_aset l i v l' :
  aset l i v = Ok l' → zsum l' = zsum l - look l i + v.
Proof.
  intros [Hi ->]%aset_Ok.
  destruct (aget_exists l i Hi) as [old Hold].
  unfold look. rewrite Hold. apply aget_Ok in Hold as [_ Hold].
  by apply zsum_insert.
Qed.

Lemma zsum_replicate n v : zsum (replicate n v) = Z.of_nat n * v.
Proof. induction n as [|n IH]; [done|]. simpl. rewrite IH. lia. Qed.

Lemma heuristic_total g i j :
  0 ≤ i < numCities g → 0 ≤ j < numCities g → ∃ v, heuristic g i j = Ok v.
Proof.
  intros Hi Hj. unfold heuristic.
  destruct (aget_exists (cities g) i) as [c1 ->]; [done|].
  destruct (aget_exists (cities g) j) as [c2 ->]; [done|].
  simpl. by eexists.
Qed.

Section astar_safe.
Context (g : Graph) (Hok : graph_ok g).
Context (s : Z) (Hs : s ∈ cityIDs g).

Lemma safe_cell_range gScore a :
  length gScore = length (cities g) →
  Forall (fun v => 0 ≤ v ≤ INF) gScore → a ∈ cityIDs g →
  0 ≤ cell g gScore a ≤ INF.
Proof.
  intros Hlen Hr Ha. rewrite Forall_forall in Hr. apply Hr.
  apply look_elem_of. pose proof (idx_bounds g a Ha).
  unfold numCities in *. lia.
Qed.

(** One road out of the extracted city [a], relaxed successfully. *)
Lemma astar_update_safe a b w destIndex gScore fScores parent h :
  astar_safe g s gScore fScores parent h →
  road g a b w → cell g gScore a ≠ INF →
  cell g gScore a + w < cell g gScore b →
  0 ≤ destIndex < numCities g →
  ∃ gScore' fScores' parent' hv h',
    aset parent (findCityIndex g b) (findCityIndex g a) = Ok parent' ∧
    aset gScore (findCityIndex g b) (cell g gScore a + w) = Ok gScore' ∧
    heuristic g (findCityIndex g b) destIndex = Ok hv ∧
    aset fScores (findCityIndex g b) (wrap (cell g gScore a + w + hv))
      = Ok fScores' ∧
    (p ← aget (pos h) b;
     if p =? -1
     then insertHeap h b (cell g gScore a + w) (wrap (cell g gScore a + w + hv))
     else decreaseKey h b (cell g gScore a + w) (wrap (cell g gScore a + w + hv)))
      = Ok h' ∧
    astar_safe g s gScore' fScores' parent' h' ∧
    cell g gScore' a ≠ INF ∧
    2 * zsum gScore' + size h' ≤ 2 * zsum gScore + size h.
Proof using Hok Hs.
  intros [Hgl Hfl Hpl Hrng Hsnd Hsafe Hres Hpar] Hroad Hgu Hlt Hdest.
  destruct (road_facts g Hok _ _ _ Hroad) as (Ha & Hb & Hw).
  pose proof (safe_cell_range _ a Hgl Hrng Ha) as Hra.
  pose proof (safe_cell_range _ b Hgl Hrng Hb) as Hrb.
  set (nd := cell g gScore a + w) in *.
  pose proof (idx_bounds g a Ha) as Hia.
  pose proof (idx_bounds g b Hb) as Hib.
  assert (a ≠ b) as Hab by (intros ->; lia).
  assert (findCityIndex g a ≠ findCityIndex g b) as Hiab
    by (intros ?; apply Hab; by eapply idx_inj).
  unfold numCities in *.
  destruct (heuristic_total g (findCityIndex g b) destIndex) as [hv Hhv];
    [done..|].
  set (fv := wrap (nd + hv)).
  assert (aset parent (findCityIndex g b) (findCityIndex g a)
          = Ok (<[Z.to_nat (findCityIndex g b) := findCityIndex g a]> parent))
    as Ep by (apply aset_exists; lia).
  assert (aset gScore (findCityIndex g b) nd
          = Ok (<[Z.to_nat (findCityIndex g b) := nd]> gScore)) as Eg
    by (apply aset_exists; lia).
  assert (aset fScores (findCityIndex g b) fv
          = Ok (<[Z.to_nat (findCityIndex g b) := fv]> fScores)) as Ef
    by (apply aset_exists; lia).
  set (parent' := <[Z.to_nat (findCityIndex g b) := findCityIndex g a]> parent) in *.
  set (gScore' := <[Z.to_nat (findCityIndex g b) := nd]> gScore) in *.
  set (fScores' := <[Z.to_nat (findCityIndex g b) := fv]> fScores) in *.
  assert (∀ x, x ∈ cityIDs g →
            cell g gScore' x = if decide (x = b) then nd else cell g gScore x)
    as Hcell by (intros x Hx; by eapply cell_aset).
  pose proof (id_in_range g Hok b Hb) as Hbr.
  assert (∃ h', (p ← aget (pos h) b;
                 if p =? -1 then insertHeap h b nd fv
                 else decreaseKey h b nd fv) = Ok h' ∧
            heap_safe h' ∧ size h' ≤ size h + 1 ∧
            ∀ c, resident h' c → c = b ∨ resident h c) as
    (h' & Eh & Hsafe' & Hsz' & Hres').
  { pose proof Hsafe as ((_ & _ & Hposlen) & _).
    destruct (aget_exists (pos h) b) as [p ->]; [lia|]. cbn [mbind result_bind].
    destruct (Z.eqb_spec p (-1)) as [->|Hp].
    - destruct (decide (size h < hcapacity h)) as [Hroom|Hfull].
      + destruct (insertHeap_ok h b nd fv Hsafe Hbr Hroom) as
          (h' & -> & Hsz & _ & Hsafe' & Hin & _).
        exists h'. split_and!; [done..|lia|].
        intros c (m & [->|Hm]%Hin & Hid); [by left|right]. by exists m.
      + rewrite insertHeap_full by lia. exists h. split_and!; [done..|lia|auto].
    - destruct (decreaseKey_safe h b nd fv Hsafe Hbr) as
        (h' & -> & Hsz & _ & Hsafe' & Hr & _).
      exists h'. split_and!; [done..|lia|]. intros c Hc. right. by apply Hr. }
  exists gScore', fScores', parent', hv, h'. split_and!; try done.
  - constructor.
    + unfold gScore'. by rewrite length_insert.
    + unfold fScores'. by rewrite length_insert.
    + unfold parent'. by rewrite length_insert.
    + apply Forall_insert; [done|lia].
    + intros x Hx. rewrite Hcell by done. case_decide; subst; [|auto].
      intros _. eapply route_snoc; [|done]. by apply Hsnd.
    + done.
    + intros x [->|Hx]%Hres'.
      * split; [done|]. rewrite Hcell by done. rewrite decide_True by done. lia.
      * destruct (Hres x Hx) as [Hxi Hxg]. split; [done|].
        rewrite Hcell by done. case_decide; [lia|done].
    + eapply parents_ok_update; try done.
      * lia.
      * fold (cell g gScore a). lia.
  - rewrite Hcell by done. by rewrite decide_False.
  - rewrite (zsum_aset _ _ _ _ Eg). fold (cell g gScore b). lia.
Qed.

Lemma astarRelax_safe a c destIndex :
  aget (cities g) (findCityIndex g a) = Ok c → cityID c = a →
  0 ≤ destIndex < numCities g →
  ∀ edges gScore fScores parent h,
    (∀ e, e ∈ edges → e ∈ adjList c) →
    astar_safe g s gScore fScores parent h →
    cell g gScore a ≠ INF →
    ∃ gScore' fScores' parent' h',
      astarRelax g edges (findCityIndex g a) destIndex gScore fScores parent h
        = Ok (gScore', fScores', parent', h') ∧
      astar_safe g s gScore' fScores' parent' h' ∧
      cell g gScore' a ≠ INF ∧
      2 * zsum gScore' + size h' ≤ 2 * zsum gScore + size h.
Proof using Hok Hs.
  intros Hc Hid Hdest. pose proof (aget_elem_of _ _ _ Hc) as Hcin.
  pose proof (city_id_in g c Hcin) as Ha. rewrite Hid in Ha.
  induction edges as [|e rest IH]; intros gScore fScores parent h Hsub Hinv Hgu.
  { exists gScore, fScores, parent, h. split_and!; [done..|lia]. }
  cbn [astarRelax].
  destruct (edge_facts g Hok c e Hcin) as (Hb & Hw & Hroad);
    [apply Hsub, elem_of_cons; auto|].
  rewrite Hid in Hroad.
  set (b := destCityID e) in *. set (w := distance e) in *.
  pose proof (as_g_len _ _ _ _ _ _ Hinv) as Hlen.
  pose proof (safe_cell_range _ a Hlen (as_range _ _ _ _ _ _ Hinv) Ha) as Hra.
  pose proof (safe_cell_range _ b Hlen (as_range _ _ _ _ _ _ Hinv) Hb) as Hrb.
  rewrite (cell_aget g Hok gScore a Hlen Ha). cbn [mbind result_bind].
  rewrite (cell_aget g Hok gScore b Hlen Hb). cbn [mbind result_bind].
  rewrite wrap_relax by done.
  assert (∀ e', e' ∈ rest → e' ∈ adjList c) as Hsub'
    by (intros; apply Hsub, elem_of_cons; auto).
  destruct (Z.ltb_spec (cell g gScore a + w) (cell g gScore b)) as [Hlt|Hge].
  - destruct (astar_update_safe a b w destIndex gScore fScores parent h) as
      (gScore' & fScores' & parent' & hv & h' & E1 & E2 & E3 & E4 & Eh
       & Hinv' & Hgu' & Hm); [done..|].
    rewrite E1. cbn [mbind result_bind]. rewrite E2. cbn [mbind result_bind].
    rewrite E3. cbn [mbind result_bind]. rewrite E4. cbn [mbind result_bind].
    apply bind_Ok in Eh as (p & -> & Eh). cbn [mbind result_bind].
    rewrite Eh. cbn [mbind result_bind].
    destruct (IH gScore' fScores' parent' h') as
      (g2 & f2 & p2 & h2 & -> & ? & ? & ?); [done..|].
    exists g2, f2, p2, h2. split_and!; [done..|lia].
  - by apply IH.
Qed.

Lemma astarLoop_safe d (Hd : d ∈ cityIDs g) fuel :
  ∀ gScore fScores parent h,
    astar_safe g s gScore fScores parent h →
    (Z.to_nat (2 * zsum gScore + size h) < fuel)%nat →
    ∃ gScore' parent',
      astarLoop fuel g (findCityIndex g d) gScore fScores parent h
        = Ok (gScore', parent') ∧
      length gScore' = length (cities g) ∧
      length parent' = length (cities g) ∧
      (∀ a, a ∈ cityIDs g → cell g gScore' a ≠ INF →
            route g s a (cell g gScore' a)) ∧
      parents_ok gScore' parent'.
Proof using Hok Hs.
  induction fuel as [|fuel IH]; intros gScore fScores parent h Hinv Hfuel;
    [lia|].
  cbn [astarLoop]. unfold isHeapEmpty.
  pose proof Hinv as [Hgl Hfl Hpl Hrng Hsnd Hsafe Hres Hpar].
  destruct (Z.eqb_spec (size h) 0) as [Hempty|Hne].
  { exists gScore, parent. by split_and!. }
  assert (0 < size h) as Hpos by (destruct Hsafe as ((_ & ? & _) & _); lia).
  destruct (extractMin_ok h Hsafe Hpos) as
    (root & h1 & -> & Hroot & Hsz1 & _ & Hsafe1 & Hres1 & _).
  cbn [mbind result_bind].
  destruct (Hres (hCityID root)) as [Ha Hga].
  { apply resident_in_heap. by exists 0. }
  set (a := hCityID root) in *.
  destruct (Z.eqb_spec (findCityIndex g a) (findCityIndex g d)) as [Heq|Hneq].
  { exists gScore, parent. by split_and!. }
  destruct (idx_city g a Ha) as (c & Hc & Hid & Hcin). rewrite Hc.
  cbn [mbind result_bind].
  assert (astar_safe g s gScore fScores parent h1) as Hinv1
    by (constructor; auto).
  destruct (astarRelax_safe a c (findCityIndex g d) Hc Hid (idx_bounds g d Hd)
              (adjList c) gScore fScores parent h1) as
    (g2 & f2 & p2 & h2 & -> & Hinv2 & _ & Hm); [done..|].
  cbn [mbind result_bind]. apply IH; [done|].
  pose proof (zsum_nonneg _ Hrng).
  pose proof (zsum_nonneg _ (as_range _ _ _ _ _ _ Hinv2)).
  pose proof (as_heap _ _ _ _ _ _ Hinv2) as ((_ & ? & _) & _). lia.
Qed.

(** [astar] returns a result for every heuristic, given enough fuel; a
    non-empty result carries the weight of a route. *)
Lemma astar_total d :
  d ∈ cityIDs g →
  ∀ fuel, (astar_fuel g ≤ fuel)%nat →
  ∃ pr, astar fuel g s d = Ok (Some pr) ∧
    ((∀ W, ¬ route g s d W) → pathLength pr = 0 ∧ totalDistance pr = 0) ∧
    (pathLength pr ≠ 0 → route g s d (totalDistance pr)) ∧
    path_ok (numCities g) pr.
Proof using Hok Hs.
  intros Hd fuel Hfuel. unfold astar.
  destruct (Z.eqb_spec (findCityIndex g s) (-1)) as [E|_];
    [by apply findCityIndex_none in E|].
  destruct (Z.eqb_spec (findCityIndex g d) (-1)) as [E|_];
    [by apply findCityIndex_none in E|].
  cbn [orb]. pose proof (idx_bounds g s Hs) as Hsb.
  pose proof (idx_bounds g d Hd) as Hdb.
  assert (aset (replicate (Z.to_nat (numCities g)) INF) (findCityIndex g s) 0
          = Ok (<[Z.to_nat (findCityIndex g s) := 0]>
                  (replicate (Z.to_nat (numCities g)) INF))) as Eg
    by (apply aset_exists; rewrite length_replicate; lia).
  rewrite Eg. cbn [mbind result_bind].
  set (gScore := <[Z.to_nat (findCityIndex g s) := 0]>
                   (replicate (Z.to_nat (numCities g)) INF)) in *.
  destruct (heuristic_total g (findCityIndex g s) (findCityIndex g d))
    as [h0 ->]; [done..|].
  cbn [mbind result_bind].
  rewrite aset_exists by (rewrite length_replicate; lia).
  cbn [mbind result_bind].
  set (fScores := <[Z.to_nat (findCityIndex g s) := h0]>
                    (replicate (Z.to_nat (numCities g)) INF)).
  set (parent := replicate (Z.to_nat (numCities g)) (-1)).
  destruct (idx_city g s Hs) as (src & -> & Hsrc & _).
  cbn [mbind result_bind].
  rewrite (aget_aset_eq _ _ _ _ Eg). cbn [mbind result_bind].
  assert (aget fScores (findCityIndex g s) = Ok h0) as ->.
  { eapply aget_aset_eq. apply aset_exists. rewrite length_replicate. lia. }
  cbn [mbind result_bind]. rewrite Hsrc.
  destruct (createMinHeap_props (numCities g)) as
    ((Hsafe0 & _) & _ & Hsz0 & Hcap0 & _); [lia|].
  destruct (insertHeap_ok (createMinHeap (numCities g)) s 0 h0 Hsafe0) as
    (h & -> & Hsz & _ & Hsafe & Hin & _).
  { by apply (id_in_range g Hok). }
  { lia. }
  cbn [mbind result_bind].
  assert (∀ a, a ∈ cityIDs g →
            cell g gScore a = if decide (a = s) then 0 else INF) as Hcell
    by (intros a Ha; by apply initial_cells).
  assert (astar_safe g s gScore fScores parent h) as Hinv.
  { constructor.
    - unfold gScore. rewrite length_insert, length_replicate.
      unfold numCities. lia.
    - unfold fScores. rewrite length_insert, length_replicate.
      unfold numCities. lia.
    - unfold parent. rewrite length_replicate. unfold numCities. lia.
    - apply Forall_insert; [|unfold INF; lia].
      apply Forall_replicate. unfold INF. lia.
    - intros a Ha. rewrite Hcell by done. case_decide; [|done].
      subst. intros _. by constructor.
    - done.
    - intros c (m & [->|[i Hi%node_at_bounds]]%Hin & Hid); [|lia].
      simpl in Hid. subst c. split; [done|]. rewrite Hcell by done.
      rewrite decide_True by done. unfold INF. lia.
    - intros v p Hp. left. apply aget_elem_of in Hp.
      by apply elem_of_replicate in Hp as [-> _]. }
  destruct (astarLoop_safe d Hd fuel gScore fScores parent h Hinv) as
    (g' & p' & -> & Hgl & Hpl & Hsnd & Hpar).
  { assert (zsum gScore = (numCities g - 1) * INF) as ->.
    { rewrite (zsum_aset _ _ _ _ Eg), zsum_replicate.
      unfold look. rewrite aget_replicate by lia. lia. }
    unfold astar_fuel in Hfuel. unfold INF in *. lia. }
  cbn [mbind result_bind].
  destruct (buildPath_ok g d g' p' Hd Hgl Hpl Hpar) as
    (pr & -> & Htot & Hlen & Hwell).
  cbn [mbind result_bind]. exists pr. split; [done|]. split; [|split; [|done]].
  - intros Hnone. destruct (decide (cell g g' d = INF)) as [Hinf|Hfin].
    + split; [by apply Hlen|done].
    + destruct (Hnone _ (Hsnd d Hd Hfin)).
  - intros Hne. destruct (decide (cell g g' d = INF)) as [Hinf|Hfin].
    + by apply Hlen in Hinf.
    + rewrite Htot. by apply Hsnd.
Qed.
End astar_safe.

(** * A* with an admissible heuristic *)

Lemma sqrt_triangle a1 a2 b1 b2 w :
  0 < w → a1 ^ 2 + a2 ^ 2 ≤ w ^ 2 →
  Z.sqrt ((a1 + b1) ^ 2 + (a2 + b2) ^ 2) ≤ w + Z.sqrt (b1 ^ 2 + b2 ^ 2).
Proof.
  intros Hw HA. rewrite !Z.pow_2_r in *.
  set (B := b1 * b1 + b2 * b2). set (k := Z.sqrt B).
  pose proof (Z.square_nonneg b1). pose proof (Z.square_nonneg b2).
  pose proof (Z.square_nonneg a1). pose proof (Z.square_nonneg a2).
  assert (0 ≤ B) as HB by (unfold B; lia).
  pose proof (Z.sqrt_spec B HB) as [Hk1 Hk2]. fold k in Hk1, Hk2.
  pose proof (Z.sqrt_nonneg B) as Hk0. fold k in Hk0.
  apply Z.lt_succ_r. apply Z.sqrt_lt_square.
  { pose proof (Z.square_nonneg (a1 + b1)).
    pose proof (Z.square_nonneg (a2 + b2)). lia. }
  { lia. }
  set (A := a1 * a1 + a2 * a2) in *.
  set (cross := a1 * b1 + a2 * b2).
  set (m := w * (k + 1)).
  assert (0 < m) as Hm by (unfold m; apply Z.mul_pos_pos; lia).
  assert (cross * cross ≤ A * B) as Hcs.
  { pose proof (Z.square_nonneg (a1 * b2 - a2 * b1)) as Hsq.
    replace (A * B) with
      (cross * cross + (a1 * b2 - a2 * b1) * (a1 * b2 - a2 * b1))
      by (unfold A, B, cross; ring).
    lia. }
  assert (A * B ≤ w * w * B) as HAB
    by (apply Z.mul_le_mono_nonneg_r; lia).
  assert (w * w * B ≤ w * w * ((k + 1) * (k + 1) - 1)) as HwB.
  { apply Z.mul_le_mono_nonneg_l; [|lia]. apply Z.square_nonneg. }
  assert (w * w * ((k + 1) * (k + 1) - 1) = m * m - w * w) as Heq
    by (unfold m; ring).
  assert (0 < w * w) as Hww by (apply Z.mul_pos_pos; lia).
  assert (cross < m) as Hcross.
  { destruct (Z.lt_ge_cases cross m) as [|Hge]; [done|].
    assert (m * m ≤ cross * cross) by (apply Z.mul_le_mono_nonneg; lia).
    lia. }
  replace ((a1 + b1) * (a1 + b1) + (a2 + b2) * (a2 + b2))
    with (A + B + 2 * cross) by (unfold A, B, cross; ring).
  replace (Z.succ (w + k) * Z.succ (w + k))
    with (w * w + (k + 1) * (k + 1) + 2 * m) by (unfold m; ring).
  replace (Z.succ k * Z.succ k) with ((k + 1) * (k + 1)) in Hk2 by ring.
  lia.
Qed.

Lemma square_bound a n : - n ≤ a ≤ n → 0 ≤ a * a ≤ n * n.
Proof.
  intros H. split; [apply Z.square_nonneg|].
  destruct (Z.le_ge_cases 0 a).
  - apply Z.mul_le_mono_nonneg; lia.
  - replace (a * a) with ((- a) * (- a)) by ring.
    apply Z.mul_le_mono_nonneg; lia.
Qed.

Section heuristic.
Context (g : Graph) (Hok : graph_ok g).
Context (Hcoords : coords_bounded g) (Hadm : admissible g).
Context (d : Z) (Hd : d ∈ cityIDs g).

Lemma city_coords c :
  c ∈ cities g →
  - COORD_MAX ≤ x c ≤ COORD_MAX ∧ - COORD_MAX ≤ y c ≤ COORD_MAX.
Proof using Hcoords.
  intros Hc. unfold coords_bounded in Hcoords.
  rewrite Forall_forall in Hcoords. by apply Hcoords.
Qed.

Lemma heuristic_exact a :
  a ∈ cityIDs g →
  heuristic g (findCityIndex g a) (findCityIndex g d) = Ok (hcost g d a) ∧
  0 ≤ hcost g d a ≤ 46340.
Proof using Hcoords Hd.
  intros Ha.
  destruct (idx_city g a Ha) as (c1 & E1 & _ & Hc1).
  destruct (idx_city g d Hd) as (c2 & E2 & _ & Hc2).
  unfold heuristic, hcost. rewrite E1, E2. cbn [mbind result_bind].
  destruct (city_coords c1 Hc1) as [Hx1 Hy1].
  destruct (city_coords c2 Hc2) as [Hx2 Hy2].
  unfold COORD_MAX in *.
  set (dx := x c1 - x c2) in *. set (dy := y c1 - y c2) in *.
  assert (- 32766 ≤ dx ≤ 32766) as Hdx by (unfold dx; lia).
  assert (- 32766 ≤ dy ≤ 32766) as Hdy by (unfold dy; lia).
  pose proof (square_bound dx 32766 Hdx) as Hdx2.
  pose proof (square_bound dy 32766 Hdy) as Hdy2.
  rewrite (wrap_id dx), (wrap_id dy)
    by (unfold in_int, INT_MIN, INT_MAX; lia).
  rewrite (wrap_id (dx * dx)), (wrap_id (dy * dy))
    by (unfold in_int, INT_MIN, INT_MAX; lia).
  rewrite wrap_id by (unfold in_int, INT_MIN, INT_MAX; lia).
  unfold int_sqrt. destruct (Z.ltb_spec (dx * dx + dy * dy) 0); [lia|].
  rewrite !Z.pow_2_r.
  split; [done|]. split; [apply Z.sqrt_nonneg|].
  apply Z.lt_succ_r. apply Z.sqrt_lt_square; lia.
Qed.

Lemma hcost_consistent a b w :
  road g a b w → hcost g d a ≤ w + hcost g d b.
Proof using Hok Hadm Hd.
  intros Hroad. destruct (road_facts g Hok _ _ _ Hroad) as (Ha & Hb & Hw).
  destruct Hroad as (c & Hc & Hid & He).
  destruct (idx_city g a Ha) as (c1 & E1 & Hid1 & Hc1).
  destruct (idx_city g b Hb) as (c2 & E2 & Hid2 & Hc2).
  destruct (idx_city g d Hd) as (c3 & E3 & _ & Hc3).
  assert (c1 = c) as -> by (apply (city_unique g Hok); congruence).
  unfold hcost. rewrite E1, E2, E3.
  unfold admissible in Hadm. rewrite Forall_forall in Hadm.
  specialize (Hadm c Hc). rewrite Forall_forall in Hadm.
  specialize (Hadm _ He). rewrite Forall_forall in Hadm.
  specialize (Hadm c2 Hc2 Hid2). simpl in Hadm.
  replace (x c - x c3) with ((x c - x c2) + (x c2 - x c3)) by lia.
  replace (y c - y c3) with ((y c - y c2) + (y c2 - y c3)) by lia.
  apply sqrt_triangle; [lia|done].
Qed.
End heuristic.

(** * A*: the loops under an admissible heuristic *)

(** A consistent heap whose resident cities are among [ids] and miss one
    of them has a free slot. *)
Lemma heap_room h (ids : list Z) b :
  heap_shape h → pos_consistent h →
  (∀ c, resident h c → c ∈ ids ∧ c ≠ b) → b ∈ ids →
  size h < Z.of_nat (length ids).
Proof.
  intros (Hlen & Hsz & _) Hcons Hres Hb.
  set (l := hCityID <$> take (Z.to_nat (size h)) (nodes h)).
  assert (length l = Z.to_nat (size h)) as Hl.
  { unfold l. rewrite length_fmap, length_take. lia. }
  assert (∀ i c, l !! i = Some c →
            ∃ n, node_at h (Z.of_nat i) n ∧ hCityID n = c) as Hlook.
  { intros i c Hi. unfold l in Hi. rewrite list_lookup_fmap in Hi.
    apply fmap_Some in Hi as (n & Hn & ->).
    apply lookup_take_Some in Hn as [Hn Hlt]. exists n. split; [|done].
    split; [lia|]. apply aget_Ok. rewrite Nat2Z.id. split; [lia|done]. }
  assert (NoDup (b :: l)) as Hnd.
  { apply NoDup_cons. split.
    - intros [i Hi]%list_elem_of_lookup_1.
      destruct (Hlook _ _ Hi) as (n & Hn & Hid).
      destruct (Hres b) as [_ ?]; [|done]. exists n. split; [by eexists|done].
    - apply NoDup_alt. intros i j c Hi Hj.
      destruct (Hlook _ _ Hi) as (n & Hn & Hid).
      destruct (Hlook _ _ Hj) as (n' & Hn' & Hid').
      assert (Z.of_nat i = Z.of_nat j)
        by (eapply consistent_ids_distinct; [done..|congruence]).
      lia. }
  assert (b :: l ⊆+ ids) as Hsub.
  { apply NoDup_submseteq; [done|]. intros c [->|Hc]%elem_of_cons; [done|].
    apply list_elem_of_lookup_1 in Hc as [i Hi].
    destruct (Hlook _ _ Hi) as (n & Hn & Hid).
    apply Hres. exists n. split; [by eexists|done]. }
  apply submseteq_length in Hsub. simpl in Hsub. lia.
Qed.

Section astar_proof.
Context (g : Graph) (Hok : graph_ok g).
Context (Hcoords : coords_bounded g) (Hadm : admissible g).
Context (s : Z) (Hs : s ∈ cityIDs g) (d : Z) (Hd : d ∈ cityIDs g).

Lemma astar_update a closed gScore fScores parent h b w :
  astar_inv g s d (a :: closed) gScore fScores parent h →
  closed_relaxed g closed gScore →
  road g a b w → cell g gScore a ≠ INF →
  cell g gScore a + w < cell g gScore b →
  ∃ gScore' fScores' parent' h',
    aset parent (findCityIndex g b) (findCityIndex g a) = Ok parent' ∧
    aset gScore (findCityIndex g b) (cell g gScore a + w) = Ok gScore' ∧
    aset fScores (findCityIndex g b)
      (wrap (cell g gScore a + w + hcost g d b)) = Ok fScores' ∧
    (p ← aget (pos h) b;
     if p =? -1
     then insertHeap h b (cell g gScore a + w)
            (wrap (cell g gScore a + w + hcost g d b))
     else decreaseKey h b (cell g gScore a + w)
            (wrap (cell g gScore a + w + hcost g d b))) = Ok h' ∧
    astar_inv g s d (a :: closed) gScore' fScores' parent' h' ∧
    closed_relaxed g closed gScore' ∧
    (∀ x, cell g gScore' x ≤ cell g gScore x) ∧
    cell g gScore' a = cell g gScore a ∧
    cell g gScore' b = cell g gScore a + w.
Proof using Hok Hcoords Hs Hd.
  intros Hinv Hrel Hroad Hgu Hlt.
  destruct Hinv as [Hgl Hfl Hpl Hsrc Hrng Hsnd Hfin Hcl Hnd Hheap Hcap Hkeys
                      Hfresh Hpar].
  destruct (road_facts g Hok _ _ _ Hroad) as (Ha & Hb & Hw).
  set (gu := cell g gScore a) in *. set (nd := gu + w) in *.
  pose proof (Hrng a Ha) as Hra. pose proof (Hrng b Hb) as Hrb.
  assert (route g s b nd) as Hroute.
  { eapply route_snoc; [|done]. by apply Hsnd. }
  assert (b ∉ a :: closed) as Hbo.
  { intros Hbc. pose proof (Hfin b nd Hbc Hroute). lia. }
  assert (a ≠ b) as Hab by (intros ->; apply Hbo, elem_of_cons; auto).
  pose proof (idx_bounds g a Ha) as Hia.
  pose proof (idx_bounds g b Hb) as Hib.
  assert (findCityIndex g a ≠ findCityIndex g b) as Hiab
    by (intros ?; apply Hab; by eapply idx_inj).
  destruct (heuristic_exact g Hcoords d Hd b Hb) as [_ Hhb].
  assert (wrap (nd + hcost g d b) = nd + hcost g d b) as Hfv.
  { apply wrap_id. unfold in_int, INT_MIN, INT_MAX, INF in *. lia. }
  rewrite Hfv. set (fv := nd + hcost g d b) in *.
  unfold numCities in *.
  assert (aset parent (findCityIndex g b) (findCityIndex g a)
          = Ok (<[Z.to_nat (findCityIndex g b) := findCityIndex g a]> parent))
    as Ep by (apply aset_exists; lia).
  assert (aset gScore (findCityIndex g b) nd
          = Ok (<[Z.to_nat (findCityIndex g b) := nd]> gScore)) as Eg
    by (apply aset_exists; lia).
  assert (aset fScores (findCityIndex g b) fv
          = Ok (<[Z.to_nat (findCityIndex g b) := fv]> fScores)) as Ef
    by (apply aset_exists; lia).
  set (parent' := <[Z.to_nat (findCityIndex g b) := findCityIndex g a]> parent) in *.
  set (gScore' := <[Z.to_nat (findCityIndex g b) := nd]> gScore) in *.
  set (fScores' := <[Z.to_nat (findCityIndex g b) := fv]> fScores) in *.
  assert (∀ x, x ∈ cityIDs g →
            cell g gScore' x = if decide (x = b) then nd else cell g gScore x)
    as Hcell by (intros x Hx; by eapply cell_aset).
  assert (∀ x, cell g gScore' x ≤ cell g gScore x) as Hmono.
  { intros x. unfold cell. rewrite (look_aset _ _ _ _ _ Eg).
    case_decide as E; [|done]. rewrite E. fold (cell g gScore b). lia. }
  assert (∀ x, x ∈ a :: closed → cell g gScore' x = cell g gScore x) as Hsame.
  { intros x Hx. rewrite Hcell by auto. rewrite decide_False; [done|].
    by intros ->. }
  pose proof (id_in_range g Hok b Hb) as Hbr.
  destruct Hheap as (Hsafe & Hcons & Hord).
  assert (∀ c, resident h c →
            c ∈ cityIDs g ∧ (c ∉ a :: closed) ∧ cell g gScore c ≠ INF) as Hresid.
  { intros c (m & (x & Hx & Hxc & Hxg & ->)%Hkeys & <-). done. }
  assert (∃ h', (p ← aget (pos h) b;
                 if p =? -1 then insertHeap h b nd fv
                 else decreaseKey h b nd fv) = Ok h' ∧
            heap_inv h' ∧ hcapacity h' = hcapacity h ∧
            (∀ m, in_heap h' m ↔
                  m = mkNode b nd fv ∨ (in_heap h m ∧ hCityID m ≠ b)) ∧
            (∀ c, c ≠ b → ¬ resident h c →
                  aget (pos h') c = aget (pos h) c)) as
    (h' & Eh & Hheap' & Hcap' & Hin' & Hframe).
  { destruct (decide (cell g gScore b = INF)) as [Hinf|Hfinb].
    - rewrite (Hfresh b Hb Hbo Hinf). cbn [mbind result_bind Z.eqb Pos.eqb].
      assert (¬ resident h b) as Hnres by (intros (_ & _ & ?)%Hresid; done).
      assert (size h < hcapacity h) as Hroom.
      { rewrite Hcap.
        replace (length (cities g)) with (length (cityIDs g))
          by (unfold cityIDs; by rewrite length_fmap).
        apply (heap_room h (cityIDs g) b); [apply Hsafe|done| |done].
        intros c Hc. destruct (Hresid c Hc) as (? & _ & ?).
        split; [done|]. by intros ->. }
      destruct (insertHeap_ok h b nd fv Hsafe Hbr Hroom) as
        (h' & -> & _ & Hcap' & Hsafe' & Hin & Hfr & Hcons' & Hord').
      exists h'. split_and!; try done.
      + split_and!; auto.
      + intros m. rewrite Hin. split; [intros [->|Hm]|intros [->|[Hm _]]]; auto.
        right. split; [done|]. intros Hid. apply Hnres. by exists m.
    - assert (in_heap h (mkNode b (cell g gScore b)
                           (cell g gScore b + hcost g d b))) as [i Hi]
        by (apply Hkeys; exists b; done).
      pose proof (Hcons _ _ Hi) as Hpi. cbn [hCityID] in Hpi. rewrite Hpi.
      cbn [mbind result_bind].
      pose proof (node_at_bounds _ _ _ Hi).
      destruct (Z.eqb_spec i (-1)) as [?|_]; [lia|].
      destruct (decreaseKey_resident h b nd fv i _ Hsafe Hcons Hi eq_refl) as
        (h' & -> & _ & Hcap' & Hsafe' & Hcons' & Hin & Hfr & Hord').
      exists h'. split_and!; try done.
      + split_and!; [done..|]. apply Hord'; [done|]. simpl. unfold fv. lia.
      + intros c _ Hc. by apply Hfr. }
  exists gScore', fScores', parent', h'. split_and!; try done.
  - constructor; try done.
    + unfold gScore'. by rewrite length_insert.
    + unfold fScores'. by rewrite length_insert.
    + unfold parent'. by rewrite length_insert.
    + rewrite Hcell by done. rewrite decide_False; [done|].
      intros ->. subst nd gu. lia.
    + intros x Hx. rewrite Hcell by done. case_decide; [lia|auto].
    + intros x Hx. rewrite Hcell by done. case_decide; subst; auto.
    + intros x W Hx. rewrite Hsame by done. by apply Hfin.
    + unfold numCities. lia.
    + intros m. rewrite Hin', Hkeys. split.
      * intros [->|[(x & Hx & Hxc & Hxg & ->) Hne]].
        -- exists b. rewrite Hcell by done. rewrite decide_True by done.
           split_and!; [done..|lia|done].
        -- exists x. rewrite Hcell by done. rewrite decide_False by done.
           done.
      * intros (x & Hx & Hxc & Hxg & ->). rewrite Hcell in * by done.
        case_decide; subst; [by left|right]. split; [|done]. by exists x.
    + intros x Hx Hxc Hxg. rewrite Hcell in Hxg by done.
      case_decide; [lia|]. rewrite Hframe; [by apply Hfresh|done|].
      intros (_ & _ & ?)%Hresid. done.
    + eapply parents_ok_update; try done.
      * lia.
      * fold (cell g gScore a). fold gu. lia.
  - intros x c Hx Hc Hid Hne e He.
    rewrite (Hsame x) in * by (apply elem_of_cons; auto).
    etrans; [apply Hmono|]. by eapply Hrel.
  - apply Hsame, elem_of_cons; auto.
  - rewrite Hcell by done. by rewrite decide_True.
Qed.

Lemma astarRelax_ok a c closed :
  aget (cities g) (findCityIndex g a) = Ok c → cityID c = a →
  ∀ edges seen gScore fScores parent h,
    (∀ e, e ∈ edges → e ∈ adjList c) →
    astar_inv g s d (a :: closed) gScore fScores parent h →
    closed_relaxed g closed gScore →
    cell g gScore a ≠ INF →
    relaxed_from g gScore a seen →
    ∃ gScore' fScores' parent' h',
      astarRelax g edges (findCityIndex g a) (findCityIndex g d)
        gScore fScores parent h = Ok (gScore', fScores', parent', h') ∧
      astar_inv g s d (a :: closed) gScore' fScores' parent' h' ∧
      closed_relaxed g closed gScore' ∧
      relaxed_from g gScore' a (seen ++ edges).
Proof using Hok Hcoords Hs Hd.
  intros Hc Hid. pose proof (aget_elem_of _ _ _ Hc) as Hcin.
  pose proof (city_id_in g c Hcin) as Ha. rewrite Hid in Ha.
  induction edges as [|e rest IH];
    intros seen gScore fScores parent h Hsub Hinv Hcl Hgu Hseen.
  { exists gScore, fScores, parent, h. rewrite app_nil_r. done. }
  cbn [astarRelax].
  destruct (edge_facts g Hok c e Hcin) as (Hb & Hw & Hroad);
    [apply Hsub, elem_of_cons; auto|].
  rewrite Hid in Hroad.
  set (b := destCityID e) in *. set (w := distance e) in *.
  pose proof (ai_g_len _ _ _ _ _ _ _ _ Hinv) as Hlen.
  pose proof (ai_range _ _ _ _ _ _ _ _ Hinv a Ha) as Hra.
  rewrite (cell_aget g Hok gScore a Hlen Ha). cbn [mbind result_bind].
  rewrite (cell_aget g Hok gScore b Hlen Hb). cbn [mbind result_bind].
  rewrite wrap_relax by done.
  assert (∀ e', e' ∈ rest → e' ∈ adjList c) as Hsub'
    by (intros; apply Hsub, elem_of_cons; auto).
  replace (seen ++ e :: rest) with ((seen ++ [e]) ++ rest)
    by (by rewrite <- app_assoc).
  destruct (Z.ltb_spec (cell g gScore a + w) (cell g gScore b)) as [Hlt|Hge].
  - destruct (astar_update a closed gScore fScores parent h b w) as
      (gScore' & fScores' & parent' & h' & E1 & E2 & E3 & Eh
       & Hinv' & Hcl' & Hmono & Ha' & Hb'); [done..|].
    rewrite E1. cbn [mbind result_bind]. rewrite E2. cbn [mbind result_bind].
    rewrite (proj1 (heuristic_exact g Hcoords d Hd b Hb)).
    cbn [mbind result_bind]. rewrite E3. cbn [mbind result_bind].
    apply bind_Ok in Eh as (p & -> & Eh). cbn [mbind result_bind].
    rewrite Eh. cbn [mbind result_bind].
    apply IH; try done.
    + by rewrite Ha'.
    + apply relaxed_from_snoc.
      * by eapply relaxed_from_mono.
      * intros _. fold b w. rewrite Hb', Ha'. done.
  - apply IH; try done. apply relaxed_from_snoc; [done|].
    intros _. fold b w. lia.
Qed.

Lemma closed_length closed :
  NoDup closed → (∀ a, a ∈ closed → a ∈ cityIDs g) →
  (length closed ≤ length (cities g))%nat.
Proof.
  intros Hnd Hsub.
  replace (length (cities g)) with (length (cityIDs g))
    by (unfold cityIDs; by rewrite length_fmap).
  apply submseteq_length, NoDup_submseteq; done.
Qed.

Lemma astarLoop_ok fuel :
  ∀ closed gScore fScores parent h,
    astar_inv g s d closed gScore fScores parent h →
    closed_relaxed g closed gScore →
    (length (cities g) < fuel + length closed)%nat →
    ∃ gScore' parent',
      astarLoop fuel g (findCityIndex g d) gScore fScores parent h
        = Ok (gScore', parent') ∧
      search_done g s d gScore' parent'.
Proof using Hok Hcoords Hadm Hs Hd.
  induction fuel as [|fuel IH];
    intros closed gScore fScores parent h Hinv Hcl Hfuel.
  { pose proof (closed_length closed (ai_nodup _ _ _ _ _ _ _ _ Hinv)
                  (ai_closed _ _ _ _ _ _ _ _ Hinv)). lia. }
  cbn [astarLoop]. unfold isHeapEmpty.
  pose proof Hinv as [Hgl Hfl Hpl Hsrc Hrng Hsnd Hfin Hclo Hnd Hheap Hcap Hkeys
                        Hfresh Hpar].
  pose proof Hheap as (Hsafe & Hcons & Hord).
  assert (∀ x y w, road g x y w → hcost g d x ≤ w + hcost g d y) as Hconsist
    by (intros; by eapply hcost_consistent).
  assert (∀ x y w, x ∈ closed → road g x y w → cell g gScore x ≠ INF →
            cell g gScore y ≤ cell g gScore x + w) as Hrel
    by (intros; by eapply closed_relaxed_road).
  destruct (Z.eqb_spec (size h) 0) as [Hempty|Hne].
  { exists gScore, parent. split; [done|]. constructor; auto.
    intros W Hroute HW.
    destruct (frontier g Hok s closed (cell g gScore) (hcost g d)
                Hsrc Hconsist Hrel d W Hroute HW) as (y & Hy & Hcase & Hgy & _).
    destruct (decide (d ∈ closed)) as [Hin|Hnin]; [by apply Hfin|].
    assert (y ∉ closed) as Hyc by (destruct Hcase as [->|]; done).
    assert (in_heap h (mkNode y (cell g gScore y)
                         (cell g gScore y + hcost g d y))) as [i Hi].
    { apply Hkeys. exists y. split_and!; [done..|lia|done]. }
    apply node_at_bounds in Hi. lia. }
  assert (0 < size h) as Hpos by (destruct Hsafe as ((_ & ? & _) & _); lia).
  destruct (extractMin_ok h Hsafe Hpos) as
    (root & h1 & -> & Hroot & Hsz1 & Hcap1 & Hsafe1 & _ & Hfr1 & Hc1 & Ho1).
  destruct (Hc1 Hcons) as (Hcons1 & Hin1 & Hnres & _).
  destruct (Ho1 Hord) as (Hord1 & Hmin).
  cbn [mbind result_bind].
  assert (in_heap h root) as Hrin by (by exists 0).
  pose proof Hrin as (a & Ha & Hac & Hga & ->)%Hkeys.
  cbn [hCityID fScore] in *.
  assert (∀ W, route g s a W → W < INF → cell g gScore a ≤ W) as Hleast.
  { intros W.
    apply (least_is_final g Hok s closed (cell g gScore) (hcost g d)); try done.
    intros y Hy Hyc Hgy.
    assert (in_heap h (mkNode y (cell g gScore y)
                         (cell g gScore y + hcost g d y))) as Hyin.
    { apply Hkeys. exists y. split_and!; [done..|lia|done]. }
    specialize (Hmin _ Hyin). simpl in Hmin. lia. }
  destruct (Z.eqb_spec (findCityIndex g a) (findCityIndex g d)) as [Heq|Hneq].
  { assert (a = d) as -> by (by eapply idx_inj).
    exists gScore, parent. split; [done|]. constructor; auto. }
  destruct (idx_city g a Ha) as (c & Hc & Hid & Hcin). rewrite Hc.
  cbn [mbind result_bind].
  assert (astar_inv g s d (a :: closed) gScore fScores parent h1) as Hinv1.
  { constructor; try done.
    - intros x W [->|Hx]%elem_of_cons; [apply Hleast|by apply Hfin].
    - intros x [->|Hx]%elem_of_cons; auto.
    - by apply NoDup_cons.
    - lia.
    - intros m. split.
      + intros Hm. assert (in_heap h m) as (x & Hx & Hxc & Hxg & ->)%Hkeys
          by (apply Hin1; by right).
        exists x. split_and!; [done| |done..].
        rewrite not_elem_of_cons. split; [|done].
        intros ->. apply Hnres. by eexists.
      + intros (x & Hx & [Hxa Hxc]%not_elem_of_cons & Hxg & ->).
        assert (in_heap h (mkNode x (cell g gScore x)
                             (cell g gScore x + hcost g d x))) as Hxin
          by (apply Hkeys; exists x; done).
        apply Hin1 in Hxin as [[=]|]; [congruence|done].
    - intros x Hx [Hxa Hxc]%not_elem_of_cons Hxg.
      rewrite Hfr1; [by apply Hfresh|].
      intros (m & (y & _ & _ & Hyg & ->)%Hkeys & <-). done. }
  assert (relaxed_from g gScore a []) as Hnil by (by intros ? ? ?%elem_of_nil).
  destruct (astarRelax_ok a c closed Hc Hid (adjList c) [] gScore fScores
              parent h1) as (g2 & f2 & p2 & h2 & -> & Hinv2 & Hcl2 & Hrel2);
    try done.
  cbn [mbind result_bind].
  apply (IH (a :: closed)); [done| |simpl; lia].
  intros x c' [->|Hx]%elem_of_cons Hc' Hid'.
  - rewrite (city_unique g Hok c' c) by (done || congruence). done.
  - by eapply Hcl2.
Qed.

(** [astar] under an admissible heuristic: the same statement as
    [dijkstra_correct]. *)
Lemma astar_correct fuel :
  (Z.to_nat (numCities g) < fuel)%nat →
  ∃ pr, astar fuel g s d = Ok (Some pr) ∧
    ((∀ W, route g s d W → INF ≤ W) →
       pathLength pr = 0 ∧ totalDistance pr = 0) ∧
    (∀ W, route g s d W → W < INF →
       pathLength pr ≠ 0 ∧ route g s d (totalDistance pr) ∧
       totalDistance pr ≤ W) ∧
    answer g s d pr ∧ path_ok (numCities g) pr.
Proof using Hok Hcoords Hadm Hs Hd.
  intros Hfuel. unfold astar.
  destruct (Z.eqb_spec (findCityIndex g s) (-1)) as [E|_];
    [by apply findCityIndex_none in E|].
  destruct (Z.eqb_spec (findCityIndex g d) (-1)) as [E|_];
    [by apply findCityIndex_none in E|].
  cbn [orb]. pose proof (idx_bounds g s Hs) as Hsb.
  pose proof (idx_bounds g d Hd) as Hdb.
  assert (aset (replicate (Z.to_nat (numCities g)) INF) (findCityIndex g s) 0
          = Ok (<[Z.to_nat (findCityIndex g s) := 0]>
                  (replicate (Z.to_nat (numCities g)) INF))) as Eg
    by (apply aset_exists; rewrite length_replicate; lia).
  rewrite Eg. cbn [mbind result_bind].
  set (gScore := <[Z.to_nat (findCityIndex g s) := 0]>
                   (replicate (Z.to_nat (numCities g)) INF)) in *.
  destruct (heuristic_exact g Hcoords d Hd s Hs) as [-> Hh0].
  cbn [mbind result_bind].
  rewrite aset_exists by (rewrite length_replicate; lia).
  cbn [mbind result_bind].
  set (fScores := <[Z.to_nat (findCityIndex g s) := hcost g d s]>
                    (replicate (Z.to_nat (numCities g)) INF)).
  set (parent := replicate (Z.to_nat (numCities g)) (-1)).
  destruct (idx_city g s Hs) as (src & -> & Hsrc & _).
  cbn [mbind result_bind].
  rewrite (aget_aset_eq _ _ _ _ Eg). cbn [mbind result_bind].
  assert (aget fScores (findCityIndex g s) = Ok (hcost g d s)) as ->.
  { eapply aget_aset_eq. apply aset_exists. rewrite length_replicate. lia. }
  cbn [mbind result_bind]. rewrite Hsrc.
  destruct (createMinHeap_props (numCities g)) as
    ((Hsafe0 & Hcons0 & Hord0) & _ & Hsz0 & Hcap0 & Hpos0); [lia|].
  assert (∀ m, ¬ in_heap (createMinHeap (numCities g)) m) as Hempty.
  { intros m [i Hi%node_at_bounds]. lia. }
  destruct (insertHeap_ok (createMinHeap (numCities g)) s 0 (hcost g d s)
              Hsafe0) as
    (h & -> & Hsz & Hcap & Hsafe & Hin & Hfr & Hcons & Hord).
  { by apply (id_in_range g Hok). }
  { lia. }
  cbn [mbind result_bind].
  assert (∀ a, a ∈ cityIDs g →
            cell g gScore a = if decide (a = s) then 0 else INF) as Hcell
    by (intros a Ha; by apply initial_cells).
  assert (astar_inv g s d [] gScore fScores parent h) as Hinv.
  { constructor.
    - unfold gScore. rewrite length_insert, length_replicate.
      unfold numCities. lia.
    - unfold fScores. rewrite length_insert, length_replicate.
      unfold numCities. lia.
    - unfold parent. rewrite length_replicate. unfold numCities. lia.
    - rewrite Hcell by done. by rewrite decide_True.
    - intros a Ha. rewrite Hcell by done. unfold INF. case_decide; lia.
    - intros a Ha. rewrite Hcell by done. case_decide; [|done].
      subst. intros _. by constructor.
    - by intros a W ?%elem_of_nil.
    - by intros a ?%elem_of_nil.
    - constructor.
    - split_and!; [done|..].
      + apply Hcons; [done|]. intros (m & Hm & _). by apply (Hempty m).
      + by apply Hord.
    - lia.
    - intros m. rewrite Hin. split.
      + intros [->|Hm]; [|by apply Hempty in Hm].
        exists s. rewrite Hcell by done. rewrite decide_True by done.
        split_and!; [done|apply not_elem_of_nil|unfold INF; lia|done].
      + intros (a & Ha & _ & Hga & ->). rewrite Hcell in * by done.
        case_decide; [subst; by left|done].
    - intros a Ha _ Hga. rewrite Hcell in Hga by done.
      case_decide; [unfold INF in Hga; lia|].
      rewrite Hfr; [|done|].
      + apply Hpos0. by apply (id_in_range g Hok).
      + intros (m & Hm & _). by apply (Hempty m).
    - intros v p Hp. left. apply aget_elem_of in Hp.
      by apply elem_of_replicate in Hp as [-> _]. }
  destruct (astarLoop_ok fuel [] gScore fScores parent h Hinv) as
    (g' & p' & -> & Hdone).
  { by intros a c ?%elem_of_nil. }
  { unfold numCities in Hfuel. simpl. lia. }
  cbn [mbind result_bind].
  destruct (buildPath_ok g d g' p' Hd) as
    (pr & -> & Htot & Hlen & Hwell); [apply Hdone..|].
  cbn [mbind result_bind]. exists pr. split; [done|].
  pose proof (search_answer _ _ _ _ _ _ Hdone Htot Hlen) as Hans.
  destruct Hdone as [_ _ Hrng Hsnd Hleast _]. split; [|split; [|done]].
  - intros Hnone. destruct (decide (cell g g' d = INF)) as [Hinf|Hfin].
    + split; [by apply Hlen | done].
    + specialize (Hnone _ (Hsnd Hfin)). lia.
  - intros W Hroute HW. pose proof (Hleast W Hroute HW).
    assert (cell g g' d ≠ INF) as Hfin by lia.
    rewrite decide_False in Htot by done. rewrite Htot.
    split_and!; [by rewrite Hlen|by apply Hsnd|done].
Qed.
End astar_proof.

(** * BFS and DFS return on every graph *)

Lemma zeros_insert (l : list Z) i :
  l !! i = Some 0 → zeros (<[i := 1]> l) = pred (zeros l) ∧ (0 < zeros l)%nat.
Proof.
  unfold zeros. revert i. induction l as [|x l IH]; intros [|i] H; try done.
  - injection H as ->. change (<[0%nat := 1]> (0 :: l)) with (1 :: l).
    rewrite filter_cons_False by done. rewrite filter_cons_True by done.
    simpl. lia.
  - change (<[S i := 1]> (x :: l)) with (x :: <[i := 1]> l).
    destruct (IH i H) as [IH1 IH2]. destruct (decide (x = 0)).
    + rewrite !filter_cons_True by done. simpl. lia.
    + rewrite !filter_cons_False by done. done.
Qed.

Lemma zeros_aset l i l' :
  aset l i 1 = Ok l' → look l i = 0 → (zeros l' < zeros l)%nat.
Proof.
  intros [Hi ->]%aset_Ok Hlook.
  destruct (aget_exists l i Hi) as [v Hv]. unfold look in Hlook.
  rewrite Hv in Hlook. subst v. apply aget_Ok in Hv as [_ Hv].
  destruct (zeros_insert l _ Hv). lia.
Qed.

Lemma length_NoDup_bounded (l : list Z) n :
  0 ≤ n → NoDup l → (∀ i, i ∈ l → 0 ≤ i < n) → Z.of_nat (length l) ≤ n.
Proof.
  intros Hn Hnd Hb.
  assert (l ⊆+ seqZ 0 n) as Hsub.
  { apply NoDup_submseteq; [done|]. intros i Hi. apply elem_of_seqZ.
    specialize (Hb i Hi). lia. }
  apply submseteq_length in Hsub. rewrite length_seqZ in Hsub. lia.
Qed.

Section traversal.
Context (g : Graph).

Lemma index_of_edge e :
  findCityIndex g (destCityID e) ≠ -1 →
  0 ≤ findCityIndex g (destCityID e) < numCities g.
Proof.
  intros Hne. by destruct (findCityIndex_range g (destCityID e)).
Qed.

Lemma bfsEdges_ok front : ∀ edges visited queue rear,
  bfs_inv g visited queue front rear →
  ∃ visited' queue' rear',
    bfsEdges g edges visited queue rear = Ok (visited', queue', rear') ∧
    bfs_inv g visited' queue' front rear' ∧ rear ≤ rear'.
Proof.
  induction edges as [|e rest IH]; intros visited queue rear Hinv.
  { exists visited, queue, rear. split_and!; [done..|lia]. }
  cbn [bfsEdges].
  destruct (Z.eqb_spec (findCityIndex g (destCityID e)) (-1)) as [Hnone|Hsome];
    cbn [negb]; [by apply IH|].
  pose proof (index_of_edge e Hsome) as Hidx.
  set (v := findCityIndex g (destCityID e)) in *.
  destruct Hinv as (Hvl & Hql & Hfr & Hrn & Hnd & Hall).
  unfold numCities in *.
  rewrite (look_aget visited) by lia. cbn [mbind result_bind].
  destruct (Z.eqb_spec (look visited v) 0) as [Hzero|Hseen].
  2:{ apply IH. unfold bfs_inv, numCities. split_and!; (done || lia). }
  assert (v ∉ take (Z.to_nat rear) queue) as Hvq.
  { intros Hin. destruct (Hall v Hin) as [_ ?]. done. }
  assert (rear < Z.of_nat (length (cities g))) as Hroom.
  { pose proof (length_NoDup_bounded (v :: take (Z.to_nat rear) queue)
                  (Z.of_nat (length (cities g)))) as Hb.
    simpl in Hb. rewrite length_take in Hb.
    assert (Z.of_nat (S (Z.to_nat rear `min` length queue))
            ≤ Z.of_nat (length (cities g))); [|lia].
    apply Hb; [lia|by apply NoDup_cons|].
    intros i [->|Hi]%elem_of_cons; [done|]. by apply Hall. }
  rewrite aset_exists by lia. cbn [mbind result_bind].
  rewrite aset_exists by lia. cbn [mbind result_bind].
  cut (bfs_inv g (<[Z.to_nat v := 1]> visited) (<[Z.to_nat rear := v]> queue)
         front (rear + 1)).
  { intros Hinv'. destruct (IH _ _ _ Hinv') as (v' & q' & r' & E & ? & ?).
    exists v', q', r'. split_and!; [done..|lia]. }
  assert (take (Z.to_nat (rear + 1)) (<[Z.to_nat rear := v]> queue)
          = take (Z.to_nat rear) queue ++ [v]) as Htake.
  { replace (Z.to_nat (rear + 1)) with (S (Z.to_nat rear)) by lia.
    erewrite take_S_r; [|apply list_lookup_insert_eq; lia].
    rewrite take_insert_ge by lia. done. }
  unfold bfs_inv, numCities.
  split_and!; try (rewrite ?length_insert; done || lia).
  - rewrite Htake. apply NoDup_app. split_and!; [done| |apply NoDup_singleton].
    intros i Hi Hiv%list_elem_of_singleton. by subst.
  - intros i. rewrite Htake.
    intros [Hi|Hiv%list_elem_of_singleton]%elem_of_app.
    + destruct (Hall i Hi) as [? Hne]. split; [done|].
      erewrite look_aset by (apply aset_exists; lia).
      case_decide; [done|done].
    + subst i. split; [done|].
      erewrite look_aset by (apply aset_exists; lia).
      by rewrite decide_True.
Qed.

Lemma bfsLoop_ok fuel : ∀ visited queue front rear out,
  bfs_inv g visited queue front rear →
  (Z.to_nat (numCities g - front) < fuel)%nat →
  ∃ out', bfsLoop fuel g visited queue front rear out = Ok out'.
Proof.
  induction fuel as [|fuel IH]; intros visited queue front rear out Hinv Hfuel;
    [lia|].
  cbn [bfsLoop]. destruct (Z.ltb_spec front rear) as [Hlt|Hge]; [|by eexists].
  pose proof Hinv as (Hvl & Hql & Hfr & Hrn & Hnd & Hall).
  unfold numCities in *.
  destruct (aget_exists queue front) as [current Hcur]; [lia|].
  rewrite Hcur. cbn [mbind result_bind].
  assert (current ∈ take (Z.to_nat rear) queue) as Hin.
  { apply aget_Ok in Hcur as [_ Hcur].
    apply (list_elem_of_lookup_2 _ (Z.to_nat front)).
    rewrite lookup_take_lt by lia. done. }
  destruct (Hall _ Hin) as [Hcb _].
  destruct (aget_exists (cities g) current) as [c ->]; [done|].
  cbn [mbind result_bind].
  destruct (bfsEdges_ok front (adjList c) visited queue rear Hinv) as
    (v' & q' & r' & -> & Hinv' & Hrr).
  cbn [mbind result_bind]. apply IH; [|lia].
  destruct Hinv' as (? & ? & ? & ? & ? & ?). split_and!; try done; lia.
Qed.

Lemma BFS_total startCityID : ∃ out, BFS g startCityID = Ok out.
Proof.
  unfold BFS.
  destruct (Z.eqb_spec (findCityIndex g startCityID) (-1)) as [|Hne];
    [by eexists|].
  destruct (findCityIndex_range g startCityID) as [?|Hidx]; [done|].
  set (n := Z.to_nat (numCities g)). unfold numCities in *.
  assert (length (replicate n 0) = length (cities g)) as Hlen
    by (rewrite length_replicate; unfold n, numCities; lia).
  rewrite aset_exists by lia. cbn [mbind result_bind].
  rewrite aset_exists by lia. cbn [mbind result_bind].
  destruct (bfsLoop_ok (S n)
              (<[Z.to_nat (findCityIndex g startCityID) := 1]> (replicate n 0))
              (<[Z.to_nat 0 := findCityIndex g startCityID]> (replicate n 0))
              0 1 []) as [out ->]; [|unfold n, numCities; lia|by eexists].
  assert (take (Z.to_nat 1)
            (<[Z.to_nat 0 := findCityIndex g startCityID]> (replicate n 0))
          = [findCityIndex g startCityID]) as Htake.
  { destruct n as [|n'] eqn:En; [unfold numCities in *; lia|]. simpl.
    by rewrite take_0. }
  unfold bfs_inv. rewrite Htake, !length_insert. unfold numCities.
  split_and!; try done; try lia.
  - apply NoDup_singleton.
  - intros i Hi%list_elem_of_singleton. subst i. split; [done|].
    erewrite look_aset by (apply aset_exists; lia). by rewrite decide_True.
Qed.

Lemma hasUnvisited_ok : ∀ edges visited,
  length visited = length (cities g) →
  ∃ b, hasUnvisited g edges visited = Ok b.
Proof.
  induction edges as [|e rest IH]; intros visited Hlen; [by eexists|].
  cbn [hasUnvisited].
  destruct (Z.eqb_spec (findCityIndex g (destCityID e)) (-1)) as [|Hsome];
    cbn [negb]; [by apply IH|].
  pose proof (index_of_edge e Hsome) as Hidx. unfold numCities in *.
  rewrite (look_aget visited) by lia. cbn [mbind result_bind].
  destruct (_ =? 0); [by eexists|by apply IH].
Qed.

(** The edge loop of [DFSUtil], for a recursive call that returns
    whenever fewer than [fuel] cities are unvisited. *)
Lemma dfsEdges_ok (fuel : nat) visit :
  (∀ idx visited out,
     0 ≤ idx < numCities g → length visited = length (cities g) →
     look visited idx = 0 → (zeros visited < fuel)%nat →
     ∃ v' out', visit idx visited out = Ok (v', out') ∧
       length v' = length (cities g) ∧ (zeros v' < zeros visited)%nat) →
  ∀ edges visited out,
    length visited = length (cities g) → (zeros visited < fuel)%nat →
    ∃ v' out', dfsEdges visit g edges visited out = Ok (v', out') ∧
      length v' = length (cities g) ∧ (zeros v' ≤ zeros visited)%nat.
Proof.
  intros Hvisit. induction edges as [|e rest IH]; intros visited out Hlen Hz.
  { by exists visited, out. }
  cbn [dfsEdges].
  destruct (Z.eqb_spec (findCityIndex g (destCityID e)) (-1)) as [|Hsome];
    cbn [negb]; [by apply IH|].
  pose proof (index_of_edge e Hsome) as Hidx.
  rewrite (look_aget visited) by (unfold numCities in *; lia).
  cbn [mbind result_bind].
  destruct (Z.eqb_spec (look visited (findCityIndex g (destCityID e))) 0)
    as [Hzero|]; [|by apply IH].
  destruct (Hvisit _ visited out Hidx Hlen Hzero Hz) as
    (v1 & o1 & -> & Hl1 & Hz1).
  cbn [mbind result_bind].
  destruct (IH v1 o1 Hl1) as (v2 & o2 & -> & ? & ?); [lia|].
  exists v2, o2. split_and!; [done..|lia].
Qed.

Lemma DFSUtil_ok fuel : ∀ idx visited out,
  0 ≤ idx < numCities g → length visited = length (cities g) →
  look visited idx = 0 → (zeros visited < fuel)%nat →
  ∃ v' out', DFSUtil fuel g idx visited out = Ok (v', out') ∧
    length v' = length (cities g) ∧ (zeros v' < zeros visited)%nat.
Proof.
  induction fuel as [|fuel IH]; intros idx visited out Hidx Hlen Hzero Hz;
    [lia|].
  cbn [DFSUtil]. unfold numCities in *.
  assert (aset visited idx 1 = Ok (<[Z.to_nat idx := 1]> visited)) as Ev
    by (apply aset_exists; lia).
  rewrite Ev. cbn [mbind result_bind].
  pose proof (zeros_aset _ _ _ Ev Hzero) as Hz1.
  destruct (aget_exists (cities g) idx) as [c ->]; [done|].
  cbn [mbind result_bind].
  destruct (hasUnvisited_ok (adjList c) (<[Z.to_nat idx := 1]> visited))
    as [more ->]; [by rewrite length_insert|].
  cbn [mbind result_bind].
  destruct (dfsEdges_ok fuel (DFSUtil fuel g) IH (adjList c)
              (<[Z.to_nat idx := 1]> visited)
              (if more then (out ++ [cityName c]) ++ [arrow]
               else out ++ [cityName c]))
    as (v' & o' & -> & ? & ?); [by rewrite length_insert|lia|].
  exists v', o'. split_and!; [done..|lia].
Qed.

Lemma DFS_total startCityID : ∃ out, DFS g startCityID = Ok out.
Proof.
  unfold DFS.
  destruct (Z.eqb_spec (findCityIndex g startCityID) (-1)) as [|Hne];
    [by eexists|].
  destruct (findCityIndex_range g startCityID) as [?|Hidx]; [done|].
  set (n := Z.to_nat (numCities g)).
  destruct (DFSUtil_ok (S n) (findCityIndex g startCityID) (replicate n 0) [])
    as (v' & o' & -> & _); [done| | |..].
  - rewrite length_replicate. unfold n, numCities. lia.
  - unfold look. rewrite aget_replicate; [done|]. unfold n. lia.
  - pose proof (length_filter (fun v : Z => v = 0) (replicate n 0)) as Hf.
    rewrite length_replicate in Hf. unfold zeros. lia.
  - by eexists.
Qed.
End traversal.

(** * The programs on the graph object and the functions of the graph *)

(** ** Steps *)

Lemma run_own {A B} (r : result A) (f : A → Mem.Prog B) g :
  (Mem.own r ≫= f) g =
    match r with
    | Ok a => f a g
    | OutOfBounds => (g, OutOfBounds)
    | OutOfFuel => (g, OutOfFuel)
    end.
Proof. by destruct r. Qed.

Lemma run_numCities {B} (f : Z → Mem.Prog B) g :
  (Mem.load_numCities ≫= f) g = f (numCities g) g.
Proof. done. Qed.

Lemma run_city {B} i (f : City → Mem.Prog B) g :
  (Mem.load_city i ≫= f) g =
    match aget (cities g) i with
    | Ok c => f c g
    | OutOfBounds => (g, OutOfBounds)
    | OutOfFuel => (g, OutOfFuel)
    end.
Proof.
  unfold mbind, Mem.prog_bind, Mem.bind, Mem.load_city.
  by destruct (aget (cities g) i).
Qed.

Lemma run_reads {A B} (m : Mem.Prog A) r (f : A → Mem.Prog B) g :
  reads m r →
  (m ≫= f) g =
    match r g with
    | Ok a => f a g
    | OutOfBounds => (g, OutOfBounds)
    | OutOfFuel => (g, OutOfFuel)
    end.
Proof.
  intros Hm. unfold mbind, Mem.prog_bind, Mem.bind. rewrite Hm.
  by destruct (r g).
Qed.

(** ** [findCityIndex] *)

Lemma findCityIndex_loop_run g id : ∀ k i,
  0 ≤ i → k = length (drop (Z.to_nat i) (cities g)) →
  Mem.findCityIndex_loop k i id g =
    (g, Ok (findCityIndex_from (drop (Z.to_nat i) (cities g)) i id)).
Proof.
  induction k as [|k IH]; intros i Hi Hk.
  { symmetry in Hk. apply nil_length_inv in Hk. by rewrite Hk. }
  destruct (drop (Z.to_nat i) (cities g)) as [|c l] eqn:Hd; [done|].
  assert (cities g !! Z.to_nat i = Some c) as Hc.
  { rewrite <- (Nat.add_0_r (Z.to_nat i)), <- lookup_drop. by rewrite Hd. }
  assert (drop (Z.to_nat (i + 1)) (cities g) = l) as Hl.
  { replace (Z.to_nat (i + 1)) with (S (Z.to_nat i)) by lia.
    rewrite (drop_S _ c _ Hc) in Hd. by injection Hd. }
  cbn [Mem.findCityIndex_loop findCityIndex_from]. rewrite run_city.
  unfold aget. rewrite bool_decide_true by done. rewrite Hc.
  destruct (cityID c =? id); [done|].
  rewrite IH; [by rewrite Hl|lia|]. rewrite Hl. simpl in Hk. lia.
Qed.

Lemma findCityIndex_run id : reads (Mem.findCityIndex id)
                               (fun g => Ok (findCityIndex g id)).
Proof.
  intros g. unfold Mem.findCityIndex. rewrite run_numCities.
  rewrite findCityIndex_loop_run; [done|done|].
  unfold numCities. rewrite Nat2Z.id. by rewrite drop_0.
Qed.

Lemma run_find {B} id (f : Z → Mem.Prog B) g :
  (Mem.findCityIndex id ≫= f) g = f (findCityIndex g id) g.
Proof. by rewrite (run_reads _ _ _ _ (findCityIndex_run id)). Qed.

(** One step of a program against the same step of the function. *)
Ltac run_step :=
  first
    [ rewrite run_find
    | rewrite run_numCities
    | rewrite run_own;
      lazymatch goal with
      | |- context [match ?r with Ok _ => _ | OutOfBounds => _ | OutOfFuel => _ end] =>
          destruct r; cbn [mbind result_bind]; [|done..]
      end
    | rewrite run_city;
      lazymatch goal with
      | |- context [aget (cities ?g) ?i] =>
          destruct (aget (cities g) i); cbn [mbind result_bind]; [|done..]
      end ].

(** ** The traversals *)








(** ** The shortest-path searches *)











(** ** [addRoad] writes *)

Lemma addRoad_run a b w g :
  Mem.addRoad a b w g =
    match addRoad g a b w with
    | Ok (r, g') => (g', Ok r)
    | OutOfBounds => (g, OutOfBounds)
    | OutOfFuel => (g, OutOfFuel)
    end.
Proof.
  unfold Mem.addRoad, addRoad. run_step. run_step.
  destruct (_ || _); [done|]. destruct (w <=? 0); [done|].
  rewrite run_city. destruct (aget (cities g) _) as [c| |];
    cbn [mbind result_bind]; [|done..].
  unfold mbind at 1, Mem.prog_bind, Mem.bind, Mem.store_city.
  by destruct (aset (cities g) _ _).
Qed.

(** * A* against Dijkstra, unreachable cities, the traversals and the
      position table *)

(** ** Identifiers beyond the position table *)

Lemma insertHeap_oob h id d f :
  heap_shape h → size h < hcapacity h → ¬ (0 ≤ id < POS_SIZE) →
  insertHeap h id d f = OutOfBounds.
Proof.
  intros (Hlen & Hsz & Hpos) Hroom Hid. unfold insertHeap.
  destruct (Z.geb_spec (size h) (hcapacity h)); [lia|].
  rewrite (aset_exists (nodes h)) by lia. cbn [mbind result_bind].
  rewrite (aset_oob (pos h)) by lia. done.
Qed.

Lemma decreaseKey_oob h id d f :
  heap_shape h → ¬ (0 ≤ id < POS_SIZE) → decreaseKey h id d f = OutOfBounds.
Proof.
  intros (_ & _ & Hpos) Hid. unfold decreaseKey.
  rewrite aget_oob by lia. done.
Qed.

Lemma extractMin_safe h :
  heap_safe h → ∃ n h', extractMin h = Ok (n, h') ∧ heap_safe h'.
Proof.
  intros Hsafe. pose proof Hsafe as ((_ & Hsz & _) & _).
  destruct (decide (size h = 0)) as [E|Hne].
  - unfold extractMin, isHeapEmpty. rewrite E. by do 2 eexists.
  - destruct (extractMin_ok h Hsafe) as (n & h' & E & _ & _ & _ & ? & _);
      [lia|]. by exists n, h'.
Qed.

Lemma insertHeap_safe h id d f :
  heap_safe h → 0 ≤ id < POS_SIZE →
  ∃ h', insertHeap h id d f = Ok h' ∧ heap_safe h'.
Proof.
  intros Hsafe Hid. destruct (decide (size h < hcapacity h)) as [Hroom|Hfull].
  - destruct (insertHeap_ok h id d f Hsafe Hid Hroom) as
      (h' & E & _ & _ & ? & _). by exists h'.
  - exists h. split; [apply insertHeap_full; lia|done].
Qed.

Lemma insertAll_oob dist : ∀ cs i h,
  heap_safe h → 0 ≤ i →
  i + Z.of_nat (length cs) ≤ Z.of_nat (length dist) →
  size h + Z.of_nat (length cs) ≤ hcapacity h →
  ¬ Forall (fun c => 0 ≤ cityID c < POS_SIZE) cs →
  insertAll cs i dist h = OutOfBounds.
Proof.
  induction cs as [|c cs IH]; intros i h Hsafe Hi Hlen Hcap Hbad.
  { destruct Hbad. constructor. }
  cbn [insertAll]. rewrite length_cons in Hlen, Hcap.
  destruct (aget_exists dist i) as [d ->]; [lia|]. cbn [mbind result_bind].
  destruct (decide (0 ≤ cityID c < POS_SIZE)) as [Hin|Hout].
  - destruct (insertHeap_ok h (cityID c) d d Hsafe Hin) as
      (h' & -> & Hsz & Hc & Hsafe' & _); [lia|].
    cbn [mbind result_bind]. apply IH; [done|lia..|].
    intros HF. apply Hbad. by constructor.
  - rewrite insertHeap_oob; [done|apply Hsafe|lia|done].
Qed.

Lemma dijkstra_oob g s d :
  s ∈ cityIDs g → d ∈ cityIDs g → ¬ ids_in_range g →
  dijkstra g s d = OutOfBounds.
Proof.
  intros Hs Hd Hbad. unfold dijkstra.
  destruct (Z.eqb_spec (findCityIndex g s) (-1)) as [E|_];
    [by apply findCityIndex_none in E|].
  destruct (Z.eqb_spec (findCityIndex g d) (-1)) as [E|_];
    [by apply findCityIndex_none in E|].
  cbn [orb]. pose proof (idx_bounds g s Hs) as Hsb.
  rewrite aset_exists by (rewrite length_replicate; lia).
  cbn [mbind result_bind].
  destruct (createMinHeap_props (numCities g)) as
    ((Hsafe0 & _) & _ & Hsz0 & Hcap0 & _); [lia|].
  rewrite insertAll_oob; [done|done|lia|..|done].
  - rewrite length_insert, length_replicate. unfold numCities. lia.
  - rewrite Hsz0, Hcap0. unfold numCities. lia.
Qed.

Lemma astar_oob fuel g s d :
  s ∈ cityIDs g → d ∈ cityIDs g → ¬ (0 ≤ s < POS_SIZE) →
  astar fuel g s d = OutOfBounds.
Proof.
  intros Hs Hd Hbad. unfold astar.
  destruct (Z.eqb_spec (findCityIndex g s) (-1)) as [E|_];
    [by apply findCityIndex_none in E|].
  destruct (Z.eqb_spec (findCityIndex g d) (-1)) as [E|_];
    [by apply findCityIndex_none in E|].
  cbn [orb]. pose proof (idx_bounds g s Hs) as Hsb.
  pose proof (idx_bounds g d Hd) as Hdb.
  assert (aset (replicate (Z.to_nat (numCities g)) INF) (findCityIndex g s) 0
          = Ok (<[Z.to_nat (findCityIndex g s) := 0]>
                  (replicate (Z.to_nat (numCities g)) INF))) as Eg
    by (apply aset_exists; rewrite length_replicate; lia).
  rewrite Eg. cbn [mbind result_bind].
  destruct (heuristic_total g (findCityIndex g s) (findCityIndex g d))
    as [h0 ->]; [done..|].
  cbn [mbind result_bind].
  assert (aset (replicate (Z.to_nat (numCities g)) INF) (findCityIndex g s) h0
          = Ok (<[Z.to_nat (findCityIndex g s) := h0]>
                  (replicate (Z.to_nat (numCities g)) INF))) as Ef
    by (apply aset_exists; rewrite length_replicate; lia).
  rewrite Ef. cbn [mbind result_bind].
  destruct (idx_city g s Hs) as (src & -> & Hsrc & _).
  cbn [mbind result_bind].
  rewrite (aget_aset_eq _ _ _ _ Eg). cbn [mbind result_bind].
  rewrite (aget_aset_eq _ _ _ _ Ef). cbn [mbind result_bind].
  destruct (createMinHeap_props (numCities g)) as
    ((Hsafe0 & _) & _ & Hsz0 & Hcap0 & _); [lia|].
  rewrite insertHeap_oob; [done|apply Hsafe0|lia|by rewrite Hsrc].
Qed.

(** ** The example networks *)

Lemma graph4_ok : graph_ok graph4.
Proof. apply (bool_decide_unpack _). by vm_compute. Qed.

Lemma graph4_no_way_back W : ¬ route graph4 4 1 W.
Proof.
  intros Hroute. inversion Hroute as [|b c w W' Hr Hroad]; subst.
  destruct Hroad as (c & Hc & _ & He).
  repeat (apply elem_of_cons in Hc as [->|Hc];
          [cbn [adjList] in He;
           repeat (apply elem_of_cons in He as [He|He]; [discriminate|]);
           by apply elem_of_nil in He|]).
  by apply elem_of_nil in Hc.
Qed.

Lemma graphWide_no_route W : ¬ route graphWide 1 1000000 W.
Proof.
  intros Hroute. inversion Hroute as [|b c w W' Hr Hroad]; subst.
  destruct Hroad as (c & Hc & _ & He).
  repeat (apply elem_of_cons in Hc as [->|Hc];
          [by apply elem_of_nil in He|]).
  by apply elem_of_nil in Hc.
Qed.

(** ** C3 *)

(** C3, as amended: on a graph that satisfies the data-model invariants,
    whose identifiers lie in [0, 999], whose weights are at most
    [INT_MAX - INF], whose coordinates lie in [-16383, 16383] and in which
    every weight is at least the straight-line distance between the
    endpoints of its road, with both endpoints of the query present,
    [dijkstra] and [astar] both return a result, after at most one
    iteration of the main loop of [astar] per city, and the two results
    carry the same total distance and are empty together. *)
Theorem astar_agrees_with_dijkstra g s d fuel :
  graph_ok g → coords_bounded g → admissible g →
  s ∈ cityIDs g → d ∈ cityIDs g →
  (Z.to_nat (numCities g) < fuel)%nat →
  ∃ pd pa, dijkstra g s d = Ok (Some pd) ∧
    astar fuel g s d = Ok (Some pa) ∧
    totalDistance pa = totalDistance pd ∧
    (pathLength pa = 0 ↔ pathLength pd = 0).
Proof.
  intros Hok Hcoords Hadm Hs Hd Hfuel.
  destruct (dijkstra_correct g Hok s Hs d Hd) as (pd & Ed & _ & _ & Hpd & _).
  destruct (astar_correct g Hok Hcoords Hadm s Hs d Hd fuel Hfuel) as
    (pa & Ea & _ & _ & Hpa & _).
  exists pd, pa. split; [done|]. split; [done|].
  destruct Hpd as [(Ld & Td & Nd)|(Ld & Td & Rd & Md)],
           Hpa as [(La & Ta & Na)|(La & Ta & Ra & Ma)].
  - split; [lia|]. by rewrite La, Ld.
  - specialize (Nd _ Ra). lia.
  - specialize (Na _ Rd). lia.
  - specialize (Md _ Ra). specialize (Ma _ Rd). split; [lia|].
    split; intros ?; done.
Qed.

Lemma astar_agrees_with_dijkstra_witness :
  ∃ pd pa, dijkstra graph4 1 4 = Ok (Some pd) ∧
    astar 5 graph4 1 4 = Ok (Some pa) ∧
    totalDistance pa = totalDistance pd ∧
    (pathLength pa = 0 ↔ pathLength pd = 0).
Proof.
  apply astar_agrees_with_dijkstra.
  - apply (bool_decide_unpack _). by vm_compute.
  - apply (bool_decide_unpack _). by vm_compute.
  - apply (bool_decide_unpack _). by vm_compute.
  - apply (bool_decide_unpack _). by vm_compute.
  - apply (bool_decide_unpack _). by vm_compute.
  - vm_compute. lia.
Defined.

(** C3 as stated fails: the two cities of [graphWide] exist and it has no
    road, so every weight is at least the straight-line distance; [astar]
    returns the empty result, while [dijkstra] inserts every city into the
    heap and writes entry 1000000 of the position table, which has 1000
    entries. *)
Lemma astar_without_dijkstra :
  buildWide = Ok graphWide ∧ graph_wf graphWide ∧ admissible graphWide ∧
  1 ∈ cityIDs graphWide ∧ 1000000 ∈ cityIDs graphWide ∧
  dijkstra graphWide 1 1000000 = OutOfBounds ∧
  ∃ pr, astar 3 graphWide 1 1000000 = Ok (Some pr) ∧ totalDistance pr = 0.
Proof.
  split; [by vm_compute|].
  split; [apply (bool_decide_unpack _); by vm_compute|].
  split; [apply (bool_decide_unpack _); by vm_compute|].
  split; [apply (bool_decide_unpack _); by vm_compute|].
  split; [apply (bool_decide_unpack _); by vm_compute|].
  split; [by vm_compute|].
  eexists. split; [by vm_compute|]. done.
Qed.

(** ** C5 *)

(** C5, as amended: on a graph that satisfies the data-model invariants,
    whose identifiers lie in [0, 999] and whose weights are at most
    [INT_MAX - INF], when both endpoints are present and no directed path
    leads from the source to the destination, [dijkstra] and [astar] both
    return a result that is not [NULL]; it is well formed (a block of
    [numCities] entries, of which none is used), with path length zero
    and total distance zero. *)
Theorem unreachable_is_empty g s d :
  graph_ok g → s ∈ cityIDs g → d ∈ cityIDs g →
  (∀ W, ¬ route g s d W) →
  (∃ pr, dijkstra g s d = Ok (Some pr) ∧ path_ok (numCities g) pr ∧
     pathLength pr = 0 ∧ totalDistance pr = 0) ∧
  (∀ fuel, (astar_fuel g ≤ fuel)%nat →
     ∃ pr, astar fuel g s d = Ok (Some pr) ∧ path_ok (numCities g) pr ∧
       pathLength pr = 0 ∧ totalDistance pr = 0).
Proof.
  intros Hok Hs Hd Hnone. split.
  - destruct (dijkstra_correct g Hok s Hs d Hd) as
      (pr & E & Hempty & _ & _ & Hwell).
    exists pr. split; [done|]. split; [done|]. apply Hempty. intros W HW.
    by apply Hnone in HW.
  - intros fuel Hfuel.
    destruct (astar_total g Hok s Hs d Hd fuel Hfuel) as
      (pr & E & Hempty & _ & Hwell).
    exists pr. split; [done|]. split; [done|]. by apply Hempty.
Qed.

Lemma unreachable_is_empty_witness :
  (∃ pr, dijkstra graph4 4 1 = Ok (Some pr) ∧ path_ok (numCities graph4) pr ∧
     pathLength pr = 0 ∧ totalDistance pr = 0) ∧
  (∀ fuel, (astar_fuel graph4 ≤ fuel)%nat →
     ∃ pr, astar fuel graph4 4 1 = Ok (Some pr) ∧
       path_ok (numCities graph4) pr ∧
       pathLength pr = 0 ∧ totalDistance pr = 0).
Proof.
  apply unreachable_is_empty.
  - apply (bool_decide_unpack _). by vm_compute.
  - apply (bool_decide_unpack _). by vm_compute.
  - apply (bool_decide_unpack _). by vm_compute.
  - apply graph4_no_way_back.
Defined.

(** C5 as stated fails: both cities of [graphWide] exist and no directed
    path connects them, yet [dijkstra] returns no result: inserting the
    city 1000000 into the heap writes outside the position table. *)
Lemma unreachable_beyond_table :
  buildWide = Ok graphWide ∧
  1 ∈ cityIDs graphWide ∧ 1000000 ∈ cityIDs graphWide ∧
  (∀ W, ¬ route graphWide 1 1000000 W) ∧
  dijkstra graphWide 1 1000000 = OutOfBounds ∧
  ¬ ∃ pr, dijkstra graphWide 1 1000000 = Ok (Some pr).
Proof.
  split; [by vm_compute|].
  split; [apply (bool_decide_unpack _); by vm_compute|].
  split; [apply (bool_decide_unpack _); by vm_compute|].
  split; [apply graphWide_no_route|].
  assert (dijkstra graphWide 1 1000000 = OutOfBounds) as E by (by vm_compute).
  split; [done|]. rewrite E. by intros [pr ?].
Qed.

(** ** C9 *)



(** ** C10 *)

(** The relaxation loop of [astar] stops at the position table as soon as
    it relaxes a road to a city whose identifier is outside the table. *)
Lemma astarRelax_oob g u dest :
  0 ≤ u < numCities g → 0 ≤ dest < numCities g →
  ∀ edges gScore fScores parent h,
    Forall (fun e => destCityID e ∈ cityIDs g ∧
                     0 < distance e ≤ MAX_WEIGHT) edges →
    Exists (fun e => ¬ (0 ≤ destCityID e < POS_SIZE) ∧ distance e < INF)
      edges →
    length gScore = length (cities g) →
    length fScores = length (cities g) →
    length parent = length (cities g) →
    heap_safe h →
    aget gScore u = Ok 0 →
    (∀ i c, aget (cities g) i = Ok c → ¬ (0 ≤ cityID c < POS_SIZE) →
            aget gScore i = Ok INF) →
    astarRelax g edges u dest gScore fScores parent h = OutOfBounds.
Proof.
  intros Hu Hdest. unfold numCities in Hu, Hdest.
  induction edges as [|e rest IH];
    intros gScore fScores parent h Hall Hbad Hlg Hlf Hlp Hsafe Hgu Hfar.
  { by apply Exists_nil in Hbad. }
  apply Forall_cons in Hall as [[He Hw] Hall].
  cbn [astarRelax]. rewrite Hgu. cbn [mbind result_bind].
  destruct (findCityIndex_some g _ He) as (c & Hc & Hid).
  pose proof (aget_bounds _ _ _ Hc) as Hv.
  set (v := findCityIndex g (destCityID e)) in *.
  assert (wrap (0 + distance e) = distance e) as ->.
  { apply wrap_id. unfold in_int, MAX_WEIGHT, INT_MIN, INT_MAX, INF in *. lia. }
  destruct (aget_exists gScore v) as [gv Hgv]; [lia|]. rewrite Hgv.
  cbn [mbind result_bind].
  destruct (Z.ltb_spec (distance e) gv) as [Hlt|Hge].
  - rewrite (aset_exists parent) by lia. cbn [mbind result_bind].
    assert (aset gScore v (distance e)
            = Ok (<[Z.to_nat v := distance e]> gScore)) as Eg
      by (apply aset_exists; lia).
    rewrite Eg. cbn [mbind result_bind].
    destruct (heuristic_total g v dest) as [hv ->]; [unfold numCities; lia..|].
    cbn [mbind result_bind].
    rewrite (aset_exists fScores) by lia. cbn [mbind result_bind].
    pose proof Hsafe as ((_ & _ & Hpos) & _).
    destruct (decide (0 ≤ destCityID e < POS_SIZE)) as [Hin|Hout].
    2:{ rewrite aget_oob by lia. done. }
    destruct (aget_exists (pos h) (destCityID e)) as [p ->]; [lia|].
    cbn [mbind result_bind].
    assert (∃ h', (if p =? -1
                   then insertHeap h (destCityID e) (distance e)
                          (wrap (distance e + hv))
                   else decreaseKey h (destCityID e) (distance e)
                          (wrap (distance e + hv))) = Ok h' ∧ heap_safe h')
      as (h' & -> & Hsafe').
    { destruct (p =? -1).
      - by apply insertHeap_safe.
      - destruct (decreaseKey_safe h (destCityID e) (distance e)
                    (wrap (distance e + hv)) Hsafe Hin)
          as (h' & E & _ & _ & ? & _). by exists h'. }
    cbn [mbind result_bind].
    assert (v ≠ u) as Hvu.
    { intros ->. rewrite Hgu in Hgv. injection Hgv as <-. lia. }
    apply IH; [done| |by rewrite length_insert..|done| |].
    + apply Exists_cons in Hbad as [[Hno _]|Hbad]; [done|done].
    + by rewrite (aget_aset_ne _ _ _ _ _ Eg).
    + intros i c' Hc' Hfar'. rewrite (aget_aset_ne _ _ _ _ _ Eg).
      * by eapply Hfar.
      * intros <-. rewrite Hc in Hc'. injection Hc' as <-.
        by rewrite Hid in Hfar'.
  - apply IH; [done| |done..].
    apply Exists_cons in Hbad as [[Hout Hshort]|Hbad]; [|done].
    rewrite <- Hid in Hout. rewrite (Hfar _ _ Hc Hout) in Hgv.
    injection Hgv as <-. lia.
Qed.

(** [astar] leaves the position table when a road of weight below [INF]
    leads from the source to a city whose identifier is outside the
    table. *)
Lemma astar_oob_road fuel g s d b w :
  graph_wf g → weights_bounded g →
  s ∈ cityIDs g → d ∈ cityIDs g → s ≠ d → 0 ≤ s < POS_SIZE →
  road g s b w → w < INF → ¬ (0 ≤ b < POS_SIZE) → (1 ≤ fuel)%nat →
  astar fuel g s d = OutOfBounds.
Proof.
  intros [Hnd Hwf] Hwb Hs Hd Hsd Hsin Hroad Hw Hb Hfuel. unfold astar.
  destruct (Z.eqb_spec (findCityIndex g s) (-1)) as [E|_];
    [by apply findCityIndex_none in E|].
  destruct (Z.eqb_spec (findCityIndex g d) (-1)) as [E|_];
    [by apply findCityIndex_none in E|].
  cbn [orb].
  destruct (findCityIndex_some g s Hs) as (src & Hsrc & Hids).
  destruct (findCityIndex_some g d Hd) as (dst & Hdst & Hidd).
  pose proof (aget_bounds _ _ _ Hsrc) as Hsb.
  pose proof (aget_bounds _ _ _ Hdst) as Hdb.
  set (si := findCityIndex g s) in *. set (di := findCityIndex g d) in *.
  assert (si ≠ di) as Hidx.
  { intros Heq. rewrite Heq in Hsrc. congruence. }
  set (n := Z.to_nat (numCities g)).
  assert (Z.of_nat n = Z.of_nat (length (cities g))) as Hn
    by (unfold n, numCities; lia).
  assert (aset (replicate n INF) si 0 = Ok (<[Z.to_nat si := 0]> (replicate n INF)))
    as Eg by (apply aset_exists; rewrite length_replicate; lia).
  rewrite Eg. cbn [mbind result_bind].
  destruct (heuristic_total g si di) as [h0 ->]; [unfold numCities; lia..|].
  cbn [mbind result_bind].
  assert (aset (replicate n INF) si h0 = Ok (<[Z.to_nat si := h0]> (replicate n INF)))
    as Ef by (apply aset_exists; rewrite length_replicate; lia).
  rewrite Ef. cbn [mbind result_bind]. rewrite Hsrc. cbn [mbind result_bind].
  rewrite (aget_aset_eq _ _ _ _ Eg). cbn [mbind result_bind].
  rewrite (aget_aset_eq _ _ _ _ Ef). cbn [mbind result_bind].
  destruct (createMinHeap_props (numCities g)) as
    ((Hsafe0 & _) & _ & Hsz0 & Hcap0 & _); [lia|].
  destruct (insertHeap_ok (createMinHeap (numCities g)) (cityID src) 0 h0)
    as (h & -> & Hsz & _ & Hsafe & Hin & _); [done|by rewrite Hids|
      rewrite Hsz0, Hcap0; unfold numCities; lia|].
  cbn [mbind result_bind].
  destruct fuel as [|fuel]; [lia|]. cbn [astarLoop].
  unfold isHeapEmpty. destruct (Z.eqb_spec (size h) 0) as [|_]; [lia|].
  destruct (extractMin_ok h Hsafe) as
    (root & h1 & -> & Hroot & _ & _ & Hsafe1 & _); [lia|].
  cbn [mbind result_bind].
  assert (hCityID root = s) as ->.
  { assert (in_heap h root) as Hr by (by exists 0).
    apply Hin in Hr as [->|[i Hi%node_at_bounds]]; [done|lia]. }
  fold si. destruct (Z.eqb_spec si di) as [|_]; [done|].
  rewrite Hsrc. cbn [mbind result_bind].
  assert (mkEdge b w ∈ adjList src) as He.
  { destruct Hroad as (c & Hc & Hid & He).
    apply elem_of_aget in Hc as [k Hk].
    pose proof (findCityIndex_of_aget g k c Hnd Hk) as Hfk.
    rewrite Hid in Hfk. fold si in Hfk. subst k. congruence. }
  rewrite astarRelax_oob; [done|unfold numCities; lia..| | | | | | | |].
  - unfold weights_bounded in Hwb. rewrite Forall_forall in Hwf, Hwb.
    assert (src ∈ cities g) as Hsin' by (by eapply aget_elem_of).
    destruct (Hwf src Hsin') as [Hdests _].
    specialize (Hwb src Hsin'). rewrite Forall_forall in Hdests, Hwb.
    apply Forall_forall. intros e Hein.
    destruct (Hdests e Hein). specialize (Hwb e Hein). split; [done|lia].
  - apply Exists_exists. exists (mkEdge b w). split; [done|]. by split.
  - rewrite length_insert, length_replicate. lia.
  - rewrite length_insert, length_replicate. lia.
  - rewrite length_replicate. lia.
  - done.
  - by apply (aget_aset_eq _ _ _ _ Eg).
  - intros i c Hc Hfar. rewrite (aget_aset_ne _ _ _ _ _ Eg).
    + apply aget_replicate. apply aget_bounds in Hc. lia.
    + intros <-. rewrite Hsrc in Hc. injection Hc as <-.
      by rewrite Hids in Hfar.
Qed.

(** C10, as amended.  The position table has 1000 entries and is indexed
    by the city identifier.  A heap in a state that the operations can
    produce, used with identifiers from 0 to 999, is never accessed out of
    bounds by [insertHeap], [decreaseKey] and [extractMin], and stays in
    such a state; with an identifier outside 0..999 [decreaseKey] reads,
    and [insertHeap] into a heap that is not full writes, outside the
    table.  Hence [dijkstra] and [astar] return on a graph whose
    identifiers all lie in 0..999 (and which satisfies the other
    preconditions).  [dijkstra] inserts every city: it leaves the table
    as soon as some identifier of the graph is outside 0..999.  [astar]
    uses the identifiers of the source and of the cities it relaxes only:
    it leaves the table when the source is outside 0..999, and when a road
    of weight below [INF] leads from the source (inside 0..999, not the
    destination) to a city outside 0..999. *)
Theorem position_table_bounds :
  (∀ cap, Z.of_nat (length (pos (createMinHeap cap))) = 1000) ∧
  (∀ cap, 0 ≤ cap → heap_safe (createMinHeap cap)) ∧
  (∀ h id dist f, heap_safe h → 0 ≤ id ≤ 999 →
     (∃ h', insertHeap h id dist f = Ok h' ∧ heap_safe h') ∧
     (∃ h', decreaseKey h id dist f = Ok h' ∧ heap_safe h')) ∧
  (∀ h, heap_safe h → ∃ n h', extractMin h = Ok (n, h') ∧ heap_safe h') ∧
  (∀ h id dist f, heap_safe h → ¬ (0 ≤ id ≤ 999) →
     decreaseKey h id dist f = OutOfBounds ∧
     (size h < hcapacity h → insertHeap h id dist f = OutOfBounds)) ∧
  (∀ g s d, graph_ok g → s ∈ cityIDs g → d ∈ cityIDs g →
     is_Ok (dijkstra g s d) ∧
     ∀ fuel, (astar_fuel g ≤ fuel)%nat → is_Ok (astar fuel g s d)) ∧
  (∀ g s d, s ∈ cityIDs g → d ∈ cityIDs g →
     ¬ Forall (fun c => 0 ≤ cityID c ≤ 999) (cities g) →
     dijkstra g s d = OutOfBounds) ∧
  (∀ g s d fuel, s ∈ cityIDs g → d ∈ cityIDs g → ¬ (0 ≤ s ≤ 999) →
     astar fuel g s d = OutOfBounds) ∧
  (∀ g s d b w fuel, graph_wf g → weights_bounded g →
     s ∈ cityIDs g → d ∈ cityIDs g → s ≠ d → 0 ≤ s ≤ 999 →
     road g s b w → w < INF → ¬ (0 ≤ b ≤ 999) → (1 ≤ fuel)%nat →
     astar fuel g s d = OutOfBounds).
Proof.
  split_and!.
  - intros cap. change (pos (createMinHeap cap))
      with (replicate (Z.to_nat POS_SIZE) (-1)).
    by rewrite length_replicate.
  - intros cap Hcap. by destruct (createMinHeap_props cap Hcap) as ((? & _) & _).
  - intros h id dist f Hsafe Hid. split.
    + apply insertHeap_safe; [done|unfold POS_SIZE; lia].
    + destruct (decreaseKey_safe h id dist f Hsafe) as (h' & E & _ & _ & ? & _);
        [unfold POS_SIZE; lia|]. by exists h'.
  - apply extractMin_safe.
  - intros h id dist f Hsafe Hid. split.
    + apply decreaseKey_oob; [apply Hsafe|unfold POS_SIZE; lia].
    + intros Hroom. apply insertHeap_oob; [apply Hsafe|done|unfold POS_SIZE; lia].
  - intros g s d Hok Hs Hd. split.
    + destruct (dijkstra_correct g Hok s Hs d Hd) as (pr & E & _).
      by exists (Some pr).
    + intros fuel Hfuel.
      destruct (astar_total g Hok s Hs d Hd fuel Hfuel) as (pr & E & _).
      by exists (Some pr).
  - intros g s d Hs Hd Hbad. apply dijkstra_oob; [done..|].
    intros Hr. apply Hbad. unfold ids_in_range in Hr.
    eapply Forall_impl; [exact Hr|]. intros c. unfold POS_SIZE. simpl. lia.
  - intros g s d fuel Hs Hd Hbad. apply astar_oob; [done..|].
    unfold POS_SIZE. lia.
  - intros g s d b w fuel Hwf Hwb Hs Hd Hsd Hsin Hroad Hw Hb Hfuel.
    apply (astar_oob_road fuel g s d b w); try done; unfold POS_SIZE; lia.
Qed.

(** One road, to a city beyond the position table. *)
Lemma position_table_bounds_witness :
  (is_Ok (dijkstra graph4 1 4) ∧ is_Ok (astar (astar_fuel graph4) graph4 1 4)) ∧
  dijkstra graphWide 1 1000000 = OutOfBounds ∧
  astar 3 graphWide 1000000 1 = OutOfBounds ∧
  astar 3 {| cities := [mkCity 1 "A" 0 0 [mkEdge 5000 7];
                        mkCity 5000 "B" 3 4 []; mkCity 2 "C" 0 1 []];
             capacity := 50 |} 1 2 = OutOfBounds.
Proof.
  destruct position_table_bounds as
    (_ & _ & _ & _ & _ & Hin & Hdij & Hast & Hroad).
  split; [|split; [|split]].
  - destruct (Hin graph4 1 4) as [Hd Ha].
    + apply (bool_decide_unpack _). by vm_compute.
    + apply (bool_decide_unpack _). by vm_compute.
    + apply (bool_decide_unpack _). by vm_compute.
    + split; [done|]. apply Ha. apply le_n.
  - apply (Hdij graphWide 1 1000000).
    + apply (bool_decide_unpack _). by vm_compute.
    + apply (bool_decide_unpack _). by vm_compute.
    + apply (bool_decide_unpack _). by vm_compute.
  - apply (Hast graphWide 1000000 1 3%nat).
    + apply (bool_decide_unpack _). by vm_compute.
    + apply (bool_decide_unpack _). by vm_compute.
    + lia.
  - apply (Hroad _ 1 2 5000 7 3%nat).
    + apply (bool_decide_unpack _). by vm_compute.
    + apply (bool_decide_unpack _). by vm_compute.
    + apply (bool_decide_unpack _). by vm_compute.
    + apply (bool_decide_unpack _). by vm_compute.
    + lia.
    + lia.
    + eexists. split_and!; [by left|done|by left].
    + unfold INF. lia.
    + lia.
    + lia.
Defined.

(** C10 as stated fails for [astar]: the city 1000000 of [graphWide] is
    outside 0..999, yet [astar] from the city 1 returns with every access
    to the position table inside it, because it never relaxes a road to
    that city. *)
Lemma astar_inside_table_beyond_range :
  buildWide = Ok graphWide ∧
  ¬ Forall (fun c => 0 ≤ cityID c ≤ 999) (cities graphWide) ∧
  1 ∈ cityIDs graphWide ∧ 1000000 ∈ cityIDs graphWide ∧
  is_Ok (astar 3 graphWide 1 1000000) ∧
  ¬ (∀ g s d fuel, s ∈ cityIDs g → d ∈ cityIDs g →
       is_Ok (astar fuel g s d) →
       Forall (fun c => 0 ≤ cityID c ≤ 999) (cities g)).
Proof.
  assert (¬ Forall (fun c => 0 ≤ cityID c ≤ 999) (cities graphWide)) as Hbad.
  { intros H. apply Forall_cons in H as [_ H].
    apply Forall_cons in H as [H _]. simpl in H. lia. }
  assert (is_Ok (astar 3 graphWide 1 1000000)) as Hrun.
  { eexists. by vm_compute. }
  assert (1 ∈ cityIDs graphWide) as H1
    by (apply (bool_decide_unpack _); by vm_compute).
  assert (1000000 ∈ cityIDs graphWide) as H2
    by (apply (bool_decide_unpack _); by vm_compute).
  split; [by vm_compute|]. split_and!; [done..|].
  intros H. apply Hbad. by apply (H graphWide 1 1000000 3%nat).
Qed.

(** * Further properties of the graph store *)

(** ** Roads of a graph after one adjacency list is replaced *)

Lemma setAdjList_same c : setAdjList c (adjList c) = c.
Proof. by destruct c. Qed.

Lemma weightsTo_nil b l : weightsTo b l = [] ↔ b ∉ destCityID <$> l.
Proof.
  split; [|apply weightsTo_absent].
  induction l as [|e l IH]; [intros _; apply not_elem_of_nil|].
  rewrite weightsTo_cons, fmap_cons, not_elem_of_cons.
  case_decide as Hd; [done|]. simpl. intros Hw. split; [done|by apply IH].
Qed.

Lemma roads_insert g k c l a b cap :
  NoDup (cityIDs g) → cities g !! k = Some c →
  roads {| cities := <[k := setAdjList c l]> (cities g); capacity := cap |} a b
  = if decide (a = cityID c) then weightsTo b l else roads g a b.
Proof.
  intros Hnd Hc. unfold roads, cityIDs in *. cbn [cities].
  pose proof (take_drop_middle _ _ _ Hc) as Hsplit.
  rewrite insert_take_drop by (by eapply lookup_lt_Some).
  set (l1 := take k (cities g)) in *. set (l2 := drop (S k) (cities g)) in *.
  rewrite <- Hsplit in Hnd |- *.
  rewrite fmap_app, fmap_cons in Hnd.
  apply NoDup_app in Hnd as (_ & Hl & Hr).
  apply NoDup_cons in Hr as [Hr _].
  rewrite !bind_app, !bind_cons. cbn [cityID setAdjList adjList].
  destruct (decide (a = cityID c)) as [->|Hne].
  - rewrite decide_True by done.
    rewrite (roads_other_ids l1), (roads_other_ids l2).
    + by rewrite app_nil_r.
    + done.
    + intros Hin. apply (Hl _ Hin). left.
  - rewrite !(decide_False (P := cityID c = a)) by done. done.
Qed.

Lemma roads_absent g a b : a ∉ cityIDs g → roads g a b = [].
Proof. apply roads_other_ids. Qed.

Lemma roads_at g a b c :
  NoDup (cityIDs g) → aget (cities g) (findCityIndex g a) = Ok c →
  cityID c = a → roads g a b = weightsTo b (adjList c).
Proof. intros Hnd Hc <-. by eapply roads_unique. Qed.

(** ** [addRoad] *)

Lemma updateRoad_other b' : ∀ l b w l',
  updateRoad l b w = Some l' → b' ≠ b → weightsTo b' l' = weightsTo b' l.
Proof.
  induction l as [|e l IH]; intros b w l' Hup Hne; [done|].
  cbn [updateRoad] in Hup. destruct (Z.eqb_spec (destCityID e) b) as [Heq|Hd].
  - injection Hup as <-. rewrite !weightsTo_cons. cbn [destCityID].
    rewrite !decide_False by congruence. done.
  - apply fmap_Some in Hup as (l0 & Hl0 & ->).
    rewrite !weightsTo_cons. f_equal. by eapply IH.
Qed.

Lemma weightsTo_roadAdded l b w :
  NoDup (destCityID <$> l) → weightsTo b (roadAdded l b w) = [w].
Proof.
  intros Hnd. unfold roadAdded.
  destruct (updateRoad l b w) as [l'|] eqn:E.
  - by destruct (updateRoad_Some _ _ _ _ E Hnd).
  - apply updateRoad_None in E. rewrite weightsTo_cons. cbn [destCityID distance].
    rewrite decide_True by done. by rewrite weightsTo_absent.
Qed.

Lemma weightsTo_roadAdded_other l b w b' :
  b' ≠ b → weightsTo b' (roadAdded l b w) = weightsTo b' l.
Proof.
  intros Hne. unfold roadAdded.
  destruct (updateRoad l b w) as [l'|] eqn:E.
  - by eapply updateRoad_other.
  - rewrite weightsTo_cons. cbn [destCityID]. by rewrite decide_False.
Qed.

Lemma addRoad_refused g a b w :
  a ∉ cityIDs g ∨ b ∉ cityIDs g ∨ w ≤ 0 → addRoad g a b w = Ok (0, g).
Proof.
  intros H. unfold addRoad.
  destruct (Z.eqb_spec (findCityIndex g a) (-1)) as [|Ha]; [done|].
  destruct (Z.eqb_spec (findCityIndex g b) (-1)) as [|Hb]; [done|].
  cbn [orb]. destruct (Z.leb_spec w 0) as [|Hw]; [done|].
  rewrite <- !findCityIndex_none in H. lia.
Qed.

Lemma addRoad_roads g a b w :
  graph_wf g → a ∈ cityIDs g → b ∈ cityIDs g → 0 < w →
  ∃ g', addRoad g a b w = Ok (1, g') ∧
    cityIDs g' = cityIDs g ∧ capacity g' = capacity g ∧
    roads g' a b = [w] ∧
    ∀ a' b', a' ≠ a ∨ b' ≠ b → roads g' a' b' = roads g a' b'.
Proof.
  intros [Hnd Hwf] Ha Hb Hw.
  destruct (addRoad_success g a b w Ha Hb Hw) as (c & Hc & Hid & ->).
  eexists. split; [done|].
  pose proof Hc as [_ Hk]%aget_Ok.
  assert (NoDup (destCityID <$> adjList c)) as Hdests.
  { rewrite Forall_forall in Hwf. apply Hwf.
    by eapply list_elem_of_lookup_2. }
  split_and!.
  - by apply (cityIDs_insert g _ c).
  - done.
  - rewrite roads_insert by done. rewrite decide_True by done.
    by apply weightsTo_roadAdded.
  - intros a' b' Hother. rewrite roads_insert by done.
    case_decide as Ha'; [|done]. rewrite Hid in Ha'. subst a'.
    destruct Hother as [?|Hb']; [done|].
    rewrite weightsTo_roadAdded_other by done.
    symmetry. by apply roads_at.
Qed.

(** [addRoad] refuses a missing endpoint and a weight that is not
    positive, leaving the graph as it is; otherwise it succeeds, the
    cities keep their identifiers and positions, there is exactly one road
    from [a] to [b], of weight [w], and the roads between every other pair
    of cities are the ones there were. *)
Theorem addRoad_frame g a b w :
  graph_wf g →
  (a ∉ cityIDs g ∨ b ∉ cityIDs g ∨ w ≤ 0 → addRoad g a b w = Ok (0, g)) ∧
  (a ∈ cityIDs g → b ∈ cityIDs g → 0 < w →
   ∃ g', addRoad g a b w = Ok (1, g') ∧
     cityIDs g' = cityIDs g ∧ capacity g' = capacity g ∧
     roads g' a b = [w] ∧
     ∀ a' b', a' ≠ a ∨ b' ≠ b → roads g' a' b' = roads g a' b').
Proof.
  intros Hwf. split.
  - apply addRoad_refused.
  - by apply addRoad_roads.
Qed.

Lemma addRoad_frame_witness :
  ∃ g', addRoad graph4 4 1 9 = Ok (1, g') ∧
    cityIDs g' = cityIDs graph4 ∧ capacity g' = capacity graph4 ∧
    roads g' 4 1 = [9] ∧
    ∀ a' b', a' ≠ 4 ∨ b' ≠ 1 → roads g' a' b' = roads graph4 a' b'.
Proof.
  destruct (addRoad_frame graph4 4 1 9) as [_ H].
  - apply (bool_decide_unpack _). by vm_compute.
  - apply H; [| |lia]; apply (bool_decide_unpack _); by vm_compute.
Defined.

(** ** [removeRoad] *)

Lemma removeFirstEdge_None l b :
  removeFirstEdge l b = None ↔ b ∉ destCityID <$> l.
Proof.
  induction l as [|e l IH]; cbn [removeFirstEdge].
  - split; [intros _; apply not_elem_of_nil|done].
  - rewrite fmap_cons, not_elem_of_cons.
    destruct (Z.eqb_spec (destCityID e) b) as [Heq|Hne].
    + split; [done|naive_solver].
    + rewrite fmap_None, IH. naive_solver.
Qed.

Lemma removeFirstEdge_Some b : ∀ l l',
  removeFirstEdge l b = Some l' → NoDup (destCityID <$> l) →
  weightsTo b l' = [] ∧ ∀ b', b' ≠ b → weightsTo b' l' = weightsTo b' l.
Proof.
  induction l as [|e l IH]; intros l' Hrm Hnd; [done|].
  cbn [removeFirstEdge] in Hrm. rewrite fmap_cons in Hnd.
  apply NoDup_cons in Hnd as [Hnotin Hnd].
  destruct (Z.eqb_spec (destCityID e) b) as [Heq|Hne].
  - injection Hrm as <-. subst b. split; [by apply weightsTo_absent|].
    intros b' Hb'. rewrite weightsTo_cons. by rewrite decide_False by congruence.
  - apply fmap_Some in Hrm as (l0 & Hl0 & ->).
    destruct (IH l0 Hl0 Hnd) as [Hw Hother]. split.
    + by rewrite weightsTo_cons, decide_False.
    + intros b' Hb'. rewrite !weightsTo_cons. f_equal. by apply Hother.
Qed.

Lemma removeRoad_roads g a b :
  graph_wf g →
  (roads g a b = [] → removeRoad g a b = Ok (0, g)) ∧
  (roads g a b ≠ [] →
   ∃ g', removeRoad g a b = Ok (1, g') ∧
     cityIDs g' = cityIDs g ∧ capacity g' = capacity g ∧
     roads g' a b = [] ∧
     ∀ a' b', a' ≠ a ∨ b' ≠ b → roads g' a' b' = roads g a' b').
Proof.
  intros [Hnd Hwf]. unfold removeRoad.
  destruct (Z.eqb_spec (findCityIndex g a) (-1)) as [Hnone|Hsome].
  { apply findCityIndex_none in Hnone. split; [done|].
    by rewrite roads_absent. }
  assert (a ∈ cityIDs g) as Ha.
  { destruct (decide (a ∈ cityIDs g)) as [?|Hn]; [done|].
    by apply findCityIndex_none in Hn. }
  destruct (findCityIndex_some g a Ha) as (c & Hc & Hid).
  rewrite Hc. cbn [mbind result_bind].
  pose proof Hc as [_ Hk]%aget_Ok.
  assert (NoDup (destCityID <$> adjList c)) as Hdests.
  { rewrite Forall_forall in Hwf. apply Hwf.
    by eapply list_elem_of_lookup_2. }
  rewrite (roads_at g a b c) by done.
  destruct (removeFirstEdge (adjList c) b) as [l'|] eqn:Hrm.
  - assert (¬ (b ∉ destCityID <$> adjList c)) as Hin.
    { rewrite <- removeFirstEdge_None, Hrm. done. }
    destruct (removeFirstEdge_Some _ _ _ Hrm Hdests) as [Hgone Hother].
    split; [by intros ?%weightsTo_nil|]. intros _.
    rewrite aset_exists by (by eapply aget_bounds). cbn [mbind result_bind].
    eexists. split; [done|]. split_and!.
    + by apply (cityIDs_insert g _ c).
    + done.
    + rewrite roads_insert by done. by rewrite decide_True.
    + intros a' b' Hab. rewrite roads_insert by done.
      case_decide as Ha'; [|done]. rewrite Hid in Ha'. subst a'.
      destruct Hab as [?|Hb']; [done|]. rewrite Hother by done.
      symmetry. by apply roads_at.
  - split; [done|]. intros Hne. apply removeFirstEdge_None in Hrm.
    by apply weightsTo_nil in Hrm.
Qed.

(** [removeRoad] returns 0 and leaves the graph as it is when there is no
    road from [a] to [b] (in particular when [a] is not a city); otherwise
    it returns 1, the cities keep their identifiers and positions, no road
    from [a] to [b] is left, and the roads between every other pair of
    cities are the ones there were. *)
Theorem removeRoad_frame g a b :
  graph_wf g →
  (roads g a b = [] → removeRoad g a b = Ok (0, g)) ∧
  (roads g a b ≠ [] →
   ∃ g', removeRoad g a b = Ok (1, g') ∧
     cityIDs g' = cityIDs g ∧ capacity g' = capacity g ∧
     roads g' a b = [] ∧
     ∀ a' b', a' ≠ a ∨ b' ≠ b → roads g' a' b' = roads g a' b').
Proof.
  intros Hwf. destruct (removeRoad_roads g a b Hwf) as [Hnone Hsome]. split.
  - intros Hno. by apply Hnone.
  - intros Hroad. by apply Hsome.
Qed.

Lemma removeRoad_frame_witness :
  ∃ g', removeRoad graph4 1 2 = Ok (1, g') ∧
    cityIDs g' = cityIDs graph4 ∧ capacity g' = capacity graph4 ∧
    roads g' 1 2 = [] ∧
    ∀ a' b', a' ≠ 1 ∨ b' ≠ 2 → roads g' a' b' = roads graph4 a' b'.
Proof.
  destruct (removeRoad_frame graph4 1 2) as [_ H].
  - apply (bool_decide_unpack _). by vm_compute.
  - apply H. by vm_compute.
Defined.

(** Adding a road where there was none and removing it again gives back
    the graph, adjacency lists included. *)
Theorem addRoad_removeRoad g a b w :
  a ∈ cityIDs g → b ∈ cityIDs g → 0 < w → roads g a b = [] →
  ∃ g1, addRoad g a b w = Ok (1, g1) ∧ removeRoad g1 a b = Ok (1, g).
Proof.
  intros Ha Hb Hw Hnone.
  destruct (addRoad_success g a b w Ha Hb Hw) as (c & Hc & Hid & ->).
  eexists. split; [done|].
  pose proof Hc as [Hk0 Hk]%aget_Ok. pose proof (aget_bounds _ _ _ Hc) as Hkb.
  assert (b ∉ destCityID <$> adjList c) as Hnotin.
  { apply weightsTo_nil. apply (f_equal (@length Z)) in Hnone.
    assert (roads g a b = [] → weightsTo b (adjList c) = []) as H; [|by apply H, nil_length_inv].
    clear Hnone. unfold roads. rewrite <- (take_drop_middle _ _ _ Hk).
    rewrite bind_app, bind_cons, decide_True by done.
    intros H%app_eq_nil. destruct H as [_ H%app_eq_nil]. apply H. }
  assert (roadAdded (adjList c) b w = mkEdge b w :: adjList c) as Hadd.
  { unfold roadAdded. apply (updateRoad_None _ _ w) in Hnotin.
    by rewrite Hnotin. }
  rewrite Hadd. unfold removeRoad.
  set (k := findCityIndex g a) in *.
  set (g1 := {| cities := _; capacity := _ |}).
  assert (findCityIndex g1 a = k) as ->.
  { unfold findCityIndex, g1. cbn [cities].
    apply findCityIndex_from_ids.
    by apply (cityIDs_insert g _ c). }
  destruct (Z.eqb_spec k (-1)); [lia|].
  assert (aget (cities g1) k = Ok (setAdjList c (mkEdge b w :: adjList c)))
    as ->.
  { apply aget_Ok. split; [done|]. unfold g1. cbn [cities].
    apply list_lookup_insert_eq. lia. }
  cbn [mbind result_bind adjList setAdjList removeFirstEdge destCityID].
  rewrite Z.eqb_refl.
  rewrite aset_exists by (unfold g1; cbn [cities]; rewrite length_insert; lia).
  cbn [mbind result_bind]. unfold g1. cbn [cities capacity].
  rewrite list_insert_insert_eq.
  replace (setAdjList (setAdjList c (mkEdge b w :: adjList c)) (adjList c))
    with c by (by destruct c).
  rewrite list_insert_id by done. by destruct g.
Qed.

Lemma addRoad_removeRoad_witness :
  ∃ g1, addRoad graph4 4 1 9 = Ok (1, g1) ∧ removeRoad g1 4 1 = Ok (1, graph4).
Proof.
  apply addRoad_removeRoad; [| |lia|by vm_compute];
    apply (bool_decide_unpack _); by vm_compute.
Defined.

(** ** [deleteCity] *)

Lemma deleteCity_present g id :
  NoDup (cityIDs g) → id ∈ cityIDs g →
  deleteCity g id =
    (1, {| cities := withoutRoadsTo id <$>
                       filter (fun c => cityID c ≠ id) (cities g);
           capacity := capacity g |}).
Proof.
  intros Hnd Hin. unfold deleteCity.
  destruct (findCityIndex_some g id Hin) as (c & Hc & Hid).
  pose proof Hc as [Hk Hlook]%aget_Ok.
  destruct (Z.eqb_spec (findCityIndex g id) (-1)) as [E|_]; [lia|].
  set (k := findCityIndex g id) in *. do 2 f_equal.
  replace k with (0 + Z.of_nat (Z.to_nat k)) at 2 by lia.
  rewrite unlinkAll_delete. f_equal. subst id.
  symmetry. by apply filter_delete_id.
Qed.

Lemma weightsTo_unlinkEdgesTo id b l :
  weightsTo b (unlinkEdgesTo id l) = if decide (b = id) then [] else weightsTo b l.
Proof.
  induction l as [|e l IH]; [by case_decide|]. cbn [unlinkEdgesTo].
  destruct (Z.eqb_spec (destCityID e) id) as [Heq|Hne].
  - rewrite IH, weightsTo_cons. case_decide; [done|].
    by rewrite decide_False by congruence.
  - rewrite !weightsTo_cons, IH. case_decide; [|done].
    by rewrite decide_False by congruence.
Qed.

Lemma roads_deleted cs id a b :
  (c ← withoutRoadsTo id <$> filter (fun c => cityID c ≠ id) cs;
   if decide (cityID c = a) then weightsTo b (adjList c) else [])
  = if decide (a = id ∨ b = id) then []
    else c ← cs; if decide (cityID c = a) then weightsTo b (adjList c) else [].
Proof.
  induction cs as [|c cs IH]; [by case_decide|].
  destruct (decide (cityID c = id)) as [Hc|Hc].
  - rewrite filter_cons_False by naive_solver. rewrite IH.
    case_decide as Hab; [done|]. rewrite bind_cons.
    rewrite decide_False; [done|]. intros Heq. apply Hab. left. congruence.
  - rewrite filter_cons_True by done. rewrite fmap_cons, !bind_cons, IH.
    cbn [withoutRoadsTo cityID setAdjList adjList].
    rewrite weightsTo_unlinkEdgesTo.
    destruct (decide (a = id ∨ b = id)) as [Hab|Hab];
      destruct (decide (cityID c = a)) as [Ha|Ha];
      destruct (decide (b = id)) as [Hb|Hb]; try done.
    + destruct Hab; congruence.
    + destruct Hab. by right.
Qed.

(** [deleteCity] returns 0 and leaves the graph as it is when the city is
    absent; otherwise it returns 1, the number of cities drops by one, the
    deleted city has no road left in either direction, and the roads
    between the remaining cities are the ones there were. *)
Theorem deleteCity_frame g id :
  NoDup (cityIDs g) →
  (id ∉ cityIDs g → deleteCity g id = (0, g)) ∧
  (id ∈ cityIDs g →
   ∃ g', deleteCity g id = (1, g') ∧
     numCities g' = numCities g - 1 ∧
     (∀ a, roads g' a id = [] ∧ roads g' id a = []) ∧
     (∀ a b, a ≠ id → b ≠ id → roads g' a b = roads g a b)).
Proof.
  intros Hnd. split.
  - intros Hnotin. unfold deleteCity.
    apply findCityIndex_none in Hnotin. by rewrite Hnotin.
  - intros Hin. rewrite deleteCity_present by done. eexists. split; [done|].
    split_and!.
    + unfold numCities. cbn [cities]. rewrite length_fmap.
      destruct (findCityIndex_some g id Hin) as (c & [_ Hc]%aget_Ok & <-).
      rewrite (filter_delete_id _ _ _ Hnd Hc), length_delete by done.
      apply lookup_lt_Some in Hc. lia.
    + intros a. unfold roads. cbn [cities]. rewrite !roads_deleted.
      rewrite !decide_True; [done|by left|by right].
    + intros a b Ha Hb. unfold roads. cbn [cities]. rewrite roads_deleted.
      rewrite decide_False; [done|]. by intros [?|?].
Qed.

Lemma deleteCity_frame_witness :
  ∃ g', deleteCity graph4 2 = (1, g') ∧
    numCities g' = numCities graph4 - 1 ∧
    (∀ a, roads g' a 2 = [] ∧ roads g' 2 a = []) ∧
    (∀ a b, a ≠ 2 → b ≠ 2 → roads g' a b = roads graph4 a b).
Proof.
  destruct (deleteCity_frame graph4 2) as [_ H].
  - apply (bool_decide_unpack _). by vm_compute.
  - apply H. apply (bool_decide_unpack _). by vm_compute.
Defined.

(** ** Index and identifier *)

Lemma getCityID_aget g k c : aget (cities g) k = Ok c → getCityID g k = cityID c.
Proof.
  intros Hc. pose proof (aget_bounds _ _ _ Hc) as Hb.
  apply aget_Ok in Hc as [_ Hc]. unfold getCityID, numCities.
  destruct (Z.ltb_spec k 0); [lia|].
  destruct (Z.geb_spec k (Z.of_nat (length (cities g)))); [lia|].
  cbn [orb]. by rewrite Hc.
Qed.

(** [findCityIndex] and [getCityID] are inverse to each other: the index
    found for a present identifier holds that identifier, and, identifiers
    being unique, the identifier read at an index of the graph is found at
    that index.  An absent identifier is not found, and an index outside
    the graph has neither identifier nor name. *)
Theorem index_identifier_round_trip g :
  (∀ id, id ∈ cityIDs g →
     0 ≤ findCityIndex g id < numCities g ∧
     getCityID g (findCityIndex g id) = id) ∧
  (∀ id, id ∉ cityIDs g → findCityIndex g id = -1) ∧
  (∀ k, ¬ (0 ≤ k < numCities g) →
     getCityID g k = -1 ∧ getCityName g k = None) ∧
  (NoDup (cityIDs g) → ∀ k, 0 ≤ k < numCities g →
     findCityIndex g (getCityID g k) = k ∧ is_Some (getCityName g k)).
Proof.
  split_and!.
  - intros id Hin. destruct (findCityIndex_some g id Hin) as (c & Hc & Hid).
    split; [by eapply aget_bounds|]. by rewrite (getCityID_aget _ _ _ Hc).
  - intros id. apply findCityIndex_none.
  - intros k Hk. unfold getCityID, getCityName.
    destruct (Z.ltb_spec k 0); [done|].
    destruct (Z.geb_spec k (numCities g)); [done|lia].
  - intros Hnd k Hk. destruct (aget_exists (cities g) k) as [c Hc]; [done|].
    rewrite (getCityID_aget _ _ _ Hc). split.
    + by apply findCityIndex_of_aget.
    + unfold getCityName. destruct (Z.ltb_spec k 0); [lia|].
      destruct (Z.geb_spec k (numCities g)); [lia|]. cbn [orb].
      apply aget_Ok in Hc as [_ ->]. by eexists.
Qed.

Lemma index_identifier_round_trip_witness :
  (0 ≤ findCityIndex graph4 3 < numCities graph4 ∧
   getCityID graph4 (findCityIndex graph4 3) = 3) ∧
  findCityIndex graph4 9 = -1 ∧
  (getCityID graph4 4 = -1 ∧ getCityName graph4 4 = None) ∧
  (findCityIndex graph4 (getCityID graph4 2) = 2 ∧
   is_Some (getCityName graph4 2)).
Proof.
  destruct (index_identifier_round_trip graph4) as (H1 & H2 & H3 & H4).
  split; [|split; [|split]].
  - apply H1. apply (bool_decide_unpack _). by vm_compute.
  - apply H2. apply (bool_decide_unpack _). by vm_compute.
  - apply H3. change (numCities graph4) with 4. lia.
  - apply H4; [apply (bool_decide_unpack _); by vm_compute|].
    change (numCities graph4) with 4. lia.
Defined.

(** ** Search by name *)

Lemma findCityByName_from_app l1 l2 name :
  (∀ c, c ∈ l1 → cityName c ≠ name) →
  findCityByName_from (l1 ++ l2) name = findCityByName_from l2 name.
Proof.
  induction l1 as [|c l1 IH]; intros Hno; [done|].
  cbn [app findCityByName_from].
  destruct (strcmp (cityName c) name) eqn:E.
  - apply strcmp_Eq in E. destruct (Hno c); [left|done].
  - apply IH. intros c' Hc'. apply Hno. by right.
  - apply IH. intros c' Hc'. apply Hno. by right.
Qed.

(** [findCityByName] returns the identifier of the first city that bears
    the name, and -1 when no city does. *)
Theorem findCityByName_first g name :
  (∀ l1 c l2, cities g = l1 ++ c :: l2 → cityName c = name →
     (∀ c', c' ∈ l1 → cityName c' ≠ name) →
     findCityByName g name = cityID c) ∧
  ((∀ c, c ∈ cities g → cityName c ≠ name) → findCityByName g name = -1).
Proof.
  unfold findCityByName. split.
  - intros l1 c l2 -> Hc Hno. rewrite findCityByName_from_app by done.
    cbn [findCityByName_from]. rewrite Hc. by rewrite strcmp_refl.
  - intros Hno. rewrite <- (app_nil_r (cities g)).
    by rewrite findCityByName_from_app.
Qed.

Lemma findCityByName_first_witness :
  findCityByName graph4 "C" = 3 ∧ findCityByName graph4 "E" = -1.
Proof.
  destruct (findCityByName_first graph4 "C") as [H _].
  destruct (findCityByName_first graph4 "E") as [_ H'].
  split.
  - apply (H [mkCity 1 "A" 0 0 [mkEdge 3 4; mkEdge 2 3];
              mkCity 2 "B" 0 3 [mkEdge 4 4]]
             (mkCity 3 "C" 4 0 [mkEdge 4 3]) [mkCity 4 "D" 4 3 []]);
      [reflexivity|reflexivity|].
    intros c' Hc'. repeat (apply elem_of_cons in Hc' as [->|Hc']; [done|]).
    by apply elem_of_nil in Hc'.
  - apply H'. intros c Hc.
    repeat (apply elem_of_cons in Hc as [->|Hc]; [done|]).
    by apply elem_of_nil in Hc.
Defined.

Lemma substring_short n : ∀ s,
  (String.length s ≤ n)%nat → String.substring 0 n s = s.
Proof.
  induction n as [|n IH]; intros [|a s] Hlen; simpl in *; try done; [lia|].
  f_equal. apply IH. lia.
Qed.

Lemma substring_length n : ∀ s,
  (String.length (String.substring 0 n s) ≤ n)%nat.
Proof.
  induction n as [|n IH]; intros [|a s]; simpl; try lia.
  specialize (IH s). lia.
Qed.

(** [addCity] stores the first 49 characters of the name.  When it
    succeeds and no city of the graph bears the stored name already,
    [findCityByName] finds the new city under the stored name, which is
    the given name when that has at most 49 characters; under a given
    name of more than 49 characters that no city of the graph bears it
    finds nothing. *)
Theorem addCity_findCityByName g id name cx cy g' :
  addCity g id name cx cy = Ok (1, g') →
  (∀ c, c ∈ cities g → cityName c ≠ copyName name) →
  findCityByName g' (copyName name) = id ∧
  ((String.length name ≤ 49)%nat → findCityByName g' name = id) ∧
  ((49 < String.length name)%nat →
   (∀ c, c ∈ cities g → cityName c ≠ name) → findCityByName g' name = -1).
Proof.
  intros Hadd Hfresh.
  destruct (addCity_inv _ _ _ _ _ _ _ Hadd) as [[? _]|(_ & _ & Hcs)]; [done|].
  assert (findCityByName g' (copyName name) = id) as Hfound.
  { unfold findCityByName. rewrite Hcs.
    rewrite findCityByName_from_app by done. cbn [findCityByName_from cityName].
    by rewrite strcmp_refl. }
  split; [done|]. split.
  - intros Hlen. assert (copyName name = name) as Heq
      by (by apply (substring_short 49)).
    by rewrite Heq in Hfound.
  - intros Hlen Hno. unfold findCityByName. rewrite Hcs.
    rewrite findCityByName_from_app by done.
    cbn [findCityByName_from cityName].
    destruct (strcmp (copyName name) name) eqn:E; [|done..].
    apply strcmp_Eq in E.
    pose proof (substring_length 49 name) as Hl.
    change (String.substring 0 49 name) with (copyName name) in Hl.
    rewrite E in Hl. lia.
Qed.

Lemma addCity_findCityByName_witness :
  (∃ g', addCity graph4 5 "E" 1 1 = Ok (1, g') ∧ findCityByName g' "E" = 5) ∧
  (∃ g', addCity graph4 5
           "Llanfairpwllgwyngyllgogerychwyrndrobwllllantysiliogogogoch" 1 1
         = Ok (1, g') ∧
     findCityByName g'
       (copyName "Llanfairpwllgwyngyllgogerychwyrndrobwllllantysiliogogogoch")
     = 5 ∧
     findCityByName g'
       "Llanfairpwllgwyngyllgogerychwyrndrobwllllantysiliogogogoch" = -1).
Proof.
  split.
  - eexists. split; [reflexivity|].
    eapply (addCity_findCityByName graph4 5 "E" 1 1); [reflexivity| |].
    + apply Forall_forall. apply (bool_decide_unpack _). by vm_compute.
    + simpl. lia.
  - eexists. split; [reflexivity|].
    edestruct (addCity_findCityByName graph4 5
                 "Llanfairpwllgwyngyllgogerychwyrndrobwllllantysiliogogogoch" 1 1)
      as (Hstored & _ & Hgiven); [reflexivity| |].
    + apply Forall_forall. apply (bool_decide_unpack _). by vm_compute.
    + split; [exact Hstored|]. apply Hgiven.
      * simpl. lia.
      * apply Forall_forall. apply (bool_decide_unpack _). by vm_compute.
Defined.

(** ** The store invariant *)

Lemma graphFar_built : store_state graphFar.
Proof.
  apply (store_addRoad
           {| cities := [mkCity 1 "A" 0 0 []; mkCity 2 "B" 0 0 []];
              capacity := 50 |} 1 2 999999 1); [|reflexivity].
  apply (store_addCity
           {| cities := [mkCity 1 "A" 0 0 []]; capacity := 50 |}
           2 "B" 0 0 1); [|reflexivity].
  apply (store_addCity (createGraph 50) 1 "A" 0 0 1); [|reflexivity].
  apply store_create.
Qed.

Lemma store_state_wf_witness : graph_wf graphFar.
Proof. apply store_state_wf. apply graphFar_built. Defined.

(** ** [sortCitiesByName] *)

(** [sortCitiesByName] always returns; afterwards the cities are the same
    cities, each with its adjacency list, arranged so that no name is
    greater ([strcmp]) than a name further on; the same identifiers are
    present and the roads between any two cities are the ones there
    were. *)
Theorem sortCitiesByName_sorts g :
  ∃ g', sortCitiesByName g = Ok g' ∧
    cities g' ≡ₚ cities g ∧ sorted_by_name (cities g') ∧
    capacity g' = capacity g ∧
    (∀ id, id ∈ cityIDs g' ↔ id ∈ cityIDs g) ∧
    (∀ a b, roads g' a b ≡ₚ roads g a b).
Proof.
  destruct (sortCitiesByName_ok g) as (g' & E & Hperm & Hsorted & Hcap).
  exists g'. split_and!; [done..| |].
  - intros id. unfold cityIDs. by rewrite Hperm.
  - intros a b. unfold roads. by rewrite Hperm.
Qed.

(** ** Slots after a deletion, and deleting what was added *)

(** [deleteCity] closes the gap: a city stored before the deleted one keeps
    its index, a city stored after it moves down by one. *)
Theorem deleteCity_shifts_indices g id a :
  NoDup (cityIDs g) → id ∈ cityIDs g → a ∈ cityIDs g → a ≠ id →
  ∃ g', deleteCity g id = (1, g') ∧
    findCityIndex g' a =
      (if decide (findCityIndex g a < findCityIndex g id)
       then findCityIndex g a else findCityIndex g a - 1).
Proof.
  intros Hnd Hid Ha Hne.
  destruct (findCityIndex_some g id Hid) as (cd & Hcd & Hidd). subst id.
  destruct (findCityIndex_some g a Ha) as (ca & Hca & Hida).
  pose proof Hcd as [Hk0 Hk]%aget_Ok. pose proof Hca as [Hn0 Hn]%aget_Ok.
  set (k := findCityIndex g (cityID cd)) in *.
  set (n := findCityIndex g a) in *.
  assert (n ≠ k) as Hnk by (intros E; rewrite E in Hn; congruence).
  rewrite deleteCity_present by done. eexists. split; [done|].
  rewrite (filter_delete_id _ _ _ Hnd Hk).
  set (g' := {| cities := _; capacity := _ |}).
  assert (NoDup (cityIDs g')) as Hnd'.
  { unfold cityIDs, g'. cbn [cities]. rewrite <- list_fmap_compose.
    eapply sublist_NoDup; [exact Hnd|]. unfold cityIDs.
    apply fmap_sublist, sublist_delete. }
  assert (∀ m, delete (Z.to_nat k) (cities g) !! m = Some ca →
               findCityIndex g' a = Z.of_nat m) as Hfind.
  { intros m Hm. rewrite <- Hida.
    change (cityID ca) with (cityID (withoutRoadsTo (cityID cd) ca)).
    apply (findCityIndex_of_aget g' (Z.of_nat m)); [done|].
    apply aget_Ok. split; [lia|]. rewrite Nat2Z.id. unfold g'. cbn [cities].
    by rewrite list_lookup_fmap, Hm. }
  case_decide as Hlt.
  - rewrite (Hfind (Z.to_nat n)); [lia|].
    by rewrite list_lookup_delete_lt by lia.
  - rewrite (Hfind (Z.to_nat n - 1)%nat); [lia|].
    rewrite list_lookup_delete_ge by lia.
    by replace (S (Z.to_nat n - 1)) with (Z.to_nat n) by lia.
Qed.

Lemma deleteCity_shifts_indices_witness :
  ∃ g', deleteCity graph4 2 = (1, g') ∧
    findCityIndex g' 4 =
      (if decide (findCityIndex graph4 4 < findCityIndex graph4 2)
       then findCityIndex graph4 4 else findCityIndex graph4 4 - 1).
Proof.
  apply deleteCity_shifts_indices; [..|lia];
    apply (bool_decide_unpack _); by vm_compute.
Defined.

Lemma unlinkEdgesTo_absent id l :
  id ∉ destCityID <$> l → unlinkEdgesTo id l = l.
Proof.
  induction l as [|e l IH]; [done|].
  rewrite fmap_cons, not_elem_of_cons. intros [Hne Hnotin].
  cbn [unlinkEdgesTo]. destruct (Z.eqb_spec (destCityID e) id); [done|].
  by rewrite IH.
Qed.

(** Adding a city to a graph that satisfies the data-model invariants and
    deleting it again gives back the cities of the graph, adjacency lists
    included; only the capacity may have grown. *)
Theorem addCity_deleteCity g id name cx cy g1 :
  graph_wf g → addCity g id name cx cy = Ok (1, g1) →
  ∃ g2, deleteCity g1 id = (1, g2) ∧ cities g2 = cities g ∧
    capacity g2 = capacity g1.
Proof.
  intros Hwf Hadd. pose proof Hwf as [Hnd Hall].
  pose proof (addCity_wf _ _ _ _ _ _ _ Hwf Hadd) as [Hnd1 _].
  destruct (addCity_inv _ _ _ _ _ _ _ Hadd) as [[? _]|(_ & Hnone & Hcs)];
    [done|].
  rewrite deleteCity_present; [|done|].
  2:{ unfold cityIDs. rewrite Hcs, fmap_app. apply elem_of_app.
      right. by left. }
  eexists. split; [done|]. split; [|done]. cbn [cities]. rewrite Hcs.
  rewrite filter_app, filter_other_ids by done.
  rewrite filter_cons_False by (cbn [cityID]; naive_solver).
  rewrite filter_nil, app_nil_r.
  rewrite <- (list_fmap_id (cities g)) at 2.
  apply Forall_fmap_ext_1. eapply Forall_impl; [exact Hall|].
  intros c [Hdests _]. unfold withoutRoadsTo.
  rewrite unlinkEdgesTo_absent; [by destruct c|].
  intros (e & -> & He)%list_elem_of_fmap. rewrite Forall_forall in Hdests.
  by destruct (Hdests e He).
Qed.

Lemma addCity_deleteCity_witness :
  ∃ g2, deleteCity
          {| cities := cities graph4 ++ [mkCity 9 "E" 1 1 []];
             capacity := 50 |} 9 = (1, g2) ∧
    cities g2 = cities graph4 ∧
    capacity g2 = capacity {| cities := cities graph4 ++ [mkCity 9 "E" 1 1 []];
                              capacity := 50 |}.
Proof.
  apply (addCity_deleteCity graph4 9 "E" 1 1).
  - apply (bool_decide_unpack _). by vm_compute.
  - reflexivity.
Defined.

(** * The heap operations on a heap that satisfies the invariant *)

Lemma empty_not_resident h c : size h = 0 → ¬ resident h c.
Proof. intros Hsz (m & [i Hi%node_at_bounds] & _). lia. Qed.

Lemma insertHeap_room h id d f :
  heap_inv h → pos_sentinel h → 0 ≤ id < POS_SIZE → ¬ resident h id →
  size h < hcapacity h →
  ∃ h', insertHeap h id d f = Ok h' ∧ size h' = size h + 1 ∧
    heap_inv h' ∧ pos_sentinel h' ∧
    ∀ n, in_heap h' n ↔ n = mkNode id d f ∨ in_heap h n.
Proof.
  intros (Hsafe & Hcons & Hord) Hsent Hid Hnew Hroom.
  destruct (insertHeap_ok h id d f Hsafe Hid Hroom) as
    (h' & E & Hsz & _ & Hsafe' & Hin & Hpos & Hcons' & Hord').
  exists h'. split; [done|]. split; [done|].
  split; [split; [done|]; split; auto|]. split; [|done].
  - intros c Hc Hnr.
    assert (c ≠ id) as Hne.
    { intros ->. apply Hnr. exists (mkNode id d f). split; [|done].
      apply Hin. by left. }
    assert (¬ resident h c) as Hnr0.
    { intros (n & Hn & Hidn). apply Hnr. exists n. split; [|done].
      apply Hin. by right. }
    rewrite Hpos by done. by apply Hsent.
Qed.

Lemma extractMin_nonempty h :
  heap_inv h → 0 < size h →
  ∃ root h', extractMin h = Ok (root, h') ∧ node_at h 0 root ∧
    size h' = size h - 1 ∧ heap_inv h' ∧
    (∀ n, in_heap h n ↔ n = root ∨ in_heap h' n) ∧
    (∀ n, in_heap h n → fScore root ≤ fScore n) ∧
    ¬ resident h' (hCityID root) ∧
    (pos_sentinel h → 1 < size h → pos_sentinel h').
Proof.
  intros (Hsafe & Hcons & Hord) Hsz.
  destruct (extractMin_ok h Hsafe Hsz) as
    (root & h' & E & Hroot & Hsz' & _ & Hsafe' & _ & Hpos & Hc & Ho).
  destruct (Hc Hcons) as (Hcons' & Hin & Hgone & Hentry).
  destruct (Ho Hord) as (Hord' & Hmin).
  exists root, h'. split; [done|]. split; [done|]. split; [done|].
  split; [by split|]. split; [done|]. split; [done|]. split; [done|].
  intros Hsent Hbig c Hcr Hnr.
  destruct (decide (c = hCityID root)) as [->|Hne].
  { rewrite Hentry. by rewrite decide_False by lia. }
  assert (¬ resident h c) as Hnr0.
  { intros (n & Hn & Hidn). apply Hin in Hn as [->|Hn]; [done|].
    apply Hnr. by exists n. }
  rewrite Hpos by done. by apply Hsent.
Qed.

Lemma heap_of_two :
  ∃ h1 h, insertHeap (createMinHeap 4) 5 10 10 = Ok h1 ∧
    insertHeap h1 7 3 3 = Ok h ∧
    heap_inv h ∧ pos_sentinel h ∧ size h = 2.
Proof.
  destruct (createMinHeap_props 4) as (Hinv & Hsent & _); [lia|].
  destruct (insertHeap_room (createMinHeap 4) 5 10 10) as
    (h1 & E1 & Hsz1 & Hinv1 & Hsent1 & Hin1);
    [done|done|unfold POS_SIZE; lia|by apply empty_not_resident|simpl; lia|].
  assert (hcapacity h1 = 4) as Hcap1.
  { vm_compute in E1. by injection E1 as <-. }
  destruct (insertHeap_room h1 7 3 3) as
    (h2 & E2 & Hsz2 & Hinv2 & Hsent2 & Hin2);
    [done|done|unfold POS_SIZE; lia| |rewrite Hsz1, Hcap1; simpl; lia|].
  { intros (n & Hn & Hidn). apply Hin1 in Hn as [->|[i Hi%node_at_bounds]].
    - done.
    - simpl in Hi. lia. }
  exists h1, h2. split_and!; [done..|].
  rewrite Hsz2, Hsz1. done.
Qed.

(** [insertHeap] of a city that is not in the heap, into a heap with room,
    adds the node and keeps the whole invariant: heap order, table entries
    of the resident cities, sentinel for the others.  A full heap is left
    as it is: the node is dropped. *)
Theorem insertHeap_keeps_invariant h id d f :
  heap_inv h → pos_sentinel h → 0 ≤ id < POS_SIZE → ¬ resident h id →
  (size h < hcapacity h →
   ∃ h', insertHeap h id d f = Ok h' ∧ size h' = size h + 1 ∧
     heap_inv h' ∧ pos_sentinel h' ∧
     ∀ n, in_heap h' n ↔ n = mkNode id d f ∨ in_heap h n) ∧
  (hcapacity h ≤ size h → insertHeap h id d f = Ok h).
Proof.
  intros Hinv Hsent Hid Hnew. split.
  - by apply insertHeap_room.
  - apply insertHeap_full.
Qed.

Lemma insertHeap_keeps_invariant_witness :
  ∃ h', insertHeap (createMinHeap 4) 5 10 10 = Ok h' ∧
    size h' = size (createMinHeap 4) + 1 ∧
    heap_inv h' ∧ pos_sentinel h' ∧
    ∀ n, in_heap h' n ↔ n = mkNode 5 10 10 ∨ in_heap (createMinHeap 4) n.
Proof.
  destruct (createMinHeap_props 4) as (Hinv & Hsent & _); [lia|].
  destruct (insertHeap_keeps_invariant (createMinHeap 4) 5 10 10) as [H _];
    [done|done|unfold POS_SIZE; lia|by apply empty_not_resident|].
  apply H. simpl. lia.
Defined.

(** [extractMin] on an empty heap returns the node (-1, INF, INF) and
    leaves the heap as it is.  On a heap that satisfies the invariant and
    is not empty it returns the root, whose score is the least in the
    heap, removes exactly that node and keeps heap order and the table
    entries of the resident cities; the entries of the other cities stay
    the sentinel provided the heap held at least two nodes. *)
Theorem extractMin_keeps_invariant h :
  heap_inv h →
  (size h = 0 → extractMin h = Ok (mkNode (-1) INF INF, h)) ∧
  (0 < size h →
   ∃ root h', extractMin h = Ok (root, h') ∧ node_at h 0 root ∧
     size h' = size h - 1 ∧ heap_inv h' ∧
     (∀ n, in_heap h n ↔ n = root ∨ in_heap h' n) ∧
     (∀ n, in_heap h n → fScore root ≤ fScore n) ∧
     ¬ resident h' (hCityID root) ∧
     (pos_sentinel h → 1 < size h → pos_sentinel h')).
Proof.
  intros Hinv. split.
  - intros Hsz. unfold extractMin, isHeapEmpty. by rewrite Hsz.
  - by apply extractMin_nonempty.
Qed.

Lemma extractMin_keeps_invariant_witness :
  ∃ h1 h, insertHeap (createMinHeap 4) 5 10 10 = Ok h1 ∧
    insertHeap h1 7 3 3 = Ok h ∧ size h = 2 ∧
    ∃ root h', extractMin h = Ok (root, h') ∧ node_at h 0 root ∧
      size h' = size h - 1 ∧ heap_inv h' ∧
      (∀ n, in_heap h n ↔ n = root ∨ in_heap h' n) ∧
      (∀ n, in_heap h n → fScore root ≤ fScore n) ∧
      ¬ resident h' (hCityID root) ∧
      (pos_sentinel h → 1 < size h → pos_sentinel h').
Proof.
  destruct heap_of_two as (h1 & h & E1 & E2 & Hinv & Hsent & Hsz).
  exists h1, h. split_and!; [done..|].
  destruct (extractMin_keeps_invariant h Hinv) as [_ H]. apply H. lia.
Defined.

(** [decreaseKey] leaves the heap as it is for a city that is not in it
    (its table entry being the sentinel); for a resident city and a score
    that is not above its current one, it replaces the two scores of the
    city's node and keeps the whole invariant. *)
Theorem decreaseKey_keeps_invariant h id d f :
  heap_inv h → pos_sentinel h → 0 ≤ id < POS_SIZE →
  (¬ resident h id → decreaseKey h id d f = Ok h) ∧
  (∀ i o, node_at h i o → hCityID o = id → f ≤ fScore o →
   ∃ h', decreaseKey h id d f = Ok h' ∧ size h' = size h ∧
     heap_inv h' ∧ pos_sentinel h' ∧
     ∀ n, in_heap h' n ↔ n = mkNode id d f ∨ (in_heap h n ∧ hCityID n ≠ id)).
Proof.
  intros (Hsafe & Hcons & Hord) Hsent Hid. split.
  { intros Hnr. apply decreaseKey_absent. by apply Hsent. }
  intros i o Ho Hido Hf.
  destruct (decreaseKey_resident h id d f i o Hsafe Hcons Ho Hido) as
    (h' & E & Hsz & _ & Hsafe' & Hcons' & Hin & Hpos & Hord').
  exists h'. split; [done|]. split; [done|].
  split; [split; [done|]; split; auto|]. split; [|done].
  - intros c Hc Hnr.
    assert (¬ resident h c) as Hnr0.
    { intros (n & Hn & Hidn). apply Hnr.
      destruct (decide (c = id)) as [->|Hne].
      - exists (mkNode id d f). split; [|done]. apply Hin. by left.
      - exists n. split; [|done]. apply Hin. right. split; [done|congruence]. }
    rewrite Hpos by done. by apply Hsent.
Qed.

Lemma decreaseKey_keeps_invariant_witness :
  ∃ h1 h, insertHeap (createMinHeap 4) 5 10 10 = Ok h1 ∧
    insertHeap h1 7 3 3 = Ok h ∧
    (¬ resident h 5 → decreaseKey h 5 1 1 = Ok h) ∧
    (∀ i o, node_at h i o → hCityID o = 5 → 1 ≤ fScore o →
     ∃ h', decreaseKey h 5 1 1 = Ok h' ∧ size h' = size h ∧
       heap_inv h' ∧ pos_sentinel h' ∧
       ∀ n, in_heap h' n ↔
            n = mkNode 5 1 1 ∨ (in_heap h n ∧ hCityID n ≠ 5)).
Proof.
  destruct heap_of_two as (h1 & h & E1 & E2 & Hinv & Hsent & Hsz).
  exists h1, h. split; [done|]. split; [done|].
  apply decreaseKey_keeps_invariant; [done..|unfold POS_SIZE; lia].
Defined.

(** ** Emptying a heap *)

Lemma extractAll_ok k : ∀ h,
  heap_inv h → size h = Z.of_nat k →
  ∃ l h', extractAll k h = Ok (l, h') ∧ size h' = 0 ∧ length l = k ∧
    (∀ n, n ∈ l ↔ in_heap h n) ∧ sorted_by_score l.
Proof.
  induction k as [|k IH]; intros h Hinv Hsz.
  { exists [], h. split_and!; [done..| |done]. intros n. split.
    - by intros ?%elem_of_nil.
    - intros [i Hi%node_at_bounds]. lia. }
  destruct (extractMin_nonempty h Hinv) as
    (root & h1 & E & _ & Hsz1 & Hinv1 & Hin & Hmin & _); [lia|].
  destruct (IH h1 Hinv1) as (l & h2 & E2 & Hsz2 & Hlen & Hl & Hsorted); [lia|].
  exists (root :: l), h2. cbn [extractAll]. rewrite E. cbn [mbind result_bind].
  rewrite E2. cbn [mbind result_bind]. split_and!; [done..|by rewrite <- Hlen| |].
  - intros n. rewrite elem_of_cons, Hin, Hl. done.
  - split; [|done]. apply Forall_forall. intros m Hm. apply Hmin.
    apply Hin. right. by apply Hl.
Qed.

(** Calling [extractMin] as many times as a heap that satisfies the
    invariant has nodes empties it, and returns exactly its nodes, in
    nondecreasing order of score. *)
Theorem extractAll_sorted h :
  heap_inv h →
  ∃ l h', extractAll (Z.to_nat (size h)) h = Ok (l, h') ∧ size h' = 0 ∧
    Z.of_nat (length l) = size h ∧
    (∀ n, n ∈ l ↔ in_heap h n) ∧ sorted_by_score l.
Proof.
  intros Hinv. pose proof Hinv as (((_ & Hsz & _) & _) & _).
  destruct (extractAll_ok (Z.to_nat (size h)) h Hinv) as
    (l & h' & E & Hsz' & Hlen & Hin & Hsorted); [lia|].
  exists l, h'. split_and!; [done..|lia|done|done].
Qed.

Lemma extractAll_sorted_witness :
  ∃ h1 h, insertHeap (createMinHeap 4) 5 10 10 = Ok h1 ∧
    insertHeap h1 7 3 3 = Ok h ∧
    ∃ l h', extractAll (Z.to_nat (size h)) h = Ok (l, h') ∧ size h' = 0 ∧
      Z.of_nat (length l) = size h ∧
      (∀ n, n ∈ l ↔ in_heap h n) ∧ sorted_by_score l.
Proof.
  destruct heap_of_two as (h1 & h & E1 & E2 & Hinv & _ & Hsz).
  exists h1, h. split; [done|]. split; [done|]. by apply extractAll_sorted.
Defined.

(** * The path of a result *)

(** ** [addToPath] and [reversePath] *)

Lemma addToPath_inv pr id pr' :
  path_block pr →
  pathLength pr < pathCapacity pr ∨ 0 < wrap (pathCapacity pr * 2) →
  addToPath pr id = Ok pr' →
  path_block pr' ∧ pathIDs pr' = pathIDs pr ++ [id] ∧
  pathLength pr' = pathLength pr + 1 ∧
  totalDistance pr' = totalDistance pr.
Proof.
  intros [Hlen Hpl] Hcap. unfold addToPath.
  destruct (Z.geb_spec (pathLength pr) (pathCapacity pr)) as [Hfull|Hroom].
  - destruct (Z.leb_spec (wrap (pathCapacity pr * 2)) 0) as [|_]; [lia|].
    intros H. apply bind_Ok in H as (p & [Hb ->]%aset_Ok & [= <-]).
    unfold path_block, pathIDs.
    cbn [path pathLength totalDistance pathCapacity].
    rewrite length_insert. rewrite length_app, length_replicate in Hb |- *.
    split; [lia|]. split; [|done].
    replace (Z.to_nat (pathLength pr + 1)) with (S (Z.to_nat (pathLength pr)))
      by lia.
    erewrite take_S_r; [|apply list_lookup_insert_eq; rewrite length_app,
                          length_replicate; lia].
    rewrite take_insert_ge by lia. f_equal.
    rewrite take_app_le by lia. done.
  - intros H. apply bind_Ok in H as (p & [Hb ->]%aset_Ok & [= <-]).
    unfold path_block, pathIDs.
    cbn [path pathLength totalDistance pathCapacity].
    rewrite length_insert. split; [lia|]. split; [|done].
    replace (Z.to_nat (pathLength pr + 1)) with (S (Z.to_nat (pathLength pr)))
      by lia.
    erewrite take_S_r; [|apply list_lookup_insert_eq; lia].
    by rewrite take_insert_ge by lia.
Qed.

(** [addToPath] appends the identifier to the path: the earlier entries
    stay, the length grows by one and the total distance is kept.  When
    the block is full its capacity is doubled first. *)
Theorem addToPath_appends pr id :
  path_block pr → 0 < pathCapacity pr → 2 * pathCapacity pr ≤ INT_MAX →
  ∃ pr', addToPath pr id = Ok pr' ∧
    pathIDs pr' = pathIDs pr ++ [id] ∧
    pathLength pr' = pathLength pr + 1 ∧
    totalDistance pr' = totalDistance pr ∧
    pathCapacity pr' =
      (if decide (pathLength pr = pathCapacity pr) then 2 * pathCapacity pr
       else pathCapacity pr) ∧
    path_block pr'.
Proof.
  intros Hblock Hpos Hmax. pose proof Hblock as [Hlen Hpl].
  assert (∃ pr', addToPath pr id = Ok pr' ∧
            pathCapacity pr' =
              (if decide (pathLength pr = pathCapacity pr)
               then 2 * pathCapacity pr else pathCapacity pr))
    as (pr' & E & Hcap).
  { unfold addToPath.
    assert (wrap (pathCapacity pr * 2) = 2 * pathCapacity pr) as Hw.
    { rewrite wrap_id; [lia|]. unfold in_int, INT_MIN, INT_MAX in *. lia. }
    rewrite Hw.
    destruct (Z.geb_spec (pathLength pr) (pathCapacity pr)) as [Hfull|Hroom].
    - destruct (Z.leb_spec (2 * pathCapacity pr) 0) as [|_]; [lia|].
      rewrite aset_exists
        by (rewrite length_app, length_replicate; lia).
      cbn [mbind result_bind]. eexists. split; [done|].
      cbn [pathCapacity]. by rewrite decide_True by lia.
    - rewrite aset_exists by lia. cbn [mbind result_bind].
      eexists. split; [done|]. cbn [pathCapacity].
      by rewrite decide_False by lia. }
  destruct (addToPath_inv pr id pr' Hblock) as (? & ? & ? & ?); [|done|].
  { right. rewrite wrap_id; [lia|]. unfold in_int, INT_MIN, INT_MAX in *. lia. }
  exists pr'. by split_and!.
Qed.

Lemma addToPath_appends_witness :
  ∃ pr', addToPath (mkPath [4; 2] 2 7 2) 1 = Ok pr' ∧
    pathIDs pr' = pathIDs (mkPath [4; 2] 2 7 2) ++ [1] ∧
    pathLength pr' = pathLength (mkPath [4; 2] 2 7 2) + 1 ∧
    totalDistance pr' = totalDistance (mkPath [4; 2] 2 7 2) ∧
    pathCapacity pr' =
      (if decide (pathLength (mkPath [4; 2] 2 7 2)
                  = pathCapacity (mkPath [4; 2] 2 7 2))
       then 2 * pathCapacity (mkPath [4; 2] 2 7 2)
       else pathCapacity (mkPath [4; 2] 2 7 2)) ∧
    path_block pr'.
Proof.
  apply addToPath_appends.
  - unfold path_block. simpl. lia.
  - simpl. lia.
  - unfold INT_MAX. simpl. lia.
Defined.

Lemma reverseLoop_spec k : ∀ i len (p : list Z),
  0 ≤ i → i + Z.of_nat k ≤ len `quot` 2 → len ≤ Z.of_nat (length p) →
  ∃ p', reverseLoop k i len p = Ok p' ∧ length p' = length p ∧
    ∀ t, aget p' t =
         if decide (i ≤ t < i + Z.of_nat k ∨
                    len - 1 - (i + Z.of_nat k) < t ≤ len - 1 - i)
         then aget p (len - 1 - t) else aget p t.
Proof.
  induction k as [|k IH]; intros i len p Hi Hk Hlen.
  { exists p. split_and!; [done..|]. intros t. case_decide; [lia|done]. }
  cbn [reverseLoop].
  assert (0 ≤ len) as Hl0.
  { destruct (decide (0 ≤ len)); [done|].
    assert (len `quot` 2 ≤ 0) by (apply Z.quot_le_upper_bound; lia). lia. }
  assert (len `quot` 2 = len `div` 2) as Hq by (apply Z.quot_div_nonneg; lia).
  pose proof (Z.div_mod len 2). pose proof (Z.mod_pos_bound len 2).
  destruct (aget_exists p i) as [a Ha]; [lia|]. rewrite Ha.
  cbn [mbind result_bind].
  destruct (aget_exists p (len - 1 - i)) as [b Hb]; [lia|]. rewrite Hb.
  cbn [mbind result_bind].
  assert (aset p i b = Ok (<[Z.to_nat i := b]> p)) as E1
    by (apply aset_exists; lia).
  rewrite E1. cbn [mbind result_bind].
  assert (aset (<[Z.to_nat i := b]> p) (len - 1 - i) a
          = Ok (<[Z.to_nat (len - 1 - i) := a]> (<[Z.to_nat i := b]> p))) as E2
    by (apply aset_exists; rewrite length_insert; lia).
  rewrite E2. cbn [mbind result_bind].
  destruct (IH (i + 1) len (<[Z.to_nat (len - 1 - i) := a]> (<[Z.to_nat i := b]> p)))
    as (p' & E & Hl & Hspec); [lia|lia|rewrite !length_insert; lia|].
  exists p'. split; [done|]. split; [by rewrite Hl, !length_insert|].
  intros t. rewrite Hspec.
  rewrite !(aget_aset _ _ _ _ _ E2), !(aget_aset _ _ _ _ _ E1).
  repeat case_decide; try lia; try done; try congruence.
  all: first [ replace (len - 1 - t) with i by lia; by rewrite Ha
             | replace (len - 1 - t) with (len - 1 - i) by lia;
               by rewrite Hb ].
Qed.

Lemma reversePath_spec pr :
  path_block pr →
  ∃ pr', reversePath pr = Ok pr' ∧
    pathIDs pr' = reverse (pathIDs pr) ∧
    pathLength pr' = pathLength pr ∧
    totalDistance pr' = totalDistance pr ∧
    pathCapacity pr' = pathCapacity pr ∧ path_block pr'.
Proof.
  intros [Hlen Hpl]. unfold reversePath.
  assert (0 ≤ pathLength pr `quot` 2) by (apply Z.quot_pos; lia).
  destruct (reverseLoop_spec (Z.to_nat (pathLength pr `quot` 2)) 0
              (pathLength pr) (path pr)) as (p' & -> & Hl & Hspec); [lia..|].
  cbn [mbind result_bind]. eexists. split; [done|].
  unfold pathIDs, path_block. cbn [path pathLength totalDistance pathCapacity].
  split; [|split; [done|split; [done|split; [done|split;
    [by rewrite Hl|lia]]]]].
  assert (pathLength pr `quot` 2 = pathLength pr `div` 2) as Hq
    by (apply Z.quot_div_nonneg; lia).
  pose proof (Z.div_mod (pathLength pr) 2).
  pose proof (Z.mod_pos_bound (pathLength pr) 2).
  apply list_eq. intros n.
  destruct (decide (n < Z.to_nat (pathLength pr))%nat) as [Hn|Hn].
  - rewrite lookup_take_lt by done.
    rewrite reverse_lookup by (rewrite length_take; lia).
    rewrite length_take, lookup_take_lt by lia.
    specialize (Hspec (Z.of_nat n)).
    assert (aget p' (Z.of_nat n)
            = aget (path pr) (pathLength pr - 1 - Z.of_nat n)) as Hget.
    { rewrite Hspec. case_decide as Hc; [done|].
      f_equal. lia. }
    unfold aget in Hget. rewrite !bool_decide_eq_true_2 in Hget by lia.
    rewrite Nat2Z.id in Hget.
    replace (Z.to_nat (pathLength pr - 1 - Z.of_nat n))
      with (Z.to_nat (pathLength pr) `min` length (path pr) - S n)%nat
      in Hget by lia.
    destruct (p' !! n) eqn:E1, (path pr !! _) eqn:E2; congruence.
  - rewrite lookup_take_ge by lia.
    symmetry. apply lookup_ge_None. rewrite length_reverse, length_take. lia.
Qed.

(** [reversePath] reverses the used part of the block and keeps the
    length, the total distance and the capacity; reversing twice gives
    back the path. *)
Theorem reversePath_reverses pr :
  path_block pr →
  ∃ pr' pr'', reversePath pr = Ok pr' ∧
    pathIDs pr' = reverse (pathIDs pr) ∧
    pathLength pr' = pathLength pr ∧
    totalDistance pr' = totalDistance pr ∧
    pathCapacity pr' = pathCapacity pr ∧
    reversePath pr' = Ok pr'' ∧ pathIDs pr'' = pathIDs pr.
Proof.
  intros Hblock.
  destruct (reversePath_spec pr Hblock) as
    (pr' & E & Hids & Hlen & Htot & Hcap & Hblock').
  destruct (reversePath_spec pr' Hblock') as (pr'' & E' & Hids' & _).
  exists pr', pr''. split_and!; [done..|].
  by rewrite Hids', Hids, reverse_involutive.
Qed.

Lemma reversePath_reverses_witness :
  ∃ pr' pr'', reversePath (mkPath [4; 2; 1; 0] 3 7 4) = Ok pr' ∧
    pathIDs pr' = reverse (pathIDs (mkPath [4; 2; 1; 0] 3 7 4)) ∧
    pathLength pr' = pathLength (mkPath [4; 2; 1; 0] 3 7 4) ∧
    totalDistance pr' = totalDistance (mkPath [4; 2; 1; 0] 3 7 4) ∧
    pathCapacity pr' = pathCapacity (mkPath [4; 2; 1; 0] 3 7 4) ∧
    reversePath pr' = Ok pr'' ∧
    pathIDs pr'' = pathIDs (mkPath [4; 2; 1; 0] 3 7 4).
Proof.
  apply reversePath_reverses. unfold path_block. simpl. lia.
Defined.

(** * The returned path is a directed path of the graph *)

Lemma walk_route g l W :
  walk g l W → ∀ a, head l = Some a →
  ∃ b, last l = Some b ∧ route g a b W.
Proof.
  induction 1 as [a0 Ha0|l a0 b0 w W _ IH Hroad]; intros a Hhead.
  - injection Hhead as Heq. subst a0. exists a. split; [done|by constructor].
  - destruct (IH a) as (b & Hlast & Hroute).
    { by destruct l. }
    rewrite last_snoc in Hlast. injection Hlast as <-.
    exists b0. split.
    + change [a0; b0] with ([a0] ++ [b0]). by rewrite app_assoc, last_snoc.
    + by econstructor.
Qed.

Lemma look_Ok l i v : aget l i = Ok v → look l i = v.
Proof. intros H. unfold look. by rewrite H. Qed.

Lemma trail_range g s dist parent v :
  trail g s dist parent → 0 ≤ v < numCities g → 0 ≤ look dist v ≤ INF.
Proof.
  intros (Hdl & _ & Hrng & _) Hv. rewrite Forall_forall in Hrng.
  apply Hrng, look_elem_of. unfold numCities in Hv. lia.
Qed.

Lemma trail_initial g s :
  0 ≤ findCityIndex g s < numCities g →
  trail g s (<[Z.to_nat (findCityIndex g s) := 0]>
               (replicate (Z.to_nat (numCities g)) INF))
          (replicate (Z.to_nat (numCities g)) (-1)).
Proof.
  intros Hs. unfold numCities in *. split_and!.
  - rewrite length_insert, length_replicate. lia.
  - rewrite length_replicate. lia.
  - apply Forall_insert; [|unfold INF; lia].
    apply Forall_replicate. unfold INF. lia.
  - intros v p Hp. left. pose proof (aget_bounds _ _ _ Hp) as Hb.
    rewrite length_replicate in Hb.
    apply aget_elem_of, elem_of_replicate in Hp as [-> _]. split; [done|].
    erewrite look_aset by (apply aset_exists; rewrite length_replicate; lia).
    case_decide; [by right|left]. unfold look.
    by rewrite aget_replicate by lia.
Qed.

Section trail.
Context (g : Graph) (Hok : graph_ok g) (s : Z).

(** One relaxation step, as in [dijkstra] and in [astar]. *)
Lemma trail_update dist parent u cu e :
  trail g s dist parent → aget (cities g) u = Ok cu → e ∈ adjList cu →
  look dist u + distance e < look dist (findCityIndex g (destCityID e)) →
  trail g s
    (<[Z.to_nat (findCityIndex g (destCityID e)) :=
         look dist u + distance e]> dist)
    (<[Z.to_nat (findCityIndex g (destCityID e)) := u]> parent).
Proof using Hok.
  intros Htrail Hcu He Hlt. pose proof Htrail as (Hdl & Hpl & Hrng & Hlinks).
  pose proof (aget_elem_of _ _ _ Hcu) as Hcin.
  destruct (edge_facts g Hok cu e Hcin He) as (Hdest & Hw & _).
  pose proof (idx_bounds g _ Hdest) as Hvb.
  destruct (idx_city g _ Hdest) as (cv & Hcv & Hidv & _).
  set (v := findCityIndex g (destCityID e)) in *.
  pose proof (aget_bounds _ _ _ Hcu) as Hub.
  pose proof (trail_range _ _ _ _ u Htrail Hub) as Hru.
  pose proof (trail_range _ _ _ _ v Htrail Hvb) as Hrv.
  unfold numCities in *.
  assert (aset dist v (look dist u + distance e)
          = Ok (<[Z.to_nat v := look dist u + distance e]> dist)) as E1
    by (apply aset_exists; lia).
  assert (aset parent v u = Ok (<[Z.to_nat v := u]> parent)) as E2
    by (apply aset_exists; lia).
  split_and!.
  - by rewrite length_insert.
  - by rewrite length_insert.
  - apply Forall_insert; [done|lia].
  - intros x p Hx. rewrite (aget_aset _ _ _ _ _ E2) in Hx.
    destruct (decide (v = x)) as [<-|Hne].
    + injection Hx as <-. right. exists cu, cv, (distance e).
      split_and!; [done|done| |lia|].
      * rewrite Hidv. by destruct e.
      * rewrite !(look_aset _ _ _ _ _ E1). rewrite (decide_True (P := v = v)) by done.
        case_decide; [subst; lia|lia].
    + destruct (Hlinks x p Hx) as [[-> Hc]|(cp & cx & w & Hcp & Hcx & Hedge & Hw' & Hle)].
      * left. split; [done|].
        rewrite (look_aset _ _ _ _ _ E1), decide_False by done. done.
      * right. exists cp, cx, w. split_and!; [done..|].
        rewrite !(look_aset _ _ _ _ _ E1).
        rewrite (decide_False (P := x = v)) by done.
        case_decide; [subst; lia|done].
Qed.

Lemma dijkstraRelax_trail u cu :
  aget (cities g) u = Ok cu →
  ∀ edges dist parent h dist' parent' h',
    (∀ e, e ∈ edges → e ∈ adjList cu) →
    trail g s dist parent →
    dijkstraRelax g edges u dist parent h = Ok (dist', parent', h') →
    trail g s dist' parent'.
Proof using Hok.
  intros Hcu. pose proof (aget_elem_of _ _ _ Hcu) as Hcin.
  pose proof (aget_bounds _ _ _ Hcu) as Hub.
  induction edges as [|e rest IH];
    intros dist parent h dist' parent' h' Hsub Htrail H.
  { cbn [dijkstraRelax] in H. by injection H as <- <- _. }
  cbn [dijkstraRelax] in H.
  assert (∀ e', e' ∈ rest → e' ∈ adjList cu) as Hsub'
    by (intros e' He'; apply Hsub; by right).
  apply bind_Ok in H as (du & Edu & H). apply look_Ok in Edu as Hdu.
  destruct (Z.eqb_spec du INF) as [Hinf|Hfin]; cbn [negb] in H;
    [by eapply IH|].
  apply bind_Ok in H as (dv & Edv & H). apply look_Ok in Edv as Hdv.
  destruct (edge_facts g Hok cu e Hcin) as (Hdest & Hw & _); [apply Hsub; left|].
  pose proof (trail_range _ _ _ _ u Htrail Hub) as Hru.
  rewrite wrap_relax in H by (try rewrite <- Hdu; lia).
  destruct (Z.ltb_spec (du + distance e) dv) as [Hlt|Hge]; [|by eapply IH].
  apply bind_Ok in H as (dist1 & [_ ->]%aset_Ok & H).
  apply bind_Ok in H as (parent1 & [_ ->]%aset_Ok & H).
  apply bind_Ok in H as (h1 & _ & H).
  eapply IH; [done| |exact H]. subst du dv.
  apply (trail_update _ _ _ cu); [done|done|apply Hsub; left|done].
Qed.

Lemma dijkstraLoop_trail destIndex : ∀ fuel dist parent h dist' parent',
  trail g s dist parent →
  dijkstraLoop fuel g destIndex dist parent h = Ok (dist', parent') →
  trail g s dist' parent'.
Proof using Hok.
  induction fuel as [|fuel IH]; intros dist parent h dist' parent' Htrail H;
    [done|].
  cbn [dijkstraLoop] in H.
  destruct (isHeapEmpty h); [by injection H as <- <-|].
  apply bind_Ok in H as ([minNode h1] & _ & H).
  destruct (_ =? destIndex); [by injection H as <- <-|].
  apply bind_Ok in H as (c & Hc & H).
  apply bind_Ok in H as ([[dist1 parent1] h2] & Hrelax & H).
  eapply IH; [|exact H].
  by eapply (dijkstraRelax_trail _ c Hc (adjList c)).
Qed.

Lemma astarRelax_trail u cu destIndex :
  aget (cities g) u = Ok cu →
  ∀ edges gScore fScores parent h gScore' fScores' parent' h',
    (∀ e, e ∈ edges → e ∈ adjList cu) →
    trail g s gScore parent →
    astarRelax g edges u destIndex gScore fScores parent h
      = Ok (gScore', fScores', parent', h') →
    trail g s gScore' parent'.
Proof using Hok.
  intros Hcu. pose proof (aget_elem_of _ _ _ Hcu) as Hcin.
  pose proof (aget_bounds _ _ _ Hcu) as Hub.
  induction edges as [|e rest IH];
    intros gScore fScores parent h gScore' fScores' parent' h' Hsub Htrail H.
  { cbn [astarRelax] in H. by injection H as <- _ <- _. }
  cbn [astarRelax] in H.
  assert (∀ e', e' ∈ rest → e' ∈ adjList cu) as Hsub'
    by (intros e' He'; apply Hsub; by right).
  apply bind_Ok in H as (gu & Egu & H). apply look_Ok in Egu as Hgu.
  apply bind_Ok in H as (gv & Egv & H). apply look_Ok in Egv as Hgv.
  destruct (edge_facts g Hok cu e Hcin) as (Hdest & Hw & _); [apply Hsub; left|].
  pose proof (trail_range _ _ _ _ u Htrail Hub) as Hru.
  rewrite !wrap_relax in H by (try rewrite <- Hgu; lia).
  destruct (Z.ltb_spec (gu + distance e) gv) as [Hlt|Hge]; [|by eapply IH].
  apply bind_Ok in H as (parent1 & [_ ->]%aset_Ok & H).
  apply bind_Ok in H as (gScore1 & [_ ->]%aset_Ok & H).
  apply bind_Ok in H as (hv & _ & H).
  apply bind_Ok in H as (fScores1 & _ & H).
  apply bind_Ok in H as (p & _ & H).
  apply bind_Ok in H as (h1 & _ & H).
  eapply IH; [done| |exact H]. subst gu gv.
  apply (trail_update _ _ _ cu); [done|done|apply Hsub; left|done].
Qed.

Lemma astarLoop_trail destIndex :
  ∀ fuel gScore fScores parent h gScore' parent',
    trail g s gScore parent →
    astarLoop fuel g destIndex gScore fScores parent h
      = Ok (gScore', parent') →
    trail g s gScore' parent'.
Proof using Hok.
  induction fuel as [|fuel IH];
    intros gScore fScores parent h gScore' parent' Htrail H; [done|].
  cbn [astarLoop] in H.
  destruct (isHeapEmpty h); [by injection H as <- <-|].
  apply bind_Ok in H as ([minNode h1] & _ & H).
  destruct (_ =? destIndex); [by injection H as <- <-|].
  apply bind_Ok in H as (c & Hc & H).
  apply bind_Ok in H as ([[[gScore1 fScores1] parent1] h2] & Hrelax & H).
  eapply IH; [|exact H].
  by eapply (astarRelax_trail _ c _ Hc (adjList c)).
Qed.

(** ** Following the parent links *)

Lemma tracePath_walk dist parent :
  trail g s dist parent →
  ∀ fuel cur pr pr',
    path_ok (numCities g) pr →
    (cur ≠ -1 →
     pathLength pr + Z.of_nat (rank dist cur) + 1 ≤ numCities g) →
    tracePath fuel g parent cur pr = Ok pr' →
    (cur ≠ -1 → look dist cur < INF) →
    path_block pr' ∧ totalDistance pr' = totalDistance pr ∧
    ∃ l, pathIDs pr' = pathIDs pr ++ l ∧
      (cur = -1 → l = []) ∧
      (cur ≠ -1 →
       ∃ c W, aget (cities g) cur = Ok c ∧ head l = Some (cityID c) ∧
         last l = Some s ∧ walk g (reverse l) W ∧ W ≤ look dist cur).
Proof.
  intros Htrail. pose proof Htrail as (Hdl & Hpl & Hrng & Hlinks).
  induction fuel as [|fuel IH]; intros cur pr pr' Hpr Hroom H Hfin; [done|].
  assert (path_block pr) as Hblock.
  { destruct Hpr as (? & ? & ?). split; lia. }
  cbn [tracePath] in H. destruct (Z.eqb_spec cur (-1)) as [->|Hne].
  { injection H as <-. split; [done|]. split; [done|]. exists [].
    split; [by rewrite app_nil_r|]. by split. }
  specialize (Hfin Hne). specialize (Hroom Hne).
  apply bind_Ok in H as (c & Hc & H).
  apply bind_Ok in H as (pr1 & Hadd & H).
  apply bind_Ok in H as (p & Hp & H).
  destruct (addToPath_ok _ pr (cityID c) Hpr) as (pr1' & E1 & Hpr1 & Hl1 & _);
    [lia|].
  rewrite E1 in Hadd. injection Hadd as ->. rename E1 into Hadd.
  destruct (addToPath_inv pr (cityID c) pr1 Hblock)
    as (Hblock1 & Hids1 & _ & Htot1); [|done|].
  { left. destruct Hpr as (? & ? & ?). lia. }
  pose proof (aget_bounds _ _ _ Hc) as Hcb.
  pose proof (aget_elem_of _ _ _ Hc) as Hcin.
  pose proof (trail_range _ _ _ _ cur Htrail Hcb) as Hrc.
  destruct (Hlinks cur p Hp) as
    [[-> Hsrc]|(cp & cv & w & Hcp & Hcv & Hedge & Hw & Hle)].
  - destruct (IH (-1) pr1 pr' Hpr1)
      as (Hblock' & Htot' & l' & Hids' & Hl' & _); [done|done|done|].
    rewrite (Hl' eq_refl), app_nil_r in Hids'.
    split; [done|]. split; [congruence|]. exists [cityID c].
    split; [congruence|]. split; [done|]. intros _.
    destruct Hsrc as [?|Hsrc]; [lia|].
    destruct (findCityIndex_aget g s cur) as (c' & Hc' & Hid'); [done|done|].
    assert (c' = c) as -> by congruence.
    exists c, 0. split_and!; [done|done|by rewrite Hid'| |lia].
    cbn [reverse]. simpl. constructor. by apply list_elem_of_fmap_2.
  - assert (cv = c) as -> by congruence.
    pose proof (aget_bounds _ _ _ Hcp) as Hpb.
    pose proof (trail_range _ _ _ _ p Htrail Hpb) as Hrp.
    assert (p ≠ -1) as Hpne by lia.
    destruct (IH p pr1 pr' Hpr1)
      as (Hblock' & Htot' & l' & Hids' & _ & Hl'); [|done|lia|].
    { intros _. unfold numCities in Hpb. rewrite <- Hdl in Hpb.
      assert (look dist p < look dist cur) as Hlt by lia.
      pose proof (rank_lt dist p cur Hpb Hlt). lia. }
    destruct (Hl' Hpne) as (cp' & W' & Hcp' & Hhead & Hlast & Hwalk & HW).
    assert (cp' = cp) as -> by congruence.
    split; [done|]. split; [congruence|]. exists (cityID c :: l').
    split; [rewrite Hids', Hids1; by rewrite <- app_assoc|].
    split; [done|]. intros _.
    exists c, (W' + w). destruct l' as [|a l'']; [done|].
    injection Hhead as ->.
    split_and!; [done|done|done| |lia].
    rewrite !reverse_cons, <- app_assoc. cbn [app].
    rewrite reverse_cons in Hwalk.
    apply walk_snoc; [done|].
    exists cp. split_and!; [by eapply aget_elem_of|done|done].
Qed.

Lemma buildPath_walk dist parent d pr :
  trail g s dist parent → d ∈ cityIDs g →
  buildPath g dist parent (findCityIndex g d) = Ok pr →
  pathLength pr ≠ 0 →
  ∃ W, walk g (pathIDs pr) W ∧ W ≤ totalDistance pr ∧
    head (pathIDs pr) = Some s ∧ last (pathIDs pr) = Some d ∧
    Z.of_nat (length (pathIDs pr)) = pathLength pr.
Proof.
  intros Htrail Hd H Hlen. pose proof (idx_bounds g d Hd) as Hdb.
  destruct (idx_city g d Hd) as (cd & Hcd & Hidd & _).
  unfold buildPath in H.
  apply bind_Ok in H as (dd & Edd & H). apply look_Ok in Edd as Hdd.
  destruct (Z.eqb_spec dd INF) as [|Hfin]; [by injection H as <-|].
  apply bind_Ok in H as (pr1 & Htrace & H).
  pose proof (trail_range _ _ _ _ _ Htrail Hdb) as Hrd.
  assert (path_ok (numCities g)
            {| path := path (createPathResult (numCities g));
               pathLength := pathLength (createPathResult (numCities g));
               totalDistance := dd;
               pathCapacity := pathCapacity (createPathResult (numCities g)) |})
    as Hblock0.
  { unfold path_ok, createPathResult. cbn [path pathLength pathCapacity].
    rewrite length_replicate. unfold numCities. lia. }
  assert (pathLength (createPathResult (numCities g))
            + Z.of_nat (rank dist (findCityIndex g d)) + 1 ≤ numCities g)
    as Hroom0.
  { cbn [pathLength createPathResult].
    destruct Htrail as (Hdl & _). unfold numCities in *. rewrite <- Hdl in Hdb.
    pose proof (rank_bound dist _ Hdb). lia. }
  destruct (tracePath_walk dist parent Htrail _ _ _ _ Hblock0 (λ _, Hroom0)
              Htrace)
    as (Hblock1 & Htot1 & l & Hids1 & _ & Hl); [lia|].
  destruct Hl as (c & W & Hc & Hhead & Hlast & Hwalk & HW); [lia|].
  assert (c = cd) as -> by congruence.
  change (pathIDs _) with (@nil Z) in Hids1 at 2. cbn [app] in Hids1.
  destruct (reversePath_spec pr1 Hblock1) as
    (pr2 & E & Hids2 & Hlen2 & Htot2 & _ & Hblock2).
  rewrite E in H. injection H as <-.
  rewrite Hids2, Hids1. exists W. split_and!.
  - done.
  - rewrite Htot2, Htot1. cbn [totalDistance]. lia.
  - destruct l as [|a l] using rev_ind; [done|].
    rewrite last_snoc in Hlast. injection Hlast as ->.
    by rewrite reverse_app.
  - destruct l as [|a l]; [done|]. injection Hhead as ->.
    by rewrite reverse_cons, last_snoc, Hidd.
  - rewrite <- Hids1, <- Hids2. unfold pathIDs. rewrite length_take.
    destruct Hblock2 as [? ?]. lia.
Qed.

Lemma dijkstra_trail d pr :
  s ∈ cityIDs g → d ∈ cityIDs g → dijkstra g s d = Ok (Some pr) →
  ∃ dist parent, trail g s dist parent ∧
    buildPath g dist parent (findCityIndex g d) = Ok pr.
Proof using Hok.
  intros Hs Hd H. pose proof (idx_bounds g s Hs) as Hsb.
  unfold dijkstra in H.
  destruct (Z.eqb_spec (findCityIndex g s) (-1)) as [|_]; [lia|].
  destruct (Z.eqb_spec (findCityIndex g d) (-1)) as [|_]; [done|].
  cbn [orb] in H.
  apply bind_Ok in H as (dist & [_ ->]%aset_Ok & H).
  apply bind_Ok in H as (h & _ & H).
  apply bind_Ok in H as ([dist' parent'] & Hloop & H).
  apply bind_Ok in H as (pr' & Hbuild & [= <-]).
  exists dist', parent'. split; [|done].
  eapply dijkstraLoop_trail; [|exact Hloop]. by apply trail_initial.
Qed.

Lemma astar_trail fuel d pr :
  s ∈ cityIDs g → d ∈ cityIDs g → astar fuel g s d = Ok (Some pr) →
  ∃ gScore parent, trail g s gScore parent ∧
    buildPath g gScore parent (findCityIndex g d) = Ok pr.
Proof using Hok.
  intros Hs Hd H. pose proof (idx_bounds g s Hs) as Hsb.
  unfold astar in H.
  destruct (Z.eqb_spec (findCityIndex g s) (-1)) as [|_]; [lia|].
  destruct (Z.eqb_spec (findCityIndex g d) (-1)) as [|_]; [done|].
  cbn [orb] in H.
  apply bind_Ok in H as (gScore & [_ ->]%aset_Ok & H).
  apply bind_Ok in H as (h0 & _ & H).
  apply bind_Ok in H as (fScores & _ & H).
  apply bind_Ok in H as (src & _ & H).
  apply bind_Ok in H as (g0 & _ & H).
  apply bind_Ok in H as (f0 & _ & H).
  apply bind_Ok in H as (h & _ & H).
  apply bind_Ok in H as ([gScore' parent'] & Hloop & H).
  apply bind_Ok in H as (pr' & Hbuild & [= <-]).
  exists gScore', parent'. split; [|done].
  eapply astarLoop_trail; [|exact Hloop]. by apply trail_initial.
Qed.
End trail.

Lemma walk_length g l W :
  graph_ok g → walk g l W → Z.of_nat (length l) - 1 ≤ W.
Proof.
  intros Hok. induction 1 as [a Ha|l a b w W _ IH Hroad]; [simpl; lia|].
  destruct (road_facts g Hok _ _ _ Hroad) as (_ & _ & Hw).
  rewrite length_app in *. simpl in *. lia.
Qed.

Lemma answer_walk g s d pr W :
  answer g s d pr → pathLength pr ≠ 0 →
  walk g (pathIDs pr) W → head (pathIDs pr) = Some s →
  last (pathIDs pr) = Some d → W ≤ totalDistance pr →
  W = totalDistance pr.
Proof.
  intros [(Hlen & _)|(_ & _ & _ & Hmin)] Hne Hwalk Hhead Hlast HW; [done|].
  destruct (walk_route _ _ _ Hwalk s Hhead) as (b & Hb & Hroute).
  assert (b = d) as -> by congruence.
  specialize (Hmin _ Hroute). lia.
Qed.

(** On a graph that satisfies the preconditions of [dijkstra], the path of
    a result that is not empty starts at the source, ends at the
    destination, has [pathLength] cities, follows a road of the graph from
    each city to the next, and the weights of these roads sum to the total
    distance of the result. *)
Theorem dijkstra_returns_route g s d :
  graph_ok g → s ∈ cityIDs g → d ∈ cityIDs g →
  ∃ pr, dijkstra g s d = Ok (Some pr) ∧
    (pathLength pr ≠ 0 →
     head (pathIDs pr) = Some s ∧ last (pathIDs pr) = Some d ∧
     Z.of_nat (length (pathIDs pr)) = pathLength pr ∧
     walk g (pathIDs pr) (totalDistance pr)).
Proof.
  intros Hok Hs Hd.
  destruct (dijkstra_correct g Hok s Hs d Hd) as (pr & E & _ & _ & Hans & _).
  exists pr. split; [done|]. intros Hne.
  destruct (dijkstra_trail g Hok s d pr Hs Hd E) as (dist & parent & Htrail & Hb).
  destruct (buildPath_walk g s dist parent d pr Htrail Hd Hb Hne) as
    (W & Hwalk & HW & Hhead & Hlast & Hlen).
  split_and!; [done..|].
  by rewrite <- (answer_walk g s d pr W).
Qed.

Lemma dijkstra_returns_route_witness :
  ∃ pr, dijkstra graph4 1 4 = Ok (Some pr) ∧
    (pathLength pr ≠ 0 →
     head (pathIDs pr) = Some 1 ∧ last (pathIDs pr) = Some 4 ∧
     Z.of_nat (length (pathIDs pr)) = pathLength pr ∧
     walk graph4 (pathIDs pr) (totalDistance pr)).
Proof.
  apply dijkstra_returns_route; apply (bool_decide_unpack _); by vm_compute.
Defined.

(** The same holds of [astar] on a graph that also satisfies the
    preconditions on coordinates and weights under which its result is
    optimal. *)
Theorem astar_returns_route g s d fuel :
  graph_ok g → coords_bounded g → admissible g →
  s ∈ cityIDs g → d ∈ cityIDs g →
  (Z.to_nat (numCities g) < fuel)%nat →
  ∃ pr, astar fuel g s d = Ok (Some pr) ∧
    (pathLength pr ≠ 0 →
     head (pathIDs pr) = Some s ∧ last (pathIDs pr) = Some d ∧
     Z.of_nat (length (pathIDs pr)) = pathLength pr ∧
     walk g (pathIDs pr) (totalDistance pr)).
Proof.
  intros Hok Hcoords Hadm Hs Hd Hfuel.
  destruct (astar_correct g Hok Hcoords Hadm s Hs d Hd fuel Hfuel) as
    (pr & E & _ & _ & Hans & _).
  exists pr. split; [done|]. intros Hne.
  destruct (astar_trail g Hok s fuel d pr Hs Hd E) as
    (dist & parent & Htrail & Hb).
  destruct (buildPath_walk g s dist parent d pr Htrail Hd Hb Hne) as
    (W & Hwalk & HW & Hhead & Hlast & Hlen).
  split_and!; [done..|].
  by rewrite <- (answer_walk g s d pr W).
Qed.

Lemma astar_returns_route_witness :
  ∃ pr, astar 5 graph4 1 4 = Ok (Some pr) ∧
    (pathLength pr ≠ 0 →
     head (pathIDs pr) = Some 1 ∧ last (pathIDs pr) = Some 4 ∧
     Z.of_nat (length (pathIDs pr)) = pathLength pr ∧
     walk graph4 (pathIDs pr) (totalDistance pr)).
Proof.
  apply astar_returns_route; apply (bool_decide_unpack _); by vm_compute.
Defined.

(** Whatever the coordinates of the cities, [astar] returns with enough
    iterations of its loop, and never reports a distance or a path that
    the graph does not have: the total distance of a result that is not
    empty is the weight of a directed path from the source to the
    destination, and its path is a directed path from the source to the
    destination that weighs at most the total distance. *)
Theorem astar_never_invents g s d fuel :
  graph_ok g → s ∈ cityIDs g → d ∈ cityIDs g →
  (astar_fuel g ≤ fuel)%nat →
  ∃ pr, astar fuel g s d = Ok (Some pr) ∧
    (pathLength pr ≠ 0 →
     route g s d (totalDistance pr) ∧
     head (pathIDs pr) = Some s ∧ last (pathIDs pr) = Some d ∧
     ∃ W, walk g (pathIDs pr) W ∧ W ≤ totalDistance pr).
Proof.
  intros Hok Hs Hd Hfuel.
  destruct (astar_total g Hok s Hs d Hd fuel Hfuel) as (pr & E & _ & Hroute & _).
  exists pr. split; [done|]. intros Hne.
  destruct (astar_trail g Hok s fuel d pr Hs Hd E) as
    (dist & parent & Htrail & Hb).
  destruct (buildPath_walk g s dist parent d pr Htrail Hd Hb Hne) as
    (W & Hwalk & HW & Hhead & Hlast & Hlen).
  split_and!; [by apply Hroute|done|done|]. by exists W.
Qed.

Lemma astar_never_invents_witness :
  ∃ pr, astar (astar_fuel graph4) graph4 1 4 = Ok (Some pr) ∧
    (pathLength pr ≠ 0 →
     route graph4 1 4 (totalDistance pr) ∧
     head (pathIDs pr) = Some 1 ∧ last (pathIDs pr) = Some 4 ∧
     ∃ W, walk graph4 (pathIDs pr) W ∧ W ≤ totalDistance pr).
Proof.
  apply astar_never_invents;
    [apply (bool_decide_unpack _); by vm_compute..|apply le_n].
Defined.

(** On a graph that satisfies the preconditions of the searches (the
    data-model invariants, identifiers in 0..999, weights at most
    [INT_MAX - INF]), a query from a city to itself returns the path that
    consists of this city alone, with total distance 0. *)
Theorem dijkstra_same_city g s :
  graph_ok g → s ∈ cityIDs g →
  ∃ pr, dijkstra g s s = Ok (Some pr) ∧
    pathIDs pr = [s] ∧ pathLength pr = 1 ∧ totalDistance pr = 0.
Proof.
  intros Hok Hs.
  destruct (dijkstra_correct g Hok s Hs s Hs) as (pr & E & _ & _ & Hans & _).
  exists pr. split; [done|].
  assert (route g s s 0) as Hnil by (by constructor).
  assert (pathLength pr ≠ 0 ∧ totalDistance pr = 0) as [Hne Htot].
  { destruct Hans as [(_ & _ & Hnone)|(Hne & _ & Hr & Hmin)].
    - specialize (Hnone _ Hnil). unfold INF in Hnone. lia.
    - split; [done|]. specialize (Hmin _ Hnil).
      destruct (route_facts g Hok _ _ _ Hr) as (_ & _ & ?). lia. }
  destruct (dijkstra_trail g Hok s s pr Hs Hs E) as (dist & parent & Htrail & Hb).
  destruct (buildPath_walk g s dist parent s pr Htrail Hs Hb Hne) as
    (W & Hwalk & HW & Hhead & Hlast & Hlen).
  pose proof (walk_length g _ _ Hok Hwalk) as Hl.
  destruct (pathIDs pr) as [|a [|b l]] eqn:Hids; [done| |simpl in Hl; lia].
  injection Hhead as ->. simpl in Hlen. split_and!; [done|lia|done].
Qed.

Lemma dijkstra_same_city_witness :
  ∃ pr, dijkstra graph4 3 3 = Ok (Some pr) ∧
    pathIDs pr = [3] ∧ pathLength pr = 1 ∧ totalDistance pr = 0.
Proof.
  apply dijkstra_same_city; apply (bool_decide_unpack _); by vm_compute.
Defined.

(** * Queries: absent endpoints, the heuristic, the printed path *)

(** The searches look both endpoints up before they allocate anything: a
    query with an absent endpoint returns [NULL], and a traversal from an
    absent start prints its error message in place of an order (the
    outcome [None]), on every graph, also on one whose identifiers do not
    fit the position table. *)
Theorem absent_endpoint g s d fuel :
  s ∉ cityIDs g ∨ d ∉ cityIDs g →
  dijkstra g s d = Ok None ∧ astar fuel g s d = Ok None ∧
  (s ∉ cityIDs g → BFS g s = Ok None ∧ DFS g s = Ok None).
Proof.
  intros H. rewrite <- !findCityIndex_none in *.
  unfold dijkstra, astar, BFS, DFS.
  assert ((findCityIndex g s =? -1) || (findCityIndex g d =? -1) = true) as ->.
  { apply orb_true_iff. rewrite !Z.eqb_eq. done. }
  split; [done|]. split; [done|]. intros ->. done.
Qed.

Lemma absent_endpoint_witness :
  dijkstra graphWide 5 1 = Ok None ∧ astar 3 graphWide 5 1 = Ok None ∧
  (5 ∉ cityIDs graphWide →
   BFS graphWide 5 = Ok None ∧ DFS graphWide 5 = Ok None).
Proof.
  apply absent_endpoint. left. apply (bool_decide_unpack _). by vm_compute.
Defined.

(** ** The heuristic *)

Lemma heuristic_value g i j ci cj :
  coords_bounded g →
  aget (cities g) i = Ok ci → aget (cities g) j = Ok cj →
  heuristic g i j = Ok (Z.sqrt ((x ci - x cj) ^ 2 + (y ci - y cj) ^ 2)).
Proof.
  intros Hcoords E1 E2. unfold coords_bounded in Hcoords.
  rewrite Forall_forall in Hcoords.
  destruct (Hcoords ci) as [Hx1 Hy1]; [by eapply aget_elem_of|].
  destruct (Hcoords cj) as [Hx2 Hy2]; [by eapply aget_elem_of|].
  unfold heuristic. rewrite E1, E2. cbn [mbind result_bind].
  unfold COORD_MAX in *.
  set (dx := x ci - x cj) in *. set (dy := y ci - y cj) in *.
  assert (- 32766 ≤ dx ≤ 32766) as Hdx by (unfold dx; lia).
  assert (- 32766 ≤ dy ≤ 32766) as Hdy by (unfold dy; lia).
  pose proof (square_bound dx 32766 Hdx) as Hdx2.
  pose proof (square_bound dy 32766 Hdy) as Hdy2.
  rewrite (wrap_id dx), (wrap_id dy)
    by (unfold in_int, INT_MIN, INT_MAX; lia).
  rewrite (wrap_id (dx * dx)), (wrap_id (dy * dy))
    by (unfold in_int, INT_MIN, INT_MAX; lia).
  rewrite wrap_id by (unfold in_int, INT_MIN, INT_MAX; lia).
  unfold int_sqrt. destruct (Z.ltb_spec (dx * dx + dy * dy) 0); [lia|].
  by rewrite !Z.pow_2_r.
Qed.

(** With coordinates between -16383 and 16383 no step of [heuristic]
    leaves the range of [int]: the value [h] is the straight-line distance
    between the two cities rounded down, [h² ≤ dx² + dy² < (h + 1)²]; it
    is the same in both directions and it is 0 from a city to itself. *)
Theorem heuristic_euclid g i j ci cj :
  coords_bounded g →
  aget (cities g) i = Ok ci → aget (cities g) j = Ok cj →
  ∃ h, heuristic g i j = Ok h ∧ heuristic g j i = Ok h ∧
    0 ≤ h ∧
    h ^ 2 ≤ (x ci - x cj) ^ 2 + (y ci - y cj) ^ 2 < (h + 1) ^ 2 ∧
    heuristic g i i = Ok 0.
Proof.
  intros Hcoords E1 E2. eexists. split; [by apply heuristic_value|].
  set (D := (x ci - x cj) ^ 2 + (y ci - y cj) ^ 2).
  assert (0 ≤ D) as HD.
  { unfold D. rewrite !Z.pow_2_r.
    pose proof (Z.square_nonneg (x ci - x cj)).
    pose proof (Z.square_nonneg (y ci - y cj)). lia. }
  split_and!.
  - rewrite (heuristic_value g j i cj ci) by done. do 2 f_equal.
    unfold D. ring.
  - apply Z.sqrt_nonneg.
  - pose proof (Z.sqrt_spec D HD) as Hs. cbv zeta in Hs.
    rewrite !Z.pow_2_r. lia.
  - pose proof (Z.sqrt_spec D HD) as Hs. cbv zeta in Hs.
    rewrite !Z.pow_2_r. lia.
  - rewrite (heuristic_value g i i ci ci) by done.
    by replace ((x ci - x ci) ^ 2 + (y ci - y ci) ^ 2) with 0 by ring.
Qed.

Lemma heuristic_euclid_witness :
  ∃ h, heuristic graph4 0 3 = Ok h ∧ heuristic graph4 3 0 = Ok h ∧
    0 ≤ h ∧
    h ^ 2 ≤ (0 - 4) ^ 2 + (0 - 3) ^ 2 < (h + 1) ^ 2 ∧
    heuristic graph4 0 0 = Ok 0.
Proof.
  apply (heuristic_euclid graph4 0 3
           (mkCity 1 "A" 0 0 [mkEdge 3 4; mkEdge 2 3]) (mkCity 4 "D" 4 3 [])).
  - apply (bool_decide_unpack _). by vm_compute.
  - reflexivity.
  - reflexivity.
Defined.

(** ** [displayPath] *)

Lemma arrows_cons n m l : arrows (n :: m :: l) = n :: arrow :: arrows (m :: l).
Proof. done. Qed.

Lemma nameOf_present g id :
  id ∈ cityIDs g →
  findCityIndex g id ≠ -1 ∧
  ∃ c, aget (cities g) (findCityIndex g id) = Ok c ∧ nameOf g id = cityName c.
Proof.
  intros Hin. destruct (findCityIndex_some g id Hin) as (c & Hc & _).
  pose proof (aget_bounds _ _ _ Hc). split; [lia|].
  exists c. split; [done|]. unfold nameOf. by rewrite Hc.
Qed.

Lemma displayLoop_spec g pr :
  path_block pr → (∀ id, id ∈ pathIDs pr → id ∈ cityIDs g) →
  ∀ k i out, 0 ≤ i → i + Z.of_nat k = pathLength pr →
  displayLoop k i g pr out
  = Ok (out ++ arrows (nameOf g <$> drop (Z.to_nat i) (pathIDs pr))).
Proof.
  intros [Hlen Hpl] Hids.
  assert (length (pathIDs pr) = Z.to_nat (pathLength pr)) as Hl.
  { unfold pathIDs. rewrite length_take. lia. }
  induction k as [|k IH]; intros i out Hi Hk.
  { cbn [displayLoop]. rewrite drop_ge by lia. by rewrite app_nil_r. }
  cbn [displayLoop].
  destruct (lookup_lt_is_Some_2 (pathIDs pr) (Z.to_nat i)) as [id Hid]; [lia|].
  assert (aget (path pr) i = Ok id) as ->.
  { apply aget_Ok. split; [done|]. unfold pathIDs in Hid.
    by rewrite lookup_take_lt in Hid by lia. }
  cbn [mbind result_bind].
  destruct (nameOf_present g id) as (Hne & c & Hc & Hname).
  { apply Hids. by eapply list_elem_of_lookup_2. }
  destruct (Z.eqb_spec (findCityIndex g id) (-1)) as [|_]; [done|].
  cbn [negb]. rewrite Hc. cbn [mbind result_bind].
  rewrite IH by lia.
  rewrite (drop_S _ _ _ Hid), fmap_cons, Hname.
  replace (Z.to_nat (i + 1)) with (S (Z.to_nat i)) by lia.
  destruct (Z.ltb_spec i (pathLength pr - 1)) as [Hmore|Hlast].
  - destruct (drop (S (Z.to_nat i)) (pathIDs pr)) as [|m l] eqn:Hd.
    { apply (f_equal length) in Hd. rewrite length_drop in Hd.
      simpl in Hd. lia. }
    rewrite fmap_cons, arrows_cons. by rewrite <- !app_assoc.
  - rewrite drop_ge by lia. by rewrite <- app_assoc.
Qed.

(** [displayPath] prints no path for a [NULL] result and for an empty
    one.  For a result with a block of [pathCapacity] entries whose
    identifiers are all cities of the graph, it prints their names in the
    order of the path, with an arrow between each name and the next. *)
Theorem displayPath_prints g pr :
  path_block pr → (∀ id, id ∈ pathIDs pr → id ∈ cityIDs g) →
  displayPath g None = Ok None ∧
  displayPath g (Some pr) =
    Ok (if decide (pathLength pr = 0) then None
        else Some (arrows (nameOf g <$> pathIDs pr))).
Proof.
  intros Hblock Hids. split; [done|]. unfold displayPath.
  destruct (Z.eqb_spec (pathLength pr) 0) as [Hz|Hnz].
  { by rewrite decide_True. }
  rewrite decide_False by done.
  rewrite (displayLoop_spec g pr Hblock Hids) by (destruct Hblock; lia).
  done.
Qed.

Lemma displayPath_prints_witness :
  displayPath graph4 None = Ok None ∧
  displayPath graph4 (Some (mkPath [1; 2; 4; 0] 3 7 4)) =
    Ok (if decide (pathLength (mkPath [1; 2; 4; 0] 3 7 4) = 0) then None
        else Some (arrows (nameOf graph4 <$> pathIDs (mkPath [1; 2; 4; 0] 3 7 4)))).
Proof.
  apply displayPath_prints.
  - unfold path_block. simpl. lia.
  - intros id Hid. unfold pathIDs in Hid. simpl in Hid.
    repeat (apply elem_of_cons in Hid as [->|Hid];
            [apply (bool_decide_unpack _); by vm_compute|]).
    by apply elem_of_nil in Hid.
Defined.

(** * BFS prints the cities that can be reached, each once *)

Lemma arrows_open_snoc l n : arrows_open (l ++ [n]) = arrows_open l ++ [n; arrow].
Proof. induction l as [|m l IH]; [done|]. simpl. by rewrite IH. Qed.

Lemma arrows_snoc l n : arrows (l ++ [n]) = arrows_open l ++ [n].
Proof.
  induction l as [|m l IH]; [done|]. cbn [app arrows arrows_open].
  destruct (l ++ [n]) as [|k l'] eqn:E; [by destruct l|].
  rewrite <- IH. done.
Qed.

Lemma take_snoc_insert (l : list Z) (r : nat) (j : Z) :
  (r < length l)%nat → take (S r) (<[r := j]> l) = take r l ++ [j].
Proof.
  intros Hr. erewrite take_S_r; [|by apply list_lookup_insert_eq].
  by rewrite take_insert_ge by lia.
Qed.

Lemma take_take_insert (l : list Z) (m r : nat) (j : Z) :
  (m ≤ r)%nat → take m (<[r := j]> l) = take m l.
Proof. intros. by rewrite take_insert_ge by lia. Qed.

Section bfs.
Context (g : Graph) (s : Z).

Lemma bfsEdges_sound cur c W0 :
  aget (cities g) cur = Ok c → route g s (cityID c) W0 →
  ∀ edges visited queue rear v' q' r',
    (∀ e, e ∈ edges → e ∈ adjList c) → 1 ≤ rear →
    bfs_sound g s visited queue rear →
    bfsEdges g edges visited queue rear = Ok (v', q', r') →
    bfs_sound g s v' q' r' ∧ rear ≤ r' ∧
    take (Z.to_nat rear) q' = take (Z.to_nat rear) queue ∧
    (∀ i, look visited i ≠ 0 → look v' i ≠ 0) ∧
    (∀ e, e ∈ edges → findCityIndex g (destCityID e) ≠ -1 →
       look v' (findCityIndex g (destCityID e)) ≠ 0).
Proof.
  intros Hc Hroute. pose proof (aget_elem_of _ _ _ Hc) as Hcin.
  induction edges as [|e rest IH];
    intros visited queue rear v' q' r' Hsub Hrear Hsound H.
  { cbn [bfsEdges] in H. injection H as <- <- <-.
    split_and!; [done|lia|done|done|]. by intros e ?%elem_of_nil. }
  cbn [bfsEdges] in H.
  assert (∀ e', e' ∈ rest → e' ∈ adjList c) as Hsub'
    by (intros e' He'; apply Hsub; by right).
  destruct (Z.eqb_spec (findCityIndex g (destCityID e)) (-1)) as [Hnone|Hsome];
    cbn [negb] in H.
  { destruct (IH _ _ _ _ _ _ Hsub' Hrear Hsound H) as (? & ? & ? & ? & Hrest).
    split_and!; [done..|]. intros e' [->|He']%elem_of_cons; [done|].
    by apply Hrest. }
  set (j := findCityIndex g (destCityID e)) in *.
  apply bind_Ok in H as (seen & Eseen & H). apply look_Ok in Eseen as Hseen.
  destruct (Z.eqb_spec seen 0) as [Hzero|Hnz].
  2:{ destruct (IH _ _ _ _ _ _ Hsub' Hrear Hsound H) as (? & ? & ? & Hmono & Hrest).
      split_and!; [done..|]. intros e' [->|He']%elem_of_cons; [|by apply Hrest].
      intros _. apply Hmono. fold j. lia. }
  apply bind_Ok in H as (v1 & Ev1 & H). apply bind_Ok in H as (q1 & Eq1 & H).
  pose proof Ev1 as [Hjb ->]%aset_Ok. pose proof Eq1 as [Hrb ->]%aset_Ok.
  destruct Hsound as (Hnd & Hvis & Hreach & Hstart).
  assert (take (Z.to_nat (rear + 1)) (<[Z.to_nat rear := j]> queue)
          = take (Z.to_nat rear) queue ++ [j]) as Htake.
  { replace (Z.to_nat (rear + 1)) with (S (Z.to_nat rear)) by lia.
    apply take_snoc_insert. lia. }
  assert (j ∉ take (Z.to_nat rear) queue) as Hfresh.
  { intros Hin. apply Hvis in Hin. lia. }
  assert (bfs_sound g s (<[Z.to_nat j := 1]> visited)
            (<[Z.to_nat rear := j]> queue) (rear + 1)) as Hsound1.
  { unfold bfs_sound. rewrite Htake. split_and!.
    - apply NoDup_app. split_and!; [done| |apply NoDup_singleton].
      intros i Hi Heq%list_elem_of_singleton. by subst.
    - intros i. rewrite (look_aset _ _ _ _ _ Ev1), elem_of_app,
        list_elem_of_singleton, <- Hvis.
      case_decide; [|tauto]. split; [by right|done].
    - intros i [Hi|Heq%list_elem_of_singleton]%elem_of_app;
        [by apply Hreach|]. subst i.
      destruct (findCityIndex_aget g (destCityID e) j) as (cj & Hcj & Hidj);
        [done..|].
      exists cj, (W0 + distance e). split; [done|]. rewrite Hidj.
      eapply route_snoc; [done|]. exists c. split_and!; [done..|].
      assert (e ∈ adjList c) as He by (apply Hsub; left). by destruct e.
    - rewrite take_take_insert by lia. done. }
  assert (1 ≤ rear + 1) as Hrear1 by lia.
  destruct (IH _ _ _ _ _ _ Hsub' Hrear1 Hsound1 H) as
    (Hsound' & Hle & Hpre & Hmono & Hrest).
  split_and!; [done|lia| | |].
  - apply (f_equal (take (Z.to_nat rear))) in Hpre.
    rewrite !take_take in Hpre.
    replace (Z.to_nat rear `min` Z.to_nat (rear + 1))%nat
      with (Z.to_nat rear) in Hpre by lia.
    rewrite Hpre. apply take_take_insert. lia.
  - intros i Hi. apply Hmono. rewrite (look_aset _ _ _ _ _ Ev1).
    by case_decide.
  - intros e' [->|He']%elem_of_cons; [|by apply Hrest].
    intros _. apply Hmono. fold j. rewrite (look_aset _ _ _ _ _ Ev1).
    by rewrite decide_True.
Qed.

Lemma bfsLoop_sound : ∀ fuel visited queue front rear out result cs0,
  0 ≤ front ≤ rear → 1 ≤ rear →
  bfs_sound g s visited queue rear → bfs_done g visited queue front →
  cities_at g (take (Z.to_nat front) queue) cs0 →
  out = (if decide (front < rear) then arrows_open (cityName <$> cs0)
         else arrows (cityName <$> cs0)) →
  bfsLoop fuel g visited queue front rear out = Ok result →
  ∃ v' q' r' cs,
    1 ≤ r' ∧ bfs_sound g s v' q' r' ∧ bfs_done g v' q' r' ∧
    cities_at g (take (Z.to_nat r') q') cs ∧
    result = arrows (cityName <$> cs).
Proof.
  induction fuel as [|fuel IH];
    intros visited queue front rear out result cs0 Hfr Hrear Hsound Hdone
      Hcs Hout H; [done|].
  cbn [bfsLoop] in H. destruct (Z.ltb_spec front rear) as [Hlt|Hge].
  2:{ injection H as <-. assert (front = rear) as -> by lia.
      rewrite decide_False in Hout by lia.
      by exists visited, queue, rear, cs0. }
  rewrite decide_True in Hout by done.
  apply bind_Ok in H as (current & Hcur & H).
  apply bind_Ok in H as (c & Hc & H).
  apply bind_Ok in H as ([[v1 q1] r1] & Hedges & H).
  pose proof Hsound as (Hnd & Hvis & Hreach & Hstart).
  pose proof Hcur as [_ Hcur']%aget_Ok.
  assert (current ∈ take (Z.to_nat rear) queue) as Hin.
  { apply (list_elem_of_lookup_2 _ (Z.to_nat front)).
    by rewrite lookup_take_lt by lia. }
  destruct (Hreach _ Hin) as (c' & W0 & Hc' & Hroute).
  assert (c' = c) as -> by congruence.
  destruct (bfsEdges_sound current c W0 Hc Hroute (adjList c) visited queue
              rear v1 q1 r1) as (Hsound1 & Hle & Hpre & Hmono & Hall);
    [done|done|done|done|].
  assert (take (Z.to_nat front) q1 = take (Z.to_nat front) queue) as Hpre0.
  { apply (f_equal (take (Z.to_nat front))) in Hpre.
    rewrite !take_take in Hpre.
    by replace (Z.to_nat front `min` Z.to_nat rear)%nat
      with (Z.to_nat front) in Hpre by lia. }
  assert (take (Z.to_nat (front + 1)) q1
          = take (Z.to_nat front) queue ++ [current]) as Hnext.
  { replace (Z.to_nat (front + 1)) with (S (Z.to_nat front)) by lia.
    erewrite take_S_r.
    - by rewrite Hpre0.
    - apply (f_equal (fun l => l !! Z.to_nat front)) in Hpre.
      rewrite !lookup_take_lt in Hpre by lia. by rewrite Hpre. }
  eapply (IH v1 q1 (front + 1) r1 _ result (cs0 ++ [c])); [lia|lia|done| | | |exact H].
  - intros i ci e Hi Hci He Hne. rewrite Hnext in Hi.
    apply elem_of_app in Hi as [Hi|Heq%list_elem_of_singleton].
    + apply Hmono. by eapply Hdone.
    + subst i. assert (ci = c) as -> by congruence. by apply Hall.
  - rewrite Hnext. apply Forall2_app; [done|]. by constructor.
  - rewrite fmap_app. cbn [fmap list_fmap].
    destruct (Z.ltb_spec (front + 1) r1) as [Hmore|Hlast].
    + rewrite decide_True by done. rewrite arrows_open_snoc, Hout.
      by rewrite <- app_assoc.
    + rewrite decide_False by lia. by rewrite arrows_snoc, Hout.
Qed.

Lemma cities_at_ids idxs cs :
  NoDup (cityIDs g) → cities_at g idxs cs → NoDup idxs →
  NoDup (cityID <$> cs).
Proof.
  intros Hids. induction 1 as [|i c idxs cs Hc Hrest IH]; intros Hnd.
  { constructor. }
  apply NoDup_cons in Hnd as [Hi Hnd]. rewrite fmap_cons.
  apply NoDup_cons. split; [|by apply IH].
  intros (c' & Hid & Hc')%list_elem_of_fmap.
  apply list_elem_of_lookup in Hc' as [n Hn].
  destruct (Forall2_lookup_r _ _ _ _ _ Hrest Hn) as (i' & Hi' & Hci').
  apply Hi. apply list_elem_of_lookup. exists n.
  rewrite <- (findCityIndex_of_aget g i c Hids Hc).
  rewrite Hid. by rewrite (findCityIndex_of_aget g i' c' Hids Hci').
Qed.

Lemma cities_at_elem idxs cs c :
  cities_at g idxs cs →
  (c ∈ cs ↔ ∃ i, i ∈ idxs ∧ aget (cities g) i = Ok c).
Proof.
  intros Hat. split.
  - intros [n Hn]%list_elem_of_lookup.
    destruct (Forall2_lookup_r _ _ _ _ _ Hat Hn) as (i & Hi & Hci).
    exists i. split; [by eapply list_elem_of_lookup_2|done].
  - intros (i & [n Hn]%list_elem_of_lookup & Hci).
    destruct (Forall2_lookup_l _ _ _ _ _ Hat Hn) as (c' & Hc' & Hci').
    assert (c' = c) as -> by congruence. by eapply list_elem_of_lookup_2.
Qed.

(** Every city that a directed path leads to is in the queue once the
    queue has been worked off. *)
Lemma bfs_complete visited queue rear :
  graph_wf g → 1 ≤ rear →
  bfs_sound g s visited queue rear → bfs_done g visited queue rear →
  ∀ a W, route g s a W →
  ∃ i c, i ∈ take (Z.to_nat rear) queue ∧ aget (cities g) i = Ok c ∧
    cityID c = a.
Proof.
  intros [Hids Hwf] Hrear (Hnd & Hvis & Hreach & Hstart) Hdone.
  induction 1 as [Hs|b c' w W _ IH Hroad].
  - destruct (findCityIndex_some g s Hs) as (c & Hc & Hid).
    exists (findCityIndex g s), c. split; [|done].
    apply (list_elem_of_lookup_2 _ 0).
    apply (f_equal (fun l => l !! 0%nat)) in Hstart.
    rewrite lookup_take_lt in Hstart by lia.
    rewrite lookup_take_lt by lia. done.
  - destruct IH as (i & cb & Hi & Hcb & Hidb).
    destruct Hroad as (c0 & Hc0 & Hid0 & He).
    assert (c0 = cb) as ->.
    { apply elem_of_aget in Hc0 as [k Hk].
      pose proof (findCityIndex_of_aget g k c0 Hids Hk) as E1.
      pose proof (findCityIndex_of_aget g i cb Hids Hcb) as E2.
      rewrite Hid0, <- Hidb, E2 in E1. congruence. }
    rewrite Forall_forall in Hwf. destruct (Hwf cb Hc0) as [Hdests _].
    rewrite Forall_forall in Hdests. destruct (Hdests _ He) as [Hdest _].
    cbn [destCityID] in Hdest.
    destruct (findCityIndex_some g c' Hdest) as (cj & Hcj & Hidj).
    exists (findCityIndex g c'), cj. split; [|done].
    apply Hvis. pose proof (aget_bounds _ _ _ Hcj).
    apply (Hdone i cb _ Hi Hcb He). cbn [destCityID]. lia.
Qed.
End bfs.

(** [BFS] from a city of a graph that satisfies the data-model invariants
    prints the names of the cities that a directed path leads to from the
    start, the start first and each city once, with an arrow between each
    name and the next. *)
Theorem BFS_visits_reachable g s :
  graph_wf g → s ∈ cityIDs g →
  ∃ cs, BFS g s = Ok (Some (arrows (cityName <$> cs))) ∧
    NoDup (cityID <$> cs) ∧
    (∃ c0, head cs = Some c0 ∧ cityID c0 = s) ∧
    ∀ c, c ∈ cs ↔ c ∈ cities g ∧ ∃ W, route g s (cityID c) W.
Proof.
  intros Hwf Hs. pose proof Hwf as [Hids _].
  destruct (BFS_total g s) as [res E].
  destruct (findCityIndex_some g s Hs) as (cs0 & Hcs0 & Hids0).
  pose proof (aget_bounds _ _ _ Hcs0) as Hsb.
  unfold BFS in E |- *.
  destruct (Z.eqb_spec (findCityIndex g s) (-1)) as [|_]; [lia|].
  set (n := Z.to_nat (numCities g)) in *.
  assert (Z.of_nat n = Z.of_nat (length (cities g))) as Hn
    by (unfold n, numCities; lia).
  assert (aset (replicate n 0) (findCityIndex g s) 1
          = Ok (<[Z.to_nat (findCityIndex g s) := 1]> (replicate n 0))) as Ev
    by (apply aset_exists; rewrite length_replicate; lia).
  assert (aset (replicate n 0) 0 (findCityIndex g s)
          = Ok (<[Z.to_nat 0 := findCityIndex g s]> (replicate n 0))) as Eq
    by (apply aset_exists; rewrite length_replicate; lia).
  rewrite Ev, Eq in E |- *. cbn [mbind result_bind] in E |- *.
  set (visited := <[Z.to_nat (findCityIndex g s) := 1]> (replicate n 0)) in *.
  set (queue := <[Z.to_nat 0 := findCityIndex g s]> (replicate n 0)) in *.
  destruct (bfsLoop (S n) g visited queue 0 1 []) as [out| |] eqn:Hloop;
    [|done..].
  cbn [mbind result_bind].
  assert (take 1 queue = [findCityIndex g s]) as Hstart.
  { unfold queue. destruct n as [|n']; [lia|]. simpl. by rewrite take_0. }
  destruct (bfsLoop_sound g s (S n) visited queue 0 1 [] out []) as
    (v' & q' & r' & cs & Hr' & Hsound & Hdone & Hat & ->);
    [lia|lia| | | |done|done|].
  { unfold bfs_sound. change (Z.to_nat 1) with 1%nat. rewrite Hstart.
    split_and!; [apply NoDup_singleton| | |done].
    - intros i. rewrite list_elem_of_singleton.
      unfold visited. erewrite look_aset by exact Ev.
      case_decide; [done|]. split; [|done]. intros Hz. exfalso. apply Hz.
      unfold look. destruct (aget (replicate n 0) i) as [v| |] eqn:Hi; [|done..].
      by apply aget_elem_of, elem_of_replicate in Hi as [-> _].
    - intros i ->%list_elem_of_singleton. exists cs0, 0.
      split; [done|]. rewrite Hids0. by constructor. }
  { intros i c e Hi. by apply elem_of_nil in Hi. }
  { constructor. }
  exists cs. split; [done|].
  pose proof Hsound as (Hnd & Hvis & Hreach & Hstart').
  assert (take (Z.to_nat r') q' !! 0%nat = Some (findCityIndex g s)) as Hhead.
  { apply (f_equal (fun l => l !! 0%nat)) in Hstart'.
    rewrite lookup_take_lt in Hstart' by lia.
    by rewrite lookup_take_lt by lia. }
  split_and!.
  - by apply (cities_at_ids g _ _ Hids Hat).
  - destruct (Forall2_lookup_l _ _ _ _ _ Hat Hhead) as (c0 & Hc0 & Hget).
    exists c0. split; [by rewrite head_lookup|]. congruence.
  - intros c. rewrite (cities_at_elem g _ _ c Hat). split.
    + intros (i & Hi & Hci). split; [by eapply aget_elem_of|].
      destruct (Hreach i Hi) as (c' & W & Hc' & Hroute).
      assert (c' = c) as -> by congruence. by exists W.
    + intros (Hc & W & Hroute).
      destruct (bfs_complete g s v' q' r' Hwf Hr' Hsound Hdone _ _ Hroute)
        as (i & c' & Hi & Hci & Hid).
      exists i. split; [done|].
      apply elem_of_aget in Hc as [k Hk].
      pose proof (findCityIndex_of_aget g k c Hids Hk) as E1.
      pose proof (findCityIndex_of_aget g i c' Hids Hci) as E2.
      rewrite Hid, E1 in E2. congruence.
Qed.

Lemma BFS_visits_reachable_witness :
  ∃ cs, BFS graph4 1 = Ok (Some (arrows (cityName <$> cs))) ∧
    NoDup (cityID <$> cs) ∧
    (∃ c0, head cs = Some c0 ∧ cityID c0 = 1) ∧
    ∀ c, c ∈ cs ↔ c ∈ cities graph4 ∧ ∃ W, route graph4 1 (cityID c) W.
Proof.
  apply BFS_visits_reachable; apply (bool_decide_unpack _); by vm_compute.
Defined.

(** * DFS prints the cities that can be reached, each once *)

Lemma route_trans g a b c W1 W2 :
  route g a b W1 → route g b c W2 → route g a c (W1 + W2).
Proof.
  intros H1. induction 1 as [Hb|c' c'' w W _ IH Hroad].
  - by rewrite Z.add_0_r.
  - rewrite Z.add_assoc. by econstructor.
Qed.

Lemma dfs_out_app g : ∀ l1 l2 v,
  dfs_out g v (l1 ++ l2) = dfs_out g v l1 ++ dfs_out g (marked v l1) l2.
Proof.
  induction l1 as [|i l1 IH]; intros l2 v; [done|].
  cbn [app dfs_out]. rewrite IH, <- app_assoc. done.
Qed.

Lemma hasUnvisited_spec g visited : ∀ edges b,
  hasUnvisited g edges visited = Ok b → b = unvisited_left g edges visited.
Proof.
  induction edges as [|e rest IH]; intros b H.
  { by injection H as <-. }
  cbn [hasUnvisited] in H. unfold unvisited_left. cbn [existsb].
  destruct (negb (findCityIndex g (destCityID e) =? -1)); cbn [andb orb].
  - apply bind_Ok in H as (seen & Eseen & H). unfold look at 1. rewrite Eseen.
    destruct (seen =? 0); cbn [orb].
    + by injection H as <-.
    + by apply IH.
  - by apply IH.
Qed.

Section dfs.
Context (g : Graph).

Lemma dfs_post_nil a v o : dfs_post g a v o v o [].
Proof.
  unfold dfs_post. split_and!.
  - intros i. rewrite elem_of_nil. tauto.
  - constructor.
  - by intros i ?%elem_of_nil.
  - by intros i ?%elem_of_nil.
  - by intros i ci e ?%elem_of_nil.
  - done.
  - by rewrite app_nil_r.
Qed.

Lemma dfsEdges_post visit c :
  c ∈ cities g →
  (∀ j v o v' o' cj,
     aget (cities g) j = Ok cj → look v j = 0 →
     visit j v o = Ok (v', o') →
     ∃ new, dfs_post g (cityID cj) v o v' o' new ∧ head new = Some j) →
  ∀ edges v o v' o',
    (∀ e, e ∈ edges → e ∈ adjList c) →
    dfsEdges visit g edges v o = Ok (v', o') →
    ∃ new, dfs_post g (cityID c) v o v' o' new ∧
      ∀ e, e ∈ edges → findCityIndex g (destCityID e) ≠ -1 →
           look v' (findCityIndex g (destCityID e)) ≠ 0.
Proof.
  intros Hc Hvisit.
  induction edges as [|e rest IH]; intros v o v' o' Hsub H.
  { cbn [dfsEdges] in H. injection H as <- <-. exists [].
    split; [apply dfs_post_nil|]. by intros e ?%elem_of_nil. }
  cbn [dfsEdges] in H.
  assert (∀ e', e' ∈ rest → e' ∈ adjList c) as Hsub'
    by (intros e' He'; apply Hsub; by right).
  destruct (Z.eqb_spec (findCityIndex g (destCityID e)) (-1)) as [Hnone|Hsome];
    cbn [negb] in H.
  { destruct (IH _ _ _ _ Hsub' H) as (new & Hpost & Hrest).
    exists new. split; [done|].
    intros e' [->|He']%elem_of_cons; [done|]. by apply Hrest. }
  set (j := findCityIndex g (destCityID e)) in *.
  apply bind_Ok in H as (seen & Eseen & H). apply look_Ok in Eseen as Hseen.
  destruct (Z.eqb_spec seen 0) as [Hzero|Hnz].
  2:{ destruct (IH _ _ _ _ Hsub' H) as (new & Hpost & Hrest).
      exists new. split; [done|].
      intros e' [->|He']%elem_of_cons; [|by apply Hrest].
      intros _. apply Hpost. left. fold j. lia. }
  apply bind_Ok in H as ([v1 o1] & Hcall & H).
  destruct (findCityIndex_aget g (destCityID e) j) as (cj & Hcj & Hidj);
    [done..|].
  destruct (Hvisit j v o v1 o1 cj Hcj) as (new1 & Hpost1 & Hhead1);
    [lia|done|].
  destruct (IH _ _ _ _ Hsub' H) as (new2 & Hpost2 & Hrest).
  destruct Hpost1 as (Hv1 & Hnd1 & Hfresh1 & Hreach1 & Hclosed1 & Hm1 & ->).
  destruct Hpost2 as (Hv2 & Hnd2 & Hfresh2 & Hreach2 & Hclosed2 & Hm2 & ->).
  assert (road g (cityID c) (cityID cj) (distance e)) as Hroad.
  { exists c. split_and!; [done..|]. rewrite Hidj.
    assert (e ∈ adjList c) as He by (apply Hsub; left). by destruct e. }
  assert (route g (cityID c) (cityID cj) (0 + distance e)) as Hstep.
  { eapply route_snoc; [|done]. constructor. by apply list_elem_of_fmap_2. }
  exists (new1 ++ new2). split.
  - unfold dfs_post. split_and!.
    + intros i. rewrite Hv2, Hv1, elem_of_app. tauto.
    + apply NoDup_app. split_and!; [done| |done].
      intros i Hi1 Hi2. apply Hfresh2 in Hi2.
      assert (look v1 i ≠ 0) by (apply Hv1; by right). done.
    + intros i [Hi|Hi]%elem_of_app; [by apply Hfresh1|].
      apply Hfresh2 in Hi. destruct (decide (look v i = 0)) as [|Hne]; [done|].
      exfalso. assert (look v1 i ≠ 0) by (apply Hv1; by left). done.
    + intros i [Hi|Hi]%elem_of_app; [|by apply Hreach2].
      destruct (Hreach1 i Hi) as (ci & W & Hci & Hroute).
      exists ci, (0 + distance e + W). split; [done|].
      by eapply route_trans.
    + intros i ci e' [Hi|Hi]%elem_of_app Hci He' Hne.
      * apply Hv2. left. by eapply Hclosed1.
      * by eapply Hclosed2.
    + rewrite Hm2, Hm1. unfold marked. by rewrite foldl_app.
    + rewrite dfs_out_app, <- Hm1. by rewrite app_assoc.
  - intros e' [->|He']%elem_of_cons; [|by apply Hrest].
    intros _. apply Hv2. left. apply Hv1. right. fold j.
    destruct new1 as [|k new1]; [done|]. injection Hhead1 as ->. left.
Qed.

Lemma DFSUtil_post : ∀ fuel idx visited out v' out' c,
  aget (cities g) idx = Ok c → look visited idx = 0 →
  DFSUtil fuel g idx visited out = Ok (v', out') →
  ∃ new, dfs_post g (cityID c) visited out v' out' new ∧
    head new = Some idx.
Proof.
  induction fuel as [|fuel IH]; intros idx visited out v' out' c Hc Hzero H;
    [done|].
  cbn [DFSUtil] in H.
  apply bind_Ok in H as (v1 & Ev1 & H).
  apply bind_Ok in H as (c' & Hc' & H).
  assert (c' = c) as -> by congruence.
  apply bind_Ok in H as (more & Hmore & H).
  apply hasUnvisited_spec in Hmore.
  apply aset_Ok in Ev1 as [Hib ->].
  set (v1 := <[Z.to_nat idx := 1]> visited) in *.
  pose proof (aget_elem_of _ _ _ Hc) as Hcin.
  destruct (dfsEdges_post (DFSUtil fuel g) c Hcin) with
    (edges := adjList c) (v := v1) (v' := v') (o' := out')
    (o := if more then (out ++ [cityName c]) ++ [arrow]
          else out ++ [cityName c])
    as (new & Hpost & Hall); [|done|done|].
  { intros j v o v2 o2 cj Hcj Hj Hcall. by eapply IH. }
  destruct Hpost as (Hv & Hnd & Hfresh & Hreach & Hclosed & Hm & ->).
  exists (idx :: new). split; [|done].
  assert (∀ i, look v1 i = if decide (i = idx) then 1 else look visited i)
    as Hv1 by (intros i; apply (look_aset visited); by apply aset_Ok).
  unfold dfs_post. split_and!.
  - intros i. rewrite Hv, Hv1, elem_of_cons.
    case_decide; [|tauto]. split; [by right; left|by left].
  - apply NoDup_cons. split; [|done]. intros Hin.
    apply Hfresh in Hin. rewrite Hv1, decide_True in Hin by done. done.
  - intros i [->|Hi]%elem_of_cons; [done|].
    apply Hfresh in Hi. rewrite Hv1 in Hi. by case_decide.
  - intros i [->|Hi]%elem_of_cons; [|by apply Hreach].
    exists c, 0. split; [done|]. constructor. by apply list_elem_of_fmap_2.
  - intros i ci e [->|Hi]%elem_of_cons Hci He Hne.
    + assert (ci = c) as -> by congruence. by apply Hall.
    + by eapply Hclosed.
  - done.
  - cbn [dfs_out]. fold v1. rewrite Hc, <- Hmore.
    destruct more; by rewrite <- !app_assoc.
Qed.
End dfs.

Lemma cities_at_exists g idxs :
  (∀ i, i ∈ idxs → ∃ c, aget (cities g) i = Ok c) →
  ∃ cs, cities_at g idxs cs.
Proof.
  induction idxs as [|i idxs IH]; intros H.
  { exists []. constructor. }
  destruct (H i) as [c Hc]; [by left|].
  destruct IH as [cs Hcs]; [intros j Hj; apply H; by right|].
  exists (c :: cs). by constructor.
Qed.

Lemma existsb_pointwise {A} (f f' : A → bool) l :
  (∀ a, a ∈ l → f a = f' a) → existsb f l = existsb f' l.
Proof.
  induction l as [|a l IH]; intros H; [done|]. cbn [existsb].
  rewrite (H a) by left. rewrite IH; [done|]. intros b Hb. apply H. by right.
Qed.

(** The printed line in terms of the marks and in terms of the cities. *)
Lemma dfs_out_line g :
  NoDup (cityIDs g) →
  ∀ new cs, cities_at g new cs →
  ∀ V seen,
    length V = length (cities g) →
    (∀ i c, aget (cities g) i = Ok c → (look V i ≠ 0 ↔ cityID c ∈ seen)) →
    dfs_out g V new = dfs_line g seen cs.
Proof.
  intros Hids new cs. induction 1 as [|i c new cs Hc Hrest IH];
    intros V seen Hlen Hrep; [done|].
  cbn [dfs_out dfs_line]. rewrite Hc. cbn [app].
  pose proof (aget_bounds _ _ _ Hc) as Hib.
  assert (∀ j c', aget (cities g) j = Ok c' →
            (look (<[Z.to_nat i := 1]> V) j ≠ 0 ↔ cityID c' ∈ cityID c :: seen))
    as Hrep'.
  { intros j c' Hc'.
    rewrite (look_aset V i 1) by (apply aset_Ok; split; [lia|done]).
    rewrite elem_of_cons. case_decide as Hj.
    - subst j. assert (c' = c) as -> by congruence. split; [by left|done].
    - rewrite (Hrep j c' Hc'). split; [by right|].
      intros [Heq|?]; [|done]. exfalso. apply Hj.
      pose proof (findCityIndex_of_aget g j c' Hids Hc') as E1.
      pose proof (findCityIndex_of_aget g i c Hids Hc) as E2.
      rewrite Heq, E2 in E1. done. }
  f_equal. f_equal.
  - unfold unvisited_left. erewrite existsb_pointwise; [done|].
    intros e He. cbv beta.
    destruct (decide (destCityID e ∈ cityIDs g)) as [Hin|Hout].
    + destruct (findCityIndex_some g _ Hin) as (c' & Hc' & Hid').
      pose proof (aget_bounds _ _ _ Hc') as Hb.
      destruct (Z.eqb_spec (findCityIndex g (destCityID e)) (-1)) as [|_];
        [lia|]. cbn [negb andb].
      specialize (Hrep' _ _ Hc'). rewrite Hid' in Hrep'.
      destruct (Z.eqb_spec (look (<[Z.to_nat i := 1]> V)
                              (findCityIndex g (destCityID e))) 0)
        as [Hz|Hnz].
      * symmetry. apply bool_decide_eq_true. split; [done|].
        intros Hseen. apply Hrep' in Hseen. done.
      * symmetry. apply bool_decide_eq_false. intros [_ Hno].
        apply Hno, Hrep'. done.
    + pose proof (proj2 (findCityIndex_none g (destCityID e)) Hout) as ->.
      cbn [Z.eqb negb andb]. symmetry. apply bool_decide_eq_false. tauto.
  - apply IH; [by rewrite length_insert|done].
Qed.

(** [DFS] from a city of a graph that satisfies the data-model invariants
    returns and prints the names of the cities that a directed path leads
    to from the start, the start first and each city once.  An arrow
    follows the name of a city exactly when the city has a road to a city
    of the graph that is not printed yet and is not the city itself; so
    two names can follow each other without an arrow. *)
Theorem DFS_visits_reachable g s :
  graph_wf g → s ∈ cityIDs g →
  ∃ cs, DFS g s = Ok (Some (dfs_line g [] cs)) ∧
    NoDup (cityID <$> cs) ∧
    (∃ c0, head cs = Some c0 ∧ cityID c0 = s) ∧
    ∀ c, c ∈ cs ↔ c ∈ cities g ∧ ∃ W, route g s (cityID c) W.
Proof.
  intros Hwf Hs. pose proof Hwf as [Hids Hall].
  destruct (DFS_total g s) as [res E].
  destruct (findCityIndex_some g s Hs) as (c0 & Hc0 & Hid0).
  pose proof (aget_bounds _ _ _ Hc0) as Hsb.
  unfold DFS in E |- *.
  destruct (Z.eqb_spec (findCityIndex g s) (-1)) as [|_]; [lia|].
  set (n := Z.to_nat (numCities g)) in *.
  destruct (DFSUtil (S n) g (findCityIndex g s) (replicate n 0) [])
    as [[v' out]| |] eqn:Hrun; [|done..].
  cbn [mbind result_bind].
  assert (∀ i, look (replicate n 0) i = 0) as Hzero.
  { intros i. unfold look.
    destruct (aget (replicate n 0) i) as [v| |] eqn:Hi; [|done..].
    by apply aget_elem_of, elem_of_replicate in Hi as [-> _]. }
  destruct (DFSUtil_post g _ _ _ _ _ _ c0 Hc0 (Hzero _) Hrun) as
    (new & Hpost & Hhead).
  destruct Hpost as (Hv & Hnd & _ & Hreach & Hclosed & _ & ->).
  destruct (cities_at_exists g new) as [cs Hat].
  { intros i Hi. destruct (Hreach i Hi) as (ci & _ & Hci & _). by exists ci. }
  rewrite Hid0 in Hreach. cbn [app].
  rewrite (dfs_out_line g Hids new cs Hat _ []).
  2:{ rewrite length_replicate. unfold n, numCities. lia. }
  2:{ intros i c _. rewrite Hzero. split; [done|by intros ?%elem_of_nil]. }
  exists cs. split; [done|].
  assert (∀ i, look v' i ≠ 0 ↔ i ∈ new) as Hv'.
  { intros i. rewrite Hv, Hzero. tauto. }
  split_and!.
  - by apply (cities_at_ids g _ _ Hids Hat).
  - destruct new as [|k new]; [done|]. injection Hhead as ->.
    inversion Hat as [|? c1 ? cs1 Hc1 Hrest]; subst.
    exists c1. split; [done|]. congruence.
  - intros c. rewrite (cities_at_elem g _ _ c Hat). split.
    + intros (i & Hi & Hci). split; [by eapply aget_elem_of|].
      destruct (Hreach i Hi) as (c' & W & Hc' & Hroute).
      assert (c' = c) as -> by congruence. by exists W.
    + intros (Hc & W & Hroute).
      assert (∀ a W, route g s a W →
                ∃ i ca, i ∈ new ∧ aget (cities g) i = Ok ca ∧ cityID ca = a)
        as Hcomplete.
      { clear c Hc W Hroute.
        induction 1 as [_|b c' w W _ IH Hroad].
        - exists (findCityIndex g s), c0. split_and!; [|done..].
          destruct new as [|k new]; [done|]. injection Hhead as ->. left.
        - destruct IH as (i & cb & Hi & Hcb & Hidb).
          destruct Hroad as (cr & Hcr & Hidr & He).
          assert (cr = cb) as ->.
          { apply elem_of_aget in Hcr as [k Hk].
            pose proof (findCityIndex_of_aget g k cr Hids Hk) as E1.
            pose proof (findCityIndex_of_aget g i cb Hids Hcb) as E2.
            rewrite Hidr, <- Hidb, E2 in E1. congruence. }
          rewrite Forall_forall in Hall. destruct (Hall cb Hcr) as [Hdests _].
          rewrite Forall_forall in Hdests.
          destruct (Hdests _ He) as [Hdest _]. cbn [destCityID] in Hdest.
          destruct (findCityIndex_some g c' Hdest) as (cj & Hcj & Hidj).
          exists (findCityIndex g c'), cj. split; [|done].
          apply Hv'. pose proof (aget_bounds _ _ _ Hcj).
          apply (Hclosed i cb _ Hi Hcb He). cbn [destCityID]. lia. }
      destruct (Hcomplete _ _ Hroute) as (i & c' & Hi & Hci & Hid).
      exists i. split; [done|].
      apply elem_of_aget in Hc as [k Hk].
      pose proof (findCityIndex_of_aget g k c Hids Hk) as E1.
      pose proof (findCityIndex_of_aget g i c' Hids Hci) as E2.
      rewrite Hid, E1 in E2. congruence.
Qed.

Lemma DFS_visits_reachable_witness :
  ∃ cs, DFS graph4 1 = Ok (Some (dfs_line graph4 [] cs)) ∧
    NoDup (cityID <$> cs) ∧
    (∃ c0, head cs = Some c0 ∧ cityID c0 = 1) ∧
    ∀ c, c ∈ cs ↔ c ∈ cities graph4 ∧ ∃ W, route graph4 1 (cityID c) W.
Proof.
  apply DFS_visits_reachable; apply (bool_decide_unpack _); by vm_compute.
Defined.

(** * Searching after the city array was reordered *)

Lemma route_permutation g g' a b W :
  cities g' ≡ₚ cities g → route g a b W → route g' a b W.
Proof.
  intros Hperm. induction 1 as [Ha|b c w W _ IH Hroad].
  - constructor. unfold cityIDs. by rewrite Hperm.
  - econstructor; [done|]. destruct Hroad as (cb & Hcb & Hid & He).
    exists cb. split_and!; [|done..]. by rewrite Hperm.
Qed.

Lemma graph_ok_permutation g g' :
  cities g' ≡ₚ cities g → graph_ok g → graph_ok g'.
Proof.
  intros Hperm (Hwf & Hids & Hw). split_and!.
  - by eapply graph_wf_permutation.
  - unfold ids_in_range. by rewrite Hperm.
  - unfold weights_bounded. by rewrite Hperm.
Qed.

Lemma answer_permutation g g' s d pr pr' :
  cities g' ≡ₚ cities g → answer g s d pr → answer g' s d pr' →
  totalDistance pr' = totalDistance pr ∧
  (pathLength pr' = 0 ↔ pathLength pr = 0).
Proof.
  intros Hperm Ha Ha'.
  assert (∀ W, route g s d W ↔ route g' s d W) as Hr.
  { intros W. split; apply route_permutation; [done|by symmetry]. }
  destruct Ha as [(Hl & Ht & Hnone)|(Hl & Hlt & Hroute & Hmin)];
    destruct Ha' as [(Hl' & Ht' & Hnone')|(Hl' & Hlt' & Hroute' & Hmin')].
  - split; [lia|tauto].
  - apply Hr, Hnone in Hroute'. lia.
  - apply Hr, Hnone' in Hroute. lia.
  - split; [|tauto].
    pose proof (Hmin _ (proj2 (Hr _) Hroute')).
    pose proof (Hmin' _ (proj1 (Hr _) Hroute)). lia.
Qed.

(** The answer of [dijkstra] does not depend on the order of the city
    array: after [sortCitiesByName] a query between the same two cities
    reports the same total distance, and no path exactly when it reported
    none before.  (Between paths of the same weight the choice may
    change.) *)
Theorem dijkstra_after_sort g s d :
  graph_ok g → s ∈ cityIDs g → d ∈ cityIDs g →
  ∃ g' pr pr', sortCitiesByName g = Ok g' ∧
    dijkstra g s d = Ok (Some pr) ∧ dijkstra g' s d = Ok (Some pr') ∧
    totalDistance pr' = totalDistance pr ∧
    (pathLength pr' = 0 ↔ pathLength pr = 0).
Proof.
  intros Hok Hs Hd.
  destruct (sortCitiesByName_ok g) as (g' & E & Hperm & _).
  assert (∀ id, id ∈ cityIDs g → id ∈ cityIDs g') as Hids
    by (intros id; unfold cityIDs; by rewrite Hperm).
  pose proof (graph_ok_permutation _ _ Hperm Hok) as Hok'.
  destruct (dijkstra_correct g Hok s Hs d Hd) as (pr & Er & _ & _ & Ha & _).
  destruct (dijkstra_correct g' Hok' s (Hids _ Hs) d (Hids _ Hd)) as
    (pr' & Er' & _ & _ & Ha' & _).
  exists g', pr, pr'. split_and!; [done..| |];
    by destruct (answer_permutation g g' s d pr pr' Hperm Ha Ha').
Qed.

Lemma dijkstra_after_sort_witness :
  ∃ g' pr pr', sortCitiesByName graph4 = Ok g' ∧
    dijkstra graph4 1 4 = Ok (Some pr) ∧ dijkstra g' 1 4 = Ok (Some pr') ∧
    totalDistance pr' = totalDistance pr ∧
    (pathLength pr' = 0 ↔ pathLength pr = 0).
Proof.
  apply dijkstra_after_sort; apply (bool_decide_unpack _); by vm_compute.
Defined.

(** * Searching after a road was added or removed *)

Lemma road_roads g a b w : road g a b w ↔ w ∈ roads g a b.
Proof.
  unfold road, roads. rewrite list_elem_of_bind. split.
  - intros (c & Hc & Hid & He). exists c. split; [|done].
    rewrite decide_True by done. unfold weightsTo.
    apply list_elem_of_bind. exists (mkEdge b w). split; [|done].
    cbn [destCityID distance]. rewrite decide_True by done. left.
  - intros (c & Hw & Hc). exists c. split; [done|].
    case_decide as Hid; [|by apply elem_of_nil in Hw]. split; [done|].
    unfold weightsTo in Hw. apply list_elem_of_bind in Hw as (e & Hw & He).
    case_decide as Hd; [|by apply elem_of_nil in Hw].
    apply list_elem_of_singleton in Hw. destruct e as [b' w']. simpl in *.
    by subst.
Qed.

Lemma graph_ok_roads g g' :
  graph_ok g → graph_wf g' → cityIDs g' = cityIDs g →
  (∀ a b w, road g' a b w → w ≤ MAX_WEIGHT) → graph_ok g'.
Proof.
  intros (_ & Hids & _) Hwf Heq Hw. split_and!; [done| |].
  - unfold ids_in_range in *.
    apply (Forall_fmap cityID (λ i, 0 ≤ i < POS_SIZE)).
    fold (cityIDs g'). rewrite Heq. by apply Forall_fmap.
  - apply Forall_forall. intros c Hc. apply Forall_forall. intros [b w] He.
    apply (Hw (cityID c) b w). by exists c.
Qed.

Lemma weights_bounded_road g a b w :
  weights_bounded g → road g a b w → w ≤ MAX_WEIGHT.
Proof.
  intros Hw (c & Hc & _ & He). unfold weights_bounded in Hw.
  rewrite Forall_forall in Hw. specialize (Hw c Hc).
  rewrite Forall_forall in Hw. by apply (Hw _ He).
Qed.

Lemma route_lighter g g' :
  (∀ i, i ∈ cityIDs g' → i ∈ cityIDs g) →
  (∀ x y w, road g' x y w → ∃ w0, w0 ≤ w ∧ road g x y w0) →
  ∀ a b W, route g' a b W → ∃ W0, W0 ≤ W ∧ route g a b W0.
Proof.
  intros Hids Hroads a b W. induction 1 as [Ha|b c w W _ IH Hroad].
  - exists 0. split; [done|]. constructor. by apply Hids.
  - destruct IH as (W0 & HW0 & Hr). destruct (Hroads _ _ _ Hroad) as
      (w0 & Hw0 & Hroad0).
    exists (W0 + w0). split; [lia|]. by econstructor.
Qed.

Lemma dijkstra_lighter g g' s d :
  graph_ok g → graph_ok g' → cityIDs g' = cityIDs g →
  (∀ x y w, road g' x y w → ∃ w0, w0 ≤ w ∧ road g x y w0) →
  s ∈ cityIDs g → d ∈ cityIDs g →
  ∃ pr pr', dijkstra g s d = Ok (Some pr) ∧
    dijkstra g' s d = Ok (Some pr') ∧
    (pathLength pr' ≠ 0 →
     pathLength pr ≠ 0 ∧ totalDistance pr ≤ totalDistance pr').
Proof.
  intros Hok Hok' Heq Hroads Hs Hd.
  destruct (dijkstra_correct g Hok s Hs d Hd) as (pr & E & _ & _ & Ha & _).
  pose proof Hs as Hs'. pose proof Hd as Hd'. rewrite <- Heq in Hs', Hd'.
  destruct (dijkstra_correct g' Hok' s Hs' d Hd') as
    (pr' & E' & _ & _ & Ha' & _).
  exists pr, pr'. split; [done|]. split; [done|]. intros Hne.
  destruct Ha' as [(Hl' & _)|(_ & Hlt' & Hroute' & _)]; [done|].
  destruct (route_lighter g g') with (a := s) (b := d)
    (W := totalDistance pr') as (W0 & HW0 & Hr0); [|done..|].
  { intros i. by rewrite Heq. }
  destruct Ha as [(_ & _ & Hnone)|(Hl & _ & _ & Hmin)].
  - specialize (Hnone _ Hr0). lia.
  - split; [done|]. specialize (Hmin _ Hr0). lia.
Qed.

(** Removing a road never shortens a route: whatever [removeRoad] does,
    when [dijkstra] finds a path afterwards it found one before, of a
    total distance that was not greater. *)
Theorem removeRoad_never_shortens g a b s d :
  graph_ok g → s ∈ cityIDs g → d ∈ cityIDs g →
  ∃ r g' pr pr', removeRoad g a b = Ok (r, g') ∧
    dijkstra g s d = Ok (Some pr) ∧ dijkstra g' s d = Ok (Some pr') ∧
    (pathLength pr' ≠ 0 →
     pathLength pr ≠ 0 ∧ totalDistance pr ≤ totalDistance pr').
Proof.
  intros Hok Hs Hd. pose proof Hok as (Hwf & _ & Hw).
  destruct (removeRoad_roads g a b Hwf) as [Hnone Hsome].
  assert (∃ r g', removeRoad g a b = Ok (r, g') ∧ cityIDs g' = cityIDs g ∧
            ∀ x y w, road g' x y w → road g x y w) as
    (r & g' & E & Heq & Hsub).
  { destruct (decide (roads g a b = [])) as [Hno|Hyes].
    - exists 0, g. by rewrite Hnone.
    - destruct (Hsome Hyes) as (g' & E & Heq & _ & Hgone & Hother).
      exists 1, g'. split; [done|]. split; [done|]. intros x y w.
      rewrite !road_roads.
      destruct (decide (x = a)) as [->|Hx];
        [destruct (decide (y = b)) as [->|Hy]|].
      + rewrite Hgone. by intros ?%elem_of_nil.
      + by rewrite Hother by (by right).
      + by rewrite Hother by (by left). }
  assert (graph_ok g') as Hok'.
  { apply (graph_ok_roads g); [done|by eapply removeRoad_wf|done|].
    intros x y w Hroad. by eapply weights_bounded_road, Hsub. }
  destruct (dijkstra_lighter g g' s d) as (pr & pr' & Ed & Ed' & Hcmp);
    [done..| |done|done|].
  { intros x y w Hroad. exists w. split; [lia|by apply Hsub]. }
  by exists r, g', pr, pr'.
Qed.

Lemma removeRoad_never_shortens_witness :
  ∃ r g' pr pr', removeRoad graph4 1 2 = Ok (r, g') ∧
    dijkstra graph4 1 4 = Ok (Some pr) ∧ dijkstra g' 1 4 = Ok (Some pr') ∧
    (pathLength pr' ≠ 0 →
     pathLength pr ≠ 0 ∧ totalDistance pr ≤ totalDistance pr').
Proof.
  apply removeRoad_never_shortens; apply (bool_decide_unpack _); by vm_compute.
Defined.

(** Adding a road never lengthens a route: on a graph that satisfies the
    preconditions of the searches, when [addRoad] sets a road from [a] to
    [b] whose weight is at most [INT_MAX - INF] and not above that of a
    road there was from [a] to [b], a path that [dijkstra] found before
    is still found, and the total distance reported afterwards is not
    greater. *)
Theorem addRoad_never_lengthens g a b w s d :
  graph_ok g → a ∈ cityIDs g → b ∈ cityIDs g → 0 < w ≤ MAX_WEIGHT →
  (∀ w0, w0 ∈ roads g a b → w ≤ w0) →
  s ∈ cityIDs g → d ∈ cityIDs g →
  ∃ g' pr pr', addRoad g a b w = Ok (1, g') ∧
    dijkstra g s d = Ok (Some pr) ∧ dijkstra g' s d = Ok (Some pr') ∧
    (pathLength pr ≠ 0 →
     pathLength pr' ≠ 0 ∧ totalDistance pr' ≤ totalDistance pr).
Proof.
  intros Hok Ha Hb [Hw0 Hw1] Hle Hs Hd. pose proof Hok as (Hwf & _ & Hw).
  destruct (addRoad_roads g a b w Hwf Ha Hb Hw0) as
    (g' & E & Heq & _ & Hnew & Hother).
  assert (graph_ok g') as Hok'.
  { apply (graph_ok_roads g); [done|by eapply addRoad_wf|done|].
    intros x y w'. rewrite road_roads.
    destruct (decide (x = a)) as [->|Hx];
      [destruct (decide (y = b)) as [->|Hy]|].
    - rewrite Hnew. intros ->%list_elem_of_singleton. done.
    - rewrite Hother by (by right). rewrite <- road_roads.
      by apply weights_bounded_road.
    - rewrite Hother by (by left). rewrite <- road_roads.
      by apply weights_bounded_road. }
  pose proof Hs as Hs'. pose proof Hd as Hd'. rewrite <- Heq in Hs', Hd'.
  destruct (dijkstra_lighter g' g s d) as (pr' & pr & Ed' & Ed & Hcmp);
    [done|done|done| |done|done|].
  { intros x y w'. rewrite road_roads. intros Hin.
    destruct (decide (x = a)) as [->|Hx];
      [destruct (decide (y = b)) as [->|Hy]|].
    - exists w. split; [by apply Hle|]. rewrite road_roads, Hnew. left.
    - exists w'. split; [lia|]. by rewrite road_roads, Hother by (by right).
    - exists w'. split; [lia|]. by rewrite road_roads, Hother by (by left). }
  by exists g', pr, pr'.
Qed.

Lemma addRoad_never_lengthens_witness :
  ∃ g' pr pr', addRoad graph4 1 4 2 = Ok (1, g') ∧
    dijkstra graph4 1 4 = Ok (Some pr) ∧ dijkstra g' 1 4 = Ok (Some pr') ∧
    (pathLength pr ≠ 0 →
     pathLength pr' ≠ 0 ∧ totalDistance pr' ≤ totalDistance pr).
Proof.
  apply addRoad_never_lengthens;
    try (apply (bool_decide_unpack _); by vm_compute).
  intros w0 Hw0. vm_compute in Hw0. by apply elem_of_nil in Hw0.
Defined.
